(** * Sap & Sun: the simulation core of plant-inc-2, embedded in Rocq

    The development follows the TypeScript sources:
    - [src/core/types.ts], [src/core/config.ts]   data model and constants
    - [src/core/state.ts]                         the store and its mutation API
    - [src/utils/graph.ts]                        read-only graph helpers
    - [src/core/systems/hydraulics.ts]            xylem / phloem flow, flow particles
    - [src/core/systems/metabolism.ts]            photosynthesis, respiration, stress
    - [src/core/systems/climate.ts]               the climate driver
    - [src/core/systems/autogrow.ts]              the growth heuristic
    - [src/core/loop.ts]                          one simulation tick
    - [src/ui/contextMenu.ts]                     the Harden action

    Modelling conventions.
    - A number computed inside the simulation is an exact rational ([Q]);
      rounding and infinities are not modelled.  Equations between numbers
      are stated with [==] unless both sides are the same term.  A number
      that a caller hands in and the core stores or clamps without further
      arithmetic of the simulation on it (the speed multiplier, the speed
      of a flow marker, the argument of [clamp]) is a [number], which can
      also be NaN.
    - [state.nodes] is a JavaScript object used as a map whose iteration
      order ([Object.values]) is insertion order; it is an association list
      in insertion order.  Being an object literal it inherits from
      [Object.prototype]: [state.nodes[k]] also finds the inherited
      properties ([nodes_at]).  The keys of the store and the identifiers
      held in it (ids, parent and child links, the seed) are made by
      [generateId], and none of them is an inherited name; a key that comes
      from a caller can be one.
    - A call that ends in an uncaught [TypeError] is a call that [Threw];
      the runs of the development are the runs in which every call
      returned.
    - Module-level variables ([nextId], [particles], ...) are fields of one
      record, [World], passed explicitly.
    - [Math.random()] reads the next value of an arbitrary sequence kept in
      the world ([entropy]); [Math.sin], [Math.cos] and [Math.PI] are
      section variables, so every result holds for all of them.
    - Observers ([emit]) and console output do not touch the store and are
      left out. *)

From Stdlib Require Import QArith Qminmax Qround Lqa Lia.
From stdpp Require Import base option list strings gmap pretty.

Open Scope Q_scope.

(** ** Numbers *)

Definition Qleb (a b : Q) : bool := Qle_bool a b.
Definition Qltb (a b : Q) : bool := negb (Qle_bool b a).

(** [Math.max] and [Math.min] on two numbers neither of which is NaN, as
    the arithmetic of the simulation has them; [Math.max] and [Math.min]
    below are the functions on every [number]. *)
Definition Math_max (a b : Q) : Q := if Qleb a b then b else a.
Definition Math_min (a b : Q) : Q := if Qleb a b then a else b.
Definition Math_abs (a : Q) : Q := if Qleb 0 a then a else - a.
Definition Math_floor (a : Q) : Z := Qfloor a.
Definition Math_round (a : Q) : Z := Qfloor (a + 0.5).

(** A JavaScript number that may be NaN. *)
Inductive number := Num (q : Q) | NaN.

(** An arithmetic operation yields NaN as soon as one operand is NaN. *)
Definition lift2 (f : Q -> Q -> Q) (a b : number) : number :=
  match a, b with
  | Num u, Num v => Num (f u v)
  | _, _ => NaN
  end.

(** [a + b], [a - b] and [a * b] *)
Definition plus : number -> number -> number := lift2 Qplus.
Definition minus : number -> number -> number := lift2 Qminus.
Definition times : number -> number -> number := lift2 Qmult.

(** [a >= b]: a comparison with NaN is false. *)
Definition geq (a b : number) : bool :=
  match a, b with
  | Num u, Num v => Qleb v u
  | _, _ => false
  end.

Module Math.
(** [Math.max(a, b)] and [Math.min(a, b)]: NaN as soon as one argument is
    NaN. *)
Definition max : number -> number -> number := lift2 Math_max.
Definition min : number -> number -> number := lift2 Math_min.
End Math.

(** ** [types.ts] *)

Inductive NodeType := SEED | ROOT | TRUNK | BRANCH | LEAF.

Definition NodeType_eqb (a b : NodeType) : bool :=
  match a, b with
  | SEED, SEED | ROOT, ROOT | TRUNK, TRUNK | BRANCH, BRANCH | LEAF, LEAF => true
  | _, _ => false
  end.

Record Vec2 := { x : Q; y : Q }.

Record PlantNode := {
  node_id : string;
  node_type : NodeType;
  position : Vec2;
  parentId : option string;
  childrenIds : list string;
  radius : Q;
  structuralHealth : Q;
  waterPressure : Q;
  sugarConcentration : Q;
  sugarStore : Q;
  isActive : bool;
  stressLevel : Q
}.

Record ClimateState := {
  sunIntensity : Q;
  sunAngle : Q;
  temperature : Q;
  humidity : Q;
  soilWater : Q;
  isRaining : bool;
  dayProgress : Q;
  day : Z;
  tick_count : Z
}.

Record GameResources := { sugar : Q; water : Q; minerals : Q }.

(** [Record<string, PlantNode>], in insertion order. *)
Definition Nodes := list (string * PlantNode).

Record GameState := {
  nodes : Nodes;
  seedId : string;
  resources : GameResources;
  climate : ClimateState;
  selectedNodeId : option string;
  isPaused : bool;
  speedMultiplier : number
}.

Inductive SapType := xylem | phloem.

Record FlowParticle := {
  particle_id : string;
  fromNodeId : string;
  toNodeId : string;
  progress : number;
  sap : SapType;
  speed : number
}.

(** ** [config.ts] *)

Module CONFIG.
Definition TICKS_PER_SECOND : Q := 20.
Definition SECONDS_PER_DAY : Q := 60.
Definition INITIAL_SUGAR : Q := 100.
Definition INITIAL_WATER : Q := 30.
Definition INITIAL_MINERALS : Q := 20.
Definition COST_LEAF : Q := 10.
Definition COST_BRANCH : Q := 15.
Definition COST_ROOT : Q := 12.
Definition COST_TRUNK : Q := 20.
Definition COST_HARDEN : Q := 5.
Definition SEED_RADIUS : Q := 0.03.
Definition LEAF_RADIUS : Q := 0.015.
Definition BRANCH_RADIUS : Q := 0.02.
Definition ROOT_RADIUS : Q := 0.018.
Definition TRUNK_RADIUS : Q := 0.04.
Definition TRANSPIRATION_RATE : Q := 0.03.
Definition ROOT_UPTAKE_RATE : Q := 0.12.
Definition WATER_FLOW_RATE : Q := 0.4.
Definition FLOW_THRESHOLD : Q := 0.003.
Definition SUGAR_DIFFUSION_RATE : Q := 0.2.
Definition NODE_RESPIRATION_COST : Q := 0.002.
Definition PHOTOSYNTHESIS_RATE : Q := 0.5.
Definition WATER_PER_SUGAR : Q := 0.3.
Definition MIN_WATER_FOR_PHOTOSYNTHESIS : Q := 0.15.
Definition MAX_CHILDREN_PER_NODE : nat := 4.
Definition STARVATION_STRESS_RATE : Q := 0.005.
Definition DEHYDRATION_STRESS_RATE : Q := 0.005.
Definition HEALTH_RECOVERY_RATE : Q := 0.02.
Definition STRESS_DEATH_THRESHOLD : Q := 1.0.
Definition BASE_TEMPERATURE : Q := 20.
Definition TEMPERATURE_AMPLITUDE : Q := 10.
Definition MIN_SUN_INTENSITY : Q := 0.0.
Definition RAIN_START_CHANCE : Q := 0.01.
Definition RAIN_STOP_CHANCE : Q := 0.01.
Definition RAIN_WATER_RATE : Q := 0.05.
Definition EVAPORATION_RATE : Q := 0.001.
Definition TILE_SIZE : Q := 64.
Definition PIXELS_PER_METER : Q := 256.
Definition PARTICLE_SPEED : Q := 1.2.
End CONFIG.

(** ** The node table *)

(** The own property [k] of [state.nodes]: the segment stored under [k]. *)
Fixpoint nodes_get (k : string) (ns : Nodes) : option PlantNode :=
  match ns with
  | [] => None
  | (k', n) :: rest => if String.eqb k k' then Some n else nodes_get k rest
  end.

(** [state.nodes[k] = v]: an existing key keeps its place, a new key goes
    last. *)
Fixpoint nodes_set (k : string) (v : PlantNode) (ns : Nodes) : Nodes :=
  match ns with
  | [] => [(k, v)]
  | (k', n) :: rest =>
      if String.eqb k k' then (k', v) :: rest else (k', n) :: nodes_set k v rest
  end.

(** [delete state.nodes[k]] *)
Fixpoint nodes_delete (k : string) (ns : Nodes) : Nodes :=
  match ns with
  | [] => []
  | (k', n) :: rest =>
      if String.eqb k k' then rest else (k', n) :: nodes_delete k rest
  end.

(** The names [state.nodes] inherits from [Object.prototype]. *)
Definition Object_prototype : list string :=
  [ "constructor"; "__defineGetter__"; "__defineSetter__"; "hasOwnProperty";
    "__lookupGetter__"; "__lookupSetter__"; "isPrototypeOf";
    "propertyIsEnumerable"; "toString"; "valueOf"; "__proto__";
    "toLocaleString" ]%string.

Definition inherited (k : string) : bool := existsb (String.eqb k) Object_prototype.

(** What [state.nodes[k]] evaluates to: a segment of the store; or, for an
    inherited name, a built-in function or object, which is truthy and has
    none of the fields of a segment; or [undefined]. *)
Inductive Slot := Segment (n : PlantNode) | Builtin | Undefined.

(** [state.nodes[k]] *)
Definition nodes_at (k : string) (ns : Nodes) : Slot :=
  match nodes_get k ns with
  | Some n => Segment n
  | None => if inherited k then Builtin else Undefined
  end.

(** [!v] is false: the value is a segment or a built-in. *)
Definition present (v : Slot) : bool :=
  match v with
  | Undefined => false
  | _ => true
  end.

(** [Object.keys(state.nodes)] *)
Definition nodes_keys (ns : Nodes) : list string := map fst ns.

(** [Object.keys(state.nodes).length], the segment count. *)
Definition nodes_count (ns : Nodes) : nat := length ns.

(** A JavaScript object holds each key once. *)
Definition nodes_wf (ns : Nodes) : Prop := NoDup (nodes_keys ns).

(** Truthiness of a [string | null]: [null] and the empty string are falsy. *)
Definition truthy (o : option string) : option string :=
  match o with
  | Some s => if String.eqb s "" then None else Some s
  | None => None
  end.

(** ** [Partial<PlantNode>] and [Object.assign] *)

Inductive FieldUpdate :=
| set_node_id (v : string)
| set_node_type (v : NodeType)
| set_position (v : Vec2)
| set_parentId (v : option string)
| set_childrenIds (v : list string)
| set_radius (v : Q)
| set_structuralHealth (v : Q)
| set_waterPressure (v : Q)
| set_sugarConcentration (v : Q)
| set_sugarStore (v : Q)
| set_isActive (v : bool)
| set_stressLevel (v : Q).

Definition assign_field (n : PlantNode) (u : FieldUpdate) : PlantNode :=
  match u with
  | set_node_id v =>
      {| node_id := v; node_type := node_type n; position := position n;
         parentId := parentId n; childrenIds := childrenIds n; radius := radius n;
         structuralHealth := structuralHealth n; waterPressure := waterPressure n;
         sugarConcentration := sugarConcentration n; sugarStore := sugarStore n;
         isActive := isActive n; stressLevel := stressLevel n |}
  | set_node_type v =>
      {| node_id := node_id n; node_type := v; position := position n;
         parentId := parentId n; childrenIds := childrenIds n; radius := radius n;
         structuralHealth := structuralHealth n; waterPressure := waterPressure n;
         sugarConcentration := sugarConcentration n; sugarStore := sugarStore n;
         isActive := isActive n; stressLevel := stressLevel n |}
  | set_position v =>
      {| node_id := node_id n; node_type := node_type n; position := v;
         parentId := parentId n; childrenIds := childrenIds n; radius := radius n;
         structuralHealth := structuralHealth n; waterPressure := waterPressure n;
         sugarConcentration := sugarConcentration n; sugarStore := sugarStore n;
         isActive := isActive n; stressLevel := stressLevel n |}
  | set_parentId v =>
      {| node_id := node_id n; node_type := node_type n; position := position n;
         parentId := v; childrenIds := childrenIds n; radius := radius n;
         structuralHealth := structuralHealth n; waterPressure := waterPressure n;
         sugarConcentration := sugarConcentration n; sugarStore := sugarStore n;
         isActive := isActive n; stressLevel := stressLevel n |}
  | set_childrenIds v =>
      {| node_id := node_id n; node_type := node_type n; position := position n;
         parentId := parentId n; childrenIds := v; radius := radius n;
         structuralHealth := structuralHealth n; waterPressure := waterPressure n;
         sugarConcentration := sugarConcentration n; sugarStore := sugarStore n;
         isActive := isActive n; stressLevel := stressLevel n |}
  | set_radius v =>
      {| node_id := node_id n; node_type := node_type n; position := position n;
         parentId := parentId n; childrenIds := childrenIds n; radius := v;
         structuralHealth := structuralHealth n; waterPressure := waterPressure n;
         sugarConcentration := sugarConcentration n; sugarStore := sugarStore n;
         isActive := isActive n; stressLevel := stressLevel n |}
  | set_structuralHealth v =>
      {| node_id := node_id n; node_type := node_type n; position := position n;
         parentId := parentId n; childrenIds := childrenIds n; radius := radius n;
         structuralHealth := v; waterPressure := waterPressure n;
         sugarConcentration := sugarConcentration n; sugarStore := sugarStore n;
         isActive := isActive n; stressLevel := stressLevel n |}
  | set_waterPressure v =>
      {| node_id := node_id n; node_type := node_type n; position := position n;
         parentId := parentId n; childrenIds := childrenIds n; radius := radius n;
         structuralHealth := structuralHealth n; waterPressure := v;
         sugarConcentration := sugarConcentration n; sugarStore := sugarStore n;
         isActive := isActive n; stressLevel := stressLevel n |}
  | set_sugarConcentration v =>
      {| node_id := node_id n; node_type := node_type n; position := position n;
         parentId := parentId n; childrenIds := childrenIds n; radius := radius n;
         structuralHealth := structuralHealth n; waterPressure := waterPressure n;
         sugarConcentration := v; sugarStore := sugarStore n;
         isActive := isActive n; stressLevel := stressLevel n |}
  | set_sugarStore v =>
      {| node_id := node_id n; node_type := node_type n; position := position n;
         parentId := parentId n; childrenIds := childrenIds n; radius := radius n;
         structuralHealth := structuralHealth n; waterPressure := waterPressure n;
         sugarConcentration := sugarConcentration n; sugarStore := v;
         isActive := isActive n; stressLevel := stressLevel n |}
  | set_isActive v =>
      {| node_id := node_id n; node_type := node_type n; position := position n;
         parentId := parentId n; childrenIds := childrenIds n; radius := radius n;
         structuralHealth := structuralHealth n; waterPressure := waterPressure n;
         sugarConcentration := sugarConcentration n; sugarStore := sugarStore n;
         isActive := v; stressLevel := stressLevel n |}
  | set_stressLevel v =>
      {| node_id := node_id n; node_type := node_type n; position := position n;
         parentId := parentId n; childrenIds := childrenIds n; radius := radius n;
         structuralHealth := structuralHealth n; waterPressure := waterPressure n;
         sugarConcentration := sugarConcentration n; sugarStore := sugarStore n;
         isActive := isActive n; stressLevel := v |}
  end.

(** [Object.assign(node, updates)]; an object literal
    [{ a: u, b: v }] is the list [[set_a u; set_b v]]. *)
Definition Object_assign (n : PlantNode) (updates : list FieldUpdate) : PlantNode :=
  fold_left assign_field updates n.

(** ** Module-level variables

    [state] and [nextId] belong to [state.ts]; [particles],
    [nextParticleId] and [connectionParticleCounts] to [hydraulics.ts];
    [autoGrowEnabled] and [ticksSinceLastGrowth] to [autogrow.ts].
    [entropy] is the sequence of values [Math.random()] will return and
    [rolls] counts the calls made so far. *)

Record World := {
  state : GameState;
  nextId : nat;
  particles : list FlowParticle;
  nextParticleId : nat;
  connectionParticleCounts : gmap string nat;
  autoGrowEnabled : bool;
  ticksSinceLastGrowth : nat;
  entropy : nat -> Q;
  rolls : nat
}.

Definition with_state (w : World) (s : GameState) : World :=
  {| state := s; nextId := nextId w; particles := particles w;
     nextParticleId := nextParticleId w;
     connectionParticleCounts := connectionParticleCounts w;
     autoGrowEnabled := autoGrowEnabled w;
     ticksSinceLastGrowth := ticksSinceLastGrowth w;
     entropy := entropy w; rolls := rolls w |}.

Definition with_nextId (w : World) (i : nat) : World :=
  {| state := state w; nextId := i; particles := particles w;
     nextParticleId := nextParticleId w;
     connectionParticleCounts := connectionParticleCounts w;
     autoGrowEnabled := autoGrowEnabled w;
     ticksSinceLastGrowth := ticksSinceLastGrowth w;
     entropy := entropy w; rolls := rolls w |}.

Definition with_particles (w : World) (ps : list FlowParticle) (np : nat)
    (cs : gmap string nat) : World :=
  {| state := state w; nextId := nextId w; particles := ps;
     nextParticleId := np; connectionParticleCounts := cs;
     autoGrowEnabled := autoGrowEnabled w;
     ticksSinceLastGrowth := ticksSinceLastGrowth w;
     entropy := entropy w; rolls := rolls w |}.

Definition with_autogrow (w : World) (enabled : bool) (ticks : nat) : World :=
  {| state := state w; nextId := nextId w; particles := particles w;
     nextParticleId := nextParticleId w;
     connectionParticleCounts := connectionParticleCounts w;
     autoGrowEnabled := enabled; ticksSinceLastGrowth := ticks;
     entropy := entropy w; rolls := rolls w |}.

(** [Math.random()] *)
Definition Math_random (w : World) : Q * World :=
  (entropy w (rolls w),
   {| state := state w; nextId := nextId w; particles := particles w;
      nextParticleId := nextParticleId w;
      connectionParticleCounts := connectionParticleCounts w;
      autoGrowEnabled := autoGrowEnabled w;
      ticksSinceLastGrowth := ticksSinceLastGrowth w;
      entropy := entropy w; rolls := S (rolls w) |}).

Definition with_nodes (s : GameState) (ns : Nodes) : GameState :=
  {| nodes := ns; seedId := seedId s; resources := resources s;
     climate := climate s; selectedNodeId := selectedNodeId s;
     isPaused := isPaused s; speedMultiplier := speedMultiplier s |}.

Definition with_resources (s : GameState) (r : GameResources) : GameState :=
  {| nodes := nodes s; seedId := seedId s; resources := r;
     climate := climate s; selectedNodeId := selectedNodeId s;
     isPaused := isPaused s; speedMultiplier := speedMultiplier s |}.

Definition with_climate (s : GameState) (c : ClimateState) : GameState :=
  {| nodes := nodes s; seedId := seedId s; resources := resources s;
     climate := c; selectedNodeId := selectedNodeId s;
     isPaused := isPaused s; speedMultiplier := speedMultiplier s |}.

Definition with_selectedNodeId (s : GameState) (o : option string) : GameState :=
  {| nodes := nodes s; seedId := seedId s; resources := resources s;
     climate := climate s; selectedNodeId := o;
     isPaused := isPaused s; speedMultiplier := speedMultiplier s |}.

Definition with_isPaused (s : GameState) (b : bool) : GameState :=
  {| nodes := nodes s; seedId := seedId s; resources := resources s;
     climate := climate s; selectedNodeId := selectedNodeId s;
     isPaused := b; speedMultiplier := speedMultiplier s |}.

Definition with_speedMultiplier (s : GameState) (m : number) : GameState :=
  {| nodes := nodes s; seedId := seedId s; resources := resources s;
     climate := climate s; selectedNodeId := selectedNodeId s;
     isPaused := isPaused s; speedMultiplier := m |}.

Definition with_sugar (r : GameResources) (v : Q) : GameResources :=
  {| sugar := v; water := water r; minerals := minerals r |}.

(** Writing through [state.nodes] of the global [state]. *)
Definition put_nodes (w : World) (ns : Nodes) : World :=
  with_state w (with_nodes (state w) ns).

(** ** [state.ts] *)

(** [`node_${n}`] *)
Definition node_name (n : nat) : string := "node_" +:+ pretty n.

Definition generateId (w : World) : string * World :=
  (node_name (nextId w), with_nextId w (S (nextId w))).

Definition getNodeCost (t : NodeType) : Q :=
  match t with
  | LEAF => CONFIG.COST_LEAF
  | BRANCH => CONFIG.COST_BRANCH
  | ROOT => CONFIG.COST_ROOT
  | TRUNK => CONFIG.COST_TRUNK
  | SEED => 0
  end.

Definition getDefaultRadius (t : NodeType) : Q :=
  match t with
  | LEAF => CONFIG.LEAF_RADIUS
  | BRANCH => CONFIG.BRANCH_RADIUS
  | ROOT => CONFIG.ROOT_RADIUS
  | TRUNK => CONFIG.TRUNK_RADIUS
  | SEED => CONFIG.SEED_RADIUS
  end.

(** How a call ends.  [Returned w a]: it returned [a] and left the world
    [w].  [Threw w stray]: an uncaught [TypeError] ended it; [w] is the
    world at that point, and [stray], when given, an object the call had
    already put into [state.nodes] under a new key, which is no segment of
    the model since two of its numbers are NaN. *)
Record Stray := {
  stray_id : string;
  stray_type : NodeType;
  stray_position : Vec2;
  stray_parentId : string;
  stray_radius : Q;
  stray_waterPressure : number;
  stray_sugarConcentration : number
}.

Inductive Outcome (A : Type) : Type :=
| Returned (w : World) (a : A)
| Threw (w : World) (stray : option Stray).

Arguments Returned {A} w a.
Arguments Threw {A} w stray.

(** The world a call leaves behind. *)
Definition after {A} (o : Outcome A) : World :=
  match o with
  | Returned w _ => w
  | Threw w _ => w
  end.

(** What a call returned, if it did. *)
Definition returned {A} (o : Outcome A) : option A :=
  match o with
  | Returned _ a => Some a
  | Threw _ _ => None
  end.

Definition addNode (parentId0 : string) (t : NodeType) (pos : Vec2)
    (radius0 : option Q) (w : World) : Outcome (option PlantNode) :=
  match nodes_at parentId0 (nodes (state w)) with
  | Undefined => Returned w None
  | parent =>
      let cost := getNodeCost t in
      if Qltb (sugar (resources (state w))) cost then Returned w None
      else
        let '(nodeId, w1) := generateId w in
        match parent with
        | Segment parent =>
            let node :=
              {| node_id := nodeId; node_type := t; position := pos;
                 parentId := Some parentId0; childrenIds := [];
                 radius := default (getDefaultRadius t) radius0;
                 structuralHealth := 1.0;
                 waterPressure := Math_max 0.3 (waterPressure parent * 0.95);
                 sugarConcentration := Math_max 0.2 (sugarConcentration parent * 0.9);
                 sugarStore := 0; isActive := true; stressLevel := 0 |} in
            (* state.nodes[nodeId] = node *)
            let ns1 := nodes_set nodeId node (nodes (state w1)) in
            (* parent.childrenIds.push(nodeId): [parent] is the object read on
               entry, still stored under [parentId0] unless the line above has
               just replaced it *)
            let ns2 :=
              if String.eqb nodeId parentId0 then ns1
              else nodes_set parentId0
                     (assign_field parent (set_childrenIds (childrenIds parent ++ [nodeId])))
                     ns1 in
            let s2 := with_nodes (state w1) ns2 in
            (* state.resources.sugar -= cost *)
            let s3 := with_resources s2
                        (with_sugar (resources s2) (sugar (resources s2) - cost)) in
            Returned (with_state w1 s3) (Some node)
        | _ =>
            (* [parent] is a built-in: [parent.waterPressure] and
               [parent.sugarConcentration] are [undefined], NaN in a product;
               the node is stored, and [parent.childrenIds.push] throws since
               [parent.childrenIds] is [undefined] *)
            Threw w1
              (Some {| stray_id := nodeId; stray_type := t; stray_position := pos;
                       stray_parentId := parentId0;
                       stray_radius := default (getDefaultRadius t) radius0;
                       stray_waterPressure :=
                         Math.max (Num 0.3) (times NaN (Num 0.95));
                       stray_sugarConcentration :=
                         Math.max (Num 0.2) (times NaN (Num 0.9)) |})
        end
  end.

(** How the inner [removeRecursive] of [removeNode] ends: [Done ns], it
    returned and left the table [ns]; [Broke ns], it threw a [TypeError]
    when the table was [ns]. *)
Inductive Walk := Done (ns : Nodes) | Broke (ns : Nodes).

(** The inner [removeRecursive] of [removeNode].  The source recurses on
    the child lists; [fuel] bounds the recursion depth and [None] means the
    bound was reached.  For an inherited name [n] is a built-in and the
    loop over [n.childrenIds], which is [undefined], throws. *)
Fixpoint removeRecursive (fuel : nat) (id : string) (ns : Nodes) : option Walk :=
  match nodes_at id ns with
  | Undefined => Some (Done ns)
  | Builtin => Some (Broke ns)
  | Segment n =>
      match fuel with
      | O => None
      | S fuel' =>
          match
            fold_left
              (fun acc childId =>
                 match acc with
                 | Some (Done ns') => removeRecursive fuel' childId ns'
                 | _ => acc
                 end)
              (childrenIds n) (Some (Done ns))
          with
          | Some (Done ns') => Some (Done (nodes_delete id ns'))
          | other => other
          end
      end
  end.

Definition removeNode (fuel : nat) (nodeId : string) (w : World)
    : option (Outcome bool) :=
  match nodes_at nodeId (nodes (state w)) with
  | Undefined => Some (Returned w false)
  | Builtin =>
      (* [node.type] and [node.parentId] are [undefined];
         [removeRecursive(nodeId)] throws *)
      Some (Threw w None)
  | Segment node =>
      match node_type node with
      | SEED => Some (Returned w false)
      | _ =>
          (* parent.childrenIds = parent.childrenIds.filter(id => id !== nodeId);
             [None] when [parent] is a built-in and the call of [filter] on
             [undefined] throws *)
          let detached :=
            match truthy (parentId node) with
            | Some p =>
                match nodes_at p (nodes (state w)) with
                | Segment parent =>
                    Some (nodes_set p
                            (assign_field parent
                               (set_childrenIds
                                  (filter (fun c => negb (String.eqb c nodeId))
                                     (childrenIds parent))))
                            (nodes (state w)))
                | Builtin => None
                | Undefined => Some (nodes (state w))
                end
            | None => Some (nodes (state w))
            end in
          match detached with
          | None => Some (Threw w None)
          | Some ns1 =>
              match removeRecursive fuel nodeId ns1 with
              | Some (Done ns2) => Some (Returned (put_nodes w ns2) true)
              | Some (Broke ns2) => Some (Threw (put_nodes w ns2) None)
              | None => None
              end
          end
      end
  end.

(** For an inherited name [Object.assign] writes the fields to the
    built-in, outside the store: the world stays as it is. *)
Definition updateNode (nodeId : string) (updates : list FieldUpdate) (w : World)
    : World :=
  match nodes_get nodeId (nodes (state w)) with
  | None => w
  | Some node => put_nodes w (nodes_set nodeId (Object_assign node updates) (nodes (state w)))
  end.

(** [Partial<GameState['resources']>] *)
Record ResourceDelta := {
  delta_sugar : option Q; delta_water : option Q; delta_minerals : option Q
}.

Definition modifyResources (delta : ResourceDelta) (w : World) : World :=
  let r := resources (state w) in
  let r' :=
    {| sugar := match delta_sugar delta with
                | Some d => Math_max 0 (sugar r + d) | None => sugar r end;
       water := match delta_water delta with
                | Some d => Math_max 0 (water r + d) | None => water r end;
       minerals := match delta_minerals delta with
                   | Some d => Math_max 0 (minerals r + d) | None => minerals r end |} in
  with_state w (with_resources (state w) r').

(** [updateClimate] merges a partial climate record; its only caller,
    [updateClimateSystem], passes every field but [tick]. *)
Definition updateClimate (sunIntensity0 sunAngle0 temperature0 humidity0 soilWater0 : Q)
    (isRaining0 : bool) (dayProgress0 : Q) (day0 : Z) (w : World) : World :=
  with_state w
    (with_climate (state w)
       {| sunIntensity := sunIntensity0; sunAngle := sunAngle0;
          temperature := temperature0; humidity := humidity0;
          soilWater := soilWater0; isRaining := isRaining0;
          dayProgress := dayProgress0; day := day0;
          tick_count := tick_count (climate (state w)) |}).

Definition selectNode (nodeId : option string) (w : World) : World :=
  with_state w (with_selectedNodeId (state w) nodeId).

Definition setPaused (paused : bool) (w : World) : World :=
  with_state w (with_isPaused (state w) paused).

Definition setSpeedMultiplier (multiplier : number) (w : World) : World :=
  with_state w
    (with_speedMultiplier (state w) (Math.max (Num 0.1) (Math.min (Num 10) multiplier))).

Definition incrementTick (w : World) : World :=
  let c := climate (state w) in
  with_state w
    (with_climate (state w)
       {| sunIntensity := sunIntensity c; sunAngle := sunAngle c;
          temperature := temperature c; humidity := humidity c;
          soilWater := soilWater c; isRaining := isRaining c;
          dayProgress := dayProgress c; day := day c;
          tick_count := (tick_count c + 1)%Z |}).

Definition tileInMeters : Q := CONFIG.TILE_SIZE / CONFIG.PIXELS_PER_METER.

Definition shift (p direction : Vec2) : Vec2 :=
  {| x := x p + x direction * tileInMeters; y := y p + y direction * tileInMeters |}.

(** The body of the loop over the children in [extendNode]:
    [child.parentId = newNodeId] and the child moves one tile along
    [direction]; a child id without a node is skipped.  (The ids of a
    child list are made by [generateId]: none is an inherited name.) *)
Definition reparent (newNodeId : string) (direction : Vec2) (ns : Nodes)
    (childId : string) : Nodes :=
  match nodes_get childId ns with
  | Some child =>
      nodes_set childId
        (Object_assign child
           [set_parentId (Some newNodeId);
            set_position (shift (position child) direction)])
        ns
  | None => ns
  end.

(** For an inherited name [node.type] is [undefined], which is none of the
    three types: the call returns [null] as for a missing node. *)
Definition extendNode (nodeId : string) (direction : Vec2) (w : World)
    : World * option PlantNode :=
  match nodes_get nodeId (nodes (state w)) with
  | None => (w, None)
  | Some node =>
      match node_type node with
      | TRUNK | BRANCH | ROOT =>
          let cost := getNodeCost (node_type node) in
          if Qltb (sugar (resources (state w))) cost then (w, None)
          else
            let newPosition := shift (position node) direction in
            let '(newNodeId, w1) := generateId w in
            let newNode :=
              {| node_id := newNodeId; node_type := node_type node;
                 position := newPosition; parentId := Some nodeId;
                 childrenIds := childrenIds node;
                 radius := radius node * 0.95;
                 structuralHealth := 1.0;
                 waterPressure := waterPressure node * 0.98;
                 sugarConcentration := sugarConcentration node * 0.98;
                 sugarStore := 0; isActive := true; stressLevel := 0 |} in
            (* every child now points to the new node and moves one tile on *)
            let ns1 :=
              fold_left (reparent newNodeId direction) (childrenIds node)
                (nodes (state w1)) in
            (* node.childrenIds = [newNodeId]; [node] is still the object
               stored under [nodeId] *)
            let ns2 :=
              match nodes_get nodeId ns1 with
              | Some node' => nodes_set nodeId (assign_field node' (set_childrenIds [newNodeId])) ns1
              | None => ns1
              end in
            (* state.nodes[newNodeId] = newNode *)
            let ns3 := nodes_set newNodeId newNode ns2 in
            let s3 := with_nodes (state w1) ns3 in
            let s4 := with_resources s3
                        (with_sugar (resources s3) (sugar (resources s3) - cost)) in
            (with_state w1 s4, Some newNode)
      | _ => (w, None)
      end
  end.

(** ** [graph.ts] *)

(** [getChildren]: the child ids that are present, in child-list order. *)
Definition getChildren (s : GameState) (node : PlantNode) : list (string * PlantNode) :=
  omap (fun c => match nodes_get c (nodes s) with
                 | Some n => Some (c, n)
                 | None => None
                 end)
       (childrenIds node).

(** [getNodesByType], as the keys of the matching nodes. *)
Definition getNodesByType (s : GameState) (t : NodeType) : list (string * PlantNode) :=
  filter (fun kn => NodeType_eqb (node_type (snd kn)) t) (nodes s).

(** The live object stored under [k]. *)
Definition live (k : string) (w : World) : option PlantNode :=
  nodes_get k (nodes (state w)).

(** Reading a field of an object reference [n] held under key [k] after
    the store may have been updated. *)
Definition reread (k : string) (n : PlantNode) (w : World) : PlantNode :=
  default n (live k w).

(** ** [hydraulics.ts]: flow particles *)

Definition MAX_TOTAL_PARTICLES : nat := 150.
Definition MAX_PARTICLES_PER_CONNECTION : nat := 2.

(** [`${fromNodeId}->${toNodeId}`] *)
Definition connectionKey (fromNodeId0 toNodeId0 : string) : string :=
  fromNodeId0 +:+ "->" +:+ toNodeId0.

(** [connectionParticleCounts.get(key) || 0] *)
Definition connectionCount (cs : gmap string nat) (key : string) : nat :=
  default 0%nat (cs !! key).

Definition clearParticles (w : World) : World :=
  with_particles w [] (nextParticleId w) ∅.

Definition spawnFlowParticle (fromNodeId0 toNodeId0 : string) (t : SapType)
    (speed0 : number) (w : World) : World :=
  if (MAX_TOTAL_PARTICLES <=? length (particles w))%nat then w
  else
    let key := connectionKey fromNodeId0 toNodeId0 in
    let count := connectionCount (connectionParticleCounts w) key in
    if (MAX_PARTICLES_PER_CONNECTION <=? count)%nat then w
    else
      with_particles w
        (particles w ++
           [{| particle_id := "particle_" +:+ pretty (nextParticleId w);
               fromNodeId := fromNodeId0; toNodeId := toNodeId0;
               progress := Num 0; sap := t;
               speed :=
                 Math.min (Num 3)
                   (times (Math.max (Num 0.5) speed0) (Num CONFIG.PARTICLE_SPEED)) |}])
        (S (nextParticleId w))
        (<[key := S count]> (connectionParticleCounts w)).

Definition spawnParticle := spawnFlowParticle.

Definition decrementConnectionCount (fromNodeId0 toNodeId0 : string)
    (cs : gmap string nat) : gmap string nat :=
  let key := connectionKey fromNodeId0 toNodeId0 in
  let count := connectionCount cs key in
  if (count <=? 1)%nat then delete key cs else <[key := (count - 1)%nat]> cs.

Definition advance (p : FlowParticle) (tickDelta : Q) : FlowParticle :=
  {| particle_id := particle_id p; fromNodeId := fromNodeId p;
     toNodeId := toNodeId p;
     progress := plus (progress p) (times (speed p) (Num tickDelta));
     sap := sap p; speed := speed p |}.

(** The [filter] callback of [updateParticles], run over the particles in
    order; it returns the survivors and the updated counts.  A marker
    stays while both of its ends are truthy in [state.nodes], segments or
    built-ins. *)
Fixpoint filterParticles (ns : Nodes) (ps : list FlowParticle)
    (cs : gmap string nat) : list FlowParticle * gmap string nat :=
  match ps with
  | [] => ([], cs)
  | p :: rest =>
      if present (nodes_at (fromNodeId p) ns) && present (nodes_at (toNodeId p) ns)
      then
        let p' := advance p (1 / CONFIG.TICKS_PER_SECOND) in
        if geq (progress p') (Num 1.0) then
          filterParticles ns rest
            (decrementConnectionCount (fromNodeId p) (toNodeId p) cs)
        else
          let '(kept, cs') := filterParticles ns rest cs in (p' :: kept, cs')
      else
        filterParticles ns rest
          (decrementConnectionCount (fromNodeId p) (toNodeId p) cs)
  end.

Definition updateParticles (w : World) : World :=
  let '(ps, cs) :=
    filterParticles (nodes (state w)) (particles w) (connectionParticleCounts w) in
  with_particles w ps (nextParticleId w) cs.

(** [if (cond && Math.random() < p) spawnParticle(...)]: the roll is made
    only when [cond] holds. *)
Definition roll_spawn (cond : bool) (p : Q) (fromNodeId0 toNodeId0 : string)
    (t : SapType) (speed0 : Q) (w : World) : World :=
  if cond then
    let '(r, w1) := Math_random w in
    if Qltb r p then spawnFlowParticle fromNodeId0 toNodeId0 t (Num speed0) w1 else w1
  else w.

(** [for (const node of Object.values(state.nodes))]: the loop visits the
    objects present on entry; [body] is given the key of each and reads
    the live object. *)
Definition for_nodes (body : string -> PlantNode -> World -> World) (w : World) : World :=
  fold_left
    (fun w' k => match live k w' with
                 | Some node => body k node w'
                 | None => w'
                 end)
    (nodes_keys (nodes (state w))) w.

(** ** [climate.ts]: soil water at depth *)

Definition getSoilWaterAtDepth (depth : Q) (w : World) : Q :=
  let baseWater := soilWater (climate (state w)) in
  let depthFactor := Math_min 1 (depth / 2) in
  let depthBonus := depthFactor * 0.3 in
  Math_min 1.0 (baseWater + depthBonus).

(** ** [hydraulics.ts]: the five steps *)

Definition transpirationBody (transpFactor : Q) (k : string) (node : PlantNode)
    (w : World) : World :=
  if negb (isActive node) then w
  else if NodeType_eqb (node_type node) LEAF || (length (childrenIds node) =? 0)%nat then
    let waterLoss := CONFIG.TRANSPIRATION_RATE * transpFactor * radius node in
    if Qltb 0.15 (waterPressure node) then
      let actualLoss := Math_min waterLoss (waterPressure node - 0.12) in
      let newPressure := Math_max 0.12 (waterPressure node - actualLoss) in
      if Qltb 0 actualLoss then
        let w1 := updateNode (node_id node) [set_waterPressure newPressure] w in
        match truthy (parentId node) with
        | Some p => roll_spawn true 0.05 p (node_id node) xylem (0.8 + transpFactor * 0.5) w1
        | None => w1
        end
      else w
    else w
  else w.

Definition processTranspiration (w : World) : World :=
  let c := climate (state w) in
  let baseFactor := 0.2 in
  let sunFactor := sunIntensity c * (1 + temperature c / 40) in
  let transpFactor := baseFactor + sunFactor * 0.8 in
  for_nodes (transpirationBody transpFactor) w.

Definition rootUptakeBody (k : string) (root : PlantNode) (w : World) : World :=
  if negb (isActive root) then w
  else
    let depth := Math_abs (y (position root)) in
    let soilWater0 := getSoilWaterAtDepth depth w in
    if Qltb 0.1 soilWater0 && Qltb (waterPressure root) 0.95 then
      let uptake :=
        CONFIG.ROOT_UPTAKE_RATE * radius root
        * Math_max 0.1 (soilWater0 - waterPressure root) in
      let newPressure := Math_min 1.0 (waterPressure root + uptake) in
      if Qltb 0.001 uptake then
        let w1 := updateNode (node_id root) [set_waterPressure newPressure] w in
        let w2 := modifyResources
                    {| delta_sugar := None; delta_water := Some (uptake * 10);
                       delta_minerals := None |} w1 in
        match truthy (parentId root) with
        | Some p => roll_spawn true 0.05 (node_id root) p xylem (0.8 + soilWater0 * 0.5) w2
        | None => w2
        end
      else w
    else w.

(** The loop runs over [getNodesByType(state, 'ROOT')], computed on entry. *)
Definition processRootUptake (w : World) : World :=
  fold_left
    (fun w' k => match live k w' with
                 | Some root => rootUptakeBody k root w'
                 | None => w'
                 end)
    (map fst (getNodesByType (state w) ROOT)) w.

Definition xylemBody (k : string) (node : PlantNode) (w : World) : World :=
  if negb (isActive node) then w
  else
    match truthy (parentId node) with
    | None => w
    | Some pk =>
        match live pk w with
        | None => w
        | Some parent =>
            if negb (isActive parent) then w
            else
              let pressureDiff := waterPressure parent - waterPressure node in
              let w3 :=
                if Qltb CONFIG.FLOW_THRESHOLD pressureDiff then
                  let flowCapacity := Math_min (radius node) (radius parent) in
                  let flowRate := CONFIG.WATER_FLOW_RATE * pressureDiff * flowCapacity in
                  let actualFlow := Math_min flowRate (waterPressure parent * 0.5) in
                  let w1 :=
                    updateNode (node_id parent)
                      [set_waterPressure (waterPressure parent - actualFlow)] w in
                  let w2 :=
                    updateNode (node_id node)
                      [set_waterPressure
                         (Math_min 1.0 (waterPressure (reread k node w1) + actualFlow * 0.95))]
                      w1 in
                  roll_spawn (Qltb 0.0005 actualFlow) 0.3
                    (node_id parent) (node_id node) xylem (actualFlow * 15) w2
                else w in
              (* ambient xylem flow, on the pressures as they are now *)
              if Qltb 0.1 (waterPressure (reread pk parent w3))
                 || Qltb 0.1 (waterPressure (reread k node w3))
              then roll_spawn true 0.02 (node_id parent) (node_id node) xylem 0.8 w3
              else w3
        end
    end.

Definition processXylemFlow (w : World) : World := for_nodes xylemBody w.

(** One iteration of the inner loop of [processPhloemFlow]: [k] is the key
    of [node], [ck] the key of the child object. *)
Definition phloemChild (k ck : string) (w : World) : World :=
  match live k w, live ck w with
  | Some node, Some child =>
      if negb (isActive child) then w
      else
        let concDiff := sugarConcentration node - sugarConcentration child in
        let w3 :=
          if Qltb CONFIG.FLOW_THRESHOLD (Math_abs concDiff) then
            let flowCapacity := Math_min (radius node) (radius child) in
            let flowRate := CONFIG.SUGAR_DIFFUSION_RATE * Math_abs concDiff * flowCapacity in
            let actualFlow := flowRate in
            if Qltb 0 concDiff then
              let w1 :=
                updateNode (node_id node)
                  [set_sugarConcentration (sugarConcentration node - actualFlow * 0.5);
                   set_sugarStore (Math_max 0 (sugarStore node - actualFlow))] w in
              let child1 := reread ck child w1 in
              let w2 :=
                updateNode (node_id child)
                  [set_sugarConcentration
                     (Math_min 1.0 (sugarConcentration child1 + actualFlow * 0.45));
                   set_sugarStore (sugarStore child1 + actualFlow * 0.9)] w1 in
              roll_spawn (Qltb 0.0005 actualFlow) 0.3
                (node_id node) (node_id child) phloem (actualFlow * 15) w2
            else
              let w1 :=
                updateNode (node_id child)
                  [set_sugarConcentration
                     (sugarConcentration child - Math_abs actualFlow * 0.5)] w in
              let node1 := reread k node w1 in
              let w2 :=
                updateNode (node_id node)
                  [set_sugarConcentration
                     (Math_min 1.0 (sugarConcentration node1 + Math_abs actualFlow * 0.45))]
                  w1 in
              roll_spawn (Qltb 0.0005 (Math_abs actualFlow)) 0.3
                (node_id child) (node_id node) phloem (Math_abs actualFlow * 15) w2
          else w in
        (* ambient phloem flow *)
        if isActive (reread k node w3) && isActive (reread ck child w3)
        then roll_spawn true 0.02 (node_id child) (node_id node) phloem 0.7 w3
        else w3
  | _, _ => w
  end.

Definition phloemBody (k : string) (node : PlantNode) (w : World) : World :=
  if negb (isActive node) then w
  else
    fold_left (fun w' ck => phloemChild k ck w')
      (map fst (getChildren (state w) node)) w.

Definition processPhloemFlow (w : World) : World := for_nodes phloemBody w.

Definition updateHydraulics (w : World) : World :=
  updateParticles
    (processPhloemFlow (processXylemFlow (processRootUptake (processTranspiration w)))).

(** ** [metabolism.ts] *)

Definition photosynthesisBody (k : string) (node : PlantNode) (w : World) : World :=
  if negb (isActive node) then w
  else if negb (NodeType_eqb (node_type node) LEAF)
          && (0 <? length (childrenIds node))%nat then w
  else if Qltb (waterPressure node) CONFIG.MIN_WATER_FOR_PHOTOSYNTHESIS then w
  else
    let sunFactor := 0.15 + sunIntensity (climate (state w)) * 0.85 in
    let waterFactor := Math_min 1 (waterPressure node / 0.5) in
    let sizeFactor := radius node * 10 in
    let sugarProduced := CONFIG.PHOTOSYNTHESIS_RATE * sunFactor * waterFactor * sizeFactor in
    if Qltb 0 sugarProduced then
      let waterCost := sugarProduced * CONFIG.WATER_PER_SUGAR in
      let w1 :=
        updateNode (node_id node)
          [set_waterPressure (Math_max 0 (waterPressure node - waterCost * 0.1));
           set_sugarStore (sugarStore node + sugarProduced);
           set_sugarConcentration
             (Math_min 1.0 (sugarConcentration node + sugarProduced * 0.1))] w in
      let w2 := modifyResources
                  {| delta_sugar := Some sugarProduced; delta_water := None;
                     delta_minerals := None |} w1 in
      match truthy (parentId node) with
      | Some p =>
          roll_spawn true (0.1 + sunFactor * 0.25) (node_id node) p phloem
            (0.6 + sugarProduced * 3) w2
      | None => w2
      end
    else w.

Definition processPhotosynthesis (w : World) : World := for_nodes photosynthesisBody w.

Definition respirationBody (k : string) (node : PlantNode) (w : World) : World :=
  if negb (isActive node) then w
  else
    let respirationCost := CONFIG.NODE_RESPIRATION_COST * (1 + radius node * 5) in
    if Qleb respirationCost (sugarStore node) then
      let w1 :=
        updateNode (node_id node)
          [set_sugarStore (sugarStore node - respirationCost);
           set_sugarConcentration
             (Math_max 0 (sugarConcentration node - respirationCost * 0.05))] w in
      match truthy (parentId node) with
      | Some p =>
          roll_spawn (NodeType_eqb (node_type node) ROOT) 0.25 p (node_id node) phloem 0.7 w1
      | None => w1
      end
    else
      let deficit := respirationCost - sugarStore node in
      let w1 :=
        updateNode (node_id node)
          [set_sugarStore 0;
           set_sugarConcentration (Math_max 0 (sugarConcentration node - 0.01))] w in
      let stressIncrease := deficit * CONFIG.STARVATION_STRESS_RATE in
      updateNode (node_id node)
        [set_stressLevel (Math_min 1 (stressLevel (reread k node w1) + stressIncrease))] w1.

Definition processRespiration (w : World) : World := for_nodes respirationBody w.

Definition stressAndHealthBody (k : string) (node : PlantNode) (w : World) : World :=
  if negb (isActive node) then w
  else
    let stressDelta0 :=
      if Qltb (waterPressure node) 0.08
      then 0 + CONFIG.DEHYDRATION_STRESS_RATE * (0.08 - waterPressure node)
      else 0 in
    let stressDelta :=
      if Qltb 0.15 (waterPressure node) && Qltb 0.02 (sugarStore node)
      then stressDelta0 - CONFIG.HEALTH_RECOVERY_RATE
      else if Qltb 0.1 (waterPressure node)
           then stressDelta0 - CONFIG.HEALTH_RECOVERY_RATE * 0.5
           else stressDelta0 in
    let newStress := Math_max 0 (Math_min 1 (stressLevel node + stressDelta)) in
    let targetHealth := 1 - newStress * 0.8 in
    let newHealth :=
      structuralHealth node + (targetHealth - structuralHealth node) * 0.1 in
    if Qleb CONFIG.STRESS_DEATH_THRESHOLD newStress then
      updateNode (node_id node)
        [set_stressLevel 1; set_structuralHealth 0; set_isActive false] w
    else
      updateNode (node_id node)
        [set_stressLevel newStress;
         set_structuralHealth (Math_max 0 (Math_min 1 newHealth))] w.

Definition processStressAndHealth (w : World) : World := for_nodes stressAndHealthBody w.

Definition updateMetabolism (w : World) : World :=
  processStressAndHealth (processRespiration (processPhotosynthesis w)).

Section Simulation.

(** [Math.sin], [Math.cos] and [Math.PI]. *)
Variables (Math_sin Math_cos : Q -> Q) (Math_PI : Q).

(** ** [state.ts]: the initial state *)

Definition createInitialState (w : World) : World :=
  let '(seedId0, w1) := generateId w in
  let seedNode :=
    {| node_id := seedId0; node_type := SEED; position := {| x := 0; y := 0 |};
       parentId := None; childrenIds := [];
       radius := CONFIG.SEED_RADIUS; structuralHealth := 1.0;
       waterPressure := 0.5; sugarConcentration := 0.8;
       sugarStore := CONFIG.INITIAL_SUGAR; isActive := true; stressLevel := 0 |} in
  with_state w1
    {| nodes := [(seedId0, seedNode)];
       seedId := seedId0;
       resources := {| sugar := CONFIG.INITIAL_SUGAR; water := CONFIG.INITIAL_WATER;
                       minerals := CONFIG.INITIAL_MINERALS |};
       climate := {| sunIntensity := 0.5; sunAngle := Math_PI / 4;
                     temperature := 20; humidity := 0.5; soilWater := 0.9;
                     isRaining := true; dayProgress := 0.25; day := 1;
                     tick_count := 0 |};
       selectedNodeId := None; isPaused := false; speedMultiplier := Num 1 |}.

Definition resetState (w : World) : World :=
  createInitialState (with_nextId w 1).

(** The world when the modules have been loaded: [nextId = 1] and then
    [state = createInitialState()], no particles, the growth heuristic off.
    [rnd] is what [Math.random()] is going to return. *)
Definition initialWorld (rnd : nat -> Q) : World :=
  resetState
    {| state := {| nodes := []; seedId := "";
                   resources := {| sugar := 0; water := 0; minerals := 0 |};
                   climate := {| sunIntensity := 0; sunAngle := 0; temperature := 0;
                                 humidity := 0; soilWater := 0; isRaining := false;
                                 dayProgress := 0; day := 0; tick_count := 0 |};
                   selectedNodeId := None; isPaused := false; speedMultiplier := Num 1 |};
       nextId := 1; particles := []; nextParticleId := 1;
       connectionParticleCounts := ∅; autoGrowEnabled := false;
       ticksSinceLastGrowth := 0; entropy := rnd; rolls := 0 |}.

(** ** [climate.ts] *)

Definition TWO_PI : Q := Math_PI * 2.

(** [CONFIG.TICKS_PER_SECOND * CONFIG.SECONDS_PER_DAY] *)
Definition ticksPerDay : Z := 1200.

Definition updateClimateSystem (w : World) : World :=
  let c := climate (state w) in
  let dayProgress0 := inject_Z (Z.rem (tick_count c) ticksPerDay) / inject_Z ticksPerDay in
  let previousDayProgress := dayProgress c in
  let isNewDay := Qltb dayProgress0 previousDayProgress && Qltb 0.9 previousDayProgress in
  let day0 := if isNewDay then (day c + 1)%Z else day c in
  let sunAngle0 := dayProgress0 * TWO_PI in
  let sunIntensity0 :=
    if Qltb dayProgress0 0.25 then Math_sin (dayProgress0 * TWO_PI) * 0.8
    else if Qltb dayProgress0 0.75 then Math_sin (dayProgress0 * Math_PI)
    else Math_max 0 (Math_sin (dayProgress0 * TWO_PI) * 0.3) in
  let sunIntensity1 := Math_max CONFIG.MIN_SUN_INTENSITY sunIntensity0 in
  let tempPhase := (dayProgress0 + 0.1) * TWO_PI in
  let temperature0 :=
    CONFIG.BASE_TEMPERATURE
    + CONFIG.TEMPERATURE_AMPLITUDE * Math_sin (tempPhase - Math_PI / 2) in
  let humidity0 := 0.5 + 0.3 * Math_cos (dayProgress0 * TWO_PI) in
  let '(r, w1) := Math_random w in
  let isRaining0 :=
    if negb (isRaining c) then
      let rainChance := CONFIG.RAIN_START_CHANCE * (1 + humidity0) in
      if Qltb r rainChance then true else false
    else
      if Qltb r CONFIG.RAIN_STOP_CHANCE then false else true in
  let soilWater0 :=
    if isRaining0 then Math_min 1.0 (soilWater c + CONFIG.RAIN_WATER_RATE)
    else
      let evapFactor := sunIntensity1 * (temperature0 / 30) in
      Math_max 0 (soilWater c - CONFIG.EVAPORATION_RATE * evapFactor) in
  updateClimate sunIntensity1 sunAngle0 temperature0 humidity0 soilWater0
    isRaining0 dayProgress0 day0 w1.


(** ** [autogrow.ts] *)

Definition BASE_GROWTH_INTERVAL : Q := 15.

Definition setAutoGrow (enabled : bool) (w : World) : World :=
  with_autogrow w enabled 0.

Record PlantAnalysis := {
  leafCount : nat;
  rootCount : nat;
  trunkCount : nat;
  branchCount : nat;
  totalNodes : nat;
  balanceRatio : Q;
  avgStress : Q;
  weakestNode : option PlantNode;
  growthTips : list PlantNode;
  extendableTrunks : list PlantNode;
  extendableRoots : list PlantNode
}.

Inductive ActionType := GROW | THICKEN | EXTEND.

Record GrowAction := {
  action_type : ActionType;
  targetNode : PlantNode;
  growType : option NodeType;
  direction : option Vec2
}.

Definition nat_Q (n : nat) : Q := inject_Z (Z.of_nat n).

(** The running variables of the loop in [analyzePlant]. *)
Record Tally := {
  t_leaf : nat; t_root : nat; t_trunk : nat; t_branch : nat;
  t_totalStress : Q; t_weakest : option PlantNode; t_highestStress : Q;
  t_tips : list PlantNode; t_trunks : list PlantNode; t_roots : list PlantNode
}.

Definition analyzeNode (s : GameState) (a : Tally) (node : PlantNode) : Tally :=
  if negb (isActive node) then a
  else
    let worse := Qltb (t_highestStress a) (stressLevel node) in
    let hasChildren := (0 <? length (childrenIds node))%nat in
    {| t_leaf := match node_type node with LEAF => S (t_leaf a) | _ => t_leaf a end;
       t_root := match node_type node with ROOT => S (t_root a) | _ => t_root a end;
       t_trunk := match node_type node with TRUNK => S (t_trunk a) | _ => t_trunk a end;
       t_branch := match node_type node with BRANCH => S (t_branch a) | _ => t_branch a end;
       t_totalStress := t_totalStress a + stressLevel node;
       t_weakest := if worse then Some node else t_weakest a;
       t_highestStress := if worse then stressLevel node else t_highestStress a;
       t_tips :=
         if (length (getChildren s node) <? CONFIG.MAX_CHILDREN_PER_NODE)%nat
         then t_tips a ++ [node] else t_tips a;
       t_trunks :=
         if hasChildren
            && (NodeType_eqb (node_type node) TRUNK || NodeType_eqb (node_type node) BRANCH)
         then t_trunks a ++ [node] else t_trunks a;
       t_roots :=
         if hasChildren
            && negb (NodeType_eqb (node_type node) TRUNK || NodeType_eqb (node_type node) BRANCH)
            && NodeType_eqb (node_type node) ROOT
         then t_roots a ++ [node] else t_roots a |}.

Definition analyzePlant (s : GameState) : PlantAnalysis :=
  let a :=
    fold_left (analyzeNode s) (map snd (nodes s))
      {| t_leaf := 0; t_root := 0; t_trunk := 0; t_branch := 0;
         t_totalStress := 0; t_weakest := None; t_highestStress := 0;
         t_tips := []; t_trunks := []; t_roots := [] |} in
  let totalNodes0 := nodes_count (nodes s) in
  let canopySize := (t_leaf a + t_trunk a + t_branch a)%nat in
  {| leafCount := t_leaf a; rootCount := t_root a; trunkCount := t_trunk a;
     branchCount := t_branch a; totalNodes := totalNodes0;
     balanceRatio :=
       if (0 <? t_root a)%nat then nat_Q canopySize / nat_Q (t_root a)
       else nat_Q canopySize;
     avgStress :=
       if (0 <? totalNodes0)%nat then t_totalStress a / nat_Q totalNodes0 else 0;
     weakestNode := t_weakest a;
     growthTips := t_tips a;
     extendableTrunks := t_trunks a;
     extendableRoots := t_roots a |}.

(** [arr[Math.floor(Math.random() * arr.length)]]; [None] is [undefined],
    which no roll in [0, 1) produces on a non-empty array. *)
Definition pick {A} (arr : list A) (w : World) : option A * World :=
  let '(r, w1) := Math_random w in
  let i := Math_floor (r * nat_Q (length arr)) in
  ((if (i <? 0)%Z then None else arr !! Z.to_nat i), w1).

Definition getRandomRootDirection (w : World) : option Vec2 * World :=
  pick [ {| x := 0; y := 1 |}; {| x := -1; y := 1 |}; {| x := 1; y := 1 |} ] w.

Definition is_type (t : NodeType) (n : PlantNode) : bool := NodeType_eqb (node_type n) t.

(** Priority 1: thicken a critically stressed segment. *)
Definition decideThicken (analysis : PlantAnalysis) (w : World) : option GrowAction :=
  match weakestNode analysis with
  | Some weakest =>
      if Qltb 0.3 (stressLevel weakest)
         && Qleb CONFIG.COST_HARDEN (sugar (resources (state w)))
         && (is_type TRUNK weakest || is_type BRANCH weakest || is_type ROOT weakest)
      then Some {| action_type := THICKEN; targetNode := weakest;
                   growType := None; direction := None |}
      else None
  | None => None
  end.

(** Priority 2: balance the roots when the canopy is too large. *)
Definition decideRoots (analysis : PlantAnalysis) (w : World)
    : option GrowAction * World :=
  if Qltb 3 (balanceRatio analysis) && Qleb CONFIG.COST_ROOT (sugar (resources (state w)))
  then
    let roots := map snd (getNodesByType (state w) ROOT) in
    if (0 <? length roots)%nat then
      let '(targetRoot, w1) := pick roots w in
      match targetRoot with
      | Some target =>
          if (length (getChildren (state w1) target) <? CONFIG.MAX_CHILDREN_PER_NODE)%nat
          then
            let '(dir, w2) := getRandomRootDirection w1 in
            (Some {| action_type := GROW; targetNode := target;
                     growType := Some ROOT; direction := dir |}, w2)
          else (None, w1)
      | None => (None, w1)
      end
    else
      match nodes_get (seedId (state w)) (nodes (state w)) with
      | Some seed =>
          if (length (getChildren (state w) seed) <? CONFIG.MAX_CHILDREN_PER_NODE)%nat
          then (Some {| action_type := GROW; targetNode := seed;
                        growType := Some ROOT;
                        direction := Some {| x := 0; y := 1 |} |}, w)
          else (None, w)
      | None => (None, w)
      end
  else (None, w).

Definition up : Vec2 := {| x := 0; y := -1 |}.

(** A random member of a non-empty candidate list, as the target of an
    action. *)
Definition chooseTarget (candidates : list PlantNode) (kind : ActionType)
    (t : option NodeType) (dir : option Vec2) (w : World)
    : option GrowAction * World :=
  if (0 <? length candidates)%nat then
    let '(target, w1) := pick candidates w in
    (match target with
     | Some n => Some {| action_type := kind; targetNode := n;
                         growType := t; direction := dir |}
     | None => None
     end, w1)
  else (None, w).

(** Priority 3: more leaves. *)
Definition decideLeaf (analysis : PlantAnalysis) (w : World)
    : option GrowAction * World :=
  if (leafCount analysis <? rootCount analysis * 2)%nat
     && Qleb CONFIG.COST_LEAF (sugar (resources (state w)))
  then chooseTarget
         (filter (fun n => is_type TRUNK n || is_type BRANCH n) (growthTips analysis))
         GROW (Some LEAF) (Some up) w
  else (None, w).

(** Priority 4: now and then extend a trunk. *)
Definition decideExtend (analysis : PlantAnalysis) (w : World)
    : option GrowAction * World :=
  if Qleb CONFIG.COST_TRUNK (sugar (resources (state w))) then
    let '(r, w1) := Math_random w in
    if Qltb r 0.3
    then chooseTarget (extendableTrunks analysis) EXTEND None (Some up) w1
    else (None, w1)
  else (None, w).

(** Priority 5: a new trunk segment. *)
Definition decideTrunk (analysis : PlantAnalysis) (w : World)
    : option GrowAction * World :=
  if Qleb CONFIG.COST_TRUNK (sugar (resources (state w)))
  then chooseTarget
         (filter (fun n => is_type TRUNK n || is_type SEED n) (growthTips analysis))
         GROW (Some TRUNK) (Some up) w
  else (None, w).

(** Priority 6: branch sideways. *)
Definition decideBranch (analysis : PlantAnalysis) (w : World)
    : option GrowAction * World :=
  if Qleb CONFIG.COST_BRANCH (sugar (resources (state w))) then
    let '(r, w1) := Math_random w in
    if Qltb r 0.4 then
      let candidates := filter (is_type TRUNK) (growthTips analysis) in
      if (0 <? length candidates)%nat then
        let '(target, w2) := pick candidates w1 in
        let '(r', w3) := Math_random w2 in
        let dir := if Qltb r' 0.5 then {| x := -1; y := -1 |} else {| x := 1; y := -1 |} in
        (match target with
         | Some n => Some {| action_type := GROW; targetNode := n;
                             growType := Some BRANCH; direction := Some dir |}
         | None => None
         end, w3)
      else (None, w1)
    else (None, w1)
  else (None, w).

(** The first priority that yields an action wins. *)
Definition orElse (first : option GrowAction * World)
    (next : World -> option GrowAction * World) : option GrowAction * World :=
  match first with
  | (Some a, w) => (Some a, w)
  | (None, w) => next w
  end.

Definition decideAction (analysis : PlantAnalysis) (w : World)
    : option GrowAction * World :=
  orElse (decideThicken analysis w, w) (fun w1 =>
  orElse (decideRoots analysis w1) (fun w2 =>
  orElse (decideLeaf analysis w2) (fun w3 =>
  orElse (decideExtend analysis w3) (fun w4 =>
  orElse (decideTrunk analysis w4) (fun w5 =>
  decideBranch analysis w5))))).

(** [Math.round((p * PIXELS_PER_METER) / TILE_SIZE)] *)
Definition gridCoord (p : Q) : Z :=
  Math_round (p * CONFIG.PIXELS_PER_METER / CONFIG.TILE_SIZE).

Definition executeAction (action : GrowAction) (w : World) : World :=
  match action_type action with
  | THICKEN =>
      let newRadius := radius (targetNode action) * 1.2 in
      let w1 := updateNode (node_id (targetNode action)) [set_radius newRadius] w in
      with_state w1
        (with_resources (state w1)
           (with_sugar (resources (state w1))
              (sugar (resources (state w1)) - CONFIG.COST_HARDEN)))
  | EXTEND =>
      match direction action with
      | Some dir => fst (extendNode (node_id (targetNode action)) dir w)
      | None => w
      end
  | GROW =>
      match growType action, direction action with
      | Some t, Some dir =>
          let newPos := shift (position (targetNode action)) dir in
          let gridX := gridCoord (x newPos) in
          let gridY := gridCoord (y newPos) in
          let occupied :=
            existsb (fun kn => (gridCoord (x (position (snd kn))) =? gridX)%Z
                               && (gridCoord (y (position (snd kn))) =? gridY)%Z)
                    (nodes (state w)) in
          if occupied then w
          else
            (* the parent is the id of a segment read from the store; with
               every segment stored under its own id the call returns *)
            after (addNode (node_id (targetNode action)) t newPos None w)
      | _, _ => w
      end
  end.

Definition updateAutoGrow (w : World) : World :=
  if negb (autoGrowEnabled w) then w
  else
    let sugarExcess := Math_max 0 (sugar (resources (state w)) - 50) in
    let speedBonus := Math_min 0.8 (sugarExcess / 500) in
    let growthInterval := Math_max 5 (BASE_GROWTH_INTERVAL * (1 - speedBonus)) in
    let ticks := S (ticksSinceLastGrowth w) in
    if Qltb (nat_Q ticks) growthInterval then with_autogrow w true ticks
    else
      let w1 := with_autogrow w true 0 in
      if Qltb (sugar (resources (state w1))) 20 then w1
      else
        let analysis := analyzePlant (state w1) in
        let '(action, w2) := decideAction analysis w1 in
        match action with
        | Some a => executeAction a w2
        | None => w2
        end.

(** ** [loop.ts] *)

Definition tick (w : World) : World :=
  incrementTick
    (updateAutoGrow (updateMetabolism (updateHydraulics (updateClimateSystem w)))).

Definition stepSimulation (w : World) : World := tick w.

End Simulation.

(** ** [contextMenu.ts]: the Harden action of the menu

    The menu calls it with the id of the segment it is shown for. *)

Definition hardenNode (nodeId : string) (w : World) : World :=
  match live nodeId w with
  | None => w
  | Some node =>
      if Qleb CONFIG.COST_HARDEN (sugar (resources (state w))) then
        let w1 := modifyResources
                    {| delta_sugar := Some (- CONFIG.COST_HARDEN);
                       delta_water := None; delta_minerals := None |} w in
        updateNode nodeId
          [set_structuralHealth (Math_min 1 (structuralHealth node + 0.2));
           set_radius (radius node * 1.1)] w1
      else w
  end.

(** * More of the sources *)

(** ** [graph.ts]: the other helpers *)

(** [if (!node.parentId) return null; return state.nodes[node.parentId] ?? null] *)
Definition getParent (s : GameState) (node : PlantNode) : option PlantNode :=
  match truthy (parentId node) with
  | Some p => nodes_get p (nodes s)
  | None => None
  end.

Definition getSiblings (s : GameState) (node : PlantNode) : list PlantNode :=
  match truthy (parentId node) with
  | None => []
  | Some p =>
      match nodes_get p (nodes s) with
      | None => []
      | Some parent =>
          filter (fun n => negb (String.eqb (node_id n) (node_id node)))
            (omap (fun c => nodes_get c (nodes s)) (childrenIds parent))
      end
  end.

(** The loop of [getAncestors]: [while (current) { ancestors.push(current);
    current = getParent(state, current) }].  [fuel] bounds the number of
    rounds and [None] means the bound was reached. *)
Fixpoint climb (fuel : nat) (s : GameState) (current : option PlantNode)
    : option (list PlantNode) :=
  match current with
  | None => Some []
  | Some c =>
      match fuel with
      | O => None
      | S fuel' => cons c <$> climb fuel' s (getParent s c)
      end
  end.

Definition getAncestors (fuel : nat) (s : GameState) (node : PlantNode)
    : option (list PlantNode) :=
  climb fuel s (getParent s node).

Definition getDepth (fuel : nat) (s : GameState) (node : PlantNode) : option nat :=
  length <$> getAncestors fuel s node.

(** [traversePreOrder], with the callback that records the node it is
    given: the list of the nodes in the order of the calls.  The source
    recurses on the children; [fuel] bounds the depth. *)
Fixpoint traversePreOrder (fuel : nat) (s : GameState) (startNode : PlantNode)
    : option (list PlantNode) :=
  match fuel with
  | O => None
  | S fuel' =>
      fold_left
        (fun acc child =>
           match acc with
           | Some visited =>
               (fun l => visited ++ l) <$> traversePreOrder fuel' s (snd child)
           | None => None
           end)
        (getChildren s startNode) (Some [startNode])
  end.

(** ** [metabolism.ts], [hydraulics.ts]: the figures for the display *)

Record MetabolismStats := {
  totalPhotosynthesis : Q;
  totalRespiration : Q;
  healthyNodes : nat;
  stressedNodes : nat;
  deadNodes : nat
}.

Definition countNode (st : MetabolismStats) (node : PlantNode) : MetabolismStats :=
  if negb (isActive node) then
    {| totalPhotosynthesis := totalPhotosynthesis st;
       totalRespiration := totalRespiration st;
       healthyNodes := healthyNodes st; stressedNodes := stressedNodes st;
       deadNodes := S (deadNodes st) |}
  else if Qltb 0.5 (stressLevel node) then
    {| totalPhotosynthesis := totalPhotosynthesis st;
       totalRespiration := totalRespiration st;
       healthyNodes := healthyNodes st; stressedNodes := S (stressedNodes st);
       deadNodes := deadNodes st |}
  else
    {| totalPhotosynthesis := totalPhotosynthesis st;
       totalRespiration := totalRespiration st;
       healthyNodes := S (healthyNodes st); stressedNodes := stressedNodes st;
       deadNodes := deadNodes st |}.

Definition getMetabolismStats (w : World) : MetabolismStats :=
  fold_left countNode (map snd (nodes (state w)))
    {| totalPhotosynthesis := 0; totalRespiration := 0;
       healthyNodes := 0; stressedNodes := 0; deadNodes := 0 |}.

Record FlowStats := {
  xylemParticles : nat;
  phloemParticles : nat;
  totalWaterPressure : Q;
  totalSugar : Q
}.

Definition SapType_eqb (a b : SapType) : bool :=
  match a, b with
  | xylem, xylem | phloem, phloem => true
  | _, _ => false
  end.

Definition getFlowStats (w : World) : FlowStats :=
  let '(totalWaterPressure0, totalSugar0) :=
    fold_left (fun '(p, s) node => (p + waterPressure node, s + sugarStore node))
      (map snd (nodes (state w))) (0, 0) in
  {| xylemParticles :=
       length (filter (fun p => SapType_eqb (sap p) xylem) (particles w));
     phloemParticles :=
       length (filter (fun p => SapType_eqb (sap p) phloem) (particles w));
     totalWaterPressure := totalWaterPressure0;
     totalSugar := totalSugar0 |}.

(** ** [loop.ts]: one animation frame *)

(** [1000 / CONFIG.TICKS_PER_SECOND] *)
Definition TICK_INTERVAL : Q := 1000 / CONFIG.TICKS_PER_SECOND.

Section Frames.

Variables (Math_sin Math_cos : Q -> Q) (Math_PI : Q).

(** [while (accumulator >= TICK_INTERVAL) { tick(); accumulator -= TICK_INTERVAL }];
    [fuel] bounds the number of rounds. *)
Fixpoint drain (fuel : nat) (accumulator : number) (w : World)
    : option (number * World) :=
  if geq accumulator (Num TICK_INTERVAL) then
    match fuel with
    | O => None
    | S fuel' =>
        drain fuel' (minus accumulator (Num TICK_INTERVAL))
          (tick Math_sin Math_cos Math_PI w)
    end
  else Some (accumulator, w).

(** The body of [loop] while the simulation is running, [deltaTime]
    milliseconds after the frame before: the accumulator and the world it
    leaves. *)
Definition loop (fuel : nat) (deltaTime : Q) (accumulator : number) (w : World)
    : option (number * World) :=
  if negb (isPaused (state w)) then
    drain fuel (plus accumulator (times (Num deltaTime) (speedMultiplier (state w)))) w
  else Some (accumulator, w).

End Frames.

(** ** [vector.ts] *)

Definition dot (a b : Vec2) : Q := x a * x b + y a * y b.
Definition perpendicular (v : Vec2) : Vec2 := {| x := - y v; y := x v |}.

Section Angles.

(** [Math.sin] and [Math.cos]. *)
Variables (Math_sin Math_cos : Q -> Q).

Definition rotate (v : Vec2) (radians : Q) : Vec2 :=
  let cos := Math_cos radians in
  let sin := Math_sin radians in
  {| x := x v * cos - y v * sin; y := x v * sin + y v * cos |}.

End Angles.

Definition clamp (value min max : number) : number :=
  Math.max min (Math.min max value).

(** * Vocabulary of the statements *)

(** When [addNode] refuses: [state.nodes[parentId]] is [undefined], or the
    sugar does not cover the cost of the type. *)
Definition addNode_rejects (parentId0 : string) (t : NodeType) (w : World) : Prop :=
  nodes_at parentId0 (nodes (state w)) = Undefined
  \/ sugar (resources (state w)) < getNodeCost t.

(** When [extendNode] refuses: the target is missing, is not a trunk,
    branch or root, or the sugar does not cover the cost of its type. *)
Definition extendNode_rejects (nodeId : string) (w : World) : Prop :=
  match nodes_get nodeId (nodes (state w)) with
  | None => True
  | Some node =>
      node_type node = SEED \/ node_type node = LEAF
      \/ sugar (resources (state w)) < getNodeCost (node_type node)
  end.


(** ** Well-formed worlds *)

(** Every node is stored under its own identifier. *)
Definition ids_ok (ns : Nodes) : Prop :=
  forall k n, nodes_get k ns = Some n -> node_id n = k.

(** Every key was produced by [generateId] before. *)
Definition ids_fresh (next : nat) (ns : Nodes) : Prop :=
  forall k, k ∈ nodes_keys ns -> exists i, (i < next)%nat /\ k = node_name i.

Definition struct_ok (w : World) : Prop :=
  nodes_wf (nodes (state w))
  /\ ids_ok (nodes (state w))
  /\ ids_fresh (nextId w) (nodes (state w)).

(** ** Ranges of the segment fields *)

Definition node_ok (n : PlantNode) : Prop :=
  0 <= waterPressure n <= 1
  /\ 0 <= sugarConcentration n <= 1
  /\ 0 <= structuralHealth n <= 1
  /\ 0 <= stressLevel n <= 1
  /\ 0 < radius n.

(** The ranges that hold at every point of a tick: [node_ok] without the
    lower bound of the sugar concentration, which the phloem flow can
    cross and the respiration restores. *)
Definition node_mid (n : PlantNode) : Prop :=
  0 <= waterPressure n <= 1
  /\ sugarConcentration n <= 1
  /\ 0 <= structuralHealth n <= 1
  /\ 0 <= stressLevel n <= 1
  /\ 0 < radius n.

Definition world_num (w : World) : Prop :=
  forall k n, live k w = Some n -> node_ok n.

Definition world_mid (w : World) : Prop :=
  forall k n, live k w = Some n -> node_mid n.

(** ** Dead segments *)

Definition dead (n : PlantNode) : Prop :=
  isActive n = false /\ structuralHealth n = 0 /\ stressLevel n = 1.

(** Every inactive segment has health 0 and stress 1. *)
Definition dead_consistent (w : World) : Prop :=
  forall k n, live k w = Some n -> isActive n = false -> dead n.

(** ** Flow particles *)

Definition on_key (key : string) (p : FlowParticle) : bool :=
  String.eqb (connectionKey (fromNodeId p) (toNodeId p)) key.

Definition on_pair (source destination : string) (p : FlowParticle) : bool :=
  String.eqb (fromNodeId p) source && String.eqb (toNodeId p) destination.

(** The live markers whose connection key is [key]. *)
Definition live_on_key (key : string) (ps : list FlowParticle) : nat :=
  length (filter (on_key key) ps).

(** The live markers going from [source] to [destination]. *)
Definition markers_on (source destination : string) (w : World) : nat :=
  length (filter (on_pair source destination) (particles w)).

(** The cached counts are the numbers of live markers, and the caps hold. *)
Definition particles_inv (w : World) : Prop :=
  (length (particles w) <= MAX_TOTAL_PARTICLES)%nat
  /\ forall key,
       connectionCount (connectionParticleCounts w) key = live_on_key key (particles w)
       /\ (live_on_key key (particles w) <= MAX_PARTICLES_PER_CONNECTION)%nat.

(** ** What the systems and the mutation calls do, step by step *)

(** A step that leaves the node table, the identifier counter and the
    particles alone (resources, climate, rolls, flags). *)
Definition same_core (w w' : World) : Prop :=
  nodes (state w') = nodes (state w)
  /\ nextId w' = nextId w
  /\ particles w' = particles w
  /\ connectionParticleCounts w' = connectionParticleCounts w.

(** Updates of the fluid fields. *)
Definition fluid (u : FieldUpdate) : bool :=
  match u with
  | set_waterPressure _ | set_sugarConcentration _ | set_sugarStore _ => true
  | _ => false
  end.

(** Updates of the fluid fields, of stress and of health. *)
Definition soft (u : FieldUpdate) : bool :=
  match u with
  | set_waterPressure _ | set_sugarConcentration _ | set_sugarStore _
  | set_structuralHealth _ | set_stressLevel _ => true
  | _ => false
  end.

(** The update of the death branch of [processStressAndHealth]. *)
Definition death : list FieldUpdate :=
  [set_stressLevel 1; set_structuralHealth 0; set_isActive false].

(** The updates the systems make: fluid fields of any node; and, for the
    steps of the metabolism ([vital]), stress, health and death of an
    active node only. *)
Definition system_update (vital active : bool) (us : list FieldUpdate) : Prop :=
  forallb fluid us = true
  \/ (vital = true /\ active = true /\ (forallb soft us = true \/ us = death)).

(** One primitive effect of a system step.  An update is made on an
    active node, and carries the fact that it keeps the updated node
    within [node_mid] when all nodes are.  [vital] tells whether stress,
    health and activity may change. *)
Inductive primv (vital : bool) : World -> World -> Prop :=
| prim_frame w w' : same_core w w' -> primv vital w w'
| prim_update w k n us :
    live k w = Some n ->
    isActive n = true ->
    system_update vital (isActive n) us ->
    (world_mid w -> node_mid (Object_assign n us)) ->
    primv vital w (updateNode k us w)
| prim_spawn w a b t s : primv vital w (spawnFlowParticle a b t s w)
| prim_particles w : primv vital w (updateParticles w).

Arguments prim_frame {vital}.
Arguments prim_update {vital}.
Arguments prim_spawn {vital}.
Arguments prim_particles {vital}.

Abbreviation prim := (primv true).

(** One effect of a structural edit: the calls of the mutation API, and
    the reinforcement of the growth heuristic (radius times 1.2). *)
Inductive edit (okr : Q -> Prop) : World -> World -> Prop :=
| edit_frame w w' : same_core w w' -> edit okr w w'
| edit_addNode w p t pos r w' a :
    (forall v, r = Some v -> okr v) ->
    addNode p t pos r w = Returned w' a -> edit okr w w'
| edit_extendNode w k dir : edit okr w (fst (extendNode k dir w))
| edit_removeNode w fuel k w' b :
    removeNode fuel k w = Some (Returned w' b) -> edit okr w w'
| edit_thicken w k n :
    live k w = Some n ->
    edit okr w (updateNode k [set_radius (radius n * 1.2)] w)
| edit_spawn w a b t s : edit okr w (spawnFlowParticle a b t s w)
| edit_clear w : edit okr w (clearParticles w).

(** ** Runs of the simulation *)

Section Runs.

Variables (Math_sin Math_cos : Q -> Q) (Math_PI : Q).

(** One call into the core that returns: a mutation of the structure, a
    scalar update, a particle call or one tick.  [okr] is what the callers
    guarantee of an explicit radius passed to [addNode].  [updateNode], the
    unvalidated field merge, is the channel of the systems and not a call
    of its own; [resetState] starts a new run. *)
Inductive op (okr : Q -> Prop) : World -> World -> Prop :=
| op_addNode w p t pos r w' a :
    (forall v, r = Some v -> okr v) ->
    addNode p t pos r w = Returned w' a -> op okr w w'
| op_removeNode w fuel k w' b :
    removeNode fuel k w = Some (Returned w' b) -> op okr w w'
| op_extendNode w k dir : op okr w (fst (extendNode k dir w))
| op_modifyResources w d : op okr w (modifyResources d w)
| op_selectNode w k : op okr w (selectNode k w)
| op_setPaused w b : op okr w (setPaused b w)
| op_setSpeedMultiplier w m : op okr w (setSpeedMultiplier m w)
| op_setAutoGrow w b : op okr w (setAutoGrow b w)
| op_spawnFlowParticle w a b t s : op okr w (spawnFlowParticle a b t s w)
| op_clearParticles w : op okr w (clearParticles w)
| op_tick w : op okr w (tick Math_sin Math_cos Math_PI w).

(** The worlds a run can reach from the initial seed state: every call of
    the run has returned. *)
Inductive reachable (okr : Q -> Prop) : World -> Prop :=
| reachable_init rnd : reachable okr (initialWorld Math_PI rnd)
| reachable_step w w' : reachable okr w -> op okr w w' -> reachable okr w'.

End Runs.

(** The segment [k] has been created and, if it is still in the store, it
    is dead. *)
Definition stays_dead (k : string) (w : World) : Prop :=
  (exists i, (i < nextId w)%nat /\ k = node_name i)
  /\ forall n, live k w = Some n -> dead n.

(** What a structural edit keeps of a node it does not create: everything
    but its position and its links, and its radius up to a reinforcement. *)
Definition kept (n n' : PlantNode) : Prop :=
  node_id n' = node_id n
  /\ node_type n' = node_type n
  /\ waterPressure n' = waterPressure n
  /\ sugarConcentration n' = sugarConcentration n
  /\ sugarStore n' = sugarStore n
  /\ structuralHealth n' = structuralHealth n
  /\ stressLevel n' = stressLevel n
  /\ isActive n' = isActive n
  /\ (radius n' = radius n \/ radius n' = radius n * 1.2).

(** A node made by [addNode] or [extendNode] under the key [k]: active,
    at full health, without stress, and in range when the store was in
    range and the callers pass positive radii. *)
Definition created (okr : Q -> Prop) (w : World) (k : string) (n' : PlantNode) : Prop :=
  node_id n' = k
  /\ isActive n' = true
  /\ (world_num w -> (forall v, okr v -> 0 < v) -> node_ok n').

(** The node [addNode] makes. *)
Definition new_node (p : string) (t : NodeType) (pos : Vec2) (r : option Q)
    (parent : PlantNode) (w : World) : PlantNode :=
  {| node_id := node_name (nextId w); node_type := t; position := pos;
     parentId := Some p; childrenIds := [];
     radius := default (getDefaultRadius t) r;
     structuralHealth := 1.0;
     waterPressure := Math_max 0.3 (waterPressure parent * 0.95);
     sugarConcentration := Math_max 0.2 (sugarConcentration parent * 0.9);
     sugarStore := 0; isActive := true; stressLevel := 0 |}.

(** The node [extendNode] makes. *)
Definition extension (k : string) (dir : Vec2) (node : PlantNode) (w : World)
    : PlantNode :=
  {| node_id := node_name (nextId w); node_type := node_type node;
     position := shift (position node) dir; parentId := Some k;
     childrenIds := childrenIds node;
     radius := radius node * 0.95; structuralHealth := 1.0;
     waterPressure := waterPressure node * 0.98;
     sugarConcentration := sugarConcentration node * 0.98;
     sugarStore := 0; isActive := true; stressLevel := 0 |}.

(** A stage of [decideAction]: it only rolls, and it never asks for a
    reinforcement. *)
Definition quiet_stage (f : World -> option GrowAction * World) : Prop :=
  forall w, same_core w (snd (f w))
            /\ forall a, fst (f w) = Some a -> action_type a <> THICKEN.

(** ** Concrete worlds for the examples *)

(** A rational stand-in for [Math.PI] and constant stand-ins for
    [Math.sin] and [Math.cos]; the general statements do not depend on
    them. *)
Definition PI_approx : Q := 355 / 113.
Definition flat (_ : Q) : Q := 0.

(** Every roll returns one half. *)
Definition half (_ : nat) : Q := 0.5.

(** The seed alone. *)
Definition seed_world : World := initialWorld PI_approx half.

(** The seed with a trunk on it. *)
Definition trunk_world : World :=
  after (addNode "node_1" TRUNK {| x := 0; y := -0.25 |} None seed_world).

(** ** The metabolism of one segment *)

(** [stressDelta] and [newStress] of [processStressAndHealth]. *)
Definition stressDelta (node : PlantNode) : Q :=
  let stressDelta0 :=
    if Qltb (waterPressure node) 0.08
    then 0 + CONFIG.DEHYDRATION_STRESS_RATE * (0.08 - waterPressure node)
    else 0 in
  if Qltb 0.15 (waterPressure node) && Qltb 0.02 (sugarStore node)
  then stressDelta0 - CONFIG.HEALTH_RECOVERY_RATE
  else if Qltb 0.1 (waterPressure node)
       then stressDelta0 - CONFIG.HEALTH_RECOVERY_RATE * 0.5
       else stressDelta0.

Definition newStress (node : PlantNode) : Q :=
  Math_max 0 (Math_min 1 (stressLevel node + stressDelta node)).

(** What [processStressAndHealth] makes of a segment. *)
Definition stressHealthNode (node : PlantNode) : PlantNode :=
  if negb (isActive node) then node
  else if Qleb CONFIG.STRESS_DEATH_THRESHOLD (newStress node)
       then Object_assign node death
       else Object_assign node
              [set_stressLevel (newStress node);
               set_structuralHealth
                 (Math_max 0
                    (Math_min 1
                       (structuralHealth node
                        + (1 - newStress node * 0.8 - structuralHealth node) * 0.1)))].

Definition respirationCost (node : PlantNode) : Q :=
  CONFIG.NODE_RESPIRATION_COST * (1 + radius node * 5).

(** What [processRespiration] makes of a segment. *)
Definition respireNode (node : PlantNode) : PlantNode :=
  if negb (isActive node) then node
  else if Qleb (respirationCost node) (sugarStore node)
       then Object_assign node
              [set_sugarStore (sugarStore node - respirationCost node);
               set_sugarConcentration
                 (Math_max 0 (sugarConcentration node - respirationCost node * 0.05))]
       else
         let starved :=
           Object_assign node
             [set_sugarStore 0;
              set_sugarConcentration (Math_max 0 (sugarConcentration node - 0.01))] in
         Object_assign starved
           [set_stressLevel
              (Math_min 1
                 (stressLevel starved
                  + (respirationCost node - sugarStore node)
                    * CONFIG.STARVATION_STRESS_RATE))].

(** A loop body that rewrites the visited node by [g] and leaves the
    other nodes alone. *)
Definition own_body (body : string -> PlantNode -> World -> World)
    (g : PlantNode -> PlantNode) : Prop :=
  forall k n w, struct_ok w -> live k w = Some n ->
    struct_ok (body k n w)
    /\ forall j, live j (body k n w)
                 = if String.eqb k j then Some (g n) else live j w.

(** Stress, health and activity of a segment. *)
Definition vitals (n : PlantNode) : Q * Q * bool :=
  (stressLevel n, structuralHealth n, isActive n).

Section MidTick.

Variables (Math_sin Math_cos : Q -> Q) (Math_PI : Q).

(** The world of a tick when the respiration starts: after the climate,
    the hydraulics and the photosynthesis. *)
Definition before_respiration (w : World) : World :=
  processPhotosynthesis (updateHydraulics (updateClimateSystem Math_sin Math_cos Math_PI w)).

(** The world of a tick when the stress-and-health step starts. *)
Definition before_stress (w : World) : World :=
  processRespiration (before_respiration w).

(** In the tick that starts in [w], the segment [k] enters the respiration
    with an empty sugar buffer and a water pressure of at most [p]. *)
Definition starving (p : Q) (k : string) (w : World) : Prop :=
  exists n, live k (before_respiration w) = Some n
            /\ sugarStore n == 0 /\ waterPressure n <= p /\ 0 < radius n.

End MidTick.

(** ** Subtrees *)

(** [k] is in the subtree rooted at [root]: [root] itself, or a node
    reached from it through the child lists, over nodes of the table. *)
Inductive in_subtree (ns : Nodes) (root : string) : string -> Prop :=
| subtree_root n : nodes_get root ns = Some n -> in_subtree ns root root
| subtree_child k n c :
    in_subtree ns root k -> nodes_get k ns = Some n -> c ∈ childrenIds n ->
    is_Some (nodes_get c ns) -> in_subtree ns root c.

(** The child links go down a rank: there is no cycle. *)
Definition ranked (rank : string -> nat) (ns : Nodes) : Prop :=
  forall k n c, nodes_get k ns = Some n -> c ∈ childrenIds n ->
                is_Some (nodes_get c ns) -> (rank c < rank k)%nat.

(** No link of the table, to a parent or to a child, is a name inherited
    from [Object.prototype]. *)
Definition plain (ns : Nodes) : Prop :=
  forall k n, nodes_get k ns = Some n ->
    (forall p, parentId n = Some p -> inherited p = false)
    /\ (forall c, c ∈ childrenIds n -> inherited c = false).

(** What [removeRecursive] returns: the table without the subtree of
    [id], and the list of the keys it has deleted. *)
Definition removes (ns : Nodes) (id : string) (ns' : Nodes) (removed : list string)
    : Prop :=
  sublist ns' ns
  /\ NoDup removed
  /\ (forall j, j ∈ removed <-> in_subtree ns id j)
  /\ (forall j, nodes_get j ns' = if decide (j ∈ removed) then None else nodes_get j ns)
  /\ (length ns' + length removed = length ns)%nat.

(** ** A chain of two segments *)

(** The nodes at the keys [pk] and [ck] of a table with these two keys
    only, in the order of their insertion. *)
Definition pair_at (pk ck : string) (p c : PlantNode) (w : World) : Prop :=
  nodes_keys (nodes (state w)) = [pk; ck]
  /\ live pk w = Some p /\ live ck w = Some c.

(** [n'] is [n] up to the fluids, the stress and the health. *)
Definition frame (n n' : PlantNode) : Prop :=
  node_id n' = node_id n /\ node_type n' = node_type n
  /\ parentId n' = parentId n /\ childrenIds n' = childrenIds n
  /\ radius n' = radius n /\ isActive n' = isActive n
  /\ position n' = position n.

(** [p] is the parentless head of the chain and [c] its only child; both
    are alive and have the radius 0.02. *)
Definition chain_link (pk ck : string) (p c : PlantNode) : Prop :=
  pk <> ck /\ truthy (Some pk) = Some pk
  /\ node_id p = pk /\ node_id c = ck
  /\ parentId p = None /\ childrenIds p = [ck]
  /\ parentId c = Some pk /\ childrenIds c = []
  /\ isActive p = true /\ isActive c = true
  /\ radius p == 0.02 /\ radius c == 0.02.

(** The store of the two-segment scenario: the head at pressure 0.9, its
    child at pressure 0.1. *)
Definition two_chain (pk ck : string) (p c : PlantNode) (w : World) : Prop :=
  struct_ok w /\ pair_at pk ck p c w
  /\ parentId p = None /\ childrenIds p = [ck]
  /\ parentId c = Some pk /\ childrenIds c = []
  /\ isActive p = true /\ isActive c = true
  /\ radius p == 0.02 /\ radius c == 0.02
  /\ waterPressure p == 0.9 /\ waterPressure c == 0.1.

(** The distance between the pressures of the segments at [pk] and [ck]. *)
Definition pressure_gap (pk ck : string) (w : World) : option Q :=
  match live pk w, live ck w with
  | Some p, Some c => Some (Math_abs (waterPressure p - waterPressure c))
  | _, _ => None
  end.

(** The updates that leave the identifier and the water pressure alone. *)
Definition dry (u : FieldUpdate) : bool :=
  match u with
  | set_node_id _ | set_waterPressure _ => false
  | _ => true
  end.

(** The water pressure of a node, with its identifier. *)
Definition gauge (n : PlantNode) : string * Q := (node_id n, waterPressure n).

(** The gauges of the table, in its order. *)
Definition gauges (w : World) : list (string * (string * Q)) :=
  map (fun kn => (fst kn, gauge (snd kn))) (nodes (state w)).

(** ** A seed that starves without dying *)

(** The seed of the initial state with an empty sugar buffer and a water
    pressure of 0.12, at sugar concentration [c] and health [h]. *)
Definition lone (c h : Q) : PlantNode :=
  {| node_id := "node_1"; node_type := SEED; position := {| x := 0; y := 0 |};
     parentId := None; childrenIds := [];
     radius := CONFIG.SEED_RADIUS; structuralHealth := h;
     waterPressure := 0.12; sugarConcentration := c;
     sugarStore := 0; isActive := true; stressLevel := 0 |}.

(** The store holds a seed of this kind and nothing else, and the growth
    heuristic is off. *)
Definition lone_seed (w : World) : Prop :=
  (exists c h, nodes (state w) = [("node_1", lone c h)])
  /\ autoGrowEnabled w = false.

(** The initial world after [updateNode] has emptied the sugar buffer of
    the seed and set its water pressure to 0.12. *)
Definition dry_seed_world : World :=
  updateNode "node_1" [set_waterPressure 0.12; set_sugarStore 0] seed_world.

(** ** More concrete worlds for the examples *)

(** The seed, a trunk on it, and a leaf and a branch on the trunk. *)
Definition fork_world : World :=
  after (addNode "node_2" BRANCH {| x := 0.25; y := -0.5 |} None
           (after (addNode "node_2" LEAF {| x := 0; y := -0.5 |} None trunk_world))).

(** A rank for [fork_world]: the seed above the trunk, the trunk above
    its two children. *)
Definition fork_rank (k : string) : nat :=
  if String.eqb k "node_1" then 2%nat
  else if String.eqb k "node_2" then 1%nat else 0%nat.

(** The two-segment chain of the flow scenario, made from [trunk_world]
    with [updateNode]. *)
Definition chain_world : World :=
  updateNode "node_1" [set_waterPressure 0.9; set_radius 0.02]
    (updateNode "node_2" [set_waterPressure 0.1; set_radius 0.02] trunk_world).

(** A seed with an empty buffer and little water, three ticks from
    death. *)
Definition withering_world : World :=
  updateNode "node_1"
    [set_waterPressure 0.09; set_sugarStore 0; set_stressLevel 0.99997] seed_world.

(** The seed with a second segment of type SEED on it. *)
Definition twin_world : World :=
  after (addNode "node_1" SEED {| x := 0.25; y := 0 |} None seed_world).

(** The seed, a trunk of radius 100000 on it, and three leaves of the same
    radius on the trunk: the leaves draw the water out of the trunk, whose
    respiration no buffer can pay. *)
Definition heavy_world : World :=
  after (addNode "node_2" LEAF {| x := -0.25; y := -0.5 |} (Some 100000)
    (after (addNode "node_2" LEAF {| x := 0.25; y := -0.5 |} (Some 100000)
      (after (addNode "node_2" LEAF {| x := 0; y := -0.5 |} (Some 100000)
        (after (addNode "node_1" TRUNK {| x := 0; y := -0.25 |} (Some 100000)
                  seed_world))))))).

(** [heavy_world] one tick later, and two ticks later, when the trunk has
    died. *)
Definition sinking_world : World := tick flat flat PI_approx heavy_world.
Definition dead_trunk_world : World := tick flat flat PI_approx sinking_world.

(** [trunk_world] with the trunk out of water and close to death. *)
Definition doomed_world : World :=
  updateNode "node_2" [set_waterPressure 0; set_stressLevel 0.9999] trunk_world.

(** A marker spawned in the initial world. *)
Definition marked_world : World :=
  spawnFlowParticle "node_1" "node_1" xylem (Num 1) seed_world.

(** * Vocabulary of the further properties *)

(** No stored resource is negative. *)
Definition resources_ok (w : World) : Prop :=
  0 <= sugar (resources (state w))
  /\ 0 <= water (resources (state w))
  /\ 0 <= minerals (resources (state w)).

(** The calendar the climate keeps: before the first tick the state is the
    initial one (day 1, a quarter into the day); after [n > 0] ticks the
    progress through the day and the day number are those of tick [n - 1],
    the tick the last update of the climate has seen. *)
Definition calendar (c : ClimateState) : Prop :=
  (0 <= tick_count c)%Z
  /\ (tick_count c = 0%Z -> dayProgress c == 0.25 /\ day c = 1%Z)
  /\ ((0 < tick_count c)%Z ->
      dayProgress c
      == inject_Z ((tick_count c - 1) mod ticksPerDay) / inject_Z ticksPerDay
      /\ day c = (1 + (tick_count c - 1) / ticksPerDay)%Z).

(** The ranges of the weather values. *)
Definition weather_ok (c : ClimateState) : Prop :=
  0 <= sunIntensity c <= 1
  /\ 10 <= temperature c <= 30
  /\ 0.2 <= humidity c <= 0.8
  /\ 0 <= soilWater c <= 1
  /\ 0 <= dayProgress c < 1.

(** ** Flow markers *)

(** A marker spawned with a speed that is a number is on its way
    ([progress] in [0, 1)) at a speed in [0.6, 3]; a marker spawned with
    the speed NaN keeps this speed, and its progress is 0 before the first
    tick and NaN after it. *)
Definition marker_ok (p : FlowParticle) : Prop :=
  match speed p with
  | Num s => 0.6 <= s <= 3 /\ exists c, progress p = Num c /\ 0 <= c < 1
  | NaN => progress p = Num 0 \/ progress p = NaN
  end.

(** The identifier of the [i]-th marker. *)
Definition marker_name (i : nat) : string := "particle_" +:+ pretty i.

(** The markers have distinct identifiers, all handed out before. *)
Definition marker_ids_ok (w : World) : Prop :=
  NoDup (map particle_id (particles w))
  /\ forall p, p ∈ particles w ->
       exists i, (i < nextParticleId w)%nat /\ particle_id p = marker_name i.

(** Every marker whose speed is a number has a speed of 0.6 at least, and
    was either created at or after number [first], or has come as far as
    [c]. *)
Definition aged (first : nat) (c : Q) (w : World) : Prop :=
  (first <= nextParticleId w)%nat
  /\ forall p s, p ∈ particles w -> speed p = Num s ->
       0.6 <= s
       /\ ((exists i, (first <= i < nextParticleId w)%nat
                      /\ particle_id p = marker_name i)
           \/ exists q, progress p = Num q /\ c <= q).

(** ** Growth *)

(** From [w] to [w'] no key has left the store and at most one has been
    added, at the end, under the next identifier. *)
Definition grown (w w' : World) : Prop :=
  (nodes_keys (nodes (state w')) = nodes_keys (nodes (state w))
   /\ nextId w' = nextId w)
  \/ (nodes_keys (nodes (state w'))
      = nodes_keys (nodes (state w)) ++ [node_name (nextId w)]
      /\ nextId w' = S (nextId w)).

(** ** The shape of the plant *)

(** What the store says of the place of a segment: its type, its parent
    and its children. *)
Definition Link : Type := NodeType * option string * list string.

Definition link (n : PlantNode) : Link := (node_type n, parentId n, childrenIds n).

Definition link_of (ns : Nodes) (k : string) : option Link := link <$> nodes_get k ns.

(** A table of links is a tree hanging from [seed]: every child listed is
    in the table and names the lister as its parent; every parent named is
    in the table and lists the namer; no child is listed twice; the seed is
    there, of type [SEED], and is the one segment without a parent; and the
    child links go down a rank, so that there is no cycle. *)
Definition forest_on (seed : string) (T : string -> option Link) : Prop :=
  (forall k t p cs c, T k = Some (t, p, cs) -> c ∈ cs ->
     exists tc cc, T c = Some (tc, Some k, cc))
  /\ (forall k t p cs, T k = Some (t, Some p, cs) ->
        exists tp pp pcs, T p = Some (tp, pp, pcs) /\ k ∈ pcs)
  /\ (forall k t p cs, T k = Some (t, p, cs) -> NoDup cs)
  /\ (exists cs, T seed = Some (SEED, None, cs))
  /\ (forall k t cs, T k = Some (t, None, cs) -> k = seed)
  /\ exists rank : string -> nat,
       forall k t p cs c, T k = Some (t, p, cs) -> c ∈ cs -> (rank c < rank k)%nat.

Definition forest (w : World) : Prop :=
  forest_on (seedId (state w)) (link_of (nodes (state w))).

(** [j] is [k] or lies below it in the table. *)
Inductive below (T : string -> option Link) (k : string) : string -> Prop :=
| below_root : below T k k
| below_child i t q cs j :
    below T k i -> T i = Some (t, q, cs) -> j ∈ cs -> below T k j.

(** The store is a tree hanging from the seed, in terms of the segments:
    every child a segment lists is in the store and names the segment as
    its parent; the parent a segment names is in the store and lists the
    segment; no child is listed twice; the seed is in the store, has type
    [SEED] and is the one segment without a parent; the child links go
    down a rank. *)
Definition tree_shaped (w : World) : Prop :=
  (forall k n c, live k w = Some n -> c ∈ childrenIds n ->
     exists m, live c w = Some m /\ parentId m = Some k)
  /\ (forall k n p, live k w = Some n -> parentId n = Some p ->
        exists m, live p w = Some m /\ k ∈ childrenIds m)
  /\ (forall k n, live k w = Some n -> NoDup (childrenIds n))
  /\ (exists s, live (seedId (state w)) w = Some s
                /\ node_type s = SEED /\ parentId s = None)
  /\ (forall k n, live k w = Some n -> parentId n = None -> k = seedId (state w))
  /\ exists rank : string -> nat,
       forall k n c, live k w = Some n -> c ∈ childrenIds n -> (rank c < rank k)%nat.

(** ** Markers and segments *)

(** [state.nodes[k]] is a segment of the store, or [k] is an inherited
    name. *)
Definition resolves (k : string) (w : World) : Prop :=
  is_Some (live k w) \/ inherited k = true.

(** Every marker runs between two segments of the store, an end with an
    inherited name apart. *)
Definition linked (w : World) : Prop :=
  forall p, p ∈ particles w -> resolves (fromNodeId p) w /\ resolves (toNodeId p) w.

(** Updates that leave the identity and the links of a segment alone. *)
Definition harmless (u : FieldUpdate) : bool :=
  match u with
  | set_node_id _ | set_node_type _ | set_parentId _ | set_childrenIds _ => false
  | _ => true
  end.

(** A well-formed tree whose markers run between its segments. *)
Definition sound (w : World) : Prop := struct_ok w /\ forest w /\ linked w.

(** ** More concrete worlds for the examples *)

(** The seed alone, the growth heuristic switched on and due. *)
Definition keen_world : World := with_autogrow seed_world true 14.

(** The seed with a trunk on it, after the trunk has been removed. *)
Definition pruned_world : World :=
  match removeNode 2 "node_2" trunk_world with
  | Some o => after o
  | None => trunk_world
  end.

(** [marked_world] with a second marker, spawned with the speed NaN. *)
Definition hazy_world : World :=
  spawnFlowParticle "node_1" "node_1" phloem NaN marked_world.

(** The initial world with a marker between two inherited names. *)
Definition astray_world : World :=
  spawnFlowParticle "constructor" "toString" xylem (Num 1) seed_world.

(** The initial world after [setSpeedMultiplier(NaN)]. *)
Definition stalled_world : World := setSpeedMultiplier NaN seed_world.

(** The cosine and the sine of the angle of the 3-4-5 triangle. *)
Definition cos345 (_ : Q) : Q := 0.6.
Definition sin345 (_ : Q) : Q := 0.8.

(** * Basic facts *)

(** ** Numbers *)

Lemma Qleb_true a b : Qleb a b = true <-> a <= b.
Proof. apply Qle_bool_iff. Qed.

Lemma Qleb_false a b : Qleb a b = false <-> b < a.
Proof.
  unfold Qleb. split; intros H.
  - apply Qnot_le_lt. intros Hle. apply Qle_bool_iff in Hle. congruence.
  - destruct (Qle_bool a b) eqn:E; [|reflexivity].
    apply Qle_bool_iff in E. lra.
Qed.

Lemma Qltb_true a b : Qltb a b = true <-> a < b.
Proof.
  unfold Qltb. rewrite negb_true_iff. apply (Qleb_false b a).
Qed.

Lemma Qltb_false a b : Qltb a b = false <-> b <= a.
Proof.
  unfold Qltb. rewrite negb_false_iff. apply (Qleb_true b a).
Qed.

Lemma Math_max_case a b :
  (a <= b /\ Math_max a b = b) \/ (b < a /\ Math_max a b = a).
Proof.
  unfold Math_max. destruct (Qleb a b) eqn:E.
  - left. split; [by apply Qleb_true|done].
  - right. split; [by apply Qleb_false|done].
Qed.

Lemma Math_min_case a b :
  (a <= b /\ Math_min a b = a) \/ (b < a /\ Math_min a b = b).
Proof.
  unfold Math_min. destruct (Qleb a b) eqn:E.
  - left. split; [by apply Qleb_true|done].
  - right. split; [by apply Qleb_false|done].
Qed.

Lemma Math_abs_case a :
  (0 <= a /\ Math_abs a = a) \/ (a < 0 /\ Math_abs a = - a).
Proof.
  unfold Math_abs. destruct (Qleb 0 a) eqn:E.
  - left. split; [by apply Qleb_true|done].
  - right. split; [by apply Qleb_false|done].
Qed.

(** Replace every [Math_max], [Math_min] and [Math_abs] of the goal by one of
    its arguments, with the order fact that selects it. *)
Ltac minmax :=
  repeat match goal with
  | |- context [Math_max ?a ?b] =>
      let H := fresh "Hmax" in
      destruct (Math_max_case a b) as [[H ->]|[H ->]]
  | |- context [Math_min ?a ?b] =>
      let H := fresh "Hmin" in
      destruct (Math_min_case a b) as [[H ->]|[H ->]]
  | |- context [Math_abs ?a] =>
      let H := fresh "Habs" in
      destruct (Math_abs_case a) as [[H ->]|[H ->]]
  | H0 : context [Math_max ?a ?b] |- _ =>
      let H := fresh "Hmax" in let E := fresh "Emax" in
      destruct (Math_max_case a b) as [[H E]|[H E]]; rewrite E in *; clear E
  | H0 : context [Math_min ?a ?b] |- _ =>
      let H := fresh "Hmin" in let E := fresh "Emin" in
      destruct (Math_min_case a b) as [[H E]|[H E]]; rewrite E in *; clear E
  | H0 : context [Math_abs ?a] |- _ =>
      let H := fresh "Habs" in let E := fresh "Eabs" in
      destruct (Math_abs_case a) as [[H E]|[H E]]; rewrite E in *; clear E
  end.

(** Turn boolean comparisons in the hypotheses into order facts. *)
Ltac qbool :=
  repeat match goal with
  | H : Qltb _ _ = true |- _ => apply Qltb_true in H
  | H : Qltb _ _ = false |- _ => apply Qltb_false in H
  | H : Qleb _ _ = true |- _ => apply Qleb_true in H
  | H : Qleb _ _ = false |- _ => apply Qleb_false in H
  | H : _ && _ = true |- _ => apply andb_true_iff in H; destruct H
  | H : negb _ = true |- _ => apply negb_true_iff in H
  | H : negb _ = false |- _ => apply negb_false_iff in H
  end.

(** ** The node table *)

Lemma nodes_get_set_eq k v ns : nodes_get k (nodes_set k v ns) = Some v.
Proof.
  induction ns as [|[k' n] rest IH]; simpl.
  - by rewrite String.eqb_refl.
  - destruct (String.eqb k k') eqn:E; simpl; rewrite E; [done|apply IH].
Qed.

Lemma nodes_get_set_ne k k' v ns :
  k <> k' -> nodes_get k' (nodes_set k v ns) = nodes_get k' ns.
Proof.
  intros Hne. induction ns as [|[k0 n] rest IH]; simpl.
  - apply String.eqb_neq in Hne. rewrite String.eqb_sym in Hne. by rewrite Hne.
  - destruct (String.eqb k k0) eqn:E; simpl.
    + apply String.eqb_eq in E. subst k0.
      assert (String.eqb k' k = false) as -> by (apply String.eqb_neq; congruence).
      done.
    + destruct (String.eqb k' k0); [done|apply IH].
Qed.

Lemma nodes_get_set k k' v ns :
  nodes_get k' (nodes_set k v ns) = if String.eqb k k' then Some v else nodes_get k' ns.
Proof.
  destruct (String.eqb k k') eqn:E.
  - apply String.eqb_eq in E. subst. apply nodes_get_set_eq.
  - apply String.eqb_neq in E. by apply nodes_get_set_ne.
Qed.

Lemma nodes_get_Some_keys k n ns : nodes_get k ns = Some n -> k ∈ nodes_keys ns.
Proof.
  induction ns as [|[k' n'] rest IH]; simpl; [done|].
  destruct (String.eqb k k') eqn:E.
  - apply String.eqb_eq in E. subst. intros _. left.
  - intros H. right. by apply IH.
Qed.

Lemma nodes_get_None_keys k ns : nodes_get k ns = None <-> k ∉ nodes_keys ns.
Proof.
  induction ns as [|[k' n'] rest IH]; simpl.
  - split; [intros _; apply not_elem_of_nil|done].
  - destruct (String.eqb k k') eqn:E.
    + apply String.eqb_eq in E. subst. split; [done|]. intros H. exfalso. apply H. left.
    + apply String.eqb_neq in E. rewrite IH. rewrite not_elem_of_cons. tauto.
Qed.

Lemma nodes_keys_set_present k v ns :
  is_Some (nodes_get k ns) -> nodes_keys (nodes_set k v ns) = nodes_keys ns.
Proof.
  induction ns as [|[k' n'] rest IH]; simpl.
  - intros [? ?]; done.
  - destruct (String.eqb k k') eqn:E; simpl; [done|].
    intros H. f_equal. by apply IH.
Qed.

Lemma nodes_keys_set_absent k v ns :
  nodes_get k ns = None -> nodes_keys (nodes_set k v ns) = nodes_keys ns ++ [k].
Proof.
  induction ns as [|[k' n'] rest IH]; simpl; [done|].
  destruct (String.eqb k k') eqn:E; simpl; [done|].
  intros H. f_equal. by apply IH.
Qed.

Lemma nodes_count_set_present k v ns :
  is_Some (nodes_get k ns) -> nodes_count (nodes_set k v ns) = nodes_count ns.
Proof.
  intros H. unfold nodes_count.
  rewrite <- (length_map fst (nodes_set k v ns)), <- (length_map fst ns).
  change (map fst ?l) with (nodes_keys l). by rewrite nodes_keys_set_present.
Qed.

Lemma nodes_count_set_absent k v ns :
  nodes_get k ns = None -> nodes_count (nodes_set k v ns) = S (nodes_count ns).
Proof.
  intros H. unfold nodes_count.
  rewrite <- (length_map fst (nodes_set k v ns)), <- (length_map fst ns).
  change (map fst ?l) with (nodes_keys l).
  rewrite nodes_keys_set_absent by done. rewrite length_app. simpl. lia.
Qed.

(** ** Identifiers *)

Lemma node_name_inj i j : node_name i = node_name j -> i = j.
Proof.
  unfold node_name. intros H.
  apply (inj (String.app "node_")) in H. by apply (inj pretty) in H.
Qed.

(** * The mutation API of [state.ts] *)

(** ** Names inherited from [Object.prototype] *)

Lemma nodes_at_Some k ns n : nodes_get k ns = Some n -> nodes_at k ns = Segment n.
Proof. unfold nodes_at. by intros ->. Qed.

Lemma nodes_at_None k ns :
  nodes_get k ns = None -> inherited k = false -> nodes_at k ns = Undefined.
Proof. unfold nodes_at. by intros -> ->. Qed.

Lemma nodes_at_Builtin k ns :
  nodes_get k ns = None -> inherited k = true -> nodes_at k ns = Builtin.
Proof. unfold nodes_at. by intros -> ->. Qed.

Lemma nodes_at_Segment k ns n : nodes_at k ns = Segment n -> nodes_get k ns = Some n.
Proof.
  unfold nodes_at. destruct (nodes_get k ns); [by intros [= ->]|].
  by destruct (inherited k).
Qed.

Lemma nodes_at_Undefined k ns :
  nodes_at k ns = Undefined -> nodes_get k ns = None /\ inherited k = false.
Proof.
  unfold nodes_at. destruct (nodes_get k ns); [done|].
  by destruct (inherited k).
Qed.

Lemma Returned_after {A} (o : Outcome A) w a : o = Returned w a -> w = after o.
Proof. by intros ->. Qed.

(** The world a call that returned has left is the world after the call. *)
Ltac returned :=
  match goal with
  | H : addNode _ _ _ _ _ = Returned _ _ |- _ => apply Returned_after in H; subst
  end.

(** An identifier made by [generateId] is no inherited name. *)
Lemma node_name_plain i : inherited (node_name i) = false.
Proof.
  unfold inherited, Object_prototype. cbn [existsb].
  repeat (rewrite (proj2 (String.eqb_neq _ _));
          [|unfold node_name; intros H; cbn in H; discriminate H]).
  done.
Qed.

(** C10.  [setSpeedMultiplier(m)] stores [Math.max(0.1, Math.min(10, m))]
    and changes nothing else.  For a number [m] that is not NaN this is [m]
    clamped to [0.1, 10], so that the stored multiplier lies in [0.1, 10]
    and is positive.  For NaN it is NaN: the stored multiplier is then
    within no range. *)
Theorem setSpeedMultiplier_stores (m : number) (w : World) :
  let w' := setSpeedMultiplier m w in
  speedMultiplier (state w') = Math.max (Num 0.1) (Math.min (Num 10) m)
  /\ match m with
     | Num q =>
         exists v, speedMultiplier (state w') = Num v
                   /\ v == Qmax 0.1 (Qmin 10 q) /\ 0.1 <= v <= 10 /\ 0 < v
     | NaN => speedMultiplier (state w') = NaN
     end
  /\ w' = with_state w (with_speedMultiplier (state w) (speedMultiplier (state w'))).
Proof.
  cbv zeta. split; [done|]. split; [|done].
  destruct m as [q|]; [|done].
  eexists. split; [reflexivity|]. split; [|split].
  - destruct (Q.max_spec 0.1 (Qmin 10 q)) as [[H1 H1']|[H1 H1']];
      destruct (Q.min_spec 10 q) as [[H2 H2']|[H2 H2']];
      minmax; lra.
  - minmax; lra.
  - minmax; lra.
Qed.

Lemma addNode_rejected parentId0 t pos r w :
  addNode_rejects parentId0 t w -> addNode parentId0 t pos r w = Returned w None.
Proof.
  unfold addNode_rejects, addNode. intros [H|H].
  - by rewrite H.
  - apply Qltb_true in H. rewrite H. by destruct (nodes_at _ _).
Qed.

Lemma extendNode_rejected nodeId dir w :
  extendNode_rejects nodeId w -> extendNode nodeId dir w = (w, None).
Proof.
  unfold extendNode_rejects, extendNode.
  destruct (nodes_get nodeId (nodes (state w))) as [node|]; [|done].
  intros [H|[H|H]].
  - by rewrite H.
  - by rewrite H.
  - apply Qltb_true in H. rewrite H. by destruct (node_type node).
Qed.

(** A rejected structural mutation is atomic: when [addNode] refuses
    ([state.nodes[parentId]] is [undefined], or there is not enough sugar)
    or [extendNode] refuses (missing target, wrong type, or not enough
    sugar), the call returns no segment and the world it returns is the
    world it was given. *)
Lemma rejected_mutation_atomic (w : World) :
  (forall parentId0 t pos r,
      addNode_rejects parentId0 t w -> addNode parentId0 t pos r w = Returned w None)
  /\ (forall nodeId dir,
         extendNode_rejects nodeId w -> extendNode nodeId dir w = (w, None)).
Proof.
  split; intros.
  - by apply addNode_rejected.
  - by apply extendNode_rejected.
Qed.

(** [addNode] with a parent id that names nothing or with less sugar than
    the cost of the type returns no segment and leaves the world unchanged;
    with the parent in the store and the sugar at least the cost it returns
    the new segment, lowers the stored sugar by exactly the cost and raises
    the segment count by exactly one.  The identifier about to be generated
    must be unused, which holds in every world built by the API (see
    [reachable_fresh]). *)
Lemma addNode_spec (parentId0 : string) (t : NodeType) (pos : Vec2)
    (r : option Q) (w : World) :
  (addNode_rejects parentId0 t w -> addNode parentId0 t pos r w = Returned w None)
  /\ (is_Some (nodes_get parentId0 (nodes (state w))) ->
      getNodeCost t <= sugar (resources (state w)) ->
      nodes_get (node_name (nextId w)) (nodes (state w)) = None ->
      let w' := after (addNode parentId0 t pos r w) in
      (exists node, returned (addNode parentId0 t pos r w) = Some (Some node)
                    /\ nodes_get (node_id node) (nodes (state w')) = Some node)
      /\ sugar (resources (state w')) == sugar (resources (state w)) - getNodeCost t
      /\ nodes_count (nodes (state w')) = S (nodes_count (nodes (state w)))).
Proof.
  split; [apply addNode_rejected|].
  intros [parent Hp] Hcost Hfresh. unfold addNode.
  rewrite (nodes_at_Some _ _ _ Hp).
  apply Qltb_false in Hcost. rewrite Hcost.
  cbn [generateId fst snd state with_nextId with_state with_nodes with_resources
       nodes resources sugar with_sugar node_id after returned].
  assert (node_name (nextId w) <> parentId0) as Hne.
  { intros E. rewrite E in Hfresh. congruence. }
  assert (String.eqb (node_name (nextId w)) parentId0 = false) as ->
    by by apply String.eqb_neq.
  split; [|split].
  - eexists. split; [done|]. cbn [node_id].
    rewrite nodes_get_set_ne by done. apply nodes_get_set_eq.
  - reflexivity.
  - rewrite nodes_count_set_present.
    + by apply nodes_count_set_absent.
    + rewrite nodes_get_set_ne by done. by rewrite Hp.
Qed.

(** The loop over the children in [extendNode]: every key keeps a node;
    the nodes of the listed children point to the new node and are
    otherwise as before, up to their position; the other nodes are
    untouched. *)
Lemma reparent_fold newId dir cs ns k n :
  nodes_get k ns = Some n ->
  exists n', nodes_get k (fold_left (reparent newId dir) cs ns) = Some n'
    /\ node_id n' = node_id n /\ node_type n' = node_type n
    /\ childrenIds n' = childrenIds n /\ radius n' = radius n
    /\ structuralHealth n' = structuralHealth n
    /\ waterPressure n' = waterPressure n
    /\ sugarConcentration n' = sugarConcentration n
    /\ sugarStore n' = sugarStore n
    /\ isActive n' = isActive n /\ stressLevel n' = stressLevel n
    /\ (k ∈ cs -> parentId n' = Some newId)
    /\ (k ∉ cs -> n' = n).
Proof.
  revert ns n. induction cs as [|c cs IH]; intros ns n Hk; simpl.
  - exists n. repeat split; try done. intros H. by apply elem_of_nil in H.
  - unfold reparent at 2.
    destruct (nodes_get c ns) as [child|] eqn:Hc.
    + destruct (String.eqb c k) eqn:E.
      * apply String.eqb_eq in E. subst c.
        assert (child = n) as -> by congruence.
        edestruct (IH (nodes_set k
                         (Object_assign n
                            [set_parentId (Some newId);
                             set_position (shift (position n) dir)]) ns))
          as (n' & Hn' & H1 & H2 & H3 & H4 & H5 & H6 & H7 & H8 & H9 & H10 & H11 & H12).
        { apply nodes_get_set_eq. }
        exists n'. split; [exact Hn'|]. simpl in *.
        repeat split; try done.
        -- intros _. destruct (decide (k ∈ cs)) as [Hin|Hin]; [by apply H11|].
           rewrite (H12 Hin). done.
        -- intros Hnot. exfalso. apply Hnot. left.
      * apply String.eqb_neq in E.
        edestruct (IH (nodes_set c
                         (Object_assign child
                            [set_parentId (Some newId);
                             set_position (shift (position child) dir)]) ns) n)
          as (n' & Hn' & H1 & H2 & H3 & H4 & H5 & H6 & H7 & H8 & H9 & H10 & H11 & H12).
        { by rewrite nodes_get_set_ne. }
        exists n'. split; [exact Hn'|].
        repeat split; try done.
        -- intros Hin. apply elem_of_cons in Hin as [->|Hin]; [done|by apply H11].
        -- intros Hnot. apply H12. intros Hin. apply Hnot. by right.
    + destruct (IH ns n Hk)
        as (n' & Hn' & H1 & H2 & H3 & H4 & H5 & H6 & H7 & H8 & H9 & H10 & H11 & H12).
      exists n'. split; [exact Hn'|].
      repeat split; try done.
      * intros Hin. apply elem_of_cons in Hin as [->|Hin]; [congruence|by apply H11].
      * intros Hnot. apply H12. intros Hin. apply Hnot. by right.
Qed.

Lemma reparent_fold_None newId dir cs ns k :
  nodes_get k ns = None ->
  nodes_get k (fold_left (reparent newId dir) cs ns) = None.
Proof.
  revert ns. induction cs as [|c cs IH]; intros ns Hk; simpl; [done|].
  apply IH. unfold reparent. destruct (nodes_get c ns) eqn:Hc; [|done].
  rewrite nodes_get_set_ne; [done|]. intros ->. congruence.
Qed.

(** C3.  [extendNode] on a trunk, branch or root whose child list is
    [[c1; c2]], with enough sugar: the original segment ends with exactly
    one child, the new segment; the new segment has the type of the
    original and the children [[c1; c2]]; [c1] and [c2] point to the new
    segment as their parent.  The two children are segments of the store
    and the identifier about to be generated is unused (see
    [reachable_fresh]). *)
Theorem extendNode_two_children (nodeId : string) (dir : Vec2) (w : World)
    (node : PlantNode) (c1 c2 : string) :
  nodes_get nodeId (nodes (state w)) = Some node ->
  node_type node = TRUNK \/ node_type node = BRANCH \/ node_type node = ROOT ->
  childrenIds node = [c1; c2] ->
  getNodeCost (node_type node) <= sugar (resources (state w)) ->
  is_Some (nodes_get c1 (nodes (state w))) ->
  is_Some (nodes_get c2 (nodes (state w))) ->
  nodes_get (node_name (nextId w)) (nodes (state w)) = None ->
  let w' := fst (extendNode nodeId dir w) in
  exists new,
    snd (extendNode nodeId dir w) = Some new
    /\ node_type new = node_type node
    /\ nodes_get (node_id new) (nodes (state w')) = Some new
    /\ childrenIds new = [c1; c2]
    /\ (exists node', nodes_get nodeId (nodes (state w')) = Some node'
                      /\ childrenIds node' = [node_id new])
    /\ (exists n1, nodes_get c1 (nodes (state w')) = Some n1
                   /\ parentId n1 = Some (node_id new))
    /\ (exists n2, nodes_get c2 (nodes (state w')) = Some n2
                   /\ parentId n2 = Some (node_id new)).
Proof.
  intros Hnode Htype Hch Hcost [n1 H1] [n2 H2] Hfresh.
  assert (node_name (nextId w) <> nodeId) as Hne0
    by (intros E; rewrite E in Hfresh; congruence).
  assert (node_name (nextId w) <> c1) as Hne1
    by (intros E; rewrite E in Hfresh; congruence).
  assert (node_name (nextId w) <> c2) as Hne2
    by (intros E; rewrite E in Hfresh; congruence).
  set (new := node_name (nextId w)) in *.
  unfold extendNode. rewrite Hnode.
  apply Qltb_false in Hcost. rewrite Hcost.
  assert (forall k n, nodes_get k (nodes (state w)) = Some n ->
            exists n', nodes_get k
                         (fold_left (reparent new dir) [c1; c2] (nodes (state w)))
                       = Some n'
                       /\ childrenIds n' = childrenIds n
                       /\ (k ∈ [c1; c2] -> parentId n' = Some new)) as Hfold.
  { intros k n Hk.
    destruct (reparent_fold new dir [c1; c2] _ k n Hk)
      as (n' & Hn' & _ & _ & ? & _ & _ & _ & _ & _ & _ & _ & ? & _).
    by exists n'. }
  destruct (Hfold nodeId node Hnode) as (node' & Hnode' & Hch' & _).
  destruct (Hfold c1 n1 H1) as (n1' & Hn1' & _ & Hp1).
  destruct (Hfold c2 n2 H2) as (n2' & Hn2' & _ & Hp2).
  assert (parentId n1' = Some new) as Hp1' by (apply Hp1; left).
  assert (parentId n2' = Some new) as Hp2' by (apply Hp2; right; left).
  assert (exists t, node_type node = t /\ (t = TRUNK \/ t = BRANCH \/ t = ROOT))
    as (t & Et & Ht) by eauto.
  rewrite Hch.
  cbn [generateId fst snd state with_nextId with_state with_nodes with_resources
       nodes resources sugar with_sugar].
  fold new. rewrite Hnode'.
  assert (forall k,
            nodes_get k
              (nodes_set new
                 {| node_id := new; node_type := node_type node;
                    position := shift (position node) dir;
                    parentId := Some nodeId; childrenIds := [c1; c2];
                    radius := radius node * 0.95; structuralHealth := 1.0;
                    waterPressure := waterPressure node * 0.98;
                    sugarConcentration := sugarConcentration node * 0.98;
                    sugarStore := 0; isActive := true; stressLevel := 0 |}
                 (nodes_set nodeId (assign_field node' (set_childrenIds [new]))
                    (fold_left (reparent new dir) [c1; c2] (nodes (state w)))))
            = if String.eqb new k
              then Some {| node_id := new; node_type := node_type node;
                           position := shift (position node) dir;
                           parentId := Some nodeId; childrenIds := [c1; c2];
                           radius := radius node * 0.95; structuralHealth := 1.0;
                           waterPressure := waterPressure node * 0.98;
                           sugarConcentration := sugarConcentration node * 0.98;
                           sugarStore := 0; isActive := true; stressLevel := 0 |}
              else if String.eqb nodeId k
                   then Some (assign_field node' (set_childrenIds [new]))
                   else nodes_get k
                          (fold_left (reparent new dir) [c1; c2] (nodes (state w))))
    as Hget.
  { intros k. by rewrite !nodes_get_set. }
  assert (forall k, new <> k -> String.eqb new k = false) as Hneq
    by (intros k Hk; by apply String.eqb_neq).
  destruct Ht as [Ht|[Ht|Ht]]; rewrite Et, Ht;
    cbn [fst snd state with_state with_nodes with_resources nodes];
    (eexists; split; [reflexivity|]; cbn [node_id node_type childrenIds];
     split; [congruence|];
     split; [rewrite <- Ht, <- Et, Hget, String.eqb_refl; by rewrite Et, Ht|];
     split; [done|];
     split; [exists (assign_field node' (set_childrenIds [new]));
             rewrite <- Ht, <- Et, Hget, (Hneq _ Hne0), String.eqb_refl; done|];
     split;
     [ rewrite <- Ht, <- Et, Hget, (Hneq _ Hne1);
       destruct (String.eqb nodeId c1) eqn:E;
       [ apply String.eqb_eq in E; subst c1;
         exists (assign_field node' (set_childrenIds [new])); split; [done|];
         simpl; congruence
       | by exists n1' ]
     | rewrite <- Ht, <- Et, Hget, (Hneq _ Hne2);
       destruct (String.eqb nodeId c2) eqn:E;
       [ apply String.eqb_eq in E; subst c2;
         exists (assign_field node' (set_childrenIds [new])); split; [done|];
         simpl; congruence
       | by exists n2' ] ]).
Qed.

(** * Flow particles *)

Lemma connectionCount_insert cs key v key' :
  connectionCount (<[key := v]> cs) key'
  = if decide (key = key') then v else connectionCount cs key'.
Proof.
  unfold connectionCount. rewrite lookup_insert. by case_decide.
Qed.

Lemma connectionCount_delete (cs : gmap string nat) key key' :
  connectionCount (delete key cs) key'
  = if decide (key = key') then 0%nat else connectionCount cs key'.
Proof.
  unfold connectionCount. rewrite lookup_delete. by case_decide.
Qed.

Lemma connectionCount_decrement a b cs key :
  connectionCount (decrementConnectionCount a b cs) key
  = if decide (connectionKey a b = key)
    then (connectionCount cs key - 1)%nat else connectionCount cs key.
Proof.
  unfold decrementConnectionCount.
  destruct (Nat.leb_spec (connectionCount cs (connectionKey a b)) 1).
  - rewrite connectionCount_delete. case_decide; [subst; lia|done].
  - rewrite connectionCount_insert. case_decide; [by subst|done].
Qed.

Lemma live_on_key_cons key p ps :
  live_on_key key (p :: ps)
  = ((if decide (connectionKey (fromNodeId p) (toNodeId p) = key) then 1 else 0)
     + live_on_key key ps)%nat.
Proof.
  unfold live_on_key. rewrite filter_cons.
  destruct (decide (connectionKey (fromNodeId p) (toNodeId p) = key)) as [E|E].
  - rewrite decide_True; [done|].
    unfold on_key. rewrite E, String.eqb_refl. done.
  - rewrite decide_False; [done|].
    unfold on_key. intros H. apply Is_true_true in H.
    by apply String.eqb_eq in H.
Qed.

Lemma live_on_key_app key ps qs :
  live_on_key key (ps ++ qs) = (live_on_key key ps + live_on_key key qs)%nat.
Proof. unfold live_on_key. by rewrite filter_app, length_app. Qed.

(** The filter of [updateParticles] keeps the cached counts in step with
    the markers it keeps; [base] stands for the markers already kept. *)
Lemma filterParticles_counts ns ps : forall cs (base : string -> nat),
  (forall key, connectionCount cs key = (base key + live_on_key key ps)%nat) ->
  (forall key,
      connectionCount (snd (filterParticles ns ps cs)) key
      = (base key + live_on_key key (fst (filterParticles ns ps cs)))%nat)
  /\ (length (fst (filterParticles ns ps cs)) <= length ps)%nat
  /\ (forall key, (live_on_key key (fst (filterParticles ns ps cs))
                   <= live_on_key key ps)%nat).
Proof.
  induction ps as [|p ps IH]; intros cs base Hcs; cbn [filterParticles].
  - simpl. split; [|split]; [|lia|intros; lia]. intros key. by rewrite Hcs.
  - assert (forall key,
              connectionCount (decrementConnectionCount (fromNodeId p) (toNodeId p) cs) key
              = (base key + live_on_key key ps)%nat) as Hdrop.
    { intros key. rewrite connectionCount_decrement, Hcs, live_on_key_cons.
      case_decide; lia. }
    assert (forall key,
              connectionCount cs key
              = ((base key
                  + (if decide (connectionKey (fromNodeId p) (toNodeId p) = key)
                     then 1 else 0))
                 + live_on_key key ps)%nat) as Hkeep.
    { intros key. rewrite Hcs, live_on_key_cons. lia. }
    assert (let r := filterParticles ns ps
                       (decrementConnectionCount (fromNodeId p) (toNodeId p) cs) in
            (forall key, connectionCount (snd r) key
                         = (base key + live_on_key key (fst r))%nat)
            /\ (length (fst r) <= length (p :: ps))%nat
            /\ (forall key, (live_on_key key (fst r)
                             <= live_on_key key (p :: ps))%nat)) as Hdropped.
    { destruct (IH _ _ Hdrop) as (H1 & H2 & H3).
      split; [exact H1|split; [simpl; lia|]].
      intros key. specialize (H3 key). rewrite live_on_key_cons. lia. }
    destruct (present _ && present _); [|exact Hdropped].
    destruct (geq _ _); [exact Hdropped|].
    destruct (IH _ _ Hkeep) as (H1 & H2 & H3).
    destruct (filterParticles ns ps cs) as [kept cs'] eqn:E.
    cbn [fst snd] in *.
    split; [|split; [simpl; lia|]].
    + intros key. rewrite H1, live_on_key_cons. cbn [fromNodeId toNodeId advance]. lia.
    + intros key. specialize (H3 key). rewrite !live_on_key_cons.
      cbn [fromNodeId toNodeId advance]. lia.
Qed.

Lemma particles_inv_updateParticles w :
  particles_inv w -> particles_inv (updateParticles w).
Proof.
  intros [Hlen Hkeys]. unfold updateParticles.
  destruct (filterParticles_counts (nodes (state w)) (particles w)
              (connectionParticleCounts w) (fun _ => 0%nat)) as (H1 & H2 & H3).
  { intros key. by destruct (Hkeys key) as [-> _]. }
  destruct (filterParticles _ _ _) as [ps cs].
  cbn [fst snd] in *.
  split; cbn [particles connectionParticleCounts with_particles]; [lia|].
  intros key. split; [apply H1|].
  specialize (H3 key). destruct (Hkeys key). lia.
Qed.

Lemma particles_inv_spawn a b t s w :
  particles_inv w -> particles_inv (spawnFlowParticle a b t s w).
Proof.
  intros [Hlen Hkeys]. unfold spawnFlowParticle.
  destruct (Nat.leb_spec MAX_TOTAL_PARTICLES (length (particles w))); [done|].
  destruct (Nat.leb_spec MAX_PARTICLES_PER_CONNECTION
              (connectionCount (connectionParticleCounts w) (connectionKey a b)));
    [done|].
  assert (forall key, live_on_key key [] = 0%nat) as Hnil by done.
  split; cbn [particles connectionParticleCounts with_particles].
  - rewrite length_app. simpl. lia.
  - intros key. rewrite connectionCount_insert, live_on_key_app, live_on_key_cons.
    cbn [fromNodeId toNodeId]. destruct (Hkeys key) as [Hc Hcap].
    rewrite Hnil. case_decide as Hk.
    + subst key. lia.
    + lia.
Qed.

Lemma particles_inv_clear w : particles_inv (clearParticles w).
Proof.
  split; simpl; [unfold MAX_TOTAL_PARTICLES; lia|].
  intros key. unfold connectionCount, live_on_key. rewrite lookup_empty. simpl.
  split; [done|lia].
Qed.

Lemma particles_inv_same w w' :
  particles w' = particles w ->
  connectionParticleCounts w' = connectionParticleCounts w ->
  particles_inv w -> particles_inv w'.
Proof. unfold particles_inv. intros -> ->. done. Qed.

(** The markers of a pair are among the markers of its connection key. *)
Lemma markers_on_le_key source destination w :
  (markers_on source destination w
   <= live_on_key (connectionKey source destination) (particles w))%nat.
Proof.
  unfold markers_on, live_on_key.
  induction (particles w) as [|p ps IH]; [done|].
  rewrite !filter_cons.
  destruct (decide (on_pair source destination p)) as [Hp|Hp];
    destruct (decide (on_key (connectionKey source destination) p)) as [Hk|Hk];
    simpl; try lia.
  exfalso. apply Hk. unfold on_pair in Hp. unfold on_key.
  apply andb_prop_elim in Hp as [H1 H2].
  apply Is_true_true in H1, H2.
  apply String.eqb_eq in H1, H2. rewrite H1, H2, String.eqb_refl. done.
Qed.

(** * Primitive steps of the systems *)

(** ** [updateNode] and [Object.assign] *)

Lemma updateNode_absent k us w : live k w = None -> updateNode k us w = w.
Proof. unfold live, updateNode. by intros ->. Qed.

Lemma updateNode_nodes k us w n :
  live k w = Some n ->
  nodes (state (updateNode k us w))
  = nodes_set k (Object_assign n us) (nodes (state w)).
Proof. unfold live, updateNode. by intros ->. Qed.

Lemma updateNode_live k us w k' :
  live k' (updateNode k us w)
  = if String.eqb k k'
    then (fun n => Object_assign n us) <$> live k w
    else live k' w.
Proof.
  destruct (live k w) as [n|] eqn:Hk.
  - unfold live at 1. rewrite (updateNode_nodes _ _ _ _ Hk), nodes_get_set.
    by destruct (String.eqb k k').
  - rewrite updateNode_absent by done.
    destruct (String.eqb_spec k k') as [E|]; [|done]. subst k'. exact Hk.
Qed.

Lemma updateNode_keys k us w :
  nodes_keys (nodes (state (updateNode k us w))) = nodes_keys (nodes (state w)).
Proof.
  destruct (live k w) as [n|] eqn:Hk.
  - rewrite (updateNode_nodes _ _ _ _ Hk). apply nodes_keys_set_present.
    unfold live in Hk. by rewrite Hk.
  - by rewrite updateNode_absent.
Qed.

Lemma updateNode_rest k us w :
  nextId (updateNode k us w) = nextId w
  /\ particles (updateNode k us w) = particles w
  /\ connectionParticleCounts (updateNode k us w) = connectionParticleCounts w
  /\ resources (state (updateNode k us w)) = resources (state w)
  /\ climate (state (updateNode k us w)) = climate (state w)
  /\ entropy (updateNode k us w) = entropy w
  /\ rolls (updateNode k us w) = rolls w.
Proof. unfold updateNode. by destruct (nodes_get k (nodes (state w))). Qed.

(** The fields an update of the soft kind leaves alone. *)
Lemma assign_soft us : forall n,
  forallb soft us = true ->
  node_id (Object_assign n us) = node_id n
  /\ node_type (Object_assign n us) = node_type n
  /\ position (Object_assign n us) = position n
  /\ parentId (Object_assign n us) = parentId n
  /\ childrenIds (Object_assign n us) = childrenIds n
  /\ radius (Object_assign n us) = radius n
  /\ isActive (Object_assign n us) = isActive n.
Proof.
  unfold Object_assign. induction us as [|u us IH]; intros n H; simpl; [done|].
  simpl in H. apply andb_true_iff in H as [Hu Hus].
  destruct (IH (assign_field n u) Hus) as (-> & -> & -> & -> & -> & -> & ->).
  by destruct u.
Qed.

Lemma fluid_soft us : forallb fluid us = true -> forallb soft us = true.
Proof.
  induction us as [|u us IH]; simpl; [done|].
  intros H. apply andb_true_iff in H as [Hu Hus].
  rewrite IH by done. by destruct u.
Qed.

Lemma assign_fluid us : forall n,
  forallb fluid us = true ->
  structuralHealth (Object_assign n us) = structuralHealth n
  /\ stressLevel (Object_assign n us) = stressLevel n.
Proof.
  unfold Object_assign. induction us as [|u us IH]; intros n H; simpl; [done|].
  simpl in H. apply andb_true_iff in H as [Hu Hus].
  destruct (IH (assign_field n u) Hus) as (-> & ->).
  by destruct u.
Qed.

(** What a system update keeps. *)
Lemma system_update_keeps n us :
  system_update true (isActive n) us ->
  node_id (Object_assign n us) = node_id n
  /\ node_type (Object_assign n us) = node_type n
  /\ position (Object_assign n us) = position n
  /\ parentId (Object_assign n us) = parentId n
  /\ childrenIds (Object_assign n us) = childrenIds n
  /\ radius (Object_assign n us) = radius n.
Proof.
  intros [H|[_ [_ [H| ->]]]].
  - apply fluid_soft in H.
    destruct (assign_soft us n H) as (? & ? & ? & ? & ? & ? & ?). done.
  - destruct (assign_soft us n H) as (? & ? & ? & ? & ? & ? & ?). done.
  - done.
Qed.

(** A system update of a dead node leaves it dead, and no system update
    makes an inactive node without health 0 and stress 1. *)
Lemma system_update_dead n us :
  system_update true (isActive n) us ->
  (dead n -> dead (Object_assign n us))
  /\ (isActive (Object_assign n us) = false ->
      isActive n = false \/ dead (Object_assign n us)).
Proof.
  intros [H|[_ [Hact [H| ->]]]].
  - destruct (assign_fluid us n H) as (Eh & Es).
    destruct (assign_soft us n (fluid_soft _ H)) as (_ & _ & _ & _ & _ & _ & Ea).
    unfold dead. rewrite Eh, Es, Ea. split; [done|]. intros ?. by left.
  - destruct (assign_soft us n H) as (_ & _ & _ & _ & _ & _ & Ea).
    unfold dead. rewrite Ea, Hact. split; [intros [? _]; done|]. done.
  - split; intros; [done|]. by right.
Qed.

(** ** Invariants of the primitive steps *)

Lemma prim_keys w w' :
  prim w w' ->
  nodes_keys (nodes (state w')) = nodes_keys (nodes (state w))
  /\ nextId w' = nextId w.
Proof.
  intros [w1 w2 (En & Ei & _)|w1 k n us Hk _ _ _|w1 a b t s|w1].
  - by rewrite En, Ei.
  - split; [apply updateNode_keys|apply updateNode_rest].
  - unfold spawnFlowParticle. by repeat case_match.
  - unfold updateParticles. by destruct (filterParticles _ _ _).
Qed.

Lemma spawn_nodes a b t s w :
  nodes (state (spawnFlowParticle a b t s w)) = nodes (state w).
Proof. unfold spawnFlowParticle. by repeat case_match. Qed.

Lemma updateParticles_nodes w :
  nodes (state (updateParticles w)) = nodes (state w).
Proof. unfold updateParticles. by destruct (filterParticles _ _ _). Qed.

(** The node stored under a key after a primitive step. *)
Lemma prim_live w w' k' :
  prim w w' ->
  live k' w' = live k' w
  \/ exists n us, live k' w = Some n /\ live k' w' = Some (Object_assign n us)
                  /\ isActive n = true
                  /\ system_update true (isActive n) us
                  /\ (world_mid w -> node_mid (Object_assign n us)).
Proof.
  intros [w1 w2 (En & _)|w1 k n us Hk Ha Hu Hr|w1 a b t s|w1].
  - left. unfold live. by rewrite En.
  - rewrite updateNode_live. destruct (String.eqb_spec k k') as [->|]; [|by left].
    right. exists n, us. rewrite Hk. done.
  - left. unfold live. by rewrite spawn_nodes.
  - left. unfold live. by rewrite updateParticles_nodes.
Qed.

Lemma prim_struct_ok w w' : prim w w' -> struct_ok w -> struct_ok w'.
Proof.
  intros Hp (Hwf & Hids & Hfresh).
  destruct (prim_keys _ _ Hp) as [Ek Ei].
  split; [|split].
  - unfold nodes_wf. by rewrite Ek.
  - intros k n Hk. destruct (prim_live _ _ k Hp) as [E|(n0 & us & H0 & H1 & _ & Hu & _)].
    + apply Hids. unfold live in E. by rewrite <- E.
    + unfold live in H1. rewrite H1 in Hk. injection Hk as <-.
      destruct (system_update_keeps _ _ Hu) as (-> & _). by apply Hids.
  - unfold ids_fresh. by rewrite Ek, Ei.
Qed.

Lemma prim_particles_inv w w' : prim w w' -> particles_inv w -> particles_inv w'.
Proof.
  intros [w1 w2 (_ & _ & Ep & Ec)|w1 k n us Hk _ _ _|w1 a b t s|w1] H.
  - by apply (particles_inv_same w1).
  - apply (particles_inv_same w1); [apply updateNode_rest..|done].
  - by apply particles_inv_spawn.
  - by apply particles_inv_updateParticles.
Qed.

Lemma prim_world_mid w w' : prim w w' -> world_mid w -> world_mid w'.
Proof.
  intros Hp Hok k n Hk.
  destruct (prim_live _ _ k Hp) as [E|(n0 & us & H0 & H1 & _ & _ & Hr)].
  - apply (Hok k). by rewrite <- E.
  - rewrite H1 in Hk. injection Hk as <-. by apply Hr.
Qed.

(** The systems leave the inactive nodes as they are. *)
Lemma prim_inactive w w' k n :
  prim w w' -> live k w = Some n -> isActive n = false -> live k w' = Some n.
Proof.
  intros Hp Hk Hin.
  destruct (prim_live _ _ k Hp) as [E|(n0 & us & H0 & _ & Ha & _)].
  - by rewrite E.
  - rewrite Hk in H0. injection H0 as <-. congruence.
Qed.

Lemma prim_dead_consistent w w' :
  prim w w' -> dead_consistent w -> dead_consistent w'.
Proof.
  intros Hp Hd k n Hk Hin.
  destruct (prim_live _ _ k Hp) as [E|(n0 & us & H0 & H1 & _ & Hu & _)].
  - apply (Hd k); [by rewrite <- E|done].
  - rewrite H1 in Hk. injection Hk as <-.
    destruct (system_update_dead _ _ Hu) as [Hkeep Hnew].
    destruct (Hnew Hin) as [H|H]; [|done].
    apply Hkeep. by apply (Hd k).
Qed.

Lemma prim_stays_dead k w w' : prim w w' -> stays_dead k w -> stays_dead k w'.
Proof.
  intros Hp [Hi Hd]. destruct (prim_keys _ _ Hp) as [_ Ei].
  split; [by rewrite Ei|]. intros n Hk.
  destruct (prim_live _ _ k Hp) as [E|(n0 & us & H0 & H1 & _ & Hu & _)].
  - apply Hd. by rewrite <- E.
  - rewrite H1 in Hk. injection Hk as <-.
    by apply (system_update_dead _ _ Hu), Hd.
Qed.

(** Invariants of the steps are invariants of their sequences. *)
Lemma rtc_preserves {A} (R : A -> A -> Prop) (P : A -> Prop) :
  (forall a b, R a b -> P a -> P b) ->
  forall a b, rtc R a b -> P a -> P b.
Proof. intros Hstep a b H. induction H; eauto. Qed.

(** * The systems as sequences of primitive steps *)

Lemma ids_of w k n : struct_ok w -> live k w = Some n -> node_id n = k.
Proof. intros (_ & Hids & _) Hk. by apply Hids. Qed.

Lemma same_core_random w : same_core w (snd (Math_random w)).
Proof. done. Qed.

Lemma same_core_modifyResources d w : same_core w (modifyResources d w).
Proof. done. Qed.

Lemma prims_roll_spawn v c p a b t s w :
  rtc (primv v) w (roll_spawn c p a b t s w).
Proof.
  unfold roll_spawn. destruct c; [|apply rtc_refl].
  destruct (Math_random w) as [r w1] eqn:E.
  assert (primv v w w1) as H1.
  { apply prim_frame. replace w1 with (snd (Math_random w)) by by rewrite E.
    apply same_core_random. }
  destruct (Qltb r p).
  - eapply rtc_l; [exact H1|]. apply rtc_once, prim_spawn.
  - by apply rtc_once.
Qed.

(** After an update of its own node, a body reads the updated node. *)
Lemma reread_updated k node us w :
  live k w = Some node ->
  reread k node (updateNode k us w) = Object_assign node us.
Proof.
  intros Hk. unfold reread. rewrite updateNode_live, String.eqb_refl, Hk. done.
Qed.

Lemma reread_live k node w : live k w = Some node -> reread k node w = node.
Proof. intros Hk. unfold reread. by rewrite Hk. Qed.

(** Range facts of the node stored under [k], for [lra]. *)
Ltac ranges Hok Hk :=
  let H := fresh "Hrange" in
  pose proof (Hok _ _ Hk) as H;
  destruct H as (? & ? & ? & ? & ?).

(** The goal [node_mid (Object_assign n us)] by arithmetic. *)
Ltac in_range :=
  unfold node_mid; cbn [Object_assign fold_left assign_field
    waterPressure sugarConcentration structuralHealth stressLevel radius];
  unfold CONFIG.TRANSPIRATION_RATE, CONFIG.ROOT_UPTAKE_RATE,
    CONFIG.WATER_FLOW_RATE, CONFIG.FLOW_THRESHOLD, CONFIG.SUGAR_DIFFUSION_RATE,
    CONFIG.NODE_RESPIRATION_COST, CONFIG.PHOTOSYNTHESIS_RATE,
    CONFIG.WATER_PER_SUGAR, CONFIG.MIN_WATER_FOR_PHOTOSYNTHESIS,
    CONFIG.STARVATION_STRESS_RATE, CONFIG.DEHYDRATION_STRESS_RATE,
    CONFIG.HEALTH_RECOVERY_RATE, CONFIG.STRESS_DEATH_THRESHOLD in *;
  qbool; minmax; repeat split; try lra; try nra.

(** Split off the update made on the current world [w]. *)
Ltac first_update w :=
  match goal with
  | |- rtc (primv ?v) w ?t =>
      match t with
      | context [updateNode ?k ?us w] => apply (rtc_l (primv v) w (updateNode k us w))
      end
  end.

Lemma transpiration_prims v tf k node w :
  struct_ok w -> live k w = Some node ->
  rtc (primv v) w (transpirationBody tf k node w).
Proof.
  intros Hs Hk. unfold transpirationBody. rewrite (ids_of _ _ _ Hs Hk).
  destruct (isActive node) eqn:Ha; cbn [negb]; [|apply rtc_refl].
  destruct (_ || _); [|apply rtc_refl].
  destruct (Qltb 0.15 (waterPressure node)) eqn:E1; [|apply rtc_refl].
  destruct (Qltb 0 _) eqn:E2; [|apply rtc_refl].
  first_update w.
  - apply (prim_update w k node); [done|done|left; reflexivity|].
    intros Hok. ranges Hok Hk. in_range.
  - destruct (truthy _); [apply prims_roll_spawn|apply rtc_refl].
Qed.

Lemma rootUptake_prims v k root w :
  struct_ok w -> live k w = Some root ->
  rtc (primv v) w (rootUptakeBody k root w).
Proof.
  intros Hs Hk. unfold rootUptakeBody. rewrite (ids_of _ _ _ Hs Hk).
  destruct (isActive root) eqn:Ha; cbn [negb]; [|apply rtc_refl].
  destruct (_ && _) eqn:E1; [|apply rtc_refl].
  destruct (Qltb 0.001 _) eqn:E2; [|apply rtc_refl].
  first_update w.
  - apply (prim_update w k root); [done|done|left; reflexivity|].
    intros Hok. ranges Hok Hk. in_range.
  - eapply rtc_l; [apply prim_frame, same_core_modifyResources|].
    destruct (truthy _); [apply prims_roll_spawn|apply rtc_refl].
Qed.

(** A node present before a system update is present after it, with the
    same radius, identifier and activity (unless the update is a death). *)
Lemma reread_after_update k n k1 m us w :
  live k w = Some n -> live k1 w = Some m ->
  forallb soft us = true ->
  live k (updateNode k1 us w) = Some (reread k n (updateNode k1 us w))
  /\ radius (reread k n (updateNode k1 us w)) = radius n
  /\ isActive (reread k n (updateNode k1 us w)) = isActive n
  /\ (k <> k1 -> reread k n (updateNode k1 us w) = n)
  /\ (k = k1 -> reread k n (updateNode k1 us w) = Object_assign m us).
Proof.
  intros Hk Hk1 Hsoft. unfold reread. rewrite updateNode_live.
  destruct (String.eqb_spec k1 k) as [->|Hne].
  - rewrite Hk1 in *. injection Hk as <-. simpl.
    destruct (assign_soft us m Hsoft) as (_ & _ & _ & _ & _ & -> & ->).
    repeat split; try done.
  - rewrite Hk. simpl. repeat split; try done.
Qed.

Lemma xylem_prims v k node w :
  struct_ok w -> live k w = Some node ->
  rtc (primv v) w (xylemBody k node w).
Proof.
  intros Hs Hk. unfold xylemBody. rewrite (ids_of _ _ _ Hs Hk).
  destruct (isActive node) eqn:Ha; cbn [negb]; [|apply rtc_refl].
  destruct (truthy (parentId node)) as [pk|]; [|apply rtc_refl].
  destruct (live pk w) as [parent|] eqn:Hpk; [|apply rtc_refl].
  rewrite (ids_of _ _ _ Hs Hpk).
  destruct (isActive parent) eqn:Hpa; cbn [negb]; [|apply rtc_refl].
  match goal with
  | |- rtc (primv v) w (if _ then roll_spawn _ _ _ _ _ _ ?w3 else _) =>
      assert (rtc (primv v) w w3) as H3; [|eapply rtc_trans; [exact H3|];
        destruct (_ || _); [apply prims_roll_spawn|apply rtc_refl]]
  end.
  destruct (Qltb CONFIG.FLOW_THRESHOLD _) eqn:E1; [|apply rtc_refl].
  set (actualFlow := Math_min _ _).
  set (us1 := [set_waterPressure (waterPressure parent - actualFlow)]).
  destruct (reread_after_update k node pk parent us1 w Hk Hpk eq_refl)
    as (Hk1 & Hr1 & Ha1 & Hne1 & Heq1).
  apply (rtc_l (primv v) w (updateNode pk us1 w)).
  { apply (prim_update w pk parent); [done|done|left; reflexivity|].
    intros Hok. ranges Hok Hk. ranges Hok Hpk.
    subst us1 actualFlow. in_range. }
  eapply rtc_l; [|apply prims_roll_spawn].
  apply (prim_update _ k (reread k node (updateNode pk us1 w)));
    [done|congruence|left; reflexivity|].
  intros Hok. ranges Hok Hk1.
  assert (live pk (updateNode pk us1 w) = Some (Object_assign parent us1)) as Hpk1.
  { rewrite updateNode_live, String.eqb_refl, Hpk. done. }
  ranges Hok Hpk1.
  assert (0 <= actualFlow) as Hflow.
  { cbn [Object_assign fold_left assign_field us1 waterPressure radius] in *.
    rewrite Hr1 in *. subst actualFlow.
    unfold CONFIG.WATER_FLOW_RATE, CONFIG.FLOW_THRESHOLD in *.
    qbool. minmax; try lra; try nra. }
  clearbody actualFlow.
  unfold node_mid.
  cbn [Object_assign fold_left assign_field
       waterPressure sugarConcentration structuralHealth stressLevel radius].
  minmax; repeat split; lra.
Qed.

Lemma phloemChild_prims v k ck w :
  struct_ok w -> (forall node, live k w = Some node -> isActive node = true) ->
  rtc (primv v) w (phloemChild k ck w).
Proof.
  intros Hs Hact. unfold phloemChild.
  destruct (live k w) as [node|] eqn:Hk; [|apply rtc_refl].
  pose proof (Hact node eq_refl) as Ha.
  destruct (live ck w) as [child|] eqn:Hck; [|apply rtc_refl].
  rewrite (ids_of _ _ _ Hs Hk), (ids_of _ _ _ Hs Hck).
  destruct (isActive child) eqn:Hca; cbn [negb]; [|apply rtc_refl].
  match goal with
  | |- rtc (primv v) w (if _ then roll_spawn _ _ _ _ _ _ ?w3 else _) =>
      assert (rtc (primv v) w w3) as H3; [|eapply rtc_trans; [exact H3|];
        destruct (_ && _); [apply prims_roll_spawn|apply rtc_refl]]
  end.
  destruct (Qltb CONFIG.FLOW_THRESHOLD _) eqn:E1; [|apply rtc_refl].
  destruct (Qltb 0 _) eqn:E2.
  - (* down: parent to child *)
    set (actualFlow := CONFIG.SUGAR_DIFFUSION_RATE * _ * _).
    set (us1 := [set_sugarConcentration (sugarConcentration node - _);
                 set_sugarStore _]).
    destruct (reread_after_update ck child k node us1 w Hck Hk eq_refl)
      as (Hk1 & Hr1 & Ha1 & Hne1 & Heq1).
    apply (rtc_l (primv v) w (updateNode k us1 w)).
    { apply (prim_update w k node); [done|done|left; reflexivity|].
      intros Hok. ranges Hok Hk. ranges Hok Hck.
      subst us1 actualFlow. in_range. }
    eapply rtc_l; [|apply prims_roll_spawn].
    apply (prim_update _ ck (reread ck child (updateNode k us1 w)));
      [done|congruence|left; reflexivity|].
    intros Hok. ranges Hok Hk1.
    assert (live k (updateNode k us1 w) = Some (Object_assign node us1)) as Hk'.
    { rewrite updateNode_live, String.eqb_refl, Hk. done. }
    ranges Hok Hk'.
    assert (0 <= actualFlow) as Hflow.
    { cbn [Object_assign fold_left assign_field us1 radius] in *.
      rewrite Hr1 in *. subst actualFlow.
      unfold CONFIG.SUGAR_DIFFUSION_RATE in *.
      minmax; try lra; try nra. }
    clearbody actualFlow.
    unfold node_mid.
    cbn [Object_assign fold_left assign_field
         waterPressure sugarConcentration structuralHealth stressLevel radius].
    minmax; repeat split; lra.
  - (* up: child to parent *)
    set (actualFlow := CONFIG.SUGAR_DIFFUSION_RATE * _ * _).
    set (us1 := [set_sugarConcentration (sugarConcentration child - _)]).
    destruct (reread_after_update k node ck child us1 w Hk Hck eq_refl)
      as (Hk1 & Hr1 & Ha1 & Hne1 & Heq1).
    apply (rtc_l (primv v) w (updateNode ck us1 w)).
    { apply (prim_update w ck child); [done|done|left; reflexivity|].
      intros Hok. ranges Hok Hk. ranges Hok Hck.
      subst us1 actualFlow. in_range. }
    eapply rtc_l; [|apply prims_roll_spawn].
    apply (prim_update _ k (reread k node (updateNode ck us1 w)));
      [done|congruence|left; reflexivity|].
    intros Hok. ranges Hok Hk1.
    clearbody actualFlow.
    unfold node_mid.
    cbn [Object_assign fold_left assign_field
         waterPressure sugarConcentration structuralHealth stressLevel radius].
    minmax; repeat split; lra.
Qed.

Lemma primv_weaken v w w' : primv v w w' -> prim w w'.
Proof.
  intros [w1 w2 H|w1 k n us Hk Ha Hu Hr|w1 a b t s|w1].
  - by apply prim_frame.
  - apply (prim_update w1 k n us); [done|done| |done].
    destruct Hu as [H|(-> & H)]; [by left|by right].
  - apply prim_spawn.
  - apply prim_particles.
Qed.

Lemma prims_weaken v w w' : rtc (primv v) w w' -> rtc prim w w'.
Proof.
  induction 1 as [|w1 w2 w3 H12 _ IH]; [apply rtc_refl|].
  eapply rtc_l; [by eapply primv_weaken|done].
Qed.

Lemma prims_struct_ok v w w' : rtc (primv v) w w' -> struct_ok w -> struct_ok w'.
Proof.
  intros H. apply prims_weaken in H. revert H.
  apply rtc_preserves. intros a b H. by apply prim_struct_ok.
Qed.

Lemma fold_prims v {A} (f : World -> A -> World) (l : list A) :
  (forall w a, struct_ok w -> rtc (primv v) w (f w a)) ->
  forall w, struct_ok w -> rtc (primv v) w (fold_left f l w).
Proof.
  intros Hf. induction l as [|a l IH]; intros w Hs; simpl; [apply rtc_refl|].
  eapply rtc_trans; [apply Hf, Hs|]. apply IH.
  eapply prims_struct_ok; [apply Hf|]; done.
Qed.

Lemma for_nodes_prims v body :
  (forall k node w, struct_ok w -> live k w = Some node ->
                    rtc (primv v) w (body k node w)) ->
  forall w, struct_ok w -> rtc (primv v) w (for_nodes body w).
Proof.
  intros Hbody w Hs. unfold for_nodes. apply fold_prims; [|done].
  intros w' k Hs'. destruct (live k w') eqn:Hk; [by apply Hbody|apply rtc_refl].
Qed.

(** The steps of the hydraulics and of the photosynthesis change neither
    stress, nor health, nor activity. *)
Lemma primf_vitals w w' j :
  primv false w w' -> vitals <$> live j w' = vitals <$> live j w.
Proof.
  intros [w1 w2 (En & _)|w1 k n us Hk _ Hu _|w1 a b t s|w1].
  - unfold live. by rewrite En.
  - rewrite updateNode_live. destruct (String.eqb_spec k j) as [<-|]; [|done].
    rewrite Hk. simpl. destruct Hu as [H|(? & _)]; [|done].
    destruct (assign_fluid us n H) as (Eh & Es).
    destruct (assign_soft us n (fluid_soft _ H)) as (_ & _ & _ & _ & _ & _ & Ea).
    unfold vitals. by rewrite Eh, Es, Ea.
  - unfold live. by rewrite spawn_nodes.
  - unfold live. by rewrite updateParticles_nodes.
Qed.

Lemma primsf_vitals w w' j :
  rtc (primv false) w w' -> vitals <$> live j w' = vitals <$> live j w.
Proof.
  induction 1 as [|w1 w2 w3 H12 _ IH]; [done|].
  rewrite IH. by apply primf_vitals.
Qed.

Lemma primf_any v w w' : primv false w w' -> primv v w w'.
Proof.
  intros [w1 w2 H|w1 k n us Hk Ha Hu Hr|w1 a b t s|w1].
  - by apply prim_frame.
  - apply (prim_update w1 k n us); [done|done| |done].
    destruct Hu as [H|(? & _)]; [by left|done].
  - apply prim_spawn.
  - apply prim_particles.
Qed.

Lemma primsf_any v w w' : rtc (primv false) w w' -> rtc (primv v) w w'.
Proof.
  induction 1 as [|w1 w2 w3 H12 _ IH]; [apply rtc_refl|].
  eapply rtc_l; [by eapply primf_any|done].
Qed.

(** The loop over the children: the parent stays active all along. *)
Lemma phloem_prims k node w :
  struct_ok w -> live k w = Some node -> rtc (primv false) w (phloemBody k node w).
Proof.
  intros Hs Hk. unfold phloemBody.
  destruct (isActive node) eqn:Ha; cbn [negb]; [|apply rtc_refl].
  assert (vitals <$> live k w = Some (vitals node)) as Hv by by rewrite Hk.
  generalize (map fst (getChildren (state w) node)). intros cs.
  clear Hk. revert w Hs Hv.
  induction cs as [|ck cs IH]; intros w Hs Hv; cbn [fold_left]; [apply rtc_refl|].
  assert (rtc (primv false) w (phloemChild k ck w)) as Hstep.
  { apply phloemChild_prims; [done|]. intros n Hn. rewrite Hn in Hv.
    injection Hv as _ _ Hv. congruence. }
  eapply rtc_trans; [exact Hstep|]. apply IH.
  - by eapply prims_struct_ok.
  - by rewrite (primsf_vitals _ _ _ Hstep).
Qed.

Lemma photosynthesis_prims v k node w :
  struct_ok w -> live k w = Some node ->
  rtc (primv v) w (photosynthesisBody k node w).
Proof.
  intros Hs Hk. unfold photosynthesisBody. rewrite (ids_of _ _ _ Hs Hk).
  destruct (isActive node) eqn:Ha; cbn [negb]; [|apply rtc_refl].
  destruct (_ && _); [apply rtc_refl|].
  destruct (Qltb (waterPressure node) _) eqn:E0; [apply rtc_refl|].
  destruct (Qltb 0 _) eqn:E1; [|apply rtc_refl].
  first_update w.
  - apply (prim_update w k node); [done|done|left; reflexivity|].
    intros Hok. ranges Hok Hk.
    match type of E1 with
    | Qltb 0 ?sp = true => set (sugarProduced := sp) in *
    end.
    clearbody sugarProduced. in_range.
  - eapply rtc_l; [apply prim_frame, same_core_modifyResources|].
    destruct (truthy _); [apply prims_roll_spawn|apply rtc_refl].
Qed.

Lemma respiration_prims k node w :
  struct_ok w -> live k w = Some node ->
  rtc prim w (respirationBody k node w).
Proof.
  intros Hs Hk. unfold respirationBody. rewrite (ids_of _ _ _ Hs Hk).
  destruct (isActive node) eqn:Ha; cbn [negb]; [|apply rtc_refl].
  destruct (Qleb _ (sugarStore node)) eqn:E1.
  - first_update w.
    + apply (prim_update w k node); [done|done|left; reflexivity|].
      intros Hok. ranges Hok Hk. in_range.
    + destruct (truthy _); [apply prims_roll_spawn|apply rtc_refl].
  - set (us1 := [set_sugarStore 0; set_sugarConcentration _]).
    destruct (reread_after_update k node k node us1 w Hk Hk eq_refl)
      as (Hk1 & Hr1 & Ha1 & _ & Heq1).
    apply (rtc_l prim w (updateNode k us1 w)).
    { apply (prim_update w k node); [done|done|left; reflexivity|].
      intros Hok. ranges Hok Hk. subst us1. in_range. }
    apply rtc_once.
    apply (prim_update _ k (reread k node (updateNode k us1 w))); [done|congruence| |].
    { right. split; [done|]. split; [congruence|]. left. reflexivity. }
    intros Hok. ranges Hok Hk1. clear Heq1.
    unfold node_mid.
    cbn [Object_assign fold_left assign_field
         waterPressure sugarConcentration structuralHealth stressLevel radius].
    unfold CONFIG.NODE_RESPIRATION_COST, CONFIG.STARVATION_STRESS_RATE in *.
    qbool. minmax; repeat split; lra.
Qed.

Lemma stressAndHealth_prims k node w :
  struct_ok w -> live k w = Some node ->
  rtc prim w (stressAndHealthBody k node w).
Proof.
  intros Hs Hk. unfold stressAndHealthBody. rewrite (ids_of _ _ _ Hs Hk).
  destruct (isActive node) eqn:Ha; cbn [negb]; [|apply rtc_refl].
  destruct (Qleb _ _) eqn:E1; apply rtc_once.
  - apply (prim_update w k node); [done|done| |].
    { right. split; [done|]. split; [done|]. by right. }
    intros Hok. ranges Hok Hk.
    unfold node_mid. simpl. repeat split; lra.
  - apply (prim_update w k node); [done|done| |].
    { right. split; [done|]. split; [done|]. left. reflexivity. }
    intros Hok. ranges Hok Hk. clear E1.
    unfold node_mid.
    cbn [Object_assign fold_left assign_field
         waterPressure sugarConcentration structuralHealth stressLevel radius].
    minmax; repeat split; lra.
Qed.

Lemma hydraulics_prims v w :
  struct_ok w -> rtc (primv v) w (updateHydraulics w).
Proof.
  intros Hs. unfold updateHydraulics.
  assert (rtc (primv v) w (processTranspiration w)) as H1.
  { unfold processTranspiration. apply for_nodes_prims; [|done].
    intros. by apply transpiration_prims. }
  assert (rtc (primv v) (processTranspiration w)
            (processRootUptake (processTranspiration w))) as H2.
  { unfold processRootUptake. apply fold_prims; [|by eapply prims_struct_ok].
    intros w' k Hs'. destruct (live k w') eqn:Hk; [|apply rtc_refl].
    by apply rootUptake_prims. }
  assert (forall w', struct_ok w' -> rtc (primv v) w' (processXylemFlow w')) as H3.
  { intros w' Hs'. apply for_nodes_prims; [|done]. intros. by apply xylem_prims. }
  assert (forall w', struct_ok w' -> rtc (primv v) w' (processPhloemFlow w')) as H4.
  { intros w' Hs'. apply primsf_any, for_nodes_prims; [|done].
    intros. by apply phloem_prims. }
  eapply rtc_trans; [exact H1|]. pose proof (prims_struct_ok _ _ _ H1 Hs) as Hs1.
  eapply rtc_trans; [exact H2|]. pose proof (prims_struct_ok _ _ _ H2 Hs1) as Hs2.
  eapply rtc_trans; [apply H3, Hs2|].
  pose proof (prims_struct_ok _ _ _ (H3 _ Hs2) Hs2) as Hs3.
  eapply rtc_trans; [apply H4, Hs3|].
  apply rtc_once, prim_particles.
Qed.

Lemma photosynthesis_system_prims v w :
  struct_ok w -> rtc (primv v) w (processPhotosynthesis w).
Proof.
  intros Hs. apply for_nodes_prims; [|done]. intros. by apply photosynthesis_prims.
Qed.

Lemma metabolism_prims w :
  struct_ok w -> rtc prim w (updateMetabolism w).
Proof.
  intros Hs. unfold updateMetabolism.
  assert (forall w', struct_ok w' -> rtc prim w' (processRespiration w')) as H2.
  { intros w' Hs'. apply for_nodes_prims; [|done].
    intros. by apply respiration_prims. }
  assert (forall w', struct_ok w' -> rtc prim w' (processStressAndHealth w')) as H3.
  { intros w' Hs'. apply for_nodes_prims; [|done].
    intros. by apply stressAndHealth_prims. }
  pose proof (photosynthesis_system_prims true w Hs) as H1.
  eapply rtc_trans; [exact H1|].
  pose proof (prims_struct_ok _ _ _ H1 Hs) as Hs1.
  eapply rtc_trans; [apply H2, Hs1|].
  pose proof (prims_struct_ok _ _ _ (H2 _ Hs1) Hs1) as Hs2.
  apply H3, Hs2.
Qed.

(** * Structural edits *)

(** ** Sub-tables *)

Lemma nodes_get_elem k n ns :
  nodes_wf ns -> (nodes_get k ns = Some n <-> (k, n) ∈ ns).
Proof.
  unfold nodes_wf, nodes_keys. induction ns as [|[k' n'] rest IH]; simpl.
  - intros _. split; [done|]. intros H. by apply elem_of_nil in H.
  - intros Hnd. apply NoDup_cons in Hnd as [Hnot Hnd].
    destruct (String.eqb_spec k k') as [->|Hne].
    + split.
      * intros [= ->]. left.
      * intros H. apply elem_of_cons in H as [[= ->]|H]; [done|].
        exfalso. apply Hnot. apply list_elem_of_fmap. by exists (k', n).
    + rewrite IH by done. split.
      * intros H. by right.
      * intros H. apply elem_of_cons in H as [[= -> ->]|H]; [done|done].
Qed.

Lemma nodes_delete_sublist k ns : sublist (nodes_delete k ns) ns.
Proof.
  induction ns as [|[k' n'] rest IH]; simpl; [done|].
  destruct (String.eqb k k').
  - by apply sublist_cons.
  - by apply sublist_skip.
Qed.

Lemma sublist_wf (ns' ns : Nodes) : sublist ns' ns -> nodes_wf ns -> nodes_wf ns'.
Proof.
  unfold nodes_wf, nodes_keys. intros Hsub Hnd.
  eapply sublist_NoDup; [exact Hnd|]. by apply (fmap_sublist fst).
Qed.

Lemma sublist_get (ns' ns : Nodes) k n :
  sublist ns' ns -> nodes_wf ns -> nodes_get k ns' = Some n -> nodes_get k ns = Some n.
Proof.
  intros Hsub Hwf H. apply nodes_get_elem; [done|].
  eapply elem_of_sublist; [|exact Hsub].
  apply nodes_get_elem in H; [exact H|by eapply sublist_wf].
Qed.

Lemma fold_option_sublist (g : string -> Nodes -> option Walk) cs :
  (forall c ns ns', g c ns = Some (Done ns') -> sublist ns' ns) ->
  forall acc ns',
    fold_left (fun acc c => match acc with
                            | Some (Done x) => g c x
                            | _ => acc
                            end) cs acc = Some (Done ns') ->
    exists ns0, acc = Some (Done ns0) /\ sublist ns' ns0.
Proof.
  intros Hg. induction cs as [|c cs IH]; intros acc ns' H; simpl in H.
  - exists ns'. by subst.
  - destruct (IH _ _ H) as (ns1 & E & Hsub).
    destruct acc as [[ns0|ns0]|]; [|done..].
    exists ns0. split; [done|]. etrans; [exact Hsub|]. by eapply Hg.
Qed.

Lemma removeRecursive_sublist fuel : forall id ns ns',
  removeRecursive fuel id ns = Some (Done ns') -> sublist ns' ns.
Proof.
  induction fuel as [|fuel IH]; intros id ns ns' H; simpl in H;
    destruct (nodes_at id ns) as [n| |]; try (injection H as <-; done); try done.
  match type of H with
  | match ?f with _ => _ end = _ => destruct f as [[ns1|ns1]|] eqn:E; [|done..]
  end.
  injection H as <-.
  destruct (fold_option_sublist (removeRecursive fuel) _ (IH) _ _ E)
    as (ns0 & [= <-] & Hsub).
  etrans; [apply nodes_delete_sublist|exact Hsub].
Qed.

(** ** The three mutations, case by case *)

(** [addNode] returns without a node and leaves the world as it is; or it
    throws, for a parent that is a built-in, after it has taken the next
    identifier; or it returns the new node. *)
Lemma addNode_cases p t pos r w :
  addNode p t pos r w = Returned w None
  \/ (nodes_at p (nodes (state w)) = Builtin
      /\ exists s, addNode p t pos r w = Threw (with_nextId w (S (nextId w))) (Some s))
  \/ exists parent,
       live p w = Some parent
       /\ returned (addNode p t pos r w) = Some (Some (new_node p t pos r parent w))
       /\ nodes (state (after (addNode p t pos r w)))
          = (if String.eqb (node_name (nextId w)) p
             then nodes_set (node_name (nextId w)) (new_node p t pos r parent w)
                    (nodes (state w))
             else nodes_set p
                    (assign_field parent
                       (set_childrenIds (childrenIds parent ++ [node_name (nextId w)])))
                    (nodes_set (node_name (nextId w)) (new_node p t pos r parent w)
                       (nodes (state w))))
       /\ nextId (after (addNode p t pos r w)) = S (nextId w)
       /\ particles (after (addNode p t pos r w)) = particles w
       /\ connectionParticleCounts (after (addNode p t pos r w))
          = connectionParticleCounts w.
Proof.
  unfold addNode, live.
  destruct (nodes_at p (nodes (state w))) as [parent| |] eqn:Hp; [| |by left].
  - destruct (Qltb _ _); [by left|].
    right. right. exists parent. split; [by apply nodes_at_Segment|done].
  - destruct (Qltb _ _); [by left|].
    right. left. split; [done|]. by eexists.
Qed.

(** The same, for a call that has returned. *)
Lemma addNode_returned p t pos r w w' a :
  addNode p t pos r w = Returned w' a ->
  (w' = w /\ a = None)
  \/ exists parent,
       live p w = Some parent
       /\ a = Some (new_node p t pos r parent w)
       /\ nodes (state w')
          = (if String.eqb (node_name (nextId w)) p
             then nodes_set (node_name (nextId w)) (new_node p t pos r parent w)
                    (nodes (state w))
             else nodes_set p
                    (assign_field parent
                       (set_childrenIds (childrenIds parent ++ [node_name (nextId w)])))
                    (nodes_set (node_name (nextId w)) (new_node p t pos r parent w)
                       (nodes (state w))))
       /\ nextId w' = S (nextId w)
       /\ particles w' = particles w
       /\ connectionParticleCounts w' = connectionParticleCounts w.
Proof.
  intros H.
  destruct (addNode_cases p t pos r w)
    as [E|[(_ & s & E)|(parent & Hp & Er & En & Ei & Ep & Ec)]];
    rewrite H in *; cbn [after returned] in *.
  - injection E as -> ->. by left.
  - done.
  - right. exists parent. injection Er as ->. done.
Qed.

(** A parent that is in the store makes [addNode] return. *)
Lemma addNode_returns p t pos r w parent :
  live p w = Some parent ->
  exists a, addNode p t pos r w = Returned (after (addNode p t pos r w)) a.
Proof.
  unfold live, addNode. intros Hp. rewrite (nodes_at_Some _ _ _ Hp).
  destruct (Qltb _ _); by eexists.
Qed.

Lemma extendNode_cases k dir w :
  extendNode k dir w = (w, None)
  \/ exists node,
       live k w = Some node
       /\ snd (extendNode k dir w) = Some (extension k dir node w)
       /\ nodes (state (fst (extendNode k dir w)))
          = (let ns1 := fold_left (reparent (node_name (nextId w)) dir)
                          (childrenIds node) (nodes (state w)) in
             nodes_set (node_name (nextId w)) (extension k dir node w)
               (match nodes_get k ns1 with
                | Some node' =>
                    nodes_set k
                      (assign_field node' (set_childrenIds [node_name (nextId w)])) ns1
                | None => ns1
                end))
       /\ nextId (fst (extendNode k dir w)) = S (nextId w)
       /\ particles (fst (extendNode k dir w)) = particles w
       /\ connectionParticleCounts (fst (extendNode k dir w))
          = connectionParticleCounts w.
Proof.
  unfold extendNode, live.
  destruct (nodes_get k (nodes (state w))) as [node|]; [|by left].
  destruct (node_type node) eqn:Et; try by left.
  all: destruct (Qltb _ _); [by left|].
  all: right; exists node; unfold extension; rewrite Et; done.
Qed.

Lemma removeNode_cases fuel k w w' b :
  removeNode fuel k w = Some (Returned w' b) ->
  w' = w
  \/ exists ns1 ns2,
       (forall k', exists us,
           forallb (fun u => match u with set_childrenIds _ => true | _ => false end) us
           = true
           /\ nodes_get k' ns1
              = (fun n => Object_assign n us) <$> nodes_get k' (nodes (state w)))
       /\ nodes_keys ns1 = nodes_keys (nodes (state w))
       /\ sublist ns2 ns1
       /\ w' = put_nodes w ns2.
Proof.
  unfold removeNode.
  destruct (nodes_at k (nodes (state w))) as [node| |] eqn:Hk;
    [|done|intros [= <- <-]; by left].
  destruct (node_type node); try (intros [= <- <-]; by left).
  all: destruct (truthy (parentId node)) as [p|];
    [destruct (nodes_at p (nodes (state w))) as [parent| |] eqn:Hp; [|done|]|].
  all: cbv zeta iota beta;
    match goal with
    | |- match removeRecursive ?fu ?kk ?ns1 with _ => _ end = _ -> _ =>
        destruct (removeRecursive fu kk ns1) as [[ns2|ns2]|] eqn:Hr; [|done..];
        intros [= <- <-]; right; exists ns1, ns2;
        split; [|split; [|split; [by eapply removeRecursive_sublist|done]]]
    end.
  all: try (intros k'; exists []; split; [done|]; by destruct (nodes_get k' _)).
  all: try done.
  all: apply nodes_at_Segment in Hp.
  all: try (apply nodes_keys_set_present; by rewrite Hp).
  all: intros k'; rewrite nodes_get_set; destruct (String.eqb_spec p k') as [<-|];
    [ exists [set_childrenIds
               (filter (fun c => negb (String.eqb c k)) (childrenIds parent))];
      rewrite Hp; split; reflexivity
    | exists []; split; [done|]; by destruct (nodes_get k' _) ].
Qed.

(** ** What an edit does to the nodes *)

Lemma fresh_absent w : struct_ok w -> live (node_name (nextId w)) w = None.
Proof.
  intros (_ & _ & Hfresh). apply nodes_get_None_keys. intros Hin.
  destruct (Hfresh _ Hin) as (i & Hi & E). apply node_name_inj in E. lia.
Qed.

Lemma kept_refl n : kept n n.
Proof. unfold kept. repeat split; try done. by left. Qed.

Lemma kept_children n us :
  forallb (fun u => match u with set_childrenIds _ => true | _ => false end) us = true ->
  kept n (Object_assign n us).
Proof.
  unfold Object_assign. revert n. induction us as [|u us IH]; intros n H; simpl.
  - apply kept_refl.
  - simpl in H. apply andb_true_iff in H as [Hu Hus].
    destruct u; try done. destruct (IH (assign_field n (set_childrenIds v)) Hus)
      as (? & ? & ? & ? & ? & ? & ? & ? & ?).
    unfold kept. repeat split; try done.
Qed.

Lemma reparent_keys newId dir cs : forall ns,
  nodes_keys (fold_left (reparent newId dir) cs ns) = nodes_keys ns.
Proof.
  induction cs as [|c cs IH]; intros ns; simpl; [done|].
  rewrite IH. unfold reparent. destruct (nodes_get c ns) eqn:Hc; [|done].
  apply nodes_keys_set_present. by rewrite Hc.
Qed.

Lemma reparent_kept newId dir cs ns k n' :
  nodes_get k (fold_left (reparent newId dir) cs ns) = Some n' ->
  exists n, nodes_get k ns = Some n /\ kept n n'.
Proof.
  intros H. destruct (nodes_get k ns) as [n|] eqn:Hk.
  - destruct (reparent_fold newId dir cs ns k n Hk)
      as (n0 & Hn0 & ? & ? & ? & ? & ? & ? & ? & ? & ? & ? & _).
    rewrite Hn0 in H. injection H as <-. exists n. split; [done|].
    unfold kept. repeat split; try done. by left.
  - by rewrite reparent_fold_None in H.
Qed.

Lemma default_radius_pos t : 0 < getDefaultRadius t.
Proof. by destruct t. Qed.

(** Every node of the world after an edit is a node of the world before,
    kept, or the node the edit has made under the next identifier. *)
Lemma edit_live okr w w' :
  struct_ok w -> edit okr w w' ->
  (nextId w <= nextId w')%nat
  /\ forall k n', live k w' = Some n' ->
       (exists n, live k w = Some n /\ kept n n')
       \/ (k = node_name (nextId w) /\ nextId w' = S (nextId w)
           /\ created okr w k n').
Proof.
  intros Hs He. pose proof (fresh_absent w Hs) as Hfresh.
  destruct He as [w w' (En & Ei & _)|w p t pos r w' a Hr Hadd|w k dir|w fuel k w' b Hrm
                  |w k n Hk|w a b t s|w].
  - split; [lia|]. intros k n' H. left. exists n'. unfold live in *.
    rewrite En in H. split; [done|apply kept_refl].
  - destruct (addNode_returned _ _ _ _ _ _ _ Hadd)
      as [[-> ->]|(parent & Hp & _ & En & Ei & _)].
    { split; [lia|]. intros k n' H. left. exists n'.
      split; [done|apply kept_refl]. }
    split; [lia|]. intros k n'. unfold live at 1. rewrite En.
    assert (node_name (nextId w) <> p) as Hne by (intros E; congruence).
    assert (String.eqb (node_name (nextId w)) p = false) as ->
      by by apply String.eqb_neq.
    rewrite !nodes_get_set.
    destruct (String.eqb_spec p k) as [<-|Hpk].
    + intros [= <-]. left. exists parent. split; [done|].
      unfold kept. repeat split; try done. by left.
    + destruct (String.eqb_spec (node_name (nextId w)) k) as [<-|Hnk].
      * intros [= <-]. right. split; [done|]. split; [done|].
        split; [done|]. split; [done|].
        intros Hnum Hokr. destruct (Hnum _ _ Hp) as (? & ? & ? & ? & ?).
        unfold node_ok, new_node. simpl.
        assert (0 < default (getDefaultRadius t) r).
        { destruct r as [v|]; simpl; [by apply Hokr, Hr|apply default_radius_pos]. }
        minmax; repeat split; lra.
      * intros H. left. exists n'. split; [done|apply kept_refl].
  - destruct (extendNode_cases k dir w) as [E|(node & Hk & _ & En & Ei & _)].
    { rewrite E. simpl. split; [lia|]. intros k0 n' H. left. exists n'.
      split; [done|apply kept_refl]. }
    split; [lia|]. intros k0 n'. unfold live at 1. rewrite En. cbn zeta.
    rewrite nodes_get_set.
    destruct (String.eqb_spec (node_name (nextId w)) k0) as [<-|Hnk].
    + intros [= <-]. right. split; [done|]. split; [done|].
      split; [done|]. split; [done|].
      intros Hnum _. destruct (Hnum _ _ Hk) as (? & ? & ? & ? & ?).
      unfold node_ok, extension. simpl. repeat split; lra.
    + destruct (nodes_get k (fold_left _ _ _)) as [node'|] eqn:Hk'.
      * rewrite nodes_get_set. destruct (String.eqb_spec k k0) as [<-|Hkk].
        -- intros [= <-]. left.
           destruct (reparent_kept _ _ _ _ _ _ Hk') as (n0 & Hn0 & Hkept).
           exists n0. split; [done|].
           destruct Hkept as (? & ? & ? & ? & ? & ? & ? & ? & ?).
           unfold kept. repeat split; done.
        -- intros H. left. by apply reparent_kept in H.
      * intros H. left. by apply reparent_kept in H.
  - destruct (removeNode_cases _ _ _ _ _ Hrm)
      as [->|(ns1 & ns2 & Hget & Hkeys & Hsub & ->)].
    { split; [lia|]. intros k0 n' H. left. exists n'.
      split; [done|apply kept_refl]. }
    split; [simpl; lia|]. intros k0 n' H. left.
    unfold live in H. simpl in H.
    assert (nodes_wf ns1) as Hwf1.
    { unfold nodes_wf. rewrite Hkeys. apply Hs. }
    apply (sublist_get _ _ _ _ Hsub Hwf1) in H.
    destruct (Hget k0) as (us & Hus & E). rewrite E in H.
    unfold live. destruct (nodes_get k0 (nodes (state w))) as [n|]; [|done].
    injection H as <-. exists n. split; [done|by apply kept_children].
  - split; [apply Nat.eq_le_incl; symmetry; apply updateNode_rest|].
    intros k0 n'. rewrite updateNode_live.
    destruct (String.eqb_spec k k0) as [<-|Hkk].
    + rewrite Hk. intros [= <-]. left. exists n. split; [done|].
      unfold kept. repeat split; try done. by right.
    + intros H. left. exists n'. split; [done|apply kept_refl].
  - split; [unfold spawnFlowParticle; by repeat case_match|].
    intros k0 n' H. left. exists n'. unfold live in *.
    rewrite spawn_nodes in H. split; [done|apply kept_refl].
  - split; [done|]. intros k0 n' H. left. exists n'.
    split; [done|apply kept_refl].
Qed.

Lemma ids_fresh_mono next next' ns :
  (next <= next')%nat -> ids_fresh next ns -> ids_fresh next' ns.
Proof.
  intros Hle H k Hk. destruct (H k Hk) as (i & Hi & E). exists i. split; [lia|done].
Qed.

Lemma wf_fresh_append w ns' :
  struct_ok w ->
  nodes_keys ns' = nodes_keys (nodes (state w)) ++ [node_name (nextId w)] ->
  nodes_wf ns' /\ ids_fresh (S (nextId w)) ns'.
Proof.
  intros Hs E. pose proof (fresh_absent w Hs) as Hfresh.
  destruct Hs as (Hwf & _ & Hf). split.
  - unfold nodes_wf. rewrite E. apply NoDup_app. split; [done|]. split.
    + intros k Hk Hin. apply list_elem_of_singleton in Hin. subst k.
      by apply nodes_get_None_keys in Hfresh.
    + apply NoDup_singleton.
  - intros k. rewrite E, elem_of_app, list_elem_of_singleton. intros [Hk| ->].
    + destruct (Hf k Hk) as (i & Hi & Ek). exists i. split; [lia|done].
    + exists (nextId w). split; [lia|done].
Qed.

Lemma edit_keys okr w w' :
  struct_ok w -> edit okr w w' ->
  nodes_wf (nodes (state w')) /\ ids_fresh (nextId w') (nodes (state w')).
Proof.
  intros Hs He. pose proof (fresh_absent w Hs) as Hfresh.
  pose proof Hs as (Hwf & Hids & Hf).
  destruct He as [w w' (En & Ei & _)|w p t pos r w' a Hr Hadd|w k dir|w fuel k w' b Hrm
                  |w k n Hk|w a b t s|w].
  - by rewrite En, Ei.
  - destruct (addNode_returned _ _ _ _ _ _ _ Hadd)
      as [[-> ->]|(parent & Hp & _ & En & Ei & _)]; [done|].
    rewrite En, Ei.
    assert (node_name (nextId w) <> p) as Hne by (intros E; congruence).
    assert (String.eqb (node_name (nextId w)) p = false) as ->
      by by apply String.eqb_neq.
    apply wf_fresh_append; [done|].
    rewrite nodes_keys_set_present.
    + by apply nodes_keys_set_absent.
    + rewrite nodes_get_set_ne by done. unfold live in Hp. by rewrite Hp.
  - destruct (extendNode_cases k dir w) as [E|(node & Hk & _ & En & Ei & _)].
    { by rewrite E. }
    rewrite En, Ei. cbn zeta. apply wf_fresh_append; [done|].
    assert (nodes_keys
              (match nodes_get k (fold_left (reparent (node_name (nextId w)) dir)
                                    (childrenIds node) (nodes (state w))) with
               | Some node' =>
                   nodes_set k
                     (assign_field node' (set_childrenIds [node_name (nextId w)]))
                     (fold_left (reparent (node_name (nextId w)) dir)
                        (childrenIds node) (nodes (state w)))
               | None => fold_left (reparent (node_name (nextId w)) dir)
                           (childrenIds node) (nodes (state w))
               end) = nodes_keys (nodes (state w))) as Ekeys.
    { destruct (nodes_get k (fold_left _ _ _)) eqn:Hk'.
      - rewrite nodes_keys_set_present; [apply reparent_keys|by rewrite Hk'].
      - apply reparent_keys. }
    rewrite nodes_keys_set_absent; [by rewrite Ekeys|].
    apply nodes_get_None_keys. rewrite Ekeys. by apply nodes_get_None_keys.
  - destruct (removeNode_cases _ _ _ _ _ Hrm)
      as [->|(ns1 & ns2 & Hget & Hkeys & Hsub & ->)]; [done|].
    simpl. assert (nodes_wf ns1) as Hwf1 by (unfold nodes_wf; by rewrite Hkeys).
    split; [by eapply sublist_wf|].
    intros k0 Hk0. apply Hf. rewrite <- Hkeys.
    eapply elem_of_sublist; [exact Hk0|]. by apply (fmap_sublist fst).
  - destruct (updateNode_rest k [set_radius (radius n * 1.2)] w) as (-> & _).
    unfold nodes_wf, ids_fresh. by rewrite updateNode_keys.
  - rewrite spawn_nodes. unfold spawnFlowParticle. by repeat case_match.
  - done.
Qed.

Lemma edit_struct_ok okr w w' : edit okr w w' -> struct_ok w -> struct_ok w'.
Proof.
  intros He Hs. destruct (edit_keys _ _ _ Hs He) as [Hwf Hf].
  destruct (edit_live _ _ _ Hs He) as [_ Hlive].
  split; [done|split; [|done]].
  intros k n' Hk. destruct (Hlive k n' Hk) as [(n & Hn & Hkept)|(_ & _ & Hc & _)].
  - destruct Hkept as (-> & _). by apply Hs.
  - done.
Qed.

Lemma edit_particles_inv okr w w' :
  edit okr w w' -> particles_inv w -> particles_inv w'.
Proof.
  intros [w0 w1 (_ & _ & Ep & Ec)|w0 p t pos r w1 a0 Hr Hadd|w0 k dir|w0 fuel k w1 b Hrm
         |w0 k n Hk|w0 a b t s|w0] H.
  - by apply (particles_inv_same w0).
  - destruct (addNode_returned _ _ _ _ _ _ _ Hadd)
      as [[-> ->]|(parent & _ & _ & _ & _ & Ep & Ec)]; [done|].
    by apply (particles_inv_same w0).
  - destruct (extendNode_cases k dir w0) as [E|(node & _ & _ & _ & _ & Ep & Ec)].
    + by rewrite E.
    + by apply (particles_inv_same w0).
  - destruct (removeNode_cases _ _ _ _ _ Hrm) as [->|(ns1 & ns2 & _ & _ & _ & ->)];
      [done|by apply (particles_inv_same w0)].
  - apply (particles_inv_same w0); [apply updateNode_rest..|done].
  - by apply particles_inv_spawn.
  - apply particles_inv_clear.
Qed.

Lemma edit_world_num w w' :
  struct_ok w -> edit (fun v => 0 < v) w w' -> world_num w -> world_num w'.
Proof.
  intros Hs He Hnum k n' Hk.
  destruct (edit_live _ _ _ Hs He) as [_ Hlive].
  destruct (Hlive k n' Hk) as [(n & Hn & Hkept)|(_ & _ & _ & _ & Hc)].
  - destruct (Hnum _ _ Hn) as (? & ? & ? & ? & ?).
    destruct Hkept as (_ & _ & Ew & Ec & _ & Eh & Es & _ & Er).
    unfold node_ok. rewrite Ew, Ec, Eh, Es.
    destruct Er as [Er|Er]; rewrite Er; repeat split; lra.
  - by apply Hc.
Qed.

Lemma edit_dead_consistent okr w w' :
  struct_ok w -> edit okr w w' -> dead_consistent w -> dead_consistent w'.
Proof.
  intros Hs He Hd k n' Hk Hin.
  destruct (edit_live _ _ _ Hs He) as [_ Hlive].
  destruct (Hlive k n' Hk) as [(n & Hn & Hkept)|(_ & _ & _ & Ha & _)].
  - destruct Hkept as (_ & _ & _ & _ & _ & Eh & Es & Ea & _).
    unfold dead. rewrite Eh, Es, Ea. apply (Hd k n Hn). congruence.
  - congruence.
Qed.

Lemma edit_stays_dead okr k w w' :
  struct_ok w -> edit okr w w' -> stays_dead k w -> stays_dead k w'.
Proof.
  intros Hs He [(i & Hi & Ek) Hd].
  destruct (edit_live _ _ _ Hs He) as [Hle Hlive].
  split; [exists i; split; [lia|done]|].
  intros n' Hk.
  destruct (Hlive k n' Hk) as [(n & Hn & Hkept)|(E & _)].
  - destruct Hkept as (_ & _ & _ & _ & _ & Eh & Es & Ea & _).
    unfold dead. rewrite Eh, Es, Ea. by apply Hd.
  - rewrite Ek in E. apply node_name_inj in E. lia.
Qed.

(** * The growth heuristic and the tick as sequences of steps *)

Lemma same_core_refl w : same_core w w.
Proof. done. Qed.

Lemma same_core_trans w1 w2 w3 :
  same_core w1 w2 -> same_core w2 w3 -> same_core w1 w3.
Proof.
  intros (E1 & E2 & E3 & E4) (F1 & F2 & F3 & F4).
  unfold same_core. by rewrite F1, F2, F3, F4.
Qed.

Lemma same_core_pick {A} (arr : list A) w : same_core w (snd (pick arr w)).
Proof. done. Qed.

Lemma chooseTarget_quiet candidates kind t dir :
  kind <> THICKEN -> quiet_stage (chooseTarget candidates kind t dir).
Proof.
  intros Hkind w. unfold chooseTarget.
  destruct (0 <? length candidates)%nat; [|by split].
  destruct (pick candidates w) as [target w1] eqn:E.
  assert (same_core w w1) as Hc.
  { replace w1 with (snd (pick candidates w)) by by rewrite E. apply same_core_pick. }
  split; [done|]. simpl. destruct target; [|done]. by intros a [= <-].
Qed.

Lemma decideRoots_quiet analysis : quiet_stage (decideRoots analysis).
Proof.
  intros w. unfold decideRoots.
  destruct (_ && _); [|by split].
  destruct (0 <? _)%nat.
  - destruct (pick _ w) as [target w1] eqn:E.
    assert (same_core w w1) as Hc.
    { replace w1 with (snd (pick (map snd (getNodesByType (state w) ROOT)) w))
        by by rewrite E. apply same_core_pick. }
    destruct target as [target|]; [|by split].
    destruct (_ <? _)%nat; [|by split].
    destruct (getRandomRootDirection w1) as [dir w2] eqn:E2.
    assert (same_core w1 w2) as Hc2.
    { replace w2 with (snd (getRandomRootDirection w1)) by by rewrite E2.
      apply same_core_pick. }
    split; [by eapply same_core_trans|]. simpl. by intros a [= <-].
  - destruct (nodes_get _ _); [|by split].
    destruct (_ <? _)%nat; [|by split].
    split; [done|]. simpl. by intros a [= <-].
Qed.

Lemma decideLeaf_quiet analysis : quiet_stage (decideLeaf analysis).
Proof.
  intros w. unfold decideLeaf. destruct (_ && _); [|by split].
  by apply chooseTarget_quiet.
Qed.

Lemma decideExtend_quiet analysis : quiet_stage (decideExtend analysis).
Proof.
  intros w. unfold decideExtend. destruct (Qleb _ _); [|by split].
  destruct (Math_random w) as [r w1] eqn:E.
  assert (same_core w w1) as Hc.
  { replace w1 with (snd (Math_random w)) by by rewrite E. done. }
  destruct (Qltb r 0.3); [|by split].
  destruct (chooseTarget_quiet (extendableTrunks analysis) EXTEND None (Some up)
              ltac:(done) w1) as [H1 H2].
  split; [by eapply same_core_trans|done].
Qed.

Lemma decideTrunk_quiet analysis : quiet_stage (decideTrunk analysis).
Proof.
  intros w. unfold decideTrunk. destruct (Qleb _ _); [|by split].
  by apply chooseTarget_quiet.
Qed.

Lemma decideBranch_quiet analysis : quiet_stage (decideBranch analysis).
Proof.
  intros w. unfold decideBranch. destruct (Qleb _ _); [|by split].
  destruct (Math_random w) as [r w1] eqn:E.
  assert (same_core w w1) as Hc.
  { replace w1 with (snd (Math_random w)) by by rewrite E. done. }
  destruct (Qltb r 0.4); [|by split].
  destruct (0 <? _)%nat; [|by split].
  destruct (pick _ w1) as [target w2] eqn:E2.
  assert (same_core w1 w2) as Hc2.
  { replace w2 with (snd (pick (filter (is_type TRUNK) (growthTips analysis)) w1))
      by by rewrite E2. apply same_core_pick. }
  destruct (Math_random w2) as [r' w3] eqn:E3.
  assert (same_core w2 w3) as Hc3.
  { replace w3 with (snd (Math_random w2)) by by rewrite E3. done. }
  split; [eapply same_core_trans; [exact Hc|]; by eapply same_core_trans|].
  simpl. destruct target; [|done]. by intros a [= <-].
Qed.

Lemma orElse_quiet first (next : World -> option GrowAction * World) w :
  (same_core w (snd first)
   /\ forall a, fst first = Some a -> action_type a <> THICKEN) ->
  quiet_stage next ->
  same_core w (snd (orElse first next))
  /\ forall a, fst (orElse first next) = Some a -> action_type a <> THICKEN.
Proof.
  intros [H1 H2] Hnext. unfold orElse. destruct first as [[a|] w1]; simpl in *.
  - split; [done|]. intros a' [= <-]. by apply H2.
  - destruct (Hnext w1) as [H3 H4]. split; [by eapply same_core_trans|done].
Qed.

(** [decideAction] only rolls, and a reinforcement it asks for is aimed at
    the weakest node of the analysis. *)
Lemma decideAction_spec analysis w :
  same_core w (snd (decideAction analysis w))
  /\ forall a, fst (decideAction analysis w) = Some a ->
               action_type a = THICKEN ->
               weakestNode analysis = Some (targetNode a).
Proof.
  unfold decideAction. unfold orElse at 1.
  destruct (decideThicken analysis w) as [a|] eqn:E.
  - split; [done|]. simpl. intros a' [= <-] _.
    unfold decideThicken in E. destruct (weakestNode analysis); [|done].
    destruct (_ && _); [|done]. by injection E as <-.
  - assert (quiet_stage (fun w1 =>
              orElse (decideRoots analysis w1) (fun w2 =>
              orElse (decideLeaf analysis w2) (fun w3 =>
              orElse (decideExtend analysis w3) (fun w4 =>
              orElse (decideTrunk analysis w4) (fun w5 =>
              decideBranch analysis w5)))))) as Hq.
    { intros w1. apply orElse_quiet; [apply decideRoots_quiet|].
      intros w2. apply orElse_quiet; [apply decideLeaf_quiet|].
      intros w3. apply orElse_quiet; [apply decideExtend_quiet|].
      intros w4. apply orElse_quiet; [apply decideTrunk_quiet|].
      apply decideBranch_quiet. }
    destruct (Hq w) as [H1 H2]. split; [done|].
    intros a Ha Ht. by apply H2 in Ha.
Qed.

Lemma analyze_weakest s n :
  weakestNode (analyzePlant s) = Some n -> n ∈ map snd (nodes s).
Proof.
  unfold analyzePlant. cbn [weakestNode].
  generalize (map snd (nodes s)). intros l.
  assert (forall a, t_weakest (fold_left (analyzeNode s) l a) = Some n ->
                    t_weakest a = Some n \/ n ∈ l) as H.
  { induction l as [|m l IH]; intros a Ha; simpl in Ha; [by left|].
    destruct (IH _ Ha) as [H|H]; [|right; by right].
    unfold analyzeNode in H. destruct (isActive m); simpl in H; [|by left].
    destruct (Qltb _ _); [|by left]. injection H as ->. right. left. }
  intros Ha. destruct (H _ Ha) as [?|?]; done.
Qed.

(** The candidates of the analysis are segments of the store. *)
Lemma analyze_candidates s n :
  n ∈ growthTips (analyzePlant s) \/ n ∈ extendableTrunks (analyzePlant s) ->
  n ∈ map snd (nodes s).
Proof.
  unfold analyzePlant. cbn [growthTips extendableTrunks].
  generalize (map snd (nodes s)). intros l.
  assert (forall a, n ∈ t_tips (fold_left (analyzeNode s) l a)
                    \/ n ∈ t_trunks (fold_left (analyzeNode s) l a) ->
                    n ∈ t_tips a \/ n ∈ t_trunks a \/ n ∈ l) as H.
  { induction l as [|m l IH]; intros a Ha; simpl in Ha; [tauto|].
    destruct (IH _ Ha) as [H|[H|H]]; [| |right; right; by right].
    - unfold analyzeNode in H. destruct (isActive m); simpl in H; [|by left].
      destruct (_ <? _)%nat; [|by left].
      apply elem_of_app in H as [H|H]; [by left|].
      apply list_elem_of_singleton in H as ->. right. right. left.
    - unfold analyzeNode in H. destruct (isActive m); simpl in H; [|by right; left].
      destruct (_ && _); [|by right; left].
      apply elem_of_app in H as [H|H]; [by right; left|].
      apply list_elem_of_singleton in H as ->. right. right. left. }
  intros Ha. destruct (H _ Ha) as [Hn|[Hn|Hn]]; [| |done];
    cbn in Hn; by apply elem_of_nil in Hn.
Qed.

Lemma pick_elem {A} (arr : list A) w x : fst (pick arr w) = Some x -> x ∈ arr.
Proof.
  unfold pick. cbn [Math_random fst]. destruct (_ <? _)%Z; [done|].
  apply list_elem_of_lookup_2.
Qed.

Lemma chooseTarget_target candidates kind t dir w a :
  fst (chooseTarget candidates kind t dir w) = Some a -> targetNode a ∈ candidates.
Proof.
  unfold chooseTarget. destruct (0 <? length candidates)%nat; [|done].
  pose proof (pick_elem candidates w) as Hp.
  destruct (pick candidates w) as [[n|] w1]; cbn [fst] in *; [|done].
  intros [= <-]. by apply Hp.
Qed.

(** What [decideAction] aims at is a segment of the store. *)
Lemma decideAction_target w0 w a :
  nodes (state w) = nodes (state w0) ->
  fst (decideAction (analyzePlant (state w0)) w) = Some a ->
  targetNode a ∈ map snd (nodes (state w0)).
Proof.
  set (analysis := analyzePlant (state w0)).
  assert (forall l, (forall n, n ∈ l ->
                       n ∈ growthTips analysis \/ n ∈ extendableTrunks analysis) ->
            forall kind t dir w1 a1,
              fst (chooseTarget l kind t dir w1) = Some a1 ->
              targetNode a1 ∈ map snd (nodes (state w0))) as Hchoose.
  { intros l Hl kind t dir w1 a1 H. apply chooseTarget_target in H.
    by apply analyze_candidates, Hl. }
  assert (forall (P : PlantNode -> bool) n,
            n ∈ filter P (growthTips analysis) ->
            n ∈ growthTips analysis \/ n ∈ extendableTrunks analysis) as Htips.
  { intros P n Hn. apply list_elem_of_filter in Hn as [_ Hn]. by left. }
  intros En. unfold decideAction. unfold orElse at 1.
  destruct (decideThicken analysis w) as [a0|] eqn:E.
  { cbn [fst]. intros [= <-]. unfold decideThicken in E.
    destruct (weakestNode analysis) as [n|] eqn:Hw; [|done].
    destruct (_ && _); [|done]. injection E as <-. cbn [targetNode].
    by apply analyze_weakest. }
  unfold orElse at 1.
  pose proof (decideRoots_quiet analysis w) as [(E1 & _) _].
  destruct (decideRoots analysis w) as [[a1|] w1] eqn:Er; cbn [snd] in E1.
  { cbn [fst]. intros [= <-]. revert Er. unfold decideRoots.
    destruct (_ && _); [|done].
    destruct (0 <? _)%nat.
    - pose proof (pick_elem (map snd (getNodesByType (state w) ROOT)) w) as Hp.
      destruct (pick _ w) as [[n|] w'']; cbn [fst] in Hp; [|done].
      destruct (_ <? _)%nat; [|done].
      destruct (getRandomRootDirection w'') as [dir w3].
      intros [= <- _]. cbn [targetNode].
      specialize (Hp n eq_refl). rewrite <- En.
      apply list_elem_of_fmap in Hp as (kn & -> & Hin).
      apply list_elem_of_fmap. exists kn. split; [done|].
      unfold getNodesByType in Hin. by apply list_elem_of_filter in Hin as [_ Hin].
    - destruct (nodes_get _ _) as [seed|] eqn:Hs; [|done].
      destruct (_ <? _)%nat; [|done]. intros [= <- _]. cbn [targetNode].
      rewrite <- En. clear -Hs. revert Hs. generalize (seedId (state w)).
      intros k. induction (nodes (state w)) as [|[k' n'] rest IH]; [done|].
      simpl. destruct (String.eqb k k').
      + intros [= ->]. left.
      + intros H. right. by apply IH. }
  unfold orElse at 1.
  pose proof (decideLeaf_quiet analysis w1) as [(E2 & _) _].
  destruct (decideLeaf analysis w1) as [[a2|] w2] eqn:El; cbn [snd] in E2.
  { cbn [fst]. intros [= <-]. revert El. unfold decideLeaf.
    destruct (_ && _); [|done]. intros H.
    apply (f_equal fst) in H. exact (Hchoose _ (Htips _) _ _ _ _ _ H). }
  unfold orElse at 1.
  pose proof (decideExtend_quiet analysis w2) as [(E3 & _) _].
  destruct (decideExtend analysis w2) as [[a3|] w3] eqn:Ee; cbn [snd] in E3.
  { cbn [fst]. intros [= <-]. revert Ee. unfold decideExtend.
    destruct (Qleb _ _); [|done]. cbn [Math_random].
    destruct (Qltb _ 0.3); [|done]. intros H.
    apply (f_equal fst) in H.
    exact (Hchoose (extendableTrunks analysis) (fun n Hn => or_intror Hn) _ _ _ _ _ H). }
  unfold orElse at 1.
  destruct (decideTrunk analysis w3) as [[a4|] w4] eqn:Et.
  { cbn [fst]. intros [= <-]. revert Et. unfold decideTrunk.
    destruct (Qleb _ _); [|done]. intros H.
    apply (f_equal fst) in H. exact (Hchoose _ (Htips _) _ _ _ _ _ H). }
  unfold decideBranch. destruct (Qleb _ _); [|done]. cbn [Math_random].
  destruct (Qltb _ 0.4); [|done].
  destruct (0 <? _)%nat; [|done].
  match goal with
  | |- context [pick ?l ?v] =>
      pose proof (pick_elem l v) as Hp; destruct (pick l v) as [[n|] w5]
  end; cbn [fst] in *; [|done].
  intros [= <-]. cbn [targetNode]. apply analyze_candidates.
  apply (Htips (is_type TRUNK) n). by apply Hp.
Qed.

Lemma value_live w n :
  struct_ok w -> n ∈ map snd (nodes (state w)) -> live (node_id n) w = Some n.
Proof.
  intros (Hwf & Hids & _) Hin. apply list_elem_of_fmap in Hin as ([k n'] & -> & Hin).
  apply nodes_get_elem in Hin; [|done]. simpl.
  unfold live. by rewrite (Hids _ _ Hin).
Qed.

Lemma same_core_struct_ok w w' : same_core w w' -> struct_ok w -> struct_ok w'.
Proof. intros (En & Ei & _). unfold struct_ok. by rewrite En, Ei. Qed.

(** In a well-formed store the growth heuristic aims [addNode] at a
    segment, and the call returns. *)
Lemma executeAction_addNode a t pos w :
  struct_ok w -> targetNode a ∈ map snd (nodes (state w)) ->
  exists r, addNode (node_id (targetNode a)) t pos None w
            = Returned (after (addNode (node_id (targetNode a)) t pos None w)) r.
Proof. intros Hs Hin. eapply addNode_returns. by apply value_live. Qed.

Lemma executeAction_edits okr a w :
  struct_ok w ->
  targetNode a ∈ map snd (nodes (state w)) ->
  rtc (edit okr) w (executeAction a w).
Proof.
  intros Hs Htarget. unfold executeAction. destruct (action_type a).
  - destruct (growType a) as [t|]; [|apply rtc_refl].
    destruct (direction a) as [dir|]; [|apply rtc_refl].
    destruct (existsb _ _); [apply rtc_refl|].
    destruct (executeAction_addNode a t (shift (position (targetNode a)) dir) w Hs Htarget)
      as [r Hr].
    apply rtc_once. eapply edit_addNode; [|exact Hr]. intros v Hv. discriminate Hv.
  - pose proof (value_live _ _ Hs Htarget) as Hlive.
    eapply rtc_l; [by apply (edit_thicken okr w _ _ Hlive)|].
    apply rtc_once, edit_frame.
    unfold same_core. simpl. repeat split; done.
  - destruct (direction a) as [dir|]; [|apply rtc_refl].
    apply rtc_once, edit_extendNode.
Qed.

Lemma autogrow_edits okr w :
  struct_ok w -> rtc (edit okr) w (updateAutoGrow w).
Proof.
  intros Hs. unfold updateAutoGrow.
  destruct (autoGrowEnabled w); cbn [negb]; [|apply rtc_refl].
  destruct (Qltb (nat_Q _) _); [by apply rtc_once, edit_frame|].
  set (w1 := with_autogrow w true 0).
  assert (same_core w w1) as Hc1 by done.
  destruct (Qltb _ 20); [by apply rtc_once, edit_frame|].
  destruct (decideAction_spec (analyzePlant (state w1)) w1) as [Hc2 Hth].
  pose proof (decideAction_target w1 w1) as Ht.
  destruct (decideAction (analyzePlant (state w1)) w1) as [[a|] w2];
    cbn [fst snd] in *.
  - eapply rtc_l; [apply edit_frame; by eapply same_core_trans|].
    apply executeAction_edits.
    + by eapply same_core_struct_ok, same_core_struct_ok.
    + destruct Hc2 as (-> & _). by apply Ht.
  - apply rtc_once, edit_frame. by eapply same_core_trans.
Qed.

Section TickSteps.

Variables (Math_sin Math_cos : Q -> Q) (Math_PI : Q).
Variable okr : Q -> Prop.

Lemma same_core_climate w :
  same_core w (updateClimateSystem Math_sin Math_cos Math_PI w).
Proof. done. Qed.

(** One tick: primitive steps of the systems up to some world, then
    structural edits of the growth heuristic. *)
Lemma tick_steps w :
  struct_ok w ->
  exists w1, rtc prim w w1 /\ struct_ok w1
             /\ rtc (edit okr) w1 (tick Math_sin Math_cos Math_PI w).
Proof.
  intros Hs. unfold tick.
  set (wc := updateClimateSystem Math_sin Math_cos Math_PI w).
  assert (struct_ok wc) as Hsc by (eapply same_core_struct_ok; [apply same_core_climate|done]).
  pose proof (hydraulics_prims true wc Hsc) as Hh.
  pose proof (prims_struct_ok _ _ _ Hh Hsc) as Hsh.
  pose proof (metabolism_prims _ Hsh) as Hm.
  pose proof (prims_struct_ok _ _ _ Hm Hsh) as Hsm.
  exists (updateMetabolism (updateHydraulics wc)). split; [|split; [done|]].
  - eapply rtc_l; [apply prim_frame, same_core_climate|].
    by eapply rtc_trans.
  - eapply rtc_r; [by apply autogrow_edits|].
    apply edit_frame. done.
Qed.

(** Every call into the core is a sequence of primitive steps followed by
    a sequence of edits. *)
Lemma op_steps w w' :
  struct_ok w -> op Math_sin Math_cos Math_PI okr w w' ->
  exists w1, rtc prim w w1 /\ struct_ok w1 /\ rtc (edit okr) w1 w'.
Proof.
  intros Hs Hop. revert Hs.
  destruct Hop as [w0 p t pos r w1 a0 Hr Hadd|w0 fuel k w1 b Hrm|w0 k dir|w0 d|w0 k|w0 b|w0 m
                  |w0 b|w0 a b t s|w0|w0]; intros Hs.
  1-10: exists w0; split; [apply rtc_refl|split; [done|]]; apply rtc_once.
  - by eapply edit_addNode.
  - by eapply edit_removeNode.
  - apply edit_extendNode.
  - by apply edit_frame.
  - by apply edit_frame.
  - by apply edit_frame.
  - by apply edit_frame.
  - by apply edit_frame.
  - apply edit_spawn.
  - apply edit_clear.
  - by apply tick_steps.
Qed.

Lemma edits_struct_ok w w' : rtc (edit okr) w w' -> struct_ok w -> struct_ok w'.
Proof. apply rtc_preserves. intros a b H. by apply (edit_struct_ok okr). Qed.

(** A property kept by the primitive steps and by the edits of
    well-formed worlds is kept by every call. *)
Lemma op_preserves (P : World -> Prop) :
  (forall a b, prim a b -> P a -> P b) ->
  (forall a b, struct_ok a -> edit okr a b -> P a -> P b) ->
  forall w w', op Math_sin Math_cos Math_PI okr w w' ->
               struct_ok w -> P w -> struct_ok w' /\ P w'.
Proof.
  intros Hprim Hedit w w' Hop Hs HP.
  destruct (op_steps w w' Hs Hop) as (w1 & H1 & Hs1 & H2).
  assert (P w1) as HP1 by (eapply rtc_preserves; [exact Hprim|exact H1|exact HP]).
  clear H1 Hop HP Hs.
  induction H2 as [w1|w1 w2 w3 H12 H23 IH]; [done|].
  apply IH; [by eapply edit_struct_ok|by eapply Hedit].
Qed.

End TickSteps.

(** ** The initial world *)

Lemma initial_struct_ok PI rnd : struct_ok (initialWorld PI rnd).
Proof.
  split; [|split]; simpl.
  - unfold nodes_wf. simpl. apply NoDup_singleton.
  - intros k n. simpl. destruct (String.eqb_spec k (node_name 1)) as [->|]; [|done].
    by intros [= <-].
  - intros k Hk. simpl in Hk. apply list_elem_of_singleton in Hk. subst.
    exists 1%nat. split; [lia|done].
Qed.

Lemma initial_live PI rnd k n :
  live k (initialWorld PI rnd) = Some n ->
  n = {| node_id := node_name 1; node_type := SEED; position := {| x := 0; y := 0 |};
         parentId := None; childrenIds := [];
         radius := CONFIG.SEED_RADIUS; structuralHealth := 1.0;
         waterPressure := 0.5; sugarConcentration := 0.8;
         sugarStore := CONFIG.INITIAL_SUGAR; isActive := true; stressLevel := 0 |}.
Proof.
  unfold live. simpl. destruct (String.eqb k (node_name 1)); [|done].
  by intros [= <-].
Qed.

Lemma initial_world_num PI rnd : world_num (initialWorld PI rnd).
Proof.
  intros k n Hk. rewrite (initial_live _ _ _ _ Hk).
  unfold node_ok. simpl. unfold CONFIG.SEED_RADIUS. repeat split; lra.
Qed.

Lemma initial_dead_consistent PI rnd : dead_consistent (initialWorld PI rnd).
Proof. intros k n Hk. rewrite (initial_live _ _ _ _ Hk). done. Qed.

Lemma initial_particles_inv PI rnd : particles_inv (initialWorld PI rnd).
Proof.
  split; simpl; [unfold MAX_TOTAL_PARTICLES; lia|].
  intros key. unfold connectionCount, live_on_key. rewrite lookup_empty. simpl.
  split; [done|lia].
Qed.

(** * Reachable worlds *)

Section Reachable.

Variables (Math_sin Math_cos : Q -> Q) (Math_PI : Q).

Abbreviation op := (op Math_sin Math_cos Math_PI).
Abbreviation reachable := (reachable Math_sin Math_cos Math_PI).

Lemma reachable_struct_ok okr w : reachable okr w -> struct_ok w.
Proof.
  induction 1 as [rnd|w w' _ IH Hop]; [apply initial_struct_ok|].
  apply (op_preserves Math_sin Math_cos Math_PI okr (fun _ => True)
           ltac:(done) ltac:(done) w w' Hop IH I).
Qed.

(** The identifier [generateId] is about to return is not in the store. *)
Lemma reachable_fresh okr w :
  reachable okr w -> nodes_get (node_name (nextId w)) (nodes (state w)) = None.
Proof. intros H. by apply fresh_absent, (reachable_struct_ok okr). Qed.

Lemma reachable_particles_inv okr w : reachable okr w -> particles_inv w.
Proof.
  intros H.
  assert (struct_ok w /\ particles_inv w) as [_ ?]; [|done].
  induction H as [rnd|w w' _ [IHs IHp] Hop].
  - split; [apply initial_struct_ok|apply initial_particles_inv].
  - eapply (op_preserves Math_sin Math_cos Math_PI okr particles_inv);
      [|intros a b _|exact Hop|exact IHs|exact IHp].
    + apply prim_particles_inv.
    + apply edit_particles_inv.
Qed.

(** C4.  In every world reached from the initial one by calls into the
    core (mutations, spawn calls, clears and ticks, whatever the rolls
    return), the number of live flow markers is at most the global cap,
    150, and for every pair of a source and a destination the number of
    live markers on that pair is at most the per-connection cap, 2. *)
Theorem particle_caps okr w :
  reachable okr w ->
  (length (particles w) <= MAX_TOTAL_PARTICLES)%nat
  /\ forall source destination,
       (markers_on source destination w <= MAX_PARTICLES_PER_CONNECTION)%nat.
Proof.
  intros H. destruct (reachable_particles_inv okr w H) as [Hlen Hkeys].
  split; [done|]. intros source destination.
  destruct (Hkeys (connectionKey source destination)) as [_ Hcap].
  pose proof (markers_on_le_key source destination w). lia.
Qed.

Lemma reachable_dead_consistent okr w : reachable okr w -> dead_consistent w.
Proof.
  intros H.
  assert (struct_ok w /\ dead_consistent w) as [_ ?]; [|done].
  induction H as [rnd|w w' _ [IHs IHp] Hop].
  - split; [apply initial_struct_ok|apply initial_dead_consistent].
  - eapply (op_preserves Math_sin Math_cos Math_PI okr dead_consistent);
      [|intros a b|exact Hop|exact IHs|exact IHp].
    + apply prim_dead_consistent.
    + apply edit_dead_consistent.
Qed.

(** A dead segment of a reachable world is dead in every later world
    that still holds it. *)
Lemma dead_forever okr w w' k n :
  reachable okr w -> rtc (op okr) w w' ->
  nodes_get k (nodes (state w)) = Some n -> isActive n = false ->
  dead n /\ forall n', nodes_get k (nodes (state w')) = Some n' -> dead n'.
Proof.
  intros Hr Hrun Hk Hin.
  pose proof (reachable_struct_ok okr w Hr) as Hs.
  pose proof (reachable_dead_consistent okr w Hr k n Hk Hin) as Hd.
  split; [done|].
  assert (stays_dead k w) as Hstay.
  { split.
    - destruct Hs as (_ & _ & Hf). apply Hf. by eapply nodes_get_Some_keys.
    - intros n0 Hn0. unfold live in Hn0. congruence. }
  assert (struct_ok w' /\ stays_dead k w') as [_ [_ H]]; [|exact H].
  clear Hr Hk Hin Hd. induction Hrun as [w|w w1 w2 Hop _ IH]; [done|].
  destruct (op_preserves Math_sin Math_cos Math_PI okr (stays_dead k)
              (fun a b => prim_stays_dead k a b)
              (fun a b Ha => edit_stays_dead okr k a b Ha) w w1 Hop Hs Hstay).
  by apply IH.
Qed.

(** [addNode] on a segment of the store is a step of a run. *)
Lemma reachable_addNode okr p t pos r w :
  reachable okr w -> (forall v, r = Some v -> okr v) -> is_Some (live p w) ->
  reachable okr (after (addNode p t pos r w)).
Proof.
  intros Hr Hokr [parent Hp].
  destruct (addNode_returns p t pos r w parent Hp) as [a Ha].
  eapply reachable_step; [exact Hr|]. by eapply op_addNode.
Qed.

End Reachable.

(** * The metabolism, segment by segment *)

Lemma roll_spawn_live c p a b t s w j :
  live j (roll_spawn c p a b t s w) = live j w.
Proof.
  unfold roll_spawn, live. destruct c; [|done].
  destruct (Math_random w) as [r w1] eqn:E.
  assert (nodes (state w1) = nodes (state w)) as Hn.
  { replace w1 with (snd (Math_random w)) by by rewrite E. done. }
  destruct (Qltb r p); [rewrite spawn_nodes|]; by rewrite Hn.
Qed.

Lemma stressAndHealth_own : own_body stressAndHealthBody stressHealthNode.
Proof.
  intros k n w Hs Hk.
  split; [eapply (prims_struct_ok true); [by apply stressAndHealth_prims|done]|].
  intros j. unfold stressAndHealthBody, stressHealthNode.
  rewrite (ids_of _ _ _ Hs Hk). fold (stressDelta n). fold (newStress n).
  destruct (isActive n); cbn [negb].
  - destruct (Qleb _ _); rewrite updateNode_live, Hk; by destruct (String.eqb k j).
  - destruct (String.eqb_spec k j) as [<-|]; done.
Qed.

Lemma respiration_own : own_body respirationBody respireNode.
Proof.
  intros k n w Hs Hk.
  split; [eapply (prims_struct_ok true); [by apply respiration_prims|done]|].
  intros j. unfold respirationBody, respireNode.
  rewrite (ids_of _ _ _ Hs Hk). fold (respirationCost n).
  destruct (isActive n); cbn [negb].
  - destruct (Qleb _ _).
    + assert (forall w',
                live j (match truthy (parentId n) with
                        | Some p => roll_spawn (NodeType_eqb (node_type n) ROOT) 0.25
                                      p k phloem 0.7 w'
                        | None => w'
                        end) = live j w') as Hsp.
      { intros w'. destruct (truthy _); [apply roll_spawn_live|done]. }
      rewrite Hsp, updateNode_live, Hk. by destruct (String.eqb k j).
    + rewrite reread_updated by done.
      rewrite !updateNode_live, String.eqb_refl, Hk. cbn [fmap option_fmap option_map].
      by destruct (String.eqb k j).
  - destruct (String.eqb_spec k j) as [<-|]; done.
Qed.

(** A loop of [for_nodes] whose body rewrites its own node by [g] rewrites
    every node by [g]. *)
Lemma for_nodes_own body g w k n :
  own_body body g -> struct_ok w -> live k w = Some n ->
  struct_ok (for_nodes body w) /\ live k (for_nodes body w) = Some (g n).
Proof.
  intros Hown Hs Hk. unfold for_nodes.
  set (step := fun w'' j => match live j w'' with
                            | Some node => body j node w''
                            | None => w''
                            end).
  assert (forall l w',
            NoDup l -> struct_ok w' ->
            (forall j, j ∈ l -> live j w' = live j w) ->
            struct_ok (fold_left step l w')
            /\ live k (fold_left step l w')
               = if decide (k ∈ l) then Some (g n) else live k w') as Hfold.
  { induction l as [|j l IH]; intros w' Hnd Hs' Hsame; cbn [fold_left].
    - split; [done|]. rewrite decide_False; [done|]. apply not_elem_of_nil.
    - apply NoDup_cons in Hnd as [Hj Hnd].
      assert (struct_ok (step w' j)
              /\ (forall i, i <> j -> live i (step w' j) = live i w')
              /\ (k = j -> live k (step w' j) = Some (g n))) as (Hs2 & Hother & Hself).
      { unfold step. destruct (live j w') as [node|] eqn:Hjw.
        - destruct (Hown j node w' Hs' Hjw) as [Hs2 Hl2].
          split; [done|split].
          + intros i Hi. rewrite Hl2.
            destruct (String.eqb_spec j i) as [<-|]; done.
          + intros ->. rewrite Hl2, String.eqb_refl.
            rewrite Hsame in Hjw by left. congruence.
        - split; [done|split; [done|]].
          intros ->. rewrite Hsame in Hjw by left. congruence. }
      destruct (IH (step w' j) Hnd Hs2) as [H1 H2].
      { intros i Hi. rewrite Hother; [apply Hsame; by right|].
        intros ->. done. }
      split; [done|]. rewrite H2.
      destruct (decide (k ∈ l)) as [Hin|Hin].
      + rewrite decide_True; [done|by right].
      + destruct (decide (k = j)) as [->|Hne].
        * rewrite decide_True; [|left]. by apply Hself.
        * rewrite decide_False.
          -- by apply Hother.
          -- intros H. apply elem_of_cons in H as [|]; done. }
  destruct (Hfold (nodes_keys (nodes (state w))) w) as [H1 H2].
  - apply Hs.
  - done.
  - done.
  - split; [done|]. rewrite H2, decide_True; [done|].
    by eapply nodes_get_Some_keys.
Qed.

(** * Starvation and death *)

(** ** Nodes are not lost by a tick *)

Lemma addNode_keeps p t pos r w k :
  is_Some (live k w) -> is_Some (live k (after (addNode p t pos r w))).
Proof.
  intros Hk.
  destruct (addNode_cases p t pos r w) as [E|[(_ & s & E)|(parent & Hp & _ & En & _)]].
  - by rewrite E.
  - by rewrite E.
  - unfold live at 1. rewrite En.
    destruct (String.eqb _ p); rewrite !nodes_get_set;
      repeat (destruct (String.eqb _ k); [by eexists|]); done.
Qed.

Lemma extendNode_keeps k0 dir w k :
  is_Some (live k w) -> is_Some (live k (fst (extendNode k0 dir w))).
Proof.
  intros [n Hk]. destruct (extendNode_cases k0 dir w) as [E|(node & Hp & _ & En & _)].
  - rewrite E. by exists n.
  - unfold live at 1. rewrite En. cbn zeta.
    destruct (reparent_fold (node_name (nextId w)) dir (childrenIds node) _ k n Hk)
      as (n' & Hn' & _).
    rewrite nodes_get_set. destruct (String.eqb _ k); [by eexists|].
    destruct (nodes_get k0 (fold_left _ _ _)); [|by exists n'].
    rewrite nodes_get_set. destruct (String.eqb _ k); [by eexists|]. by exists n'.
Qed.

Lemma autogrow_keeps w k :
  is_Some (live k w) -> is_Some (live k (updateAutoGrow w)).
Proof.
  intros Hk. unfold updateAutoGrow.
  destruct (autoGrowEnabled w); cbn [negb]; [|done].
  destruct (Qltb (nat_Q _) _); [done|].
  destruct (Qltb _ 20); [done|].
  destruct (decideAction_spec (analyzePlant (state (with_autogrow w true 0)))
              (with_autogrow w true 0)) as [(En & _) _].
  destruct (decideAction _ _) as [[a|] w2]; cbn [fst snd] in *.
  - assert (is_Some (live k w2)) as Hk2 by (unfold live in *; by rewrite En).
    unfold executeAction. destruct (action_type a).
    + destruct (growType a); [|done]. destruct (direction a); [|done].
      destruct (existsb _ _); [done|]. by apply addNode_keeps.
    + unfold live. cbn [state with_state with_resources nodes].
      fold (live k (updateNode (node_id (targetNode a))
                      [set_radius (radius (targetNode a) * 1.2)] w2)).
      rewrite updateNode_live. destruct (String.eqb _ k) eqn:E; [|done].
      apply String.eqb_eq in E. subst k. destruct Hk2 as [n ->]. by eexists.
    + destruct (direction a); [|done]. by apply extendNode_keeps.
  - unfold live in *. by rewrite En.
Qed.

Lemma prims_keeps v w w' k :
  rtc (primv v) w w' -> is_Some (live k w) -> is_Some (live k w').
Proof.
  intros H. apply prims_weaken in H.
  induction H as [|w1 w2 w3 H12 _ IH]; [done|].
  intros Hk. apply IH. destruct (prim_keys _ _ H12) as [Ek _].
  destruct (live k w2) eqn:E; [by eexists|].
  apply nodes_get_None_keys in E. rewrite Ek in E.
  apply nodes_get_None_keys in E. unfold live in Hk. rewrite E in Hk.
  by destruct Hk.
Qed.

Lemma dead_vitals n : dead n <-> vitals n = (1, 0, false).
Proof.
  unfold dead, vitals. split.
  - intros (-> & -> & ->). done.
  - intros [= -> -> ->]. done.
Qed.

(** Edits keep the vitals of a segment that exists. *)
Lemma edits_vitals okr w w' k n :
  struct_ok w -> rtc (edit okr) w w' -> live k w = Some n ->
  forall n', live k w' = Some n' -> vitals n' = vitals n.
Proof.
  intros Hs Hrun Hk.
  assert (exists i, (i < nextId w)%nat /\ k = node_name i) as Hal.
  { destruct Hs as (_ & _ & Hf). apply Hf. by eapply nodes_get_Some_keys. }
  assert (forall n0, live k w = Some n0 -> vitals n0 = vitals n) as Hv.
  { intros n0 Hn0. congruence. }
  clear Hk. induction Hrun as [w|w w1 w2 He _ IH]; [done|].
  destruct (edit_live _ _ _ Hs He) as [Hle Hlive].
  apply IH.
  - by eapply edit_struct_ok.
  - destruct Hal as (i & Hi & Ek). exists i. split; [lia|done].
  - intros n1 Hn1. destruct (Hlive k n1 Hn1) as [(n0 & Hn0 & Hkept)|(E & _)].
    + rewrite <- (Hv n0 Hn0).
      destruct Hkept as (_ & _ & _ & _ & _ & Eh & Es & Ea & _).
      unfold vitals. by rewrite Eh, Es, Ea.
    + destruct Hal as (i & Hi & Ek). rewrite Ek in E.
      apply node_name_inj in E. lia.
Qed.

Section Starvation.

Variables (Math_sin Math_cos : Q -> Q) (Math_PI : Q).

Abbreviation tick' := (tick Math_sin Math_cos Math_PI).
Abbreviation before_respiration' :=
  (before_respiration Math_sin Math_cos Math_PI).
Abbreviation before_stress' := (before_stress Math_sin Math_cos Math_PI).
Abbreviation starving' := (starving Math_sin Math_cos Math_PI).
Abbreviation op' := (op Math_sin Math_cos Math_PI).
Abbreviation reachable' := (reachable Math_sin Math_cos Math_PI).

Lemma before_respiration_prims w :
  struct_ok w -> rtc (primv false) w (before_respiration' w).
Proof.
  intros Hs. unfold before_respiration.
  set (wc := updateClimateSystem Math_sin Math_cos Math_PI w).
  assert (struct_ok wc) as Hsc
    by (eapply same_core_struct_ok; [apply same_core_climate|done]).
  eapply rtc_l; [apply prim_frame, (same_core_climate Math_sin Math_cos Math_PI)|].
  fold wc. eapply rtc_trans; [by apply hydraulics_prims|].
  apply photosynthesis_system_prims.
  eapply prims_struct_ok; [by apply (hydraulics_prims false)|done].
Qed.

Lemma tick_unfold w :
  tick' w = incrementTick (updateAutoGrow (processStressAndHealth (before_stress' w))).
Proof. done. Qed.

(** What one tick does to the vitals of a segment: the segment enters the
    respiration with the vitals it has, and leaves the tick with the
    vitals the respiration and the stress step give it. *)
Lemma tick_segment w k a :
  struct_ok w -> live k w = Some a ->
  exists n b,
    live k (before_respiration' w) = Some n /\ vitals n = vitals a
    /\ live k (before_stress' w) = Some (respireNode n)
    /\ live k (processStressAndHealth (before_stress' w))
       = Some (stressHealthNode (respireNode n))
    /\ live k (tick' w) = Some b
    /\ vitals b = vitals (stressHealthNode (respireNode n)).
Proof.
  intros Hs Hk.
  pose proof (before_respiration_prims w Hs) as Hp.
  pose proof (prims_struct_ok _ _ _ Hp Hs) as Hsp.
  pose proof (primsf_vitals _ _ k Hp) as Hv. rewrite Hk in Hv.
  destruct (live k (before_respiration' w)) as [n|] eqn:Hn; [|done].
  injection Hv as Hv.
  destruct (for_nodes_own respirationBody respireNode _ k n respiration_own Hsp Hn)
    as [Hsr Hr].
  destruct (for_nodes_own stressAndHealthBody stressHealthNode _ k _
              stressAndHealth_own Hsr Hr) as [Hss Hst].
  fold (processRespiration (before_respiration' w)) in Hsr, Hr, Hss, Hst.
  fold (processStressAndHealth (processRespiration (before_respiration' w)))
    in Hss, Hst.
  change (processRespiration (before_respiration' w)) with (before_stress' w) in *.
  assert (is_Some (live k (tick' w))) as [b Hb].
  { rewrite tick_unfold. apply (autogrow_keeps _ k). by rewrite Hst. }
  exists n, b. repeat split; try done.
  - unfold vitals in *. congruence.
  - eapply (edits_vitals (fun _ => True)); [exact Hss| |exact Hst|exact Hb].
    rewrite tick_unfold. eapply rtc_r; [by apply autogrow_edits|].
    by apply edit_frame.
Qed.

(** A dead segment of a well-formed world is dead in every later world
    that still holds it. *)
Lemma stays_dead_run okr w w' k :
  struct_ok w -> stays_dead k w -> rtc (op' okr) w w' ->
  struct_ok w' /\ stays_dead k w'.
Proof.
  intros Hs Hstay Hrun. induction Hrun as [w|w w1 w2 Hop _ IH]; [done|].
  destruct (op_preserves Math_sin Math_cos Math_PI okr (stays_dead k)
              (fun a b => prim_stays_dead k a b)
              (fun a b Ha => edit_stays_dead okr k a b Ha) w w1 Hop Hs Hstay).
  by apply IH.
Qed.

Lemma dead_stays_dead w k n :
  struct_ok w -> live k w = Some n -> dead n -> stays_dead k w.
Proof.
  intros Hs Hk Hd. split.
  - destruct Hs as (_ & _ & Hf). apply Hf. by eapply nodes_get_Some_keys.
  - intros n0 Hn0. congruence.
Qed.

(** C6, amended.  When the stress of a segment reaches the death threshold
    in the stress-and-health step of a tick (in any well-formed world), the
    segment ends that tick with health 0, stress 1 and inactive.  In every
    world reached from the initial one an inactive segment has health 0
    and stress 1, and it keeps these three fields for as long as it is in
    the store, through every later call that returns of [addNode],
    [removeNode], [extendNode], the scalar and particle calls, and every
    later tick.  (The unvalidated [updateNode] is not among these
    calls.) *)
Theorem death_is_final okr w k :
  (struct_ok w ->
   forall m, live k (before_stress' w) = Some m ->
             isActive m = true ->
             CONFIG.STRESS_DEATH_THRESHOLD <= newStress m ->
             exists b, live k (tick' w) = Some b /\ dead b)
  /\ (reachable' okr w ->
      forall n w', live k w = Some n -> isActive n = false ->
                   rtc (op' okr) w w' ->
                   dead n /\ forall n', live k w' = Some n' -> dead n').
Proof.
  split.
  - intros Hs m Hm Hact Hth.
    assert (is_Some (live k w)) as [a Ha].
    { destruct (live k w) eqn:E; [by eexists|].
      pose proof (before_respiration_prims w Hs) as Hp.
      pose proof (prims_struct_ok _ _ _ Hp Hs) as Hsp.
      assert (rtc prim (before_respiration' w) (before_stress' w)) as Hp2.
      { apply for_nodes_prims; [|done]. intros. by apply respiration_prims. }
      apply prims_weaken in Hp.
      assert (nodes_keys (nodes (state (before_stress' w)))
              = nodes_keys (nodes (state w))) as Ek.
      { transitivity (nodes_keys (nodes (state (before_respiration' w)))).
        - clear -Hp2. induction Hp2 as [|w1 w2 w3 H12 _ IH]; [done|].
          rewrite IH. by apply prim_keys.
        - clear -Hp. induction Hp as [|w1 w2 w3 H12 _ IH]; [done|].
          rewrite IH. by apply prim_keys. }
      apply nodes_get_None_keys in E. rewrite <- Ek in E.
      apply nodes_get_None_keys in E. unfold live in Hm. congruence. }
    destruct (tick_segment w k a Hs Ha) as (n & b & Hn & _ & Hr' & _ & Hb & Hv).
    rewrite Hr' in Hm. injection Hm as <-.
    exists b. split; [done|]. apply dead_vitals. rewrite Hv.
    unfold stressHealthNode. rewrite Hact. cbn [negb].
    apply Qleb_true in Hth. rewrite Hth. done.
  - intros Hr n w' Hk Hin Hrun.
    pose proof (reachable_struct_ok _ _ _ okr w Hr) as Hs.
    pose proof (reachable_dead_consistent _ _ _ okr w Hr k n Hk Hin) as Hd.
    split; [done|].
    destruct (stays_dead_run okr w w' k Hs (dead_stays_dead w k n Hs Hk Hd) Hrun)
      as [_ [_ H]].
    exact H.
Qed.

Lemma tick_struct_ok w : struct_ok w -> struct_ok (tick' w).
Proof.
  intros Hs.
  destruct (tick_steps Math_sin Math_cos Math_PI (fun _ => True) w Hs)
    as (w1 & _ & Hs1 & H2).
  by eapply edits_struct_ok.
Qed.

(** One tick of a segment that enters the respiration active, with an
    empty buffer and a pressure of at most 0.1: it dies, or it stays
    active with its stress raised by at least 0.00001 and still below 1. *)
Lemma starved_step n :
  isActive n = true -> sugarStore n == 0 -> waterPressure n <= 0.1 -> 0 < radius n ->
  dead (stressHealthNode (respireNode n))
  \/ (isActive (stressHealthNode (respireNode n)) = true
      /\ stressLevel n + 0.00001 <= stressLevel (stressHealthNode (respireNode n))
      /\ stressLevel (stressHealthNode (respireNode n)) < 1).
Proof.
  intros Ha Hstore Hwp Hr. unfold respireNode. rewrite Ha. cbn [negb].
  assert (Qleb (respirationCost n) (sugarStore n) = false) as ->.
  { apply Qleb_false. unfold respirationCost, CONFIG.NODE_RESPIRATION_COST. lra. }
  cbn zeta. set (m := Object_assign (Object_assign n _) _).
  assert (isActive m = true) as Ham by done.
  assert (waterPressure m = waterPressure n) as Ewp by done.
  assert (sugarStore m = 0) as Est by done.
  assert (stressLevel m
          = Math_min 1 (stressLevel n
                        + (respirationCost n - sugarStore n)
                          * CONFIG.STARVATION_STRESS_RATE)) as Es by done.
  assert (0 <= stressDelta m) as Hdelta.
  { unfold stressDelta. rewrite Ewp, Est.
    assert (Qltb 0.15 (waterPressure n) = false) as -> by (apply Qltb_false; lra).
    assert (Qltb 0.1 (waterPressure n) = false) as -> by (apply Qltb_false; lra).
    cbn [andb]. unfold CONFIG.DEHYDRATION_STRESS_RATE.
    destruct (Qltb (waterPressure n) 0.08) eqn:E; qbool; lra. }
  unfold stressHealthNode. rewrite Ham. cbn [negb].
  destruct (Qleb CONFIG.STRESS_DEATH_THRESHOLD (newStress m)) eqn:Eth.
  - left. done.
  - right. split; [done|]. apply Qleb_false in Eth.
    cbn [Object_assign fold_left assign_field stressLevel].
    unfold CONFIG.STRESS_DEATH_THRESHOLD in Eth. split; [|lra].
    revert Eth. unfold newStress. rewrite Es.
    unfold respirationCost, CONFIG.NODE_RESPIRATION_COST,
      CONFIG.STARVATION_STRESS_RATE.
    clearbody m. intros Eth. minmax; nra.
Qed.

Lemma nat_Q_succ i : nat_Q (S i) == nat_Q i + 1.
Proof.
  unfold nat_Q. rewrite Nat2Z.inj_succ. unfold Z.succ.
  by rewrite inject_Z_plus.
Qed.

(** C5, amended.  An active segment whose sugar buffer is empty and whose
    water pressure is at most 0.1 when the respiration starts, in each of
    [N] consecutive ticks, is dead after these ticks (inactive, health 0,
    stress 1) as soon as [N] times 0.00001 covers what its stress lacks to
    1; and it stays dead for as long as it is in the store, through every
    later call that returns of [addNode], [removeNode], [extendNode], the
    scalar and particle calls, and every later tick.  (The unvalidated
    [updateNode] is not among these calls.) *)
Theorem starvation_kills w k n N :
  struct_ok w -> live k w = Some n -> isActive n = true ->
  (0 < N)%nat -> 1 - stressLevel n <= nat_Q N * 0.00001 ->
  (forall i, (i < N)%nat -> starving' 0.1 k (Nat.iter i tick' w)) ->
  (exists b, live k (Nat.iter N tick' w) = Some b /\ dead b)
  /\ (forall okr w' b', rtc (op' okr) (Nat.iter N tick' w) w' ->
                        live k w' = Some b' -> dead b').
Proof.
  intros Hs Hk Ha HN Hbound Hstarve.
  assert (forall i, (i <= N)%nat ->
            struct_ok (Nat.iter i tick' w)
            /\ exists a, live k (Nat.iter i tick' w) = Some a
                 /\ (dead a
                     \/ (isActive a = true
                         /\ stressLevel n + nat_Q i * 0.00001 <= stressLevel a
                         /\ ((0 < i)%nat -> stressLevel a < 1)))) as Hinv.
  { induction i as [|i IH]; intros Hi.
    - split; [done|]. exists n. split; [done|]. right.
      split; [done|]. split; [change (nat_Q 0) with 0%Q; lra|lia].
    - destruct IH as [Hsi (a & Hai & Hcase)]; [lia|].
      cbn [Nat.iter nat_rect]. fold (Nat.iter i tick' w).
      split; [by apply tick_struct_ok|].
      destruct (tick_segment _ k a Hsi Hai) as (m & b & Hm & Hv & _ & _ & Hb & Hvb).
      destruct (Hstarve i ltac:(lia)) as (m' & Hm' & Hst & Hwp & Hr).
      rewrite Hm in Hm'. injection Hm' as <-.
      exists b. split; [done|].
      injection Hv as Evs Evh Eva.
      destruct Hcase as [Hd|(Hact & Hstress & _)].
      + left. apply dead_vitals. rewrite Hvb.
        destruct Hd as (Hd1 & Hd2 & Hd3).
        assert (isActive m = false) as Hma by congruence.
        unfold respireNode. rewrite Hma. cbn [negb].
        unfold stressHealthNode. rewrite Hma. cbn [negb].
        unfold vitals. congruence.
      + assert (isActive m = true) as Hma by congruence.
        destruct (starved_step m Hma Hst Hwp Hr) as [Hd|(Hact' & Hinc & Hlt)].
        * left. apply dead_vitals. rewrite Hvb. by apply dead_vitals.
        * right. injection Hvb as Ebs Ebh Eba.
          split; [congruence|]. rewrite Ebs.
          split; [|intros _; exact Hlt].
          rewrite nat_Q_succ. rewrite Evs in Hinc. lra. }
  destruct (Hinv N ltac:(lia)) as [HsN (b & Hb & Hcase)].
  assert (dead b) as Hd.
  { destruct Hcase as [Hd|(_ & Hge & Hlt)]; [done|].
    specialize (Hlt HN). lra. }
  split; [by exists b|].
  intros okr w' b' Hrun Hb'.
  destruct (stays_dead_run okr _ w' k HsN (dead_stays_dead _ k b HsN Hb Hd) Hrun)
    as [_ [_ H]].
  by apply H.
Qed.

End Starvation.

(** * The ranges of the segment fields *)

(** The respiration and the stress step bring a node that is within
    [node_mid] back into [node_ok]: the respiration clamps the sugar
    concentration of an active node at 0. *)
Lemma mid_settles n :
  node_mid n -> (isActive n = false -> node_ok n) ->
  node_ok (stressHealthNode (respireNode n)).
Proof.
  intros (Hw & Hc & Hh & Hs & Hr) Hin.
  unfold respireNode. destruct (isActive n) eqn:Ha; cbn [negb].
  2:{ unfold stressHealthNode. rewrite Ha. cbn [negb]. by apply Hin. }
  assert (0 <= respirationCost n) as Hcost.
  { unfold respirationCost, CONFIG.NODE_RESPIRATION_COST. nra. }
  assert (forall m, isActive m = true ->
            0 <= waterPressure m <= 1 -> 0 <= sugarConcentration m <= 1 ->
            0 <= structuralHealth m <= 1 -> 0 < radius m ->
            node_ok (stressHealthNode m)) as Hstress.
  { intros m Hma Hmw Hmc Hmh Hmr. unfold stressHealthNode. rewrite Hma. cbn [negb].
    unfold newStress. set (d := stressLevel m + stressDelta m). clearbody d.
    destruct (Qleb _ _); unfold node_ok, death;
      cbn [Object_assign fold_left assign_field
           waterPressure sugarConcentration structuralHealth stressLevel radius];
      minmax; repeat split; lra. }
  destruct (Qleb (respirationCost n) (sugarStore n)) eqn:E; qbool.
  - apply Hstress;
      cbn [Object_assign fold_left assign_field isActive
           waterPressure sugarConcentration structuralHealth stressLevel radius];
      try done; minmax; lra.
  - cbv zeta. apply Hstress;
      cbn [Object_assign fold_left assign_field isActive
           waterPressure sugarConcentration structuralHealth stressLevel radius];
      try done; minmax; lra.
Qed.

Lemma num_mid w : world_num w -> world_mid w.
Proof.
  intros H k n Hk. destruct (H k n Hk) as (? & [? ?] & ? & ? & ?).
  unfold node_mid. tauto.
Qed.

Lemma prims_world_mid v w w' : rtc (primv v) w w' -> world_mid w -> world_mid w'.
Proof.
  intros H. apply prims_weaken in H. revert H.
  apply rtc_preserves. intros a b. apply prim_world_mid.
Qed.

Lemma prims_inactive v w w' k n :
  rtc (primv v) w w' -> live k w = Some n -> isActive n = false -> live k w' = Some n.
Proof.
  intros H. apply prims_weaken in H.
  induction H as [|w1 w2 w3 H12 _ IH]; [done|].
  intros Hk Hin. apply IH; [|done]. by eapply prim_inactive.
Qed.

Lemma prims_keys v w w' :
  rtc (primv v) w w' -> nodes_keys (nodes (state w')) = nodes_keys (nodes (state w)).
Proof.
  intros H. apply prims_weaken in H.
  induction H as [|w1 w2 w3 H12 _ IH]; [done|].
  rewrite IH. by apply prim_keys.
Qed.

Lemma edits_world_num w w' :
  rtc (edit (fun v => 0 < v)) w w' -> struct_ok w -> world_num w -> world_num w'.
Proof.
  induction 1 as [|w1 w2 w3 H12 _ IH]; [done|].
  intros Hs Hn. apply IH; [by eapply edit_struct_ok|by eapply edit_world_num].
Qed.

Section Ranges.

Variables (Math_sin Math_cos : Q -> Q) (Math_PI : Q).

(** One tick keeps the ranges: they hold up to the lower bound of the
    concentration until the respiration, which restores that bound for
    the active nodes; the inactive nodes are not touched. *)
Lemma tick_world_num w :
  struct_ok w -> world_num w -> world_num (tick Math_sin Math_cos Math_PI w).
Proof.
  intros Hs Hnum.
  pose proof (before_respiration_prims Math_sin Math_cos Math_PI w Hs) as Hp.
  set (wb := before_respiration Math_sin Math_cos Math_PI w) in *.
  pose proof (prims_struct_ok _ _ _ Hp Hs) as Hsb.
  pose proof (prims_world_mid _ _ _ Hp (num_mid _ Hnum)) as Hmid.
  set (wm := processStressAndHealth (before_stress Math_sin Math_cos Math_PI w)).
  assert (rtc prim wb wm) as Hm.
  { eapply rtc_trans.
    - apply for_nodes_prims; [|exact Hsb]. intros. by apply respiration_prims.
    - apply for_nodes_prims; [intros; by apply stressAndHealth_prims|].
      eapply (prims_struct_ok true); [|exact Hsb].
      apply for_nodes_prims; [|exact Hsb]. intros. by apply respiration_prims. }
  pose proof (prims_struct_ok _ _ _ Hm Hsb) as Hsm.
  assert (world_num wm) as Hnm.
  { intros k m Hk.
    assert (k ∈ nodes_keys (nodes (state w))) as Hin.
    { rewrite <- (prims_keys _ _ _ Hp), <- (prims_keys _ _ _ Hm).
      by eapply nodes_get_Some_keys. }
    destruct (live k w) as [a|] eqn:Ha;
      [|by apply nodes_get_None_keys in Ha].
    destruct (tick_segment Math_sin Math_cos Math_PI w k a Hs Ha)
      as (n & b & Hn & Hv & _ & Hlast & _).
    fold wm in Hlast. rewrite Hlast in Hk. injection Hk as <-.
    apply mid_settles; [by apply (Hmid k)|].
    intros Hdead. injection Hv as _ _ Hva.
    assert (live k wb = Some a) as Hsame.
    { eapply prims_inactive; [exact Hp|exact Ha|congruence]. }
    fold wb in Hn. rewrite Hn in Hsame. injection Hsame as ->.
    by apply (Hnum k). }
  rewrite (tick_unfold Math_sin Math_cos Math_PI). fold wm.
  intros k n Hk.
  change (live k (incrementTick (updateAutoGrow wm)))
    with (live k (updateAutoGrow wm)) in Hk.
  revert k n Hk. fold (world_num (updateAutoGrow wm)).
  eapply edits_world_num; [by apply autogrow_edits|done|done].
Qed.

(** Every call keeps the ranges, when the radius passed to [addNode] is
    positive. *)
Lemma op_world_num w w' :
  struct_ok w -> op Math_sin Math_cos Math_PI (fun v => 0 < v) w w' ->
  world_num w -> world_num w'.
Proof.
  intros Hs Hop.
  destruct Hop as [w0 p t pos r w1 a0 Hr Hadd|w0 fuel k w1 b Hrm|w0 k dir|w0 d|w0 k|w0 b|w0 m
                  |w0 b|w0 a b t s|w0|w0].
  11: by apply tick_world_num.
  all: apply edit_world_num; [done|].
  - by eapply edit_addNode.
  - by eapply edit_removeNode.
  - apply edit_extendNode.
  - by apply edit_frame.
  - by apply edit_frame.
  - by apply edit_frame.
  - by apply edit_frame.
  - by apply edit_frame.
  - apply edit_spawn.
  - apply edit_clear.
Qed.


End Ranges.

(** * Removing a subtree *)

Lemma in_subtree_root_present ns r j : in_subtree ns r j -> is_Some (nodes_get r ns).
Proof. induction 1; [by eexists|done]. Qed.

Lemma in_subtree_present ns r j : in_subtree ns r j -> is_Some (nodes_get j ns).
Proof. destruct 1; [by eexists|done]. Qed.

Lemma in_subtree_trans ns a b c :
  in_subtree ns a b -> in_subtree ns b c -> in_subtree ns a c.
Proof.
  intros Hab Hbc. induction Hbc as [n Hn|k n c Hbk IH Hk Hc Hp]; [done|].
  by eapply subtree_child.
Qed.

(** A node of the subtree is the root or lies below one of its children. *)
Lemma in_subtree_first ns r j n :
  nodes_get r ns = Some n -> in_subtree ns r j ->
  j = r \/ exists c, c ∈ childrenIds n /\ in_subtree ns c j.
Proof.
  intros Hr H. induction H as [n0 Hn0|k n0 c Hrk IH Hk Hc Hp]; [by left|].
  right. destruct IH as [->|(c0 & Hc0 & Hsub)].
  - exists c. assert (n0 = n) as -> by congruence. split; [done|].
    destruct Hp as [nc Hnc]. by eapply subtree_root.
  - exists c0. split; [done|]. by eapply subtree_child.
Qed.

Lemma rank_le rank ns r j :
  ranked rank ns -> in_subtree ns r j -> (rank j <= rank r)%nat.
Proof.
  intros Hrank H. induction H as [n Hn|k n c Hrk IH Hk Hc Hp]; [done|].
  pose proof (Hrank k n c Hk Hc Hp). lia.
Qed.

(** The subtree of [c] in a table from which a set of nodes closed under
    the child links has been taken out. *)
Lemma in_subtree_restrict ns cur (L : list string) c j :
  (forall i, nodes_get i cur = if decide (i ∈ L) then None else nodes_get i ns) ->
  (forall i n c', i ∈ L -> nodes_get i ns = Some n -> c' ∈ childrenIds n ->
                  is_Some (nodes_get c' ns) -> c' ∈ L) ->
  in_subtree cur c j <-> in_subtree ns c j /\ j ∉ L.
Proof.
  intros Hcur Hclosed.
  assert (forall i n, nodes_get i cur = Some n -> nodes_get i ns = Some n /\ i ∉ L)
    as Hin.
  { intros i n Hi. rewrite Hcur in Hi. by case_decide. }
  split.
  - induction 1 as [n Hn|k n c' Hck IH Hk Hc [nc Hp]].
    + destruct (Hin _ _ Hn). split; [by eapply subtree_root|done].
    + destruct IH as [IH1 IH2]. destruct (Hin _ _ Hk). destruct (Hin _ _ Hp).
      split; [|done]. eapply subtree_child; [done..|by eexists].
  - intros [H HL]. induction H as [n Hn|k n c' Hck IH Hk Hc Hp].
    + eapply (subtree_root _ _ n). rewrite Hcur. by rewrite decide_False.
    + assert (k ∉ L) as HkL by (intros HkL; apply HL; by eapply Hclosed).
      eapply (subtree_child _ _ k n); [by apply IH| |done|].
      * rewrite Hcur. by rewrite decide_False.
      * rewrite Hcur. by rewrite decide_False.
Qed.

Lemma nodes_delete_get k j ns :
  nodes_wf ns ->
  nodes_get j (nodes_delete k ns) = if decide (j = k) then None else nodes_get j ns.
Proof.
  unfold nodes_wf, nodes_keys. induction ns as [|[k' n'] rest IH]; simpl.
  - intros _. by case_decide.
  - intros Hnd. apply NoDup_cons in Hnd as [Hnot Hnd].
    destruct (String.eqb_spec k k') as [<-|Hne].
    + case_decide as Hj.
      * subst j. by apply nodes_get_None_keys.
      * destruct (String.eqb_spec j k); done.
    + simpl. destruct (String.eqb_spec j k') as [->|Hjk].
      * by rewrite decide_False by done.
      * by apply IH.
Qed.

Lemma nodes_delete_length k n ns :
  nodes_get k ns = Some n -> S (length (nodes_delete k ns)) = length ns.
Proof.
  induction ns as [|[k' n'] rest IH]; simpl; [done|].
  destruct (String.eqb k k'); [done|]. intros H. simpl. by rewrite IH.
Qed.

Lemma sublist_ranked rank (ns' ns : Nodes) :
  sublist ns' ns -> nodes_wf ns -> ranked rank ns -> ranked rank ns'.
Proof.
  intros Hsub Hwf Hrank k n c Hk Hc [nc Hp]. apply (Hrank k n c).
  - by eapply sublist_get.
  - done.
  - exists nc. by eapply sublist_get.
Qed.

Lemma sublist_plain (ns' ns : Nodes) :
  sublist ns' ns -> nodes_wf ns -> plain ns -> plain ns'.
Proof. intros Hsub Hwf Hp k n Hk. apply (Hp k n). by eapply sublist_get. Qed.

(** The loop over the children in [removeRecursive], from the table [cur]
    from which the subtrees listed in [L] are gone already. *)
Lemma removeChildren_spec rank fuel ns id :
  (forall c cur, nodes_wf cur -> ranked rank cur -> plain cur ->
                 is_Some (nodes_get c cur) \/ inherited c = false ->
                 (rank c < fuel)%nat \/ nodes_get c cur = None ->
                 exists cur' removed,
                   removeRecursive fuel c cur = Some (Done cur')
                   /\ removes cur c cur' removed) ->
  nodes_wf ns -> ranked rank ns -> plain ns -> (rank id <= fuel)%nat ->
  forall cs cur (L seen : list string),
    (forall c, c ∈ cs -> inherited c = false) ->
    (forall c, c ∈ cs -> is_Some (nodes_get c ns) -> (rank c < rank id)%nat) ->
    sublist cur ns -> NoDup L ->
    (forall j, j ∈ L <-> exists c, c ∈ seen /\ in_subtree ns c j) ->
    (forall j, nodes_get j cur = if decide (j ∈ L) then None else nodes_get j ns) ->
    (length cur + length L = length ns)%nat ->
    exists cur' L',
      fold_left (fun acc c => match acc with
                              | Some (Done x) => removeRecursive fuel c x
                              | _ => acc
                              end) cs (Some (Done cur)) = Some (Done cur')
      /\ sublist cur' ns /\ NoDup L'
      /\ (forall j, j ∈ L' <-> exists c, c ∈ seen ++ cs /\ in_subtree ns c j)
      /\ (forall j, nodes_get j cur' = if decide (j ∈ L') then None else nodes_get j ns)
      /\ (length cur' + length L' = length ns)%nat.
Proof.
  intros IHfuel Hwf Hrank Hplain Hfuel.
  induction cs as [|c cs IH]; intros cur L seen Hinh Hcs Hsub HndL HL Hcur Hlen.
  - exists cur, L. rewrite app_nil_r. simpl. done.
  - assert (forall i n c', i ∈ L -> nodes_get i ns = Some n -> c' ∈ childrenIds n ->
                           is_Some (nodes_get c' ns) -> c' ∈ L) as Hclosed.
    { intros i n c' Hi Hn Hc' Hp. apply HL in Hi as (c0 & Hc0 & Hsub0).
      apply HL. exists c0. split; [done|]. by eapply subtree_child. }
    destruct (IHfuel c cur) as (cur1 & R & Hrun & Hs1 & HndR & HR & Hget1 & Hlen1).
    { by eapply sublist_wf. }
    { by eapply sublist_ranked. }
    { by eapply sublist_plain. }
    { right. apply Hinh. left. }
    { destruct (nodes_get c ns) as [nc|] eqn:Hc.
      - left. assert (rank c < rank id)%nat by (apply Hcs; [left|by eexists]). lia.
      - right. rewrite Hcur. by case_decide. }
    assert (forall j, j ∈ R <-> in_subtree ns c j /\ j ∉ L) as HR'.
    { intros j. rewrite HR. by apply in_subtree_restrict. }
    destruct (IH cur1 (L ++ R) (seen ++ [c])) as (cur' & L' & Hfold & H1 & H2 & H3 & H4 & H5).
    + intros c' Hc'. apply Hinh. by right.
    + intros c' Hc'. apply Hcs. by right.
    + by etrans.
    + apply NoDup_app. split; [done|]. split; [|done].
      intros j HjL HjR. apply HR' in HjR as [_ HjR]. done.
    + intros j. rewrite elem_of_app, HL, HR'. split.
      * intros [(c0 & Hc0 & Hs0)|[Hs0 _]].
        -- exists c0. split; [apply elem_of_app; by left|done].
        -- exists c. split; [apply elem_of_app; right; left|done].
      * intros (c0 & Hc0 & Hs0). apply elem_of_app in Hc0 as [Hc0|Hc0].
        -- left. by exists c0.
        -- apply list_elem_of_singleton in Hc0. subst c0.
           destruct (decide (j ∈ L)) as [HjL|HjL]; [|by right].
           left. by apply HL.
    + intros j. rewrite Hget1, Hcur.
      destruct (decide (j ∈ R)) as [HjR|HjR].
      * rewrite decide_True; [done|]. apply elem_of_app. by right.
      * destruct (decide (j ∈ L)) as [HjL|HjL].
        -- rewrite decide_True; [done|]. apply elem_of_app. by left.
        -- rewrite decide_False; [done|]. rewrite elem_of_app. tauto.
    + rewrite length_app. lia.
    + exists cur', L'. cbn [fold_left]. rewrite Hrun.
      split; [exact Hfold|]. split; [done|]. split; [done|].
      split; [|done]. intros j. rewrite H3. rewrite <- app_assoc. done.
Qed.

Lemma removeRecursive_S fuel id ns n :
  nodes_get id ns = Some n ->
  removeRecursive (S fuel) id ns
  = match fold_left (fun acc c => match acc with
                                  | Some (Done x) => removeRecursive fuel c x
                                  | _ => acc
                                  end) (childrenIds n) (Some (Done ns)) with
    | Some (Done ns') => Some (Done (nodes_delete id ns'))
    | other => other
    end.
Proof. intros H. simpl. rewrite (nodes_at_Some _ _ _ H). reflexivity. Qed.

Lemma removeRecursive_None fuel id ns :
  nodes_get id ns = None -> inherited id = false ->
  removeRecursive fuel id ns = Some (Done ns).
Proof. intros H Hi. destruct fuel; simpl; by rewrite (nodes_at_None _ _ H Hi). Qed.

Lemma removeRecursive_spec rank fuel : forall id ns,
  nodes_wf ns -> ranked rank ns -> plain ns ->
  is_Some (nodes_get id ns) \/ inherited id = false ->
  (rank id < fuel)%nat \/ nodes_get id ns = None ->
  exists ns' removed,
    removeRecursive fuel id ns = Some (Done ns') /\ removes ns id ns' removed.
Proof.
  induction fuel as [|fuel IHfuel]; intros id ns Hwf Hrank Hplain Hinh' Hfuel.
  all: assert (nodes_get id ns = None -> inherited id = false) as Hinh
    by (intros E; destruct Hinh' as [[? H]|H]; [congruence|done]).
  - destruct Hfuel as [?|Hnone]; [lia|].
    exists ns, []. rewrite (removeRecursive_None _ _ _ Hnone (Hinh Hnone)). split; [done|].
    split; [done|]. split; [apply NoDup_nil_2|]. split; [|split; [|simpl; lia]].
    + intros j. split; [intros H; by apply elem_of_nil in H|].
      intros H. apply in_subtree_root_present in H as [? ?]. congruence.
    + intros j. rewrite decide_False; [done|apply not_elem_of_nil].
  - destruct (nodes_get id ns) as [n|] eqn:Hid.
    2:{ exists ns, []. rewrite (removeRecursive_None _ _ _ Hid (Hinh eq_refl)). split; [done|].
        split; [done|]. split; [apply NoDup_nil_2|]. split; [|split; [|simpl; lia]].
        + intros j. split; [intros H; by apply elem_of_nil in H|].
          intros H. apply in_subtree_root_present in H as [? ?]. congruence.
        + intros j. rewrite decide_False; [done|apply not_elem_of_nil]. }
    assert (rank id < S fuel)%nat as Hlt by (destruct Hfuel; [done|congruence]).
    destruct (removeChildren_spec rank fuel ns id IHfuel Hwf Hrank Hplain ltac:(lia)
                (childrenIds n) ns [] [])
      as (cur & L & Hfold & Hsub & HndL & HL & Hcur & Hlen).
    + intros c Hc. by apply (Hplain id n Hid).
    + intros c Hc Hp. by apply (Hrank id n c).
    + done.
    + apply NoDup_nil_2.
    + intros j. split; [intros H; by apply elem_of_nil in H|].
      intros (c & Hc & _). by apply elem_of_nil in Hc.
    + intros j. rewrite decide_False; [done|apply not_elem_of_nil].
    + simpl. lia.
    + simpl in HL.
      assert (id ∉ L) as HidL.
      { intros H. apply HL in H as (c & Hc & Hs).
        pose proof (rank_le rank ns c id Hrank Hs).
        pose proof (Hrank id n c Hid Hc (in_subtree_root_present _ _ _ Hs)). lia. }
      assert (nodes_get id cur = Some n) as Hidc.
      { rewrite Hcur. by rewrite decide_False. }
      exists (nodes_delete id cur), (L ++ [id]).
      rewrite (removeRecursive_S _ _ _ _ Hid), Hfold.
      split; [done|]. split; [|split; [|split; [|split]]].
      * etrans; [apply nodes_delete_sublist|done].
      * apply NoDup_app. split; [done|]. split; [|apply NoDup_singleton].
        intros j Hj Hj'. apply list_elem_of_singleton in Hj'. by subst.
      * intros j. rewrite elem_of_app, list_elem_of_singleton, HL. split.
        -- intros [(c & Hc & Hs)| ->].
           ++ eapply in_subtree_trans; [|exact Hs].
              eapply subtree_child; [by eapply subtree_root|done..|].
              by eapply in_subtree_root_present.
           ++ by eapply subtree_root.
        -- intros H. destruct (in_subtree_first ns id j n Hid H) as [->|?];
             [by right|by left].
      * intros j. rewrite nodes_delete_get by by eapply sublist_wf.
        rewrite Hcur. destruct (decide (j = id)) as [->|Hne].
        -- rewrite decide_True; [done|]. apply elem_of_app. right. left.
        -- destruct (decide (j ∈ L)) as [HjL|HjL].
           ++ rewrite decide_True; [done|]. apply elem_of_app. by left.
           ++ rewrite decide_False; [done|].
              rewrite elem_of_app, list_elem_of_singleton. tauto.
      * rewrite length_app. simpl.
        pose proof (nodes_delete_length id n cur Hidc). lia.
Qed.

(** Taking [k] out of its parent's child list changes neither the keys
    nor the subtree of [k]. *)
Lemma detach_spec rank ns p parent k :
  nodes_wf ns -> ranked rank ns -> nodes_get p ns = Some parent ->
  forall ns1,
    ns1 = nodes_set p
            (assign_field parent
               (set_childrenIds
                  (filter (fun c => negb (String.eqb c k)) (childrenIds parent))))
            ns ->
    nodes_wf ns1 /\ ranked rank ns1 /\ length ns1 = length ns
    /\ (forall j, is_Some (nodes_get j ns1) <-> is_Some (nodes_get j ns))
    /\ (forall j, in_subtree ns1 k j <-> in_subtree ns k j).
Proof.
  intros Hwf Hrank Hp ns1 ->.
  set (parent' := assign_field parent _).
  assert (forall c, c ∈ childrenIds parent' <-> c ∈ childrenIds parent /\ c <> k) as Hch.
  { intros c. unfold parent'. cbn. rewrite list_elem_of_filter.
    destruct (String.eqb_spec c k); cbn; intuition congruence. }
  assert (forall j, nodes_get j (nodes_set p parent' ns)
                    = if decide (j = p) then Some parent' else nodes_get j ns) as Hget.
  { intros j. rewrite nodes_get_set. destruct (String.eqb_spec p j); case_decide; congruence. }
  assert (forall j, is_Some (nodes_get j (nodes_set p parent' ns))
                    <-> is_Some (nodes_get j ns)) as Hsome.
  { intros j. rewrite Hget. case_decide; [subst; rewrite Hp|done].
    split; intros _; by eexists. }
  assert (forall j n, nodes_get j (nodes_set p parent' ns) = Some n ->
                      exists n0, nodes_get j ns = Some n0
                                 /\ forall c, c ∈ childrenIds n -> c ∈ childrenIds n0) as Hback.
  { intros j n. rewrite Hget. case_decide.
    - subst. intros [= <-]. exists parent. split; [done|]. intros c Hc. by apply Hch in Hc as [? _].
    - intros H'. by exists n. }
  split; [|split; [|split; [|split; [done|]]]].
  - unfold nodes_wf. rewrite nodes_keys_set_present; [done|by eexists].
  - intros j n c Hj Hc Hs. apply Hback in Hj as (n0 & Hj & Hsub).
    apply (Hrank j n0 c); [done|by apply Hsub|by apply Hsome].
  - apply nodes_count_set_present. by eexists.
  - intros j. split.
    + induction 1 as [n Hn|i n c Hi IH Hn Hc Hs].
      * apply Hback in Hn as (n0 & Hn & _). by eapply subtree_root.
      * apply Hback in Hn as (n0 & Hn & Hsub).
        eapply subtree_child; [exact IH|exact Hn|by apply Hsub|by apply Hsome].
    + induction 1 as [n Hn|i n c Hi IH Hn Hc Hs].
      * assert (is_Some (nodes_get k (nodes_set p parent' ns))) as [n' Hn']
          by (apply Hsome; by eexists).
        by eapply subtree_root.
      * destruct (decide (i = p)) as [->|Hne].
        -- eapply subtree_child; [exact IH| | |by apply Hsome].
           ++ rewrite Hget. by rewrite decide_True.
           ++ apply Hch. rewrite Hp in Hn. injection Hn as <-. split; [done|].
              intros ->. pose proof (rank_le rank ns k p Hrank Hi).
              pose proof (Hrank p parent k Hp Hc Hs). lia.
        -- eapply subtree_child; [exact IH| |exact Hc|by apply Hsome].
           rewrite Hget. by rewrite decide_False.
Qed.

Lemma detach_plain ns p parent k :
  plain ns -> nodes_get p ns = Some parent ->
  plain (nodes_set p
           (assign_field parent
              (set_childrenIds
                 (filter (fun c => negb (String.eqb c k)) (childrenIds parent))))
           ns).
Proof.
  intros Hp Hpar j n. rewrite nodes_get_set.
  destruct (String.eqb_spec p j) as [<-|]; [|apply Hp].
  intros [= <-]. destruct (Hp p parent Hpar) as [H1 H2]. split; [exact H1|].
  intros c Hc. apply H2. cbn in Hc. by apply list_elem_of_filter in Hc as [_ Hc].
Qed.

Lemma truthy_Some o p : truthy o = Some p -> o = Some p.
Proof.
  unfold truthy. destruct o as [q|]; [|done]. destruct (String.eqb q ""); congruence.
Qed.

(** C8, amended.  In a table that holds each key once, whose child links
    are acyclic and none of whose links is an inherited name: [removeNode]
    on a segment of type SEED (the seed, or another segment made with this
    type) refuses and returns the world as it is.  On a segment of another
    type it returns [true] once the fuel exceeds the rank of the segment,
    and the table it leaves is the old one without the subtree of the
    segment: the keys deleted are exactly the segment and its descendants,
    every other key stays, every other node except the parent is
    untouched, and the node count drops by the size of the subtree. *)
Theorem removeNode_spec rank fuel k w node :
  nodes_wf (nodes (state w)) -> ranked rank (nodes (state w)) ->
  plain (nodes (state w)) ->
  live k w = Some node -> (rank k < fuel)%nat ->
  if NodeType_eqb (node_type node) SEED
  then removeNode fuel k w = Some (Returned w false)
  else exists ns' subtree,
      removeNode fuel k w = Some (Returned (put_nodes w ns') true)
      /\ NoDup subtree
      /\ (forall j, j ∈ subtree <-> in_subtree (nodes (state w)) k j)
      /\ (forall j, is_Some (nodes_get j ns') <-> is_Some (live j w) /\ j ∉ subtree)
      /\ (forall j, j ∉ subtree -> Some j <> parentId node -> nodes_get j ns' = live j w)
      /\ (nodes_count ns' + length subtree = nodes_count (nodes (state w)))%nat.
Proof.
  intros Hwf Hrank Hplain Hk Hfuel. unfold live in *.
  pose proof (nodes_at_Some _ _ _ Hk) as Hat.
  destruct (NodeType_eqb (node_type node) SEED) eqn:Ht.
  { unfold removeNode. rewrite Hat. by destruct (node_type node). }
  set (ns := nodes (state w)) in *.
  set (ns1 := match truthy (parentId node) with
              | Some p =>
                  match nodes_get p ns with
                  | Some parent =>
                      nodes_set p
                        (assign_field parent
                           (set_childrenIds
                              (filter (fun c => negb (String.eqb c k))
                                 (childrenIds parent))))
                        ns
                  | None => ns
                  end
              | None => ns
              end).
  assert (removeNode fuel k w
          = match removeRecursive fuel k ns1 with
            | Some (Done ns2) => Some (Returned (put_nodes w ns2) true)
            | Some (Broke ns2) => Some (Threw (put_nodes w ns2) None)
            | None => None
            end) as Hrun.
  { unfold removeNode. fold ns. rewrite Hat. unfold ns1.
    destruct (truthy (parentId node)) as [p|] eqn:Hp.
    - apply truthy_Some in Hp. destruct (Hplain k node Hk) as [Hinh _].
      specialize (Hinh p Hp). unfold nodes_at. rewrite Hinh.
      destruct (nodes_get p ns); by destruct (node_type node).
    - by destruct (node_type node). }
  assert (nodes_wf ns1 /\ ranked rank ns1 /\ plain ns1 /\ length ns1 = length ns
          /\ (forall j, is_Some (nodes_get j ns1) <-> is_Some (nodes_get j ns))
          /\ (forall j, in_subtree ns1 k j <-> in_subtree ns k j)
          /\ (forall j, Some j <> parentId node -> nodes_get j ns1 = nodes_get j ns))
    as (Hwf1 & Hrank1 & Hplain1 & Hlen1 & Hsome1 & Hsub1 & Hsame1).
  { unfold ns1. destruct (truthy (parentId node)) as [p|] eqn:Hp; [|done].
    destruct (nodes_get p ns) as [parent|] eqn:Hpar; [|done].
    destruct (detach_spec rank ns p parent k Hwf Hrank Hpar _ eq_refl)
      as (H1 & H2 & H3 & H4 & H5).
    split; [done|]. split; [done|]. split; [by apply detach_plain|].
    repeat (split; [done|]). intros j Hj. apply nodes_get_set_ne.
    intros ->. apply Hj. by apply truthy_Some in Hp. }
  destruct (removeRecursive_spec rank fuel k ns1 Hwf1 Hrank1 Hplain1)
    as (ns2 & removed & Hrec & _ & Hnd & Hmem & Hget & Hlen).
  { left. apply Hsome1. by eexists. }
  { by left. }
  exists ns2, removed. rewrite Hrun, Hrec.
  split; [done|]. split; [done|]. split; [|split; [|split]].
  - intros j. by rewrite Hmem.
  - intros j. rewrite Hget, <- Hsome1. case_decide; [|tauto].
    split; [by intros [? ?]|tauto].
  - intros j Hj Hpar. rewrite Hget, decide_False by done. by apply Hsame1.
  - unfold nodes_count. lia.
Qed.

(** ** One tick on a chain of two segments *)

Lemma frame_refl n : frame n n.
Proof. by repeat split. Qed.

Lemma frame_trans a b c : frame a b -> frame b c -> frame a c.
Proof.
  intros (?&?&?&?&?&?&?) (?&?&?&?&?&?&?). repeat split; congruence.
Qed.

Lemma frame_link pk ck p c p' c' :
  chain_link pk ck p c -> frame p p' -> frame c c' -> chain_link pk ck p' c'.
Proof.
  intros (?&?&?&?&?&?&?&?&?&?&?&?) (?&?&?&?&Hr&?&?) (?&?&?&?&Hr'&?&?).
  rewrite <- Hr, <- Hr' in *. repeat split; congruence.
Qed.

Lemma frame_water n v : frame n (Object_assign n [set_waterPressure v]).
Proof. by repeat split. Qed.

Lemma pair_at_update_parent pk ck p c us w :
  pk <> ck -> pair_at pk ck p c w ->
  pair_at pk ck (Object_assign p us) c (updateNode pk us w).
Proof.
  intros Hne (Hk & Hp & Hc). split; [by rewrite updateNode_keys|].
  rewrite !updateNode_live, Hp, String.eqb_refl.
  apply String.eqb_neq in Hne. by rewrite Hne.
Qed.

Lemma pair_at_update_child pk ck p c us w :
  pk <> ck -> pair_at pk ck p c w ->
  pair_at pk ck p (Object_assign c us) (updateNode ck us w).
Proof.
  intros Hne (Hk & Hp & Hc). split; [by rewrite updateNode_keys|].
  rewrite !updateNode_live, Hc, String.eqb_refl.
  assert (ck <> pk) as Hne' by congruence.
  apply String.eqb_neq in Hne'. by rewrite Hne'.
Qed.

Lemma pair_at_nodes pk ck p c w w' :
  nodes (state w') = nodes (state w) -> pair_at pk ck p c w -> pair_at pk ck p c w'.
Proof. intros E. unfold pair_at, live. by rewrite E. Qed.

Lemma roll_spawn_nodes cnd q a b t s w :
  nodes (state (roll_spawn cnd q a b t s w)) = nodes (state w).
Proof.
  unfold roll_spawn. destruct cnd; [|done].
  destruct (Math_random w) as [r w1] eqn:E.
  assert (nodes (state w1) = nodes (state w)) as Hn.
  { replace w1 with (snd (Math_random w)) by by rewrite E. done. }
  destruct (Qltb r q); [rewrite spawn_nodes|]; by rewrite Hn.
Qed.

Lemma for_nodes_pair body pk ck p c w :
  pair_at pk ck p c w ->
  for_nodes body w
  = let w1 := body pk p w in
    match live ck w1 with
    | Some node => body ck node w1
    | None => w1
    end.
Proof.
  intros (Hk & Hp & Hc). unfold for_nodes. rewrite Hk. cbn [fold_left]. by rewrite Hp.
Qed.

(** Transpiration: the child is too dry to lose water; the head loses
    water only when it is a leaf, and never falls under 0.12. *)
Lemma chain_transpiration pk ck p c w :
  chain_link pk ck p c -> pair_at pk ck p c w ->
  waterPressure p == 0.9 -> waterPressure c == 0.1 ->
  exists p', pair_at pk ck p' c (processTranspiration w) /\ frame p p'
             /\ 0.12 <= waterPressure p' <= 0.9.
Proof.
  intros Hl Hpair Hwp Hwc.
  destruct Hl as (Hne & Htr & Hidp & Hidc & Hpp & Hcp & Hpc & Hcc & Hap & Hac & Hrp & Hrc).
  unfold processTranspiration.
  set (tf := 0.2 + _ * 0.8).
  assert (forall w', transpirationBody tf ck c w' = w') as Hchild.
  { intros w'. unfold transpirationBody. rewrite Hac, Hcc. cbn.
    rewrite orb_true_r. destruct (Qltb 0.15 _) eqn:E; [|done]. qbool. lra. }
  assert (exists p', pair_at pk ck p' c (transpirationBody tf pk p w) /\ frame p p'
                     /\ 0.12 <= waterPressure p' <= 0.9) as (p' & Hpair' & Hf & Hr).
  { unfold transpirationBody. rewrite Hap, Hcp, Hpp, Hidp. cbn.
    rewrite orb_false_r.
    assert (exists p', pair_at pk ck p' c w /\ frame p p'
                       /\ 0.12 <= waterPressure p' <= 0.9) as Hsame.
    { exists p. split; [done|]. split; [apply frame_refl|lra]. }
    destruct (NodeType_eqb _ _); [|done].
    destruct (Qltb 0.15 _); [|done].
    destruct (Qltb 0 _) eqn:E; [|done]. qbool.
    eexists. split; [by apply pair_at_update_parent|].
    split; [apply frame_water|]. cbn. minmax; lra. }
  exists p'. rewrite (for_nodes_pair _ _ _ _ _ _ Hpair). cbn zeta.
  destruct Hpair' as (Hk' & Hp' & Hc'). rewrite Hc', Hchild. done.
Qed.

Lemma modifyResources_nodes d w : nodes (state (modifyResources d w)) = nodes (state w).
Proof. done. Qed.

Lemma getSoilWaterAtDepth_le d w : getSoilWaterAtDepth d w <= 1.
Proof. unfold getSoilWaterAtDepth. cbn zeta. minmax; lra. Qed.

(** Root uptake on one segment of radius 0.02: the pressure does not
    fall, and rises by at most 0.0024 of what is missing to 1. *)
Lemma rootUptake_one k n w :
  node_id n = k -> live k w = Some n -> radius n == 0.02 -> waterPressure n <= 1 ->
  exists n',
    nodes_keys (nodes (state (rootUptakeBody k n w))) = nodes_keys (nodes (state w))
    /\ live k (rootUptakeBody k n w) = Some n'
    /\ (forall j, j <> k -> live j (rootUptakeBody k n w) = live j w)
    /\ frame n n'
    /\ waterPressure n <= waterPressure n'
       <= waterPressure n + 0.0024 * (1 - waterPressure n).
Proof.
  intros Hid Hk Hr Hle. unfold rootUptakeBody.
  assert (exists n',
            nodes_keys (nodes (state w)) = nodes_keys (nodes (state w))
            /\ live k w = Some n'
            /\ (forall j, j <> k -> live j w = live j w)
            /\ frame n n'
            /\ waterPressure n <= waterPressure n'
               <= waterPressure n + 0.0024 * (1 - waterPressure n)) as Hsame.
  { exists n. repeat split; try done; lra. }
  destruct (negb (isActive n)); [done|].
  set (soil := getSoilWaterAtDepth _ w).
  pose proof (getSoilWaterAtDepth_le (Math_abs (y (position n))) w) as Hsoil. fold soil in Hsoil.
  destruct (Qltb 0.1 soil && Qltb _ 0.95); [|done].
  destruct (Qltb 0.001 _) eqn:E; [|done]. qbool.
  set (v := Math_min 1.0 _).
  set (w1 := updateNode (node_id n) [set_waterPressure v] w).
  set (w2 := modifyResources _ w1).
  assert (forall w', nodes (state w') = nodes (state w2) ->
            exists n',
              nodes_keys (nodes (state w')) = nodes_keys (nodes (state w))
              /\ live k w' = Some n'
              /\ (forall j, j <> k -> live j w' = live j w)
              /\ frame n n'
              /\ waterPressure n <= waterPressure n'
                 <= waterPressure n + 0.0024 * (1 - waterPressure n)) as Hres.
  { intros w' E'. exists (Object_assign n [set_waterPressure v]).
    unfold live. rewrite E'. unfold w2. rewrite modifyResources_nodes.
    fold (live k w1). unfold w1. rewrite Hid.
    split; [apply updateNode_keys|]. split; [|split; [|split; [apply frame_water|]]].
    - by rewrite updateNode_live, String.eqb_refl, Hk.
    - intros j Hj. fold (live j (updateNode k [set_waterPressure v] w)).
      rewrite updateNode_live. assert (k <> j) as Hj' by congruence.
      apply String.eqb_neq in Hj'. by rewrite Hj'.
    - cbn. unfold v. unfold CONFIG.ROOT_UPTAKE_RATE in *.
      assert (0.12 * radius n * Math_max 0.1 (soil - waterPressure n)
              == 0.0024 * Math_max 0.1 (soil - waterPressure n)) as Eu
        by (rewrite Hr; ring).
      rewrite Eu in E. minmax; lra. }
  destruct (truthy (parentId n)); [|by apply Hres].
  apply Hres. apply roll_spawn_nodes.
Qed.

Lemma pair_at_table pk ck p c w :
  pk <> ck -> pair_at pk ck p c w -> nodes (state w) = [(pk, p); (ck, c)].
Proof.
  intros Hne (Hk & Hp & Hc). unfold live in *.
  destruct (nodes (state w)) as [|[k1 n1] [|[k2 n2] [|? ?]]]; try done.
  cbn in Hk. injection Hk as -> ->. cbn in Hp, Hc.
  rewrite String.eqb_refl in Hp. injection Hp as ->.
  assert (ck <> pk) as Hne' by congruence. apply String.eqb_neq in Hne'.
  rewrite Hne', String.eqb_refl in Hc. by injection Hc as ->.
Qed.

(** Root uptake on the chain. *)
Lemma chain_rootUptake pk ck p c w :
  chain_link pk ck p c -> pair_at pk ck p c w ->
  waterPressure p <= 1 -> waterPressure c <= 1 ->
  exists p' c', pair_at pk ck p' c' (processRootUptake w) /\ frame p p' /\ frame c c'
    /\ waterPressure p <= waterPressure p' <= waterPressure p + 0.0024 * (1 - waterPressure p)
    /\ waterPressure c <= waterPressure c' <= waterPressure c + 0.0024 * (1 - waterPressure c).
Proof.
  intros Hl Hpair Hwp Hwc.
  destruct Hl as (Hne & Htr & Hidp & Hidc & Hpp & Hcp & Hpc & Hcc & Hap & Hac & Hrp & Hrc).
  assert (ck <> pk) as Hne' by congruence.
  unfold processRootUptake, getNodesByType.
  rewrite (pair_at_table _ _ _ _ _ Hne Hpair).
  set (step := fun w' k => match live k w' with
                           | Some root => rootUptakeBody k root w'
                           | None => w'
                           end).
  assert (exists p', pair_at pk ck p' c (step w pk) /\ frame p p'
            /\ waterPressure p <= waterPressure p'
               <= waterPressure p + 0.0024 * (1 - waterPressure p)) as Hstep_p.
  { destruct Hpair as (Hk & Hp & Hc). unfold step. rewrite Hp.
    destruct (rootUptake_one pk p w Hidp Hp Hrp Hwp) as (p' & H1 & H2 & H3 & H4 & H5).
    exists p'. split; [|done]. split; [by rewrite H1|]. split; [done|].
    by rewrite H3. }
  assert (forall p' w', pair_at pk ck p' c w' ->
            exists c', pair_at pk ck p' c' (step w' ck) /\ frame c c'
              /\ waterPressure c <= waterPressure c'
                 <= waterPressure c + 0.0024 * (1 - waterPressure c)) as Hstep_c.
  { intros p' w' (Hk & Hp & Hc). unfold step. rewrite Hc.
    destruct (rootUptake_one ck c w' Hidc Hc Hrc Hwc) as (c' & H1 & H2 & H3 & H4 & H5).
    exists c'. split; [|done]. split; [by rewrite H1|]. split; [|done].
    by rewrite H3. }
  assert (map fst (filter (fun kn : string * PlantNode =>
                             NodeType_eqb (node_type (snd kn)) ROOT)
                     ([(pk, p); (ck, c)] : Nodes))
          = (if NodeType_eqb (node_type p) ROOT then [pk] else [])
            ++ (if NodeType_eqb (node_type c) ROOT then [ck] else [])) as ->.
  { cbv [filter list_filter snd].
    destruct (NodeType_eqb (node_type p) ROOT), (NodeType_eqb (node_type c) ROOT);
      reflexivity. }
  destruct (NodeType_eqb (node_type p) ROOT), (NodeType_eqb (node_type c) ROOT);
    cbn [app fold_left]; fold (step w pk).
  - destruct Hstep_p as (p' & Hpair' & Hf & Hr).
    destruct (Hstep_c p' _ Hpair') as (c' & Hpair'' & Hf' & Hr').
    by exists p', c'.
  - destruct Hstep_p as (p' & Hpair' & Hf & Hr).
    exists p', c. split; [exact Hpair'|]. split; [done|]. split; [apply frame_refl|].
    split; [exact Hr|lra].
  - destruct (Hstep_c p w Hpair) as (c' & Hpair'' & Hf' & Hr').
    exists p, c'. split; [exact Hpair''|]. split; [apply frame_refl|]. split; [done|].
    split; [lra|exact Hr'].
  - exists p, c. split; [exact Hpair|]. split; [apply frame_refl|].
    split; [apply frame_refl|]. lra.
Qed.

(** The xylem flow on the chain: the head gives 0.008 of the gap, the
    child receives 95% of it. *)
Lemma chain_xylem pk ck p c w :
  chain_link pk ck p c -> pair_at pk ck p c w ->
  0.12 <= waterPressure p <= 0.9003 -> 0.1 <= waterPressure c <= 0.1022 ->
  exists p' c', pair_at pk ck p' c' (processXylemFlow w) /\ frame p p' /\ frame c c'
    /\ waterPressure p' == waterPressure p - 0.008 * (waterPressure p - waterPressure c)
    /\ waterPressure c' == waterPressure c + 0.0076 * (waterPressure p - waterPressure c).
Proof.
  intros Hl Hpair Hwp Hwc.
  destruct Hl as (Hne & Htr & Hidp & Hidc & Hpp & Hcp & Hpc & Hcc & Hap & Hac & Hrp & Hrc).
  assert (ck <> pk) as Hne' by congruence.
  unfold processXylemFlow. rewrite (for_nodes_pair _ _ _ _ _ _ Hpair). cbn zeta.
  assert (xylemBody pk p w = w) as ->.
  { unfold xylemBody. by rewrite Hap, Hpp. }
  pose proof Hpair as (Hk & Hp & Hc). rewrite Hc.
  unfold xylemBody. rewrite Hac, Hpc, Htr, Hp, Hap, Hidp, Hidc. cbn [negb].
  set (d := waterPressure p - waterPressure c).
  destruct (Qltb CONFIG.FLOW_THRESHOLD d) eqn:Ed.
  2:{ qbool. unfold CONFIG.FLOW_THRESHOLD, d in Ed. lra. }
  set (af := Math_min _ (waterPressure p * 0.5)).
  assert (af == 0.008 * d) as Haf.
  { unfold af, CONFIG.WATER_FLOW_RATE, d. minmax; nra. }
  set (w1 := updateNode pk [set_waterPressure (waterPressure p - af)] w).
  assert (pair_at pk ck (Object_assign p [set_waterPressure (waterPressure p - af)]) c w1)
    as Hpair1 by by apply pair_at_update_parent.
  assert (reread ck c w1 = c) as ->.
  { unfold reread. destruct Hpair1 as (_ & _ & ->). done. }
  set (v := Math_min 1.0 (waterPressure c + af * 0.95)).
  set (w2 := updateNode ck [set_waterPressure v] w1).
  assert (pair_at pk ck (Object_assign p [set_waterPressure (waterPressure p - af)])
            (Object_assign c [set_waterPressure v]) w2)
    as Hpair2 by by apply pair_at_update_child.
  assert (forall w', nodes (state w') = nodes (state w2) ->
            exists p' c', pair_at pk ck p' c' w' /\ frame p p' /\ frame c c'
              /\ waterPressure p' == waterPressure p - 0.008 * d
              /\ waterPressure c' == waterPressure c + 0.0076 * d) as Hres.
  { intros w' E. do 2 eexists. split; [exact (pair_at_nodes _ _ _ _ _ _ E Hpair2)|].
    split; [apply frame_water|]. split; [apply frame_water|]. cbn.
    split; [lra|]. unfold v. unfold d in *. minmax; lra. }
  match goal with
  | |- context [roll_spawn ?cnd 0.3 pk ck xylem ?s w2] =>
      set (w3 := roll_spawn cnd 0.3 pk ck xylem s w2)
  end.
  assert (nodes (state w3) = nodes (state w2)) as E3 by apply roll_spawn_nodes.
  destruct (_ || _); apply Hres; [|done].
  by rewrite roll_spawn_nodes.
Qed.

(** ** Steps that do not touch the water *)

Lemma assign_dry us : forall n,
  forallb dry us = true -> gauge (Object_assign n us) = gauge n.
Proof.
  unfold Object_assign.
  induction us as [|u us IH]; intros n H; [done|].
  cbn [forallb] in H. apply andb_true_iff in H as [Hu Hus].
  cbn [fold_left]. rewrite IH by done. by destruct u.
Qed.

Lemma nodes_set_gauges k n n' ns :
  nodes_get k ns = Some n -> gauge n' = gauge n ->
  map (fun kn : string * PlantNode => (fst kn, gauge (snd kn))) (nodes_set k n' ns)
  = map (fun kn : string * PlantNode => (fst kn, gauge (snd kn))) ns.
Proof.
  intros Hk Hg. induction ns as [|[k0 n0] ns IH]; [done|].
  cbn in *. destruct (String.eqb k k0).
  - injection Hk as ->. cbn. by rewrite Hg.
  - cbn. by rewrite IH.
Qed.

Lemma updateNode_gauges k us w :
  forallb dry us = true -> gauges (updateNode k us w) = gauges w.
Proof.
  intros Hd. unfold gauges. destruct (live k w) as [n|] eqn:Hk.
  - rewrite (updateNode_nodes _ _ _ _ Hk). apply (nodes_set_gauges k n); [done|].
    by apply assign_dry.
  - by rewrite updateNode_absent.
Qed.

Lemma roll_spawn_gauges cnd q a b t s w :
  gauges (roll_spawn cnd q a b t s w) = gauges w.
Proof. unfold gauges. by rewrite roll_spawn_nodes. Qed.

Lemma fold_gauges {A} (step : World -> A -> World) l :
  (forall w a, gauges (step w a) = gauges w) ->
  forall w, gauges (fold_left step l w) = gauges w.
Proof.
  intros Hstep. induction l as [|a l IH]; intros w; [done|].
  cbn [fold_left]. by rewrite IH.
Qed.

Lemma for_nodes_gauges body w :
  (forall k n w', gauges (body k n w') = gauges w') ->
  gauges (for_nodes body w) = gauges w.
Proof.
  intros Hb. unfold for_nodes. apply fold_gauges.
  intros w' k. by destruct (live k w').
Qed.

Ltac gauges_step :=
  repeat first
    [ rewrite roll_spawn_gauges
    | rewrite updateNode_gauges by reflexivity ].

Lemma phloem_gauges w : gauges (processPhloemFlow w) = gauges w.
Proof.
  apply for_nodes_gauges. intros k n w'. unfold phloemBody.
  destruct (negb (isActive n)); [done|].
  apply fold_gauges. intros w1 ck. unfold phloemChild.
  destruct (live k w1) as [node|]; [|done].
  destruct (live ck w1) as [child|]; [|done].
  repeat (case_match; gauges_step); done.
Qed.

Lemma respiration_gauges w : gauges (processRespiration w) = gauges w.
Proof.
  apply for_nodes_gauges. intros k n w'. unfold respirationBody.
  repeat (case_match; gauges_step); done.
Qed.

Lemma stressAndHealth_gauges w : gauges (processStressAndHealth w) = gauges w.
Proof.
  apply for_nodes_gauges. intros k n w'. unfold stressAndHealthBody.
  repeat (case_match; gauges_step); done.
Qed.

Lemma updateParticles_gauges w : gauges (updateParticles w) = gauges w.
Proof. unfold gauges. by rewrite updateParticles_nodes. Qed.

(** Photosynthesis on the chain: the child is too dry for it; the head can
    only lose water, and not below 0. *)
Lemma chain_photosynthesis pk ck p c w :
  pk <> ck -> node_id p = pk -> pair_at pk ck p c w ->
  0 <= waterPressure p -> waterPressure c < 0.15 ->
  exists p', pair_at pk ck p' c (processPhotosynthesis w)
             /\ 0 <= waterPressure p' <= waterPressure p.
Proof.
  intros Hne Hidp Hpair Hwp Hwc.
  assert (forall w', photosynthesisBody ck c w' = w') as Hchild.
  { intros w'. unfold photosynthesisBody.
    destruct (negb (isActive c)); [done|]. destruct (_ && _); [done|].
    destruct (Qltb _ _) eqn:E; [done|]. qbool.
    unfold CONFIG.MIN_WATER_FOR_PHOTOSYNTHESIS in E. lra. }
  assert (exists p', pair_at pk ck p' c (photosynthesisBody pk p w)
                     /\ 0 <= waterPressure p' <= waterPressure p) as (p' & Hpair' & Hr).
  { unfold photosynthesisBody. rewrite Hidp.
    assert (exists p', pair_at pk ck p' c w
                       /\ 0 <= waterPressure p' <= waterPressure p) as Hsame.
    { exists p. split; [done|lra]. }
    destruct (negb (isActive p)); [done|]. destruct (_ && _); [done|].
    destruct (Qltb _ CONFIG.MIN_WATER_FOR_PHOTOSYNTHESIS); [done|].
    set (produced := CONFIG.PHOTOSYNTHESIS_RATE * _ * _ * _).
    destruct (Qltb 0 produced) eqn:E; [|done]. qbool.
    set (us := [set_waterPressure _; _; _]).
    assert (forall w', nodes (state w') = nodes (state (updateNode pk us w)) ->
              exists p', pair_at pk ck p' c w'
                         /\ 0 <= waterPressure p' <= waterPressure p) as Hres.
    { intros w' E'. exists (Object_assign p us). split.
      - eapply pair_at_nodes; [exact E'|]. by apply pair_at_update_parent.
      - cbn. unfold CONFIG.WATER_PER_SUGAR. minmax; lra. }
    destruct (truthy (parentId p)); apply Hres; [|done].
    by rewrite roll_spawn_nodes. }
  exists p'. unfold processPhotosynthesis.
  rewrite (for_nodes_pair _ _ _ _ _ _ Hpair). cbn zeta.
  destruct Hpair' as (Hk' & Hp' & Hc'). rewrite Hc', Hchild. done.
Qed.

Lemma pair_at_gauges pk ck p c w :
  pk <> ck -> pair_at pk ck p c w -> gauges w = [(pk, gauge p); (ck, gauge c)].
Proof. intros Hne H. unfold gauges. by rewrite (pair_at_table _ _ _ _ _ Hne H). Qed.

Lemma gauges_pair_at pk ck g1 g2 w :
  pk <> ck -> gauges w = [(pk, g1); (ck, g2)] ->
  exists p c, pair_at pk ck p c w /\ gauge p = g1 /\ gauge c = g2.
Proof.
  intros Hne. unfold gauges, pair_at, live.
  destruct (nodes (state w)) as [|[k1 n1] [|[k2 n2] [|? ?]]]; try done.
  cbn. intros [= -> <- -> <-]. exists n1, n2.
  assert (ck <> pk) as Hne' by congruence. apply String.eqb_neq in Hne'.
  by rewrite !String.eqb_refl, Hne'.
Qed.

(** Edits keep the water of a segment that exists. *)
Lemma edits_water okr w w' k n :
  struct_ok w -> rtc (edit okr) w w' -> live k w = Some n ->
  forall n', live k w' = Some n' -> waterPressure n' = waterPressure n.
Proof.
  intros Hs Hrun Hk.
  assert (exists i, (i < nextId w)%nat /\ k = node_name i) as Hal.
  { destruct Hs as (_ & _ & Hf). apply Hf. by eapply nodes_get_Some_keys. }
  assert (forall n0, live k w = Some n0 -> waterPressure n0 = waterPressure n) as Hv.
  { intros n0 Hn0. congruence. }
  clear Hk. induction Hrun as [w|w w1 w2 He _ IH]; [done|].
  destruct (edit_live _ _ _ Hs He) as [Hle Hlive].
  apply IH.
  - by eapply edit_struct_ok.
  - destruct Hal as (i & Hi & Ek). exists i. split; [lia|done].
  - intros n1 Hn1. destruct (Hlive k n1 Hn1) as [(n0 & Hn0 & Hkept)|(E & _)].
    + rewrite <- (Hv n0 Hn0). by destruct Hkept as (_ & _ & Ew & _).
    + destruct Hal as (i & Hi & Ek). rewrite Ek in E.
      apply node_name_inj in E. lia.
Qed.

Lemma node_name_truthy i : truthy (Some (node_name i)) = Some (node_name i).
Proof. done. Qed.

Lemma two_chain_link pk ck p c w : two_chain pk ck p c w -> chain_link pk ck p c.
Proof.
  intros (Hs & Hpair & Hpp & Hcp & Hpc & Hcc & Hap & Hac & Hrp & Hrc & _).
  pose proof Hpair as (Hk & Hp & Hc).
  pose proof Hs as (Hwf & _ & Hfresh).
  unfold nodes_wf in Hwf. rewrite Hk in Hwf.
  assert (pk <> ck) as Hne.
  { intros ->. apply NoDup_cons in Hwf as [Hin _]. apply Hin. left. }
  assert (truthy (Some pk) = Some pk) as Htr.
  { destruct (Hfresh pk) as (i & _ & ->); [rewrite Hk; left|apply node_name_truthy]. }
  repeat split; try done; by eapply ids_of.
Qed.

Section ChainTick.

Variables (Math_sin Math_cos : Q -> Q) (Math_PI : Q).

(** C9. In a store that holds a chain of two live segments of radius 0.02,
    the head at water pressure 0.9 and its child at 0.1, one call of
    [stepSimulation] leaves both segments in the store with a distance
    between their pressures strictly below the distance before the call,
    whatever the rolls, the climate, the types and the other fields of the
    two segments are. *)
Theorem stepSimulation_narrows_gap pk ck p c w :
  two_chain pk ck p c w ->
  exists g g', pressure_gap pk ck w = Some g
    /\ pressure_gap pk ck (stepSimulation Math_sin Math_cos Math_PI w) = Some g'
    /\ g' < g.
Proof.
  intros Hchain. pose proof (two_chain_link _ _ _ _ _ Hchain) as Hl.
  destruct Hchain as (Hs & Hpair & _ & _ & _ & _ & _ & _ & _ & _ & Hwp & Hwc).
  pose proof Hl as (Hne & _ & Hidp & Hidc & _).
  unfold stepSimulation, tick.
  set (wc := updateClimateSystem Math_sin Math_cos Math_PI w).
  assert (struct_ok wc) as Hsc
    by (eapply same_core_struct_ok; [apply same_core_climate|done]).
  assert (pair_at pk ck p c wc) as Hpc by (by eapply pair_at_nodes; [|exact Hpair]).
  (* the hydraulics *)
  destruct (chain_transpiration _ _ _ _ _ Hl Hpc Hwp Hwc) as (p1 & Hp1 & Hf1 & Hr1).
  pose proof (frame_link _ _ _ _ _ _ Hl Hf1 (frame_refl c)) as Hl1.
  destruct (chain_rootUptake _ _ _ _ _ Hl1 Hp1 ltac:(lra) ltac:(lra))
    as (p2 & c2 & Hp2 & Hf2 & Hf2' & Hr2 & Hr2').
  pose proof (frame_link _ _ _ _ _ _ Hl1 Hf2 Hf2') as Hl2.
  destruct (chain_xylem _ _ _ _ _ Hl2 Hp2 ltac:(lra) ltac:(lra))
    as (p3 & c3 & Hp3 & Hf3 & Hf3' & Hr3 & Hr3').
  pose proof (frame_link _ _ _ _ _ _ Hl2 Hf3 Hf3') as Hl3.
  set (wx := processXylemFlow (processRootUptake (processTranspiration wc))) in *.
  assert (gauges (updateHydraulics wc) = [(pk, gauge p3); (ck, gauge c3)]) as Hg.
  { unfold updateHydraulics. fold wx.
    rewrite updateParticles_gauges, phloem_gauges. by apply pair_at_gauges. }
  destruct (gauges_pair_at _ _ _ _ _ Hne Hg) as (p4 & c4 & Hp4 & Hg4 & Hg4').
  injection Hg4 as Hid4 Hw4. injection Hg4' as Hid4' Hw4'.
  destruct Hl3 as (_ & _ & Hidp3 & Hidc3 & _).
  (* the metabolism *)
  destruct (chain_photosynthesis pk ck p4 c4 _ Hne ltac:(congruence) Hp4)
    as (p5 & Hp5 & Hr5); [rewrite Hw4; lra|rewrite Hw4'; lra|].
  set (wh := updateHydraulics wc) in *.
  assert (gauges (updateMetabolism wh) = [(pk, gauge p5); (ck, gauge c4)]) as Hg5.
  { unfold updateMetabolism.
    rewrite stressAndHealth_gauges, respiration_gauges. by apply pair_at_gauges. }
  destruct (gauges_pair_at _ _ _ _ _ Hne Hg5) as (p6 & c6 & Hp6 & Hg6 & Hg6').
  injection Hg6 as _ Hw6. injection Hg6' as _ Hw6'.
  assert (struct_ok (updateMetabolism wh)) as Hsm.
  { eapply (prims_struct_ok true); [apply metabolism_prims|];
      eapply (prims_struct_ok true); try apply hydraulics_prims; done. }
  (* the growth heuristic and the tick counter *)
  set (wm := updateMetabolism wh) in *.
  destruct Hp6 as (_ & Hlp6 & Hlc6).
  destruct (autogrow_keeps wm pk) as [p7 Hp7]; [by eexists|].
  destruct (autogrow_keeps wm ck) as [c7 Hc7]; [by eexists|].
  pose proof (edits_water (fun _ => True) _ _ _ _ Hsm
                (autogrow_edits _ wm Hsm) Hlp6 _ Hp7) as Hw7.
  pose proof (edits_water (fun _ => True) _ _ _ _ Hsm
                (autogrow_edits _ wm Hsm) Hlc6 _ Hc7) as Hw7'.
  destruct Hpair as (_ & Hp & Hc).
  exists (Math_abs (waterPressure p - waterPressure c)),
         (Math_abs (waterPressure p7 - waterPressure c7)).
  split; [unfold pressure_gap; by rewrite Hp, Hc|].
  split.
  { unfold pressure_gap.
    change (live pk (incrementTick (updateAutoGrow wm))) with (live pk (updateAutoGrow wm)).
    change (live ck (incrementTick (updateAutoGrow wm))) with (live ck (updateAutoGrow wm)).
    by rewrite Hp7, Hc7. }
  rewrite Hw7, Hw7', Hw6, Hw6', Hw4'. rewrite Hw4 in Hr5. minmax; lra.
Qed.

End ChainTick.

(** ** A seed that starves without dying *)

Section LoneSeed.

Variables (Math_sin Math_cos : Q -> Q) (Math_PI : Q).

Lemma for_nodes_single body k n w :
  nodes (state w) = [(k, n)] -> for_nodes body w = body k n w.
Proof.
  intros Hn. unfold for_nodes, live. rewrite Hn.
  cbn [nodes_keys map fst fold_left]. rewrite Hn. cbn [nodes_get].
  by rewrite String.eqb_refl.
Qed.

Lemma lone_hydraulics w c h :
  nodes (state w) = [("node_1", lone c h)] ->
  nodes (state (updateHydraulics w)) = [("node_1", lone c h)]
  /\ autoGrowEnabled (updateHydraulics w) = autoGrowEnabled w.
Proof.
  intros Hn. unfold updateHydraulics.
  assert (processTranspiration w = w) as ->.
  { unfold processTranspiration. by rewrite (for_nodes_single _ _ _ _ Hn). }
  assert (processRootUptake w = w) as ->.
  { unfold processRootUptake, getNodesByType. rewrite Hn. reflexivity. }
  assert (processXylemFlow w = w) as ->.
  { unfold processXylemFlow. by rewrite (for_nodes_single _ _ _ _ Hn). }
  assert (processPhloemFlow w = w) as ->.
  { unfold processPhloemFlow. by rewrite (for_nodes_single _ _ _ _ Hn). }
  rewrite updateParticles_nodes. split; [done|].
  unfold updateParticles. by destruct (filterParticles _ _ _).
Qed.

Lemma lone_photosynthesis w c h :
  nodes (state w) = [("node_1", lone c h)] -> processPhotosynthesis w = w.
Proof.
  intros Hn. unfold processPhotosynthesis. by rewrite (for_nodes_single _ _ _ _ Hn).
Qed.

Lemma single_update k n us w :
  nodes (state w) = [(k, n)] ->
  nodes (state (updateNode k us w)) = [(k, Object_assign n us)].
Proof.
  intros Hn.
  assert (live k w = Some n) as Hk
    by (unfold live; rewrite Hn; cbn; by rewrite String.eqb_refl).
  rewrite (updateNode_nodes _ _ _ _ Hk), Hn. cbn. by rewrite String.eqb_refl.
Qed.

Lemma updateNode_autogrow k us w :
  autoGrowEnabled (updateNode k us w) = autoGrowEnabled w.
Proof. unfold updateNode. by destruct (nodes_get _ _). Qed.

(** The respiration and the stress step on the lone seed: the buffer stays
    empty, the starvation stress is taken back by the partial recovery. *)
Lemma lone_metabolism w c h :
  nodes (state w) = [("node_1", lone c h)] ->
  (exists c' h',
     nodes (state (processStressAndHealth (processRespiration w)))
     = [("node_1", lone c' h')])
  /\ autoGrowEnabled (processStressAndHealth (processRespiration w))
     = autoGrowEnabled w.
Proof.
  intros Hn.
  unfold processRespiration. rewrite (for_nodes_single _ _ _ _ Hn).
  unfold respirationBody.
  change (negb (isActive (lone c h))) with false. cbv iota.
  change (Qleb (CONFIG.NODE_RESPIRATION_COST * (1 + radius (lone c h) * 5))
            (sugarStore (lone c h))) with false. cbv iota zeta.
  change (node_id (lone c h)) with "node_1"%string.
  match goal with
  | |- context [updateNode "node_1" ?us w] =>
      set (us1 := us); set (w1 := updateNode "node_1" us1 w)
  end.
  pose proof (single_update _ _ us1 _ Hn) as Hn1. fold w1 in Hn1.
  assert (reread "node_1" (lone c h) w1 = Object_assign (lone c h) us1) as ->.
  { unfold reread, live. by rewrite Hn1. }
  match goal with
  | |- context [updateNode "node_1" ?us w1] =>
      set (us2 := us); set (w2 := updateNode "node_1" us2 w1)
  end.
  pose proof (single_update _ _ us2 _ Hn1) as Hn2. fold w2 in Hn2.
  unfold processStressAndHealth. rewrite (for_nodes_single _ _ _ _ Hn2).
  set (n2 := Object_assign (Object_assign (lone c h) us1) us2) in *.
  unfold stressAndHealthBody.
  change (negb (isActive n2)) with false. cbv iota zeta.
  match goal with
  | |- context [if ?b then _ else _] => change b with false
  end.
  cbv iota. change (node_id n2) with "node_1"%string.
  match goal with
  | |- context [updateNode "node_1" ?us w2] => set (us3 := us)
  end.
  rewrite (single_update _ _ us3 _ Hn2).
  split; [by do 2 eexists|]. unfold w2, w1. by rewrite !updateNode_autogrow.
Qed.

Lemma lone_before_respiration w c h :
  nodes (state w) = [("node_1", lone c h)] ->
  nodes (state (before_respiration Math_sin Math_cos Math_PI w)) = [("node_1", lone c h)]
  /\ autoGrowEnabled (before_respiration Math_sin Math_cos Math_PI w) = autoGrowEnabled w.
Proof.
  intros Hn. unfold before_respiration.
  set (wc := updateClimateSystem Math_sin Math_cos Math_PI w).
  assert (nodes (state wc) = [("node_1", lone c h)]) as Hc by exact Hn.
  destruct (lone_hydraulics _ _ _ Hc) as [Hh Ha].
  rewrite (lone_photosynthesis _ _ _ Hh). split; [done|]. by rewrite Ha.
Qed.

(** One tick keeps the lone seed as it is, up to its concentration and
    its health; the seed enters the respiration with an empty buffer. *)
Lemma lone_tick w :
  lone_seed w ->
  lone_seed (tick Math_sin Math_cos Math_PI w)
  /\ starving Math_sin Math_cos Math_PI 1 "node_1" w.
Proof.
  intros [(c & h & Hn) Hoff].
  destruct (lone_before_respiration _ _ _ Hn) as [Hb Hboff].
  destruct (lone_metabolism _ _ _ Hb) as [(c' & h' & Hm) Hmoff].
  split.
  - unfold tick, updateMetabolism.
    fold (before_respiration Math_sin Math_cos Math_PI w).
    set (wm := processStressAndHealth _) in *.
    assert (updateAutoGrow wm = wm) as ->.
    { unfold updateAutoGrow. by rewrite Hmoff, Hboff, Hoff. }
    split; [exists c', h'; exact Hm|]. cbn. by rewrite Hmoff, Hboff.
  - exists (lone c h). unfold live. rewrite Hb. done.
Qed.

Lemma lone_run w N :
  lone_seed w -> lone_seed (Nat.iter N (tick Math_sin Math_cos Math_PI) w).
Proof.
  intros H. induction N as [|N IH]; [done|].
  cbn [Nat.iter nat_rect]. by apply lone_tick.
Qed.

End LoneSeed.

Lemma dry_seed_lone : lone_seed dry_seed_world.
Proof. split; [|done]. by exists 0.8, 1.0. Qed.

(** * Examples on concrete worlds *)

Lemma updateNode_struct_ok k us w :
  (forall n, node_id (Object_assign n us) = node_id n) ->
  struct_ok w -> struct_ok (updateNode k us w).
Proof.
  intros Hid (Hwf & Hids & Hfresh).
  destruct (updateNode_rest k us w) as (Ei & _).
  split; [|split].
  - unfold nodes_wf. by rewrite updateNode_keys.
  - intros j n. fold (live j (updateNode k us w)). rewrite updateNode_live.
    destruct (String.eqb_spec k j) as [->|_]; [|apply Hids].
    destruct (live j w) as [n0|] eqn:E; [|done].
    intros [= <-]. rewrite Hid. by apply Hids.
  - unfold ids_fresh. rewrite Ei, updateNode_keys. exact Hfresh.
Qed.

Lemma seed_struct_ok : struct_ok seed_world.
Proof. apply initial_struct_ok. Qed.

Lemma trunk_returned :
  exists a, addNode "node_1" TRUNK {| x := 0; y := -0.25 |} None seed_world
            = Returned trunk_world a.
Proof. eapply addNode_returns. vm_compute. reflexivity. Qed.

Lemma trunk_struct_ok : struct_ok trunk_world.
Proof.
  destruct trunk_returned as [a Ha].
  eapply (edit_struct_ok (fun _ => True)); [|apply seed_struct_ok].
  by eapply edit_addNode.
Qed.

Lemma chain_struct_ok : struct_ok chain_world.
Proof. do 2 (apply updateNode_struct_ok; [done|]). apply trunk_struct_ok. Qed.

Lemma withering_struct_ok : struct_ok withering_world.
Proof. apply updateNode_struct_ok; [done|]. apply seed_struct_ok. Qed.

Lemma doomed_struct_ok : struct_ok doomed_world.
Proof. apply updateNode_struct_ok; [done|]. apply trunk_struct_ok. Qed.

Lemma fork_wf : nodes_wf (nodes (state fork_world)).
Proof. unfold nodes_wf. refine (bool_decide_unpack _ _). by vm_compute. Qed.

Lemma fork_plain : plain (nodes (state fork_world)).
Proof.
  intros k n Hk.
  let t := eval vm_compute in (nodes (state fork_world)) in
  change (nodes (state fork_world)) with t in Hk.
  cbn [nodes_get] in Hk.
  repeat match type of Hk with
         | context [String.eqb k ?s] =>
             destruct (String.eqb_spec k s) as [->|_]
         end; try done; injection Hk as <-; cbn [parentId childrenIds]; split;
    try (intros p [= <-]; reflexivity); try done; intros c Hc;
    repeat (apply elem_of_cons in Hc as [->|Hc]); try (by apply elem_of_nil in Hc);
    reflexivity.
Qed.

Lemma fork_ranked : ranked fork_rank (nodes (state fork_world)).
Proof.
  intros k n c Hk Hc _.
  let t := eval vm_compute in (nodes (state fork_world)) in
  change (nodes (state fork_world)) with t in Hk.
  cbn [nodes_get] in Hk.
  repeat match type of Hk with
         | context [String.eqb k ?s] =>
             destruct (String.eqb_spec k s) as [->|_]
         end; try done; injection Hk as <-; cbn in Hc;
    repeat (apply elem_of_cons in Hc as [->|Hc]); try (by apply elem_of_nil in Hc);
    vm_compute; lia.
Qed.

(** The worlds of the heavy trunk are worlds of a run in which every
    radius passed to [addNode] is positive. *)
Lemma heavy_reachable : reachable flat flat PI_approx (fun v => 0 < v) heavy_world.
Proof.
  unfold heavy_world.
  repeat (apply reachable_addNode;
          [|intros v [= <-]; reflexivity|eexists; vm_compute; reflexivity]).
  apply (reachable_init _ _ _ _ half).
Qed.

Lemma sinking_reachable : reachable flat flat PI_approx (fun v => 0 < v) sinking_world.
Proof. eapply reachable_step; [apply heavy_reachable|apply op_tick]. Qed.

Lemma dead_trunk_reachable :
  reachable flat flat PI_approx (fun v => 0 < v) dead_trunk_world.
Proof. eapply reachable_step; [apply sinking_reachable|apply op_tick]. Qed.

(** * Where the specification and the code part *)

(** What [addNode] does with a parent id that is an inherited name, when
    the sugar covers the cost: it takes the next identifier, stores an
    object whose pressure and concentration are NaN under it, and throws
    before it has told the parent or paid. *)
Lemma addNode_builtin p t pos r w :
  nodes_at p (nodes (state w)) = Builtin ->
  getNodeCost t <= sugar (resources (state w)) ->
  addNode p t pos r w
  = Threw (with_nextId w (S (nextId w)))
      (Some {| stray_id := node_name (nextId w); stray_type := t;
               stray_position := pos; stray_parentId := p;
               stray_radius := default (getDefaultRadius t) r;
               stray_waterPressure := NaN; stray_sugarConcentration := NaN |}).
Proof.
  intros Hp Hcost. unfold addNode. rewrite Hp.
  apply Qltb_false in Hcost. by rewrite Hcost.
Qed.


(** C2, a defect of the code.  The specification has [addNode] return no
    segment and leave the store unchanged when the parent id is absent.
    On the initial store, which holds the seed [node_1] and nothing else,
    the parent id [constructor] is absent; [state.nodes[parentId]] is then
    the inherited [Object] function, which passes the test [!parent].  The
    call does not return: it throws a [TypeError], after it has taken the
    identifier [node_2] and stored an object under it whose water pressure
    and sugar concentration are NaN. *)
Theorem addNode_inherited_parent :
  nodes_keys (nodes (state seed_world)) = ["node_1"]%string
  /\ nodes_get "constructor" (nodes (state seed_world)) = None
  /\ addNode "constructor" LEAF {| x := 0; y := -0.25 |} None seed_world
     = Threw (with_nextId seed_world 3)
         (Some {| stray_id := "node_2"; stray_type := LEAF;
                  stray_position := {| x := 0; y := -0.25 |};
                  stray_parentId := "constructor";
                  stray_radius := CONFIG.LEAF_RADIUS;
                  stray_waterPressure := NaN; stray_sugarConcentration := NaN |})
  /\ returned (addNode "constructor" LEAF {| x := 0; y := -0.25 |} None seed_world)
     = None.
Proof.
  split; [reflexivity|]. split; [reflexivity|].
  rewrite (addNode_builtin "constructor" LEAF _ None seed_world).
  - split; reflexivity.
  - reflexivity.
  - vm_compute. discriminate.
Qed.

(** C7, a defect of the code.  The specification has a failed [addNode]
    change no field of the store and has no edit applied in part.  With
    the inherited name [toString] as the parent id on the initial store,
    the call fails, by a [TypeError]; it leaves the identifier counter
    advanced by one and a new object in [state.nodes] (the [stray] of the
    outcome), whose parent link names no segment and which no segment
    lists as a child, while the sugar has not been paid and every segment
    is as before. *)
Theorem addNode_partial_edit :
  exists w' s,
    addNode "toString" TRUNK {| x := 0; y := -0.25 |} None seed_world = Threw w' (Some s)
    /\ nextId w' = S (nextId seed_world)
    /\ stray_id s = node_name (nextId seed_world)
    /\ stray_parentId s = "toString"%string
    /\ nodes_get (stray_parentId s) (nodes (state seed_world)) = None
    /\ stray_waterPressure s = NaN
    /\ state w' = state seed_world.
Proof.
  do 2 eexists. split.
  - apply addNode_builtin; [done|]. vm_compute. discriminate.
  - done.
Qed.

(** C5 as stated fails, twice.  With a water pressure of 0.12 the partial
    recovery of the stress step takes back more stress than the starvation
    adds: the seed of [dry_seed_world] enters the respiration of every
    tick with an empty sugar buffer, and after any number of ticks it is
    still active, with no stress.  And a segment that has starved to death
    does not keep the health 0 through [updateNode]: the seed of
    [withering_world] is dead after three ticks, and the Harden action of
    the context menu then raises its health to 0.2. *)
Lemma starvation_counterexample :
  (exists n,
     live "node_1" dry_seed_world = Some n /\ isActive n = true
     /\ forall N,
          starving flat flat PI_approx 1 "node_1"
            (Nat.iter N (tick flat flat PI_approx) dry_seed_world)
          /\ exists b,
               live "node_1" (Nat.iter N (tick flat flat PI_approx) dry_seed_world)
               = Some b
               /\ sugarStore b = 0 /\ isActive b = true /\ stressLevel b = 0)
  /\ (exists d n,
        live "node_1" (Nat.iter 3 (tick flat flat PI_approx) withering_world) = Some d
        /\ dead d
        /\ live "node_1"
             (hardenNode "node_1" (Nat.iter 3 (tick flat flat PI_approx) withering_world))
           = Some n
        /\ isActive n = false /\ structuralHealth n == 0.2).
Proof.
  split.
  - exists (lone 0.8 1.0). split; [done|]. split; [done|]. intros N.
    pose proof (lone_run flat flat PI_approx _ N dry_seed_lone) as H.
    split; [by apply lone_tick|].
    destruct H as [(c & h & Hn) _]. exists (lone c h).
    unfold live. rewrite Hn. done.
  - do 2 eexists. split; [vm_compute; reflexivity|].
    split; [by vm_compute|].
    split; [vm_compute; reflexivity|]. by vm_compute.
Qed.

(** C6 as stated fails: [updateNode] merges any fields into any node.  The
    trunk of [doomed_world] dies in the next tick; the Harden action of
    the context menu, which is offered for every segment whose health is
    below 1, then raises the health of the dead trunk to 0.2 and leaves it
    inactive. *)
Lemma death_counterexample :
  exists d n,
    live "node_2" (tick flat flat PI_approx doomed_world) = Some d /\ dead d
    /\ live "node_2" (hardenNode "node_2" (tick flat flat PI_approx doomed_world)) = Some n
    /\ isActive n = false /\ structuralHealth n == 0.2.
Proof.
  do 2 eexists. split; [vm_compute; reflexivity|].
  split; [by vm_compute|].
  split; [vm_compute; reflexivity|]. by vm_compute.
Qed.

(** C8 as stated fails: [removeNode] refuses by the type of the segment,
    not by its being the seed.  [addNode] makes a segment of type SEED on
    request; in [twin_world] the segment [node_2] is such a segment, a
    child of the seed [node_1] with no children of its own, and
    [removeNode] refuses it and leaves the store as it is. *)
Lemma removeNode_counterexample :
  reachable flat flat PI_approx (fun _ => True) twin_world
  /\ seedId (state twin_world) = "node_1"%string
  /\ exists n,
       live "node_2" twin_world = Some n
       /\ parentId n = Some "node_1"%string /\ childrenIds n = []
       /\ removeNode 3 "node_2" twin_world = Some (Returned twin_world false).
Proof.
  split; [|split; [done|]].
  - apply reachable_addNode; [apply (reachable_init _ _ _ _ half)|done|].
    eexists. vm_compute. reflexivity.
  - eexists. split; [vm_compute; reflexivity|]. split; [done|]. split; [done|].
    done.
Qed.

(** * The theorems at concrete worlds *)


(** [extendNode_two_children] on the trunk of [fork_world]. *)
Lemma extendNode_two_children_witness :
  exists new,
    snd (extendNode "node_2" {| x := 0; y := -1 |} fork_world) = Some new
    /\ node_type new = TRUNK
    /\ childrenIds new = ["node_3"; "node_4"]%string.
Proof.
  destruct (extendNode_two_children "node_2" {| x := 0; y := -1 |} fork_world
              (default (lone 0 0) (live "node_2" fork_world)) "node_3" "node_4")
    as (new & H1 & H2 & _ & H4 & _).
  - vm_compute. reflexivity.
  - left. reflexivity.
  - reflexivity.
  - vm_compute. discriminate.
  - eexists. vm_compute. reflexivity.
  - eexists. vm_compute. reflexivity.
  - reflexivity.
  - exists new. split; [exact H1|]. split; [exact H2|exact H4].
Defined.

(** [particle_caps] after one spawn in the initial world. *)
Lemma particle_caps_witness :
  (length (particles marked_world) <= MAX_TOTAL_PARTICLES)%nat
  /\ (markers_on "node_1" "node_1" marked_world <= MAX_PARTICLES_PER_CONNECTION)%nat.
Proof.
  destruct (particle_caps flat flat PI_approx (fun _ => True) marked_world) as [H1 H2].
  - eapply reachable_step; [apply (reachable_init _ _ _ _ half)|].
    apply op_spawnFlowParticle.
  - split; [exact H1|apply H2].
Defined.

(** [starvation_kills] on the seed of [withering_world], which enters the
    respiration of three ticks in a row with an empty buffer and a water
    pressure of 0.09: it is alive after two of them and dead after the
    third, and stays dead. *)
Lemma starvation_kills_witness :
  (exists a,
     live "node_1" (Nat.iter 2 (tick flat flat PI_approx) withering_world) = Some a
     /\ isActive a = true /\ stressLevel a < 1)
  /\ (exists b,
        live "node_1" (Nat.iter 3 (tick flat flat PI_approx) withering_world) = Some b
        /\ dead b)
  /\ (forall w' b',
        rtc (op flat flat PI_approx (fun _ => True))
          (Nat.iter 3 (tick flat flat PI_approx) withering_world) w' ->
        live "node_1" w' = Some b' -> dead b').
Proof.
  split.
  { eexists. split; [vm_compute; reflexivity|]. split; vm_compute; reflexivity. }
  destruct (starvation_kills flat flat PI_approx withering_world "node_1"
              (default (lone 0 0) (live "node_1" withering_world)) 3) as [H1 H2].
  - apply withering_struct_ok.
  - vm_compute. reflexivity.
  - vm_compute. reflexivity.
  - lia.
  - vm_compute. discriminate.
  - intros i Hi.
    assert (i = 0 \/ i = 1 \/ i = 2)%nat as [->|[->| ->]] by lia;
      (eexists; split; [vm_compute; reflexivity|];
       split; [vm_compute; reflexivity|]; split; vm_compute; [discriminate|reflexivity]).
  - split; [exact H1|]. intros w' b'. apply H2.
Defined.

(** [death_is_final] on the trunk of the heavy plant, which two ticks of
    a run kill: in the second tick its stress reaches the threshold and it
    ends the tick dead; and in the world after that tick, a world of the
    run, it is inactive and stays dead. *)
Lemma death_is_final_witness :
  (exists b, live "node_2" (tick flat flat PI_approx sinking_world) = Some b /\ dead b)
  /\ (exists n,
        live "node_2" dead_trunk_world = Some n /\ isActive n = false /\ dead n
        /\ forall w' n',
             rtc (op flat flat PI_approx (fun v => 0 < v)) dead_trunk_world w' ->
             live "node_2" w' = Some n' -> dead n').
Proof.
  split.
  - destruct (death_is_final flat flat PI_approx (fun v => 0 < v) sinking_world "node_2")
      as [H _].
    apply (H (reachable_struct_ok _ _ _ _ _ sinking_reachable)
             (default (lone 0 0)
                (live "node_2" (before_stress flat flat PI_approx sinking_world)))).
    + vm_compute. reflexivity.
    + vm_compute. reflexivity.
    + vm_compute. discriminate.
  - destruct (death_is_final flat flat PI_approx (fun v => 0 < v) dead_trunk_world "node_2")
      as [_ H].
    specialize (H dead_trunk_reachable
                  (default (lone 0 0) (live "node_2" dead_trunk_world))).
    eexists. split; [vm_compute; reflexivity|]. split; [reflexivity|].
    split.
    + refine (proj1 (H dead_trunk_world _ _ (rtc_refl _ _))); vm_compute; reflexivity.
    + intros w' n' Hrun. refine (proj2 (H w' _ _ Hrun) n'); vm_compute; reflexivity.
Defined.

(** [removeNode_spec] in [fork_world]: the seed is refused, the trunk goes
    with its leaf and its branch. *)
Lemma removeNode_spec_witness :
  removeNode 3 "node_1" fork_world = Some (Returned fork_world false)
  /\ exists ns' subtree,
       removeNode 3 "node_2" fork_world = Some (Returned (put_nodes fork_world ns') true)
       /\ NoDup subtree
       /\ (forall j, j ∈ subtree <-> in_subtree (nodes (state fork_world)) "node_2" j)
       /\ (nodes_count ns' + length subtree = nodes_count (nodes (state fork_world)))%nat.
Proof.
  split.
  - apply (removeNode_spec fork_rank 3 "node_1" fork_world
             (default (lone 0 0) (live "node_1" fork_world))
             fork_wf fork_ranked fork_plain).
    + vm_compute. reflexivity.
    + vm_compute. lia.
  - destruct (removeNode_spec fork_rank 3 "node_2" fork_world
                (default (lone 0 0) (live "node_2" fork_world))
                fork_wf fork_ranked fork_plain)
      as (ns' & subtree & H1 & H2 & H3 & _ & _ & H6).
    + vm_compute. reflexivity.
    + vm_compute. lia.
    + exists ns', subtree. split; [exact H1|]. split; [exact H2|].
      split; [exact H3|exact H6].
Defined.

(** [stepSimulation_narrows_gap] on [chain_world]. *)
Lemma stepSimulation_narrows_gap_witness :
  exists g g',
    pressure_gap "node_1" "node_2" chain_world = Some g
    /\ pressure_gap "node_1" "node_2" (stepSimulation flat flat PI_approx chain_world)
       = Some g'
    /\ g' < g.
Proof.
  apply (stepSimulation_narrows_gap flat flat PI_approx "node_1" "node_2"
           (default (lone 0 0) (live "node_1" chain_world))
           (default (lone 0 0) (live "node_2" chain_world))).
  split; [apply chain_struct_ok|].
  split; [by vm_compute|].
  repeat split; vm_compute; reflexivity.
Defined.

(** * What the systems act through *)

Section Frame.

(** A property of the world kept by the five operations the hydraulics
    and the metabolism are written with. *)
Variable P : World -> Prop.
Hypothesis P_updateNode : forall k us w, P w -> P (updateNode k us w).
Hypothesis P_spawn : forall a b t s w, P w -> P (spawnFlowParticle a b t s w).
Hypothesis P_random : forall w, P w -> P (snd (Math_random w)).
Hypothesis P_modifyResources : forall d w, P w -> P (modifyResources d w).
Hypothesis P_updateParticles : forall w, P w -> P (updateParticles w).

Lemma frame_roll_spawn c p a b t s w : P w -> P (roll_spawn c p a b t s w).
Proof.
  intros H. unfold roll_spawn. destruct c; [|done].
  pose proof (P_random w H) as Hr.
  destruct (Math_random w) as [r w1]. cbn [snd] in Hr.
  destruct (Qltb r p); [by apply P_spawn|done].
Qed.

Lemma frame_fold {A} (step : World -> A -> World) l :
  (forall w a, P w -> P (step w a)) -> forall w, P w -> P (fold_left step l w).
Proof.
  intros Hstep. induction l as [|a l IH]; intros w H; [done|].
  cbn [fold_left]. by apply IH, Hstep.
Qed.

Lemma frame_for_nodes body w :
  (forall k n w', P w' -> P (body k n w')) -> P w -> P (for_nodes body w).
Proof.
  intros Hb. unfold for_nodes. apply frame_fold.
  intros w' k H. destruct (live k w'); [by apply Hb|done].
Qed.

Ltac frame_peel :=
  repeat first
    [ assumption
    | apply frame_roll_spawn
    | apply P_spawn
    | apply P_updateNode
    | apply P_modifyResources
    | apply P_updateParticles ].

(** The four flows of the hydraulics, before the markers move. *)
Lemma frame_flows w :
  P w ->
  P (processPhloemFlow (processXylemFlow (processRootUptake (processTranspiration w)))).
Proof.
  intros H.
  apply frame_for_nodes.
  { intros k n w' H'. unfold phloemBody. destruct (negb _); [done|].
    apply frame_fold; [|done]. intros w1 ck H1. unfold phloemChild.
    repeat case_match; frame_peel. }
  apply frame_for_nodes.
  { intros k n w' H'. unfold xylemBody. repeat case_match; frame_peel. }
  unfold processRootUptake. apply frame_fold.
  { intros w' k H'. destruct (live k w') as [root|]; [|done].
    unfold rootUptakeBody. repeat case_match; frame_peel. }
  apply frame_for_nodes; [|done].
  intros k n w' H'. unfold transpirationBody. repeat case_match; frame_peel.
Qed.

Lemma frame_hydraulics w : P w -> P (updateHydraulics w).
Proof. intros H. unfold updateHydraulics. by apply P_updateParticles, frame_flows. Qed.

Lemma frame_metabolism w : P w -> P (updateMetabolism w).
Proof.
  intros H. unfold updateMetabolism.
  apply frame_for_nodes.
  { intros k n w' H'. unfold stressAndHealthBody. repeat case_match; frame_peel. }
  apply frame_for_nodes.
  { intros k n w' H'. unfold respirationBody. repeat case_match; frame_peel. }
  apply frame_for_nodes; [|done].
  intros k n w' H'. unfold photosynthesisBody. repeat case_match; frame_peel.
Qed.

End Frame.

Section FrameGrow.

(** A property kept by what the climate driver and the growth heuristic
    are written with. *)
Variable P : World -> Prop.
Hypothesis P_random : forall w, P w -> P (snd (Math_random w)).

Lemma frame_pick {A} (arr : list A) w : P w -> P (snd (pick arr w)).
Proof. apply P_random. Qed.

Ltac take_roll :=
  match goal with
  | HP : P ?w |- context [pick ?l ?w] =>
      let H := fresh "HP" in
      pose proof (frame_pick l w HP) as H;
      destruct (pick l w) as [? ?]; cbn [snd] in H; cbv beta iota
  | HP : P ?w |- context [getRandomRootDirection ?w] =>
      let H := fresh "HP" in
      pose proof (frame_pick [ {| x := 0; y := 1 |}; {| x := -1; y := 1 |};
                               {| x := 1; y := 1 |} ] w HP) as H;
      fold (getRandomRootDirection w) in H;
      destruct (getRandomRootDirection w) as [? ?]; cbn [snd] in H; cbv beta iota
  | HP : P ?w |- context [Math_random ?w] =>
      let H := fresh "HP" in
      pose proof (P_random w HP) as H;
      destruct (Math_random w) as [? ?]; cbn [snd] in H; cbv beta iota
  end.

Ltac stage := repeat first [take_roll | case_match]; cbn [snd]; assumption.

Lemma frame_chooseTarget c kind t dir w : P w -> P (snd (chooseTarget c kind t dir w)).
Proof. intros HP. unfold chooseTarget. stage. Qed.

Lemma frame_orElse first (next : World -> option GrowAction * World) :
  P (snd first) -> (forall w, P w -> P (snd (next w))) -> P (snd (orElse first next)).
Proof.
  intros H1 H2. unfold orElse. destruct first as [[a|] w1]; cbn [snd] in *; [done|].
  by apply H2.
Qed.

(** [decideAction] only rolls. *)
Lemma frame_decideAction analysis w : P w -> P (snd (decideAction analysis w)).
Proof.
  intros HP. unfold decideAction.
  apply frame_orElse; [done|]. intros w1 H1.
  apply frame_orElse; [unfold decideRoots; stage|]. intros w2 H2.
  apply frame_orElse; [unfold decideLeaf; case_match; [by apply frame_chooseTarget|done]|].
  intros w3 H3.
  apply frame_orElse.
  { unfold decideExtend. case_match; [|done]. take_roll.
    case_match; [by apply frame_chooseTarget|done]. }
  intros w4 H4.
  apply frame_orElse; [unfold decideTrunk; case_match; [by apply frame_chooseTarget|done]|].
  intros w5 H5. unfold decideBranch. stage.
Qed.

Hypothesis P_climate : forall a b c d e f g h w, P w -> P (updateClimate a b c d e f g h w).

Lemma frame_climate sin cos PI w : P w -> P (updateClimateSystem sin cos PI w).
Proof.
  intros HP. unfold updateClimateSystem. cbv zeta.
  take_roll. by apply P_climate.
Qed.

Hypothesis P_updateNode : forall k us w, P w -> P (updateNode k us w).
Hypothesis P_autogrow : forall e t w, P w -> P (with_autogrow w e t).
Hypothesis P_addNode : forall p t pos r w, P w -> P (after (addNode p t pos r w)).
Hypothesis P_extendNode : forall k dir w, P w -> P (fst (extendNode k dir w)).
Hypothesis P_sugar : forall v w,
  P w -> P (with_state w (with_resources (state w) (with_sugar (resources (state w)) v))).

Lemma frame_executeAction a w : P w -> P (executeAction a w).
Proof.
  intros HP. unfold executeAction. repeat case_match; try done.
  - by apply P_addNode.
  - by apply P_sugar, P_updateNode.
  - by apply P_extendNode.
Qed.

Lemma frame_autogrow w : P w -> P (updateAutoGrow w).
Proof.
  intros HP. unfold updateAutoGrow. destruct (negb _); [done|]. cbv zeta.
  destruct (Qltb (nat_Q _) _); [by apply P_autogrow|].
  destruct (Qltb _ 20); [by apply P_autogrow|].
  pose proof (frame_decideAction (analyzePlant (state (with_autogrow w true 0)))
                (with_autogrow w true 0) (P_autogrow _ _ _ HP)) as Hd.
  destruct (decideAction _ _) as [[a|] w2]; cbn [snd] in Hd; [|done].
  by apply frame_executeAction.
Qed.

Hypothesis P_spawn : forall a b t s w, P w -> P (spawnFlowParticle a b t s w).
Hypothesis P_modifyResources : forall d w, P w -> P (modifyResources d w).
Hypothesis P_updateParticles : forall w, P w -> P (updateParticles w).
Hypothesis P_incrementTick : forall w, P w -> P (incrementTick w).

(** One tick keeps what its building blocks keep. *)
Lemma frame_tick sin cos PI w : P w -> P (tick sin cos PI w).
Proof.
  intros HP. unfold tick. apply P_incrementTick, frame_autogrow.
  apply frame_metabolism; try done.
  apply frame_hydraulics; try done.
  by apply frame_climate.
Qed.

End FrameGrow.

(** * The stored resources *)

Lemma updateNode_resources k us w :
  resources (state (updateNode k us w)) = resources (state w).
Proof. unfold updateNode. by destruct (nodes_get _ _). Qed.

Lemma spawn_resources a b t s w :
  resources (state (spawnFlowParticle a b t s w)) = resources (state w).
Proof. unfold spawnFlowParticle. by repeat case_match. Qed.

Lemma updateParticles_resources w :
  resources (state (updateParticles w)) = resources (state w).
Proof. unfold updateParticles. by destruct (filterParticles _ _ _). Qed.

Lemma modifyResources_ok d w : resources_ok w -> resources_ok (modifyResources d w).
Proof.
  intros (Hs & Hw & Hm). unfold resources_ok, modifyResources. cbn.
  destruct (delta_sugar d), (delta_water d), (delta_minerals d);
    repeat split; try done; minmax; lra.
Qed.

Lemma addNode_resources_ok p t pos r w :
  resources_ok w -> resources_ok (after (addNode p t pos r w)).
Proof.
  intros (Hs & Hw & Hm). unfold addNode.
  destruct (nodes_at _ _); [..|done]; cbv zeta.
  all: generalize (getNodeCost t); intros c.
  all: destruct (Qltb _ _) eqn:E; [done|]; qbool.
  all: unfold resources_ok; cbn; repeat split; try done; lra.
Qed.

Lemma extendNode_resources_ok k dir w :
  resources_ok w -> resources_ok (fst (extendNode k dir w)).
Proof.
  intros (Hs & Hw & Hm). unfold extendNode.
  destruct (nodes_get _ _) as [node|]; [|done].
  destruct (node_type node); try done; cbv zeta.
  all: match goal with |- context [getNodeCost ?t] => generalize (getNodeCost t) end.
  all: intros c; destruct (Qltb _ _) eqn:E; [done|]; qbool.
  all: unfold resources_ok; cbn; repeat split; try done; lra.
Qed.

Lemma removeNode_state fuel k w w' b :
  removeNode fuel k w = Some (Returned w' b) ->
  resources (state w') = resources (state w)
  /\ climate (state w') = climate (state w).
Proof.
  unfold removeNode. intros H. repeat case_match; by simplify_eq.
Qed.

(** A reinforcement is asked for only when the sugar covers its cost, and
    then without any roll. *)
Lemma decideAction_thicken analysis w a :
  fst (decideAction analysis w) = Some a -> action_type a = THICKEN ->
  snd (decideAction analysis w) = w
  /\ CONFIG.COST_HARDEN <= sugar (resources (state w)).
Proof.
  unfold decideAction. unfold orElse at 1.
  destruct (decideThicken analysis w) as [a0|] eqn:E.
  - cbn [fst snd]. intros _ _. split; [done|].
    unfold decideThicken in E. destruct (weakestNode analysis); [|done].
    destruct (_ && _) eqn:Ec; [|done]. qbool. done.
  - intros Ha Ht. exfalso.
    assert (quiet_stage (fun w1 =>
              orElse (decideRoots analysis w1) (fun w2 =>
              orElse (decideLeaf analysis w2) (fun w3 =>
              orElse (decideExtend analysis w3) (fun w4 =>
              orElse (decideTrunk analysis w4) (fun w5 =>
              decideBranch analysis w5)))))) as Hq.
    { intros w1. apply orElse_quiet; [apply decideRoots_quiet|].
      intros w2. apply orElse_quiet; [apply decideLeaf_quiet|].
      intros w3. apply orElse_quiet; [apply decideExtend_quiet|].
      intros w4. apply orElse_quiet; [apply decideTrunk_quiet|].
      apply decideBranch_quiet. }
    destruct (Hq w) as [_ H2]. by apply (H2 a).
Qed.

Lemma autogrow_resources_ok w : resources_ok w -> resources_ok (updateAutoGrow w).
Proof.
  intros Hr. unfold updateAutoGrow. destruct (negb _); [done|]. cbv zeta.
  destruct (Qltb (nat_Q _) _); [done|].
  destruct (Qltb _ 20); [done|].
  set (w1 := with_autogrow w true 0).
  assert (resources_ok w1) as Hr1 by done.
  pose proof (frame_decideAction resources_ok ltac:(done) (analyzePlant (state w1)) w1 Hr1)
    as Hd.
  pose proof (decideAction_thicken (analyzePlant (state w1)) w1) as Hth.
  destruct (decideAction _ _) as [[a|] w2]; cbn [fst snd] in *; [|done].
  unfold executeAction. destruct (action_type a) eqn:Ea.
  - repeat case_match; try done. by apply addNode_resources_ok.
  - destruct (Hth a eq_refl Ea) as [-> Hcost].
    destruct Hr1 as (Hs & Hw & Hm).
    unfold resources_ok. cbn. rewrite !updateNode_resources.
    repeat split; try done. lra.
  - case_match; [|done]. by apply extendNode_resources_ok.
Qed.

Section Resources.

Variables (Math_sin Math_cos : Q -> Q) (Math_PI : Q).

Lemma tick_resources_ok w :
  resources_ok w -> resources_ok (tick Math_sin Math_cos Math_PI w).
Proof.
  intros Hr. unfold tick.
  assert (forall w', resources_ok w' -> resources_ok (incrementTick w')) as Hi by done.
  apply Hi, autogrow_resources_ok.
  assert (forall k us w', resources_ok w' -> resources_ok (updateNode k us w')) as H1.
  { intros k us w'. unfold resources_ok. by rewrite updateNode_resources. }
  assert (forall a b t s w', resources_ok w' -> resources_ok (spawnFlowParticle a b t s w'))
    as H2.
  { intros a b t s w'. unfold resources_ok. by rewrite spawn_resources. }
  assert (forall w', resources_ok w' -> resources_ok (updateParticles w')) as H3.
  { intros w'. unfold resources_ok. by rewrite updateParticles_resources. }
  apply frame_metabolism;
    try first [exact H1|exact H2|exact H3|exact modifyResources_ok|done].
  apply frame_hydraulics;
    try first [exact H1|exact H2|exact H3|exact modifyResources_ok|done].
Qed.

(** X1.  In every world reached from the initial one by calls into the
    core and ticks, the stored sugar, water and minerals are not negative:
    [addNode], [extendNode] and the reinforcement of the growth heuristic
    spend sugar only when it covers the cost, and [modifyResources] stops
    at 0. *)
Theorem resources_never_negative okr w :
  reachable Math_sin Math_cos Math_PI okr w -> resources_ok w.
Proof.
  induction 1 as [rnd|w w' _ IH Hop].
  - unfold resources_ok. cbn. unfold CONFIG.INITIAL_SUGAR, CONFIG.INITIAL_WATER,
      CONFIG.INITIAL_MINERALS. lra.
  - destruct Hop as [w0 p t pos r w1 a0 Hr Hadd|w0 fuel k w1 b Hrm|w0 k dir|w0 d|w0 k
                    |w0 b|w0 m|w0 b|w0 a b t s|w0|w0]; try done.
    + apply Returned_after in Hadd as ->. by apply addNode_resources_ok.
    + destruct (removeNode_state _ _ _ _ _ Hrm) as [E _].
      unfold resources_ok. by rewrite E.
    + by apply extendNode_resources_ok.
    + by apply modifyResources_ok.
    + unfold resources_ok. by rewrite spawn_resources.
    + by apply tick_resources_ok.
Qed.

End Resources.

(** * The clock and the weather *)

Lemma updateNode_climate k us w :
  climate (state (updateNode k us w)) = climate (state w).
Proof. unfold updateNode. by destruct (nodes_get _ _). Qed.

Lemma spawn_climate a b t s w :
  climate (state (spawnFlowParticle a b t s w)) = climate (state w).
Proof. unfold spawnFlowParticle. by repeat case_match. Qed.

Lemma updateParticles_climate w :
  climate (state (updateParticles w)) = climate (state w).
Proof. unfold updateParticles. by destruct (filterParticles _ _ _). Qed.

Lemma addNode_climate p t pos r w :
  climate (state (after (addNode p t pos r w))) = climate (state w).
Proof. unfold addNode, generateId. repeat case_match; cbv zeta; repeat case_match; by simplify_eq. Qed.

Lemma extendNode_climate k dir w :
  climate (state (fst (extendNode k dir w))) = climate (state w).
Proof. unfold extendNode, generateId. repeat case_match; cbv zeta; repeat case_match; by simplify_eq. Qed.

Section Clock.

Variables (Math_sin Math_cos : Q -> Q) (Math_PI : Q).

(** The hydraulics, the metabolism and the growth heuristic leave the
    climate record alone. *)
Lemma tick_climate w :
  climate (state (tick Math_sin Math_cos Math_PI w))
  = climate (state (incrementTick (updateClimateSystem Math_sin Math_cos Math_PI w))).
Proof.
  unfold tick. set (wc := updateClimateSystem Math_sin Math_cos Math_PI w).
  set (P := fun w' : World => climate (state w') = climate (state wc)).
  assert (forall k us w', P w' -> P (updateNode k us w')) as H1.
  { intros k us w'. unfold P. by rewrite updateNode_climate. }
  assert (forall a b t s w', P w' -> P (spawnFlowParticle a b t s w')) as H2.
  { intros a b t s w'. unfold P. by rewrite spawn_climate. }
  assert (forall w', P w' -> P (updateParticles w')) as H3.
  { intros w'. unfold P. by rewrite updateParticles_climate. }
  assert (forall p t pos r w', P w' -> P (after (addNode p t pos r w'))) as H4.
  { intros p t pos r w'. unfold P. by rewrite addNode_climate. }
  assert (forall k dir w', P w' -> P (fst (extendNode k dir w'))) as H5.
  { intros k dir w'. unfold P. by rewrite extendNode_climate. }
  assert (P (updateAutoGrow (updateMetabolism (updateHydraulics wc)))) as HP.
  { apply frame_autogrow; try first [exact H1|exact H4|exact H5|done].
    apply frame_metabolism; try first [exact H1|exact H2|exact H3|done].
    apply frame_hydraulics; try first [exact H1|exact H2|exact H3|done]. }
  unfold P in HP. cbn [incrementTick state climate with_state with_climate].
  by rewrite HP.
Qed.

(** X2.  Each tick advances the tick counter of the climate by exactly
    one, whatever the systems and the growth heuristic do: after [N] ticks
    it has advanced by [N]. *)
Theorem ticks_are_counted N w :
  tick_count (climate (state (Nat.iter N (tick Math_sin Math_cos Math_PI) w)))
  = (tick_count (climate (state w)) + Z.of_nat N)%Z.
Proof.
  induction N as [|N IH]; [cbn; lia|].
  cbn [Nat.iter nat_rect]. fold (Nat.iter N (tick Math_sin Math_cos Math_PI) w).
  rewrite tick_climate. cbn. rewrite IH. lia.
Qed.

End Clock.

Lemma day_fraction_lt x y :
  inject_Z x / inject_Z ticksPerDay < inject_Z y / inject_Z ticksPerDay
  <-> (x < y)%Z.
Proof. unfold Qlt, Qdiv, Qmult, Qinv, inject_Z, ticksPerDay. cbn. lia. Qed.

Lemma day_fraction_late y :
  0.9 < inject_Z y / inject_Z ticksPerDay <-> (1080 < y)%Z.
Proof. unfold Qlt, Qdiv, Qmult, Qinv, inject_Z, ticksPerDay. cbn. lia. Qed.

Section Calendar.

Variables (Math_sin Math_cos : Q -> Q) (Math_PI : Q).

Lemma updateClimateSystem_clock w :
  let c := climate (state w) in
  let c' := climate (state (updateClimateSystem Math_sin Math_cos Math_PI w)) in
  let now := inject_Z (Z.rem (tick_count c) ticksPerDay) / inject_Z ticksPerDay in
  tick_count c' = tick_count c
  /\ dayProgress c' = now
  /\ day c' = if Qltb now (dayProgress c) && Qltb 0.9 (dayProgress c)
              then (day c + 1)%Z else day c.
Proof. unfold updateClimateSystem, Math_random, updateClimate. by cbn. Qed.

Lemma tick_calendar w :
  calendar (climate (state w)) ->
  calendar (climate (state (tick Math_sin Math_cos Math_PI w))).
Proof.
  intros (H0 & Hz & Hp). rewrite tick_climate.
  destruct (updateClimateSystem_clock w) as (Ht & Hd & Hday).
  cbv zeta in Ht, Hd, Hday. unfold calendar.
  cbn [incrementTick state climate with_state with_climate tick_count dayProgress day].
  rewrite Ht, Hd, Hday. clear Ht Hd Hday. set (n := tick_count (climate (state w))) in *.
  rewrite Z.rem_mod_nonneg by (unfold ticksPerDay; lia).
  split; [lia|]. split; [lia|]. intros _.
  replace (n + 1 - 1)%Z with n by lia. split; [done|].
  destruct (Z.eq_dec n 0%Z) as [En|En].
  - destruct (Hz En) as [Hq _]. rewrite (proj2 (Hz En)), En.
    assert (Qltb 0.9 (dayProgress (climate (state w))) = false) as ->.
    { apply Qltb_false. rewrite Hq. lra. }
    by rewrite andb_false_r.
  - destruct (Hp ltac:(lia)) as [Hq Hdy]. rewrite Hdy.
    assert (n = 1200 * (n / 1200) + n mod 1200 /\ 0 <= n mod 1200 < 1200)%Z
      as [Hn Hn'] by (split; [apply Z.div_mod|apply Z.mod_pos_bound]; lia).
    assert (n - 1 = 1200 * ((n - 1) / 1200) + (n - 1) mod 1200
            /\ 0 <= (n - 1) mod 1200 < 1200)%Z
      as [Hm Hm'] by (split; [apply Z.div_mod|apply Z.mod_pos_bound]; lia).
    unfold ticksPerDay in *.
    destruct (Qltb _ _ && Qltb _ _) eqn:E.
    + apply andb_true_iff in E as [E1 E2]. qbool.
      rewrite Hq in E1, E2.
      apply (proj1 (day_fraction_lt _ _)) in E1.
      apply (proj1 (day_fraction_late _)) in E2. lia.
    + apply andb_false_iff in E as [E|E]; qbool; rewrite Hq in E.
      * assert (~ (n mod 1200 < (n - 1) mod 1200)%Z) as E'
          by (intros X; apply (proj2 (day_fraction_lt _ _)) in X;
              unfold ticksPerDay in X; lra).
        lia.
      * assert (~ (1080 < (n - 1) mod 1200)%Z) as E'
          by (intros X; apply (proj2 (day_fraction_late _)) in X;
              unfold ticksPerDay in X; lra).
        assert (n mod 1200 <> 0)%Z by lia. lia.
Qed.

End Calendar.

Section Weather.

Variables (Math_sin Math_cos : Q -> Q) (Math_PI : Q).

Lemma op_climate okr w w' :
  op Math_sin Math_cos Math_PI okr w w' ->
  w' = tick Math_sin Math_cos Math_PI w
  \/ climate (state w') = climate (state w).
Proof.
  destruct 1; try (by left); right; try done.
  - returned. apply addNode_climate.
  - by eapply removeNode_state.
  - apply extendNode_climate.
  - apply spawn_climate.
Qed.

Lemma reachable_calendar okr w :
  reachable Math_sin Math_cos Math_PI okr w -> calendar (climate (state w)).
Proof.
  induction 1 as [rnd|w w' _ IH Hop].
  - unfold calendar. cbn. repeat split; try done; lia.
  - destruct (op_climate _ _ _ Hop) as [->| ->]; [|done].
    by apply tick_calendar.
Qed.

(** X3.  In every world reached from the initial one the climate keeps a
    calendar of the ticks: the tick counter is not negative; before the
    first tick it is day 1, a quarter into the day; and after [n > 0]
    ticks the progress through the day is [((n - 1) mod 1200) / 1200] and
    the day number is [1 + (n - 1) / 1200], a day lasting 1200 ticks. *)
Theorem calendar_follows_ticks okr w :
  reachable Math_sin Math_cos Math_PI okr w -> calendar (climate (state w)).
Proof. apply reachable_calendar. Qed.

Hypothesis sin_bound : forall v, -1 <= Math_sin v <= 1.
Hypothesis cos_bound : forall v, -1 <= Math_cos v <= 1.

Lemma climate_weather w :
  (0 <= tick_count (climate (state w)))%Z ->
  0 <= soilWater (climate (state w)) <= 1 ->
  weather_ok (climate (state (updateClimateSystem Math_sin Math_cos Math_PI w))).
Proof.
  intros Hn Hs. unfold updateClimateSystem, Math_random, updateClimate.
  cbn [state climate with_state with_climate fst snd].
  set (n := tick_count (climate (state w))) in *.
  set (now := inject_Z (Z.rem n ticksPerDay) / inject_Z ticksPerDay).
  assert (0 <= now < 1) as Hnow.
  { subst now. rewrite Z.rem_mod_nonneg by (unfold ticksPerDay; lia).
    pose proof (Z.mod_pos_bound n ticksPerDay ltac:(done)) as Hb.
    unfold Qle, Qlt, Qdiv, Qmult, Qinv, inject_Z, ticksPerDay in *. cbn. lia. }
  set (sun := Math_max CONFIG.MIN_SUN_INTENSITY _).
  set (temp := (CONFIG.BASE_TEMPERATURE + _)%Q).
  set (hum := (0.5 + _)%Q).
  assert (0 <= sun <= 1) as Hsun.
  { subst sun. unfold CONFIG.MIN_SUN_INTENSITY.
    pose proof (sin_bound (now * TWO_PI Math_PI)).
    pose proof (sin_bound (now * Math_PI)).
    repeat case_match; minmax; lra. }
  assert (10 <= temp <= 30) as Htemp.
  { subst temp. unfold CONFIG.BASE_TEMPERATURE, CONFIG.TEMPERATURE_AMPLITUDE.
    match goal with |- context [Math_sin ?v] => pose proof (sin_bound v) end.
    lra. }
  assert (0.2 <= hum <= 0.8) as Hhum.
  { subst hum.
    match goal with |- context [Math_cos ?v] => pose proof (cos_bound v) end.
    lra. }
  clearbody sun temp hum now.
  assert (0 <= sun * (temp / 30)) as Hev.
  { apply Qmult_le_0_compat; [lra|]. unfold Qdiv. apply Qmult_le_0_compat; [lra|done]. }
  unfold weather_ok.
  cbn [sunIntensity temperature humidity soilWater dayProgress].
  repeat split; try lra.
  all: unfold CONFIG.RAIN_WATER_RATE, CONFIG.EVAPORATION_RATE.
  all: repeat case_match; minmax; lra.
Qed.

(** X4.  If the sine and the cosine stay within [-1, 1], then in every
    world reached from the initial one the weather is in range: the sun
    intensity in [0, 1], the temperature in [10, 30], the humidity in
    [0.2, 0.8], the soil water in [0, 1] and the progress through the day
    in [0, 1). *)
Theorem weather_in_range okr w :
  reachable Math_sin Math_cos Math_PI okr w -> weather_ok (climate (state w)).
Proof.
  induction 1 as [rnd|w w' Hr IH Hop].
  - unfold weather_ok. cbn. lra.
  - destruct (op_climate _ _ _ Hop) as [->| ->]; [|done].
    rewrite tick_climate.
    pose proof (climate_weather w) as Hw.
    destruct (reachable_calendar _ _ Hr) as [Hn _].
    destruct IH as (_ & _ & _ & Hs & _). specialize (Hw Hn Hs).
    revert Hw. unfold weather_ok, incrementTick. by cbn.
Qed.

End Weather.

(** X5.  The soil water at depth: it grows with the depth, below ground it
    is at least the surface water (or 1), and it never exceeds the surface
    water plus 0.3 (or 1). *)
Theorem soil_water_grows_with_depth d1 d2 w :
  0 <= d1 -> d1 <= d2 ->
  Math_min 1 (soilWater (climate (state w))) <= getSoilWaterAtDepth d1 w
  /\ getSoilWaterAtDepth d1 w <= getSoilWaterAtDepth d2 w
  /\ getSoilWaterAtDepth d2 w <= Math_min 1 (soilWater (climate (state w)) + 0.3).
Proof.
  intros H0 H12. unfold getSoilWaterAtDepth. cbv zeta.
  generalize (soilWater (climate (state w))). intros s.
  assert (d1 / 2 == d1 * 0.5) as E1 by field.
  assert (d2 / 2 == d2 * 0.5) as E2 by field.
  revert E1 E2. generalize (d1 / 2) (d2 / 2). intros h1 h2 E1 E2.
  repeat split; minmax; lra.
Qed.

(** * Flow markers *)

(** What depends on the markers and their counter only is kept by every
    operation but the three that touch them. *)
Section Markers.

Variable P : World -> Prop.
Hypothesis P_same : forall w w',
  particles w' = particles w -> nextParticleId w' = nextParticleId w -> P w -> P w'.
Hypothesis P_spawn : forall a b t s w, P w -> P (spawnFlowParticle a b t s w).
Hypothesis P_updateParticles : forall w, P w -> P (updateParticles w).

Variables (Math_sin Math_cos : Q -> Q) (Math_PI : Q).

Lemma markers_updateNode k us w : P w -> P (updateNode k us w).
Proof. apply P_same; unfold updateNode; by destruct (nodes_get _ _). Qed.

Lemma markers_addNode p t pos r w : P w -> P (after (addNode p t pos r w)).
Proof.
  apply P_same; unfold addNode, generateId;
    repeat case_match; cbv zeta; repeat case_match; by simplify_eq.
Qed.

Lemma markers_extendNode k dir w : P w -> P (fst (extendNode k dir w)).
Proof.
  apply P_same; unfold extendNode, generateId;
    repeat case_match; cbv zeta; repeat case_match; by simplify_eq.
Qed.

Lemma markers_removeNode fuel k w w' b :
  removeNode fuel k w = Some (Returned w' b) -> P w -> P w'.
Proof.
  intros H. apply P_same; revert H; unfold removeNode;
    intros H; repeat case_match; by simplify_eq.
Qed.

Lemma markers_climate w : P w -> P (updateClimateSystem Math_sin Math_cos Math_PI w).
Proof. apply frame_climate; intros; by eapply P_same; [..|eassumption]. Qed.

Lemma markers_flows w :
  P w ->
  P (processPhloemFlow (processXylemFlow (processRootUptake (processTranspiration w)))).
Proof.
  apply frame_flows; try done; try apply markers_updateNode;
    intros; by eapply P_same; [..|eassumption].
Qed.

Lemma markers_metabolism w : P w -> P (updateMetabolism w).
Proof.
  apply frame_metabolism; try done; try apply markers_updateNode;
    intros; by eapply P_same; [..|eassumption].
Qed.

Lemma markers_autogrow w : P w -> P (updateAutoGrow w).
Proof.
  apply frame_autogrow; try done;
    try first [apply markers_updateNode|apply markers_addNode|apply markers_extendNode];
    intros; by eapply P_same; [..|eassumption].
Qed.

Lemma markers_tick w : P w -> P (tick Math_sin Math_cos Math_PI w).
Proof.
  intros H. unfold tick, updateHydraulics.
  match goal with |- P (incrementTick ?v) => apply (P_same v) end; [done..|].
  by apply markers_autogrow, markers_metabolism, P_updateParticles,
    markers_flows, markers_climate.
Qed.

Hypothesis P_clear : forall w, P w -> P (clearParticles w).

Lemma markers_op okr w w' :
  op Math_sin Math_cos Math_PI okr w w' -> P w -> P w'.
Proof.
  destruct 1; try (by apply P_same).
  - returned. apply markers_addNode.
  - by eapply markers_removeNode.
  - apply markers_extendNode.
  - apply P_spawn.
  - apply P_clear.
  - apply markers_tick.
Qed.

Lemma markers_reachable okr w :
  (forall rnd, P (initialWorld Math_PI rnd)) ->
  reachable Math_sin Math_cos Math_PI okr w -> P w.
Proof.
  intros H0. induction 1 as [rnd|w w' _ IH Hop]; [done|].
  by eapply markers_op.
Qed.

End Markers.

(** The survivors of [updateParticles] are markers of before, in their
    order, moved on by one tick, short of the end and with both ends
    truthy in [state.nodes]. *)
Lemma filterParticles_kept ns ps cs :
  map particle_id (filterParticles ns ps cs).1 `sublist_of` map particle_id ps
  /\ forall q, q ∈ (filterParticles ns ps cs).1 ->
       exists p, p ∈ ps /\ q = advance p (1 / CONFIG.TICKS_PER_SECOND)
                 /\ geq (progress q) (Num 1.0) = false
                 /\ present (nodes_at (fromNodeId p) ns) = true
                 /\ present (nodes_at (toNodeId p) ns) = true.
Proof.
  revert cs. induction ps as [|p ps IH]; intros cs; cbn [filterParticles].
  { split; [done|]. intros q Hq. cbn in Hq. by apply elem_of_nil in Hq. }
  assert (forall cs',
    map particle_id (filterParticles ns ps cs').1
      `sublist_of` map particle_id (p :: ps)
    /\ forall q, q ∈ (filterParticles ns ps cs').1 ->
         exists p0, p0 ∈ p :: ps /\ q = advance p0 (1 / CONFIG.TICKS_PER_SECOND)
                    /\ geq (progress q) (Num 1.0) = false
                    /\ present (nodes_at (fromNodeId p0) ns) = true
                    /\ present (nodes_at (toNodeId p0) ns) = true) as Hdrop.
  { intros cs'. destruct (IH cs') as [Hs Hq]. split.
    - cbn [map]. by apply sublist_cons.
    - intros q Hin. destruct (Hq q Hin) as (p0 & Hp0 & Hrest).
      exists p0. split; [by apply list_elem_of_further|done]. }
  destruct (present (nodes_at (fromNodeId p) ns)) eqn:Ea; [|apply Hdrop].
  destruct (present (nodes_at (toNodeId p) ns)) eqn:Eb; [|apply Hdrop].
  cbn [andb]. destruct (geq _ _) eqn:E; [apply Hdrop|].
  destruct (IH cs) as [Hs Hq].
  destruct (filterParticles ns ps cs) as [kept cs'] eqn:Ef. cbn [fst] in *.
  split.
  - cbn [map advance particle_id]. by apply sublist_skip.
  - intros q Hin. apply elem_of_cons in Hin as [->|Hin].
    + exists p. split; [apply list_elem_of_here|]. done.
    + destruct (Hq q Hin) as (p0 & Hp0 & Hrest).
      exists p0. split; [by apply list_elem_of_further|done].
Qed.

(** A marker both of whose ends are truthy and which is short of the end
    after its move is among the survivors. *)
Lemma filterParticles_keeps ns ps p : forall cs,
  p ∈ ps ->
  present (nodes_at (fromNodeId p) ns) = true ->
  present (nodes_at (toNodeId p) ns) = true ->
  geq (progress (advance p (1 / CONFIG.TICKS_PER_SECOND))) (Num 1.0) = false ->
  advance p (1 / CONFIG.TICKS_PER_SECOND) ∈ (filterParticles ns ps cs).1.
Proof.
  induction ps as [|p0 ps IH]; intros cs Hin Ha Hb Hg; [by apply elem_of_nil in Hin|].
  cbn [filterParticles].
  apply elem_of_cons in Hin as [<-|Hin].
  - rewrite Ha, Hb. cbn [andb]. rewrite Hg.
    destruct (filterParticles ns ps cs). apply list_elem_of_here.
  - destruct (present _ && present _); [|by apply IH].
    destruct (geq (progress (advance p0 _)) _); [by apply IH|].
    specialize (IH cs Hin Ha Hb Hg).
    destruct (filterParticles ns ps cs). by apply list_elem_of_further.
Qed.

Lemma updateParticles_kept w :
  nextParticleId (updateParticles w) = nextParticleId w
  /\ map particle_id (particles (updateParticles w))
       `sublist_of` map particle_id (particles w)
  /\ forall q, q ∈ particles (updateParticles w) ->
       exists p, p ∈ particles w /\ q = advance p (1 / CONFIG.TICKS_PER_SECOND)
                 /\ geq (progress q) (Num 1.0) = false
                 /\ present (nodes_at (fromNodeId p) (nodes (state w))) = true
                 /\ present (nodes_at (toNodeId p) (nodes (state w))) = true.
Proof.
  unfold updateParticles.
  pose proof (filterParticles_kept (nodes (state w)) (particles w)
                (connectionParticleCounts w)) as H.
  by destruct (filterParticles _ _ _).
Qed.

Lemma spawn_cases a b t s w :
  spawnFlowParticle a b t s w = w
  \/ (nextParticleId (spawnFlowParticle a b t s w) = S (nextParticleId w)
      /\ particles (spawnFlowParticle a b t s w)
         = particles w ++
             [{| particle_id := marker_name (nextParticleId w);
                 fromNodeId := a; toNodeId := b; progress := Num 0; sap := t;
                 speed :=
                   Math.min (Num 3)
                     (times (Math.max (Num 0.5) s) (Num CONFIG.PARTICLE_SPEED)) |}]).
Proof. unfold spawnFlowParticle. repeat case_match; [by left..|by right]. Qed.

Lemma spawn_marker_ok a b t s w :
  Forall marker_ok (particles w) ->
  Forall marker_ok (particles (spawnFlowParticle a b t s w)).
Proof.
  intros H. destruct (spawn_cases a b t s w) as [->|[_ ->]]; [done|].
  apply Forall_app. split; [done|]. apply Forall_singleton.
  unfold marker_ok. cbn [progress speed].
  destruct s as [v|]; cbn [Math.min Math.max times lift2]; [|by left].
  split; [unfold CONFIG.PARTICLE_SPEED; minmax; lra|].
  exists 0. split; [done|lra].
Qed.

Lemma updateParticles_marker_ok w :
  Forall marker_ok (particles w) ->
  Forall marker_ok (particles (updateParticles w)).
Proof.
  intros H. destruct (updateParticles_kept w) as (_ & _ & Hq).
  apply Forall_forall. intros q Hin.
  destruct (Hq q Hin) as (p & Hp & -> & Hlt & _).
  pose proof (proj1 (Forall_forall _ _) H p Hp) as Hok.
  revert Hlt Hok. unfold marker_ok. cbn [advance progress speed].
  destruct (speed p) as [s|].
  - intros Hlt [Hs (c & Ec & Hc)]. rewrite Ec in Hlt |- *.
    cbn [plus times lift2 geq] in Hlt |- *. apply Qleb_false in Hlt.
    split; [done|]. eexists. split; [reflexivity|].
    unfold CONFIG.TICKS_PER_SECOND in *.
    assert (0 <= s * (1 / 20)) by (apply Qmult_le_0_compat; [lra|done]).
    lra.
  - intros _ [-> | ->]; by right.
Qed.

Lemma marker_name_inj i j : marker_name i = marker_name j -> i = j.
Proof.
  unfold marker_name. intros H. apply (inj (String.append "particle_")) in H.
  by apply (inj pretty) in H.
Qed.

Lemma spawn_marker_ids a b t s w :
  marker_ids_ok w -> marker_ids_ok (spawnFlowParticle a b t s w).
Proof.
  intros [Hnd Hid]. destruct (spawn_cases a b t s w) as [->|[En Ep]]; [done|].
  unfold marker_ids_ok. rewrite En, Ep. split.
  - rewrite map_app. cbn [map particle_id]. apply NoDup_app.
    split; [done|]. split; [|apply NoDup_singleton].
    intros k Hk Hk'. apply list_elem_of_singleton in Hk' as ->.
    apply (list_elem_of_fmap_1 particle_id) in Hk as (p & Ek & Hp).
    destruct (Hid p Hp) as (i & Hi & Ei). cbn [particle_id] in Ek.
    rewrite <- Ek in Ei.
    apply marker_name_inj in Ei. lia.
  - intros p Hp. apply elem_of_app in Hp as [Hp|Hp].
    + destruct (Hid p Hp) as (i & Hi & Ei). exists i. split; [lia|done].
    + apply list_elem_of_singleton in Hp as ->. eexists. split; [|done]. lia.
Qed.

Lemma updateParticles_marker_ids w :
  marker_ids_ok w -> marker_ids_ok (updateParticles w).
Proof.
  intros [Hnd Hid]. destruct (updateParticles_kept w) as (En & Hs & Hq).
  unfold marker_ids_ok. rewrite En. split; [by eapply sublist_NoDup|].
  intros q Hin. destruct (Hq q Hin) as (p & Hp & -> & _).
  destruct (Hid p Hp) as (i & Hi & Ei). by exists i.
Qed.

Section MarkerRuns.

Variables (Math_sin Math_cos : Q -> Q) (Math_PI : Q).

Lemma reachable_markers_ok okr w :
  reachable Math_sin Math_cos Math_PI okr w -> Forall marker_ok (particles w).
Proof.
  apply (markers_reachable (fun w => Forall marker_ok (particles w))); try done.
  - by intros w1 w2 ->.
  - apply spawn_marker_ok.
  - apply updateParticles_marker_ok.
Qed.

Lemma reachable_marker_ids okr w :
  reachable Math_sin Math_cos Math_PI okr w -> marker_ids_ok w.
Proof.
  apply (markers_reachable marker_ids_ok).
  - unfold marker_ids_ok. by intros w1 w2 -> ->.
  - apply spawn_marker_ids.
  - apply updateParticles_marker_ids.
  - intros w1 _. split; [apply NoDup_nil_2|]. intros p Hp.
    by apply elem_of_nil in Hp.
  - intros rnd. split; [apply NoDup_nil_2|]. intros p Hp.
    by apply elem_of_nil in Hp.
Qed.

(** X6.  In every world reached from the initial one, a flow marker whose
    speed is a number has a speed between 0.6 and 3 per second and a
    progress in [0, 1).  The only other markers are those spawned with the
    speed NaN: their speed is NaN, and their progress is 0 until the first
    tick and NaN from then on. *)
Theorem markers_in_range okr w :
  reachable Math_sin Math_cos Math_PI okr w ->
  forall p, p ∈ particles w ->
    match speed p with
    | Num s => 0.6 <= s <= 3 /\ exists c, progress p = Num c /\ 0 <= c < 1
    | NaN => progress p = Num 0 \/ progress p = NaN
    end.
Proof.
  intros Hr p Hp. by apply (proj1 (Forall_forall _ _) (reachable_markers_ok _ _ Hr)).
Qed.

(** X7.  In every world reached from the initial one, the flow markers
    have pairwise distinct identifiers, each of the form
    [particle_<i>] with [i] below the counter of the markers. *)
Theorem marker_ids_distinct okr w :
  reachable Math_sin Math_cos Math_PI okr w ->
  NoDup (map particle_id (particles w))
  /\ forall p, p ∈ particles w ->
       exists i, (i < nextParticleId w)%nat
                 /\ particle_id p = "particle_" +:+ pretty i.
Proof. apply reachable_marker_ids. Qed.

End MarkerRuns.

(** ** How long a marker lives *)

Lemma aged_same first c w w' :
  particles w' = particles w -> nextParticleId w' = nextParticleId w ->
  aged first c w -> aged first c w'.
Proof. unfold aged. by intros -> ->. Qed.

Lemma aged_spawn first c a b t s w :
  aged first c w -> aged first c (spawnFlowParticle a b t s w).
Proof.
  intros [Hf Hp]. destruct (spawn_cases a b t s w) as [->|[En Ep]]; [done|].
  unfold aged. rewrite En, Ep. split; [lia|].
  intros p v Hin Hv. apply elem_of_app in Hin as [Hin|Hin].
  - destruct (Hp p v Hin Hv) as [Hs [(i & Hi & Ei)|Hc]]; (split; [done|]).
    + left. exists i. split; [lia|done].
    + by right.
  - apply list_elem_of_singleton in Hin as ->. cbn [speed particle_id] in *.
    destruct s as [u|]; [|done]. injection Hv as <-.
    split; [unfold CONFIG.PARTICLE_SPEED; minmax; lra|].
    left. eexists. split; [|done]. lia.
Qed.

(** One tick of the markers moves every older marker on by at least 0.03. *)
Lemma aged_updateParticles first c w :
  aged first c w -> aged first (c + 0.03) (updateParticles w).
Proof.
  intros [Hf Hp]. destruct (updateParticles_kept w) as (En & _ & Hq).
  unfold aged. rewrite En. split; [done|].
  intros q v Hin Hv. destruct (Hq q Hin) as (p & Hin' & -> & _).
  cbn [advance speed] in Hv.
  destruct (Hp p v Hin' Hv) as [Hs [(i & Hi & Ei)|(u & Eu & Hc)]];
    cbn [advance speed progress particle_id]; (split; [done|]).
  - left. by exists i.
  - right. rewrite Eu, Hv. eexists. split; [reflexivity|].
    unfold CONFIG.TICKS_PER_SECOND.
    assert (0.03 <= v * (1 / 20)) as Hd.
    { apply Qle_trans with (0.6 * (1 / 20)); [done|].
      by apply Qmult_le_compat_r. }
    revert Hd. generalize (v * (1 / 20)). intros d Hd. lra.
Qed.

Lemma aged_weaken first c c' w : c' <= c -> aged first c w -> aged first c' w.
Proof.
  intros Hc [Hf Hp]. split; [done|]. intros p v Hin Hv.
  destruct (Hp p v Hin Hv) as [Hs [H|(u & Eu & H)]]; (split; [done|]); [by left|].
  right. exists u. split; [done|lra].
Qed.

Section Lifetime.

Variables (Math_sin Math_cos : Q -> Q) (Math_PI : Q).

Lemma aged_tick first c w :
  aged first c w -> aged first (c + 0.03) (tick Math_sin Math_cos Math_PI w).
Proof.
  intros H. unfold tick, updateHydraulics.
  assert (forall c' w1 w2, particles w2 = particles w1 ->
            nextParticleId w2 = nextParticleId w1 ->
            aged first c' w1 -> aged first c' w2) as Hsame
    by (intros; by eapply aged_same).
  assert (forall c' w1, aged first c' w1 -> aged first c' (updateParticles w1)) as Hup.
  { intros c' w1 H1. apply (aged_weaken _ (c' + 0.03)); [lra|].
    by apply aged_updateParticles. }
  match goal with |- aged _ _ (incrementTick ?v) => apply (aged_same _ _ v) end;
    [done..|].
  apply (markers_autogrow (aged first (c + 0.03))); [apply Hsame|].
  apply (markers_metabolism (aged first (c + 0.03)));
    [apply Hsame|apply aged_spawn|].
  apply aged_updateParticles.
  apply (markers_flows (aged first c)); [apply Hsame|apply aged_spawn|].
  by apply (markers_climate (aged first c)); [apply Hsame|].
Qed.

Lemma aged_run first n w :
  aged first 0 w ->
  aged first (0.03 * inject_Z (Z.of_nat n))
    (Nat.iter n (tick Math_sin Math_cos Math_PI) w).
Proof.
  intros H. induction n as [|n IH].
  - cbn [Nat.iter nat_rect]. by apply (aged_weaken _ 0).
  - cbn [Nat.iter nat_rect]. fold (Nat.iter n (tick Math_sin Math_cos Math_PI) w).
    apply (aged_weaken _ (0.03 * inject_Z (Z.of_nat n) + 0.03)); [|by apply aged_tick].
    rewrite Nat2Z.inj_succ. unfold Z.succ. rewrite inject_Z_plus.
    change (inject_Z 1) with 1. generalize (inject_Z (Z.of_nat n)). intros v. lra.
Qed.

Lemma reachable_run okr n w :
  reachable Math_sin Math_cos Math_PI okr w ->
  reachable Math_sin Math_cos Math_PI okr
    (Nat.iter n (tick Math_sin Math_cos Math_PI) w).
Proof.
  intros H. induction n as [|n IH]; [done|].
  cbn [Nat.iter nat_rect]. eapply reachable_step; [exact IH|apply op_tick].
Qed.

(** X8.  No flow marker whose speed is a number lives longer than 34
    ticks: in a world reached from the initial one, every such marker
    present 34 ticks later was created in the meantime, its number being
    at least the counter of before, and it is none of the markers of
    before.  A marker whose speed is NaN is not dropped for its progress:
    [updateParticles] keeps it, moved on, whenever both of its ends are
    truthy in [state.nodes]. *)
Theorem markers_expire okr w :
  reachable Math_sin Math_cos Math_PI okr w ->
  (forall p, p ∈ particles (Nat.iter 34 (tick Math_sin Math_cos Math_PI) w) ->
     speed p <> NaN ->
     (exists i, (nextParticleId w <= i)%nat
                /\ particle_id p = "particle_" +:+ pretty i)
     /\ particle_id p ∉ map particle_id (particles w))
  /\ (forall p, p ∈ particles w -> speed p = NaN ->
        present (nodes_at (fromNodeId p) (nodes (state w))) = true ->
        present (nodes_at (toNodeId p) (nodes (state w))) = true ->
        advance p (1 / CONFIG.TICKS_PER_SECOND) ∈ particles (updateParticles w)).
Proof.
  intros Hr. split.
  - intros p Hin Hnum.
    destruct (speed p) as [s|] eqn:Es; [clear Hnum|done].
    assert (aged (nextParticleId w) 0 w) as H0.
    { split; [done|]. intros q v Hq Hv.
      pose proof (proj1 (Forall_forall _ _) (reachable_markers_ok _ _ _ _ _ Hr) q Hq)
        as Hok.
      unfold marker_ok in Hok. rewrite Hv in Hok. destruct Hok as [Hs (c & Ec & Hc)].
      split; [lra|]. right. exists c. split; [done|lra]. }
    apply (aged_run _ 34) in H0 as [_ Hp].
    pose proof (proj1 (Forall_forall _ _)
      (reachable_markers_ok _ _ _ _ _ (reachable_run okr 34 w Hr)) p Hin) as Hok.
    unfold marker_ok in Hok. rewrite Es in Hok. destruct Hok as [_ (c & Ec & Hc)].
    destruct (Hp p s Hin Es) as [_ [(i & Hi & Ei)|(u & Eu & Hu)]].
    2: { exfalso. rewrite Ec in Eu. injection Eu as <-.
         assert (1 <= 0.03 * inject_Z (Z.of_nat 34)) as H1 by done.
         revert H1 Hu. generalize (0.03 * inject_Z (Z.of_nat 34)). intros v. lra. }
    split; [exists i; split; [lia|done]|].
    intros Hold. apply (list_elem_of_fmap_1 particle_id) in Hold as (q & Eq & Hq).
    destruct (reachable_marker_ids _ _ _ _ _ Hr) as [_ Hid].
    destruct (Hid q Hq) as (j & Hj & Ej).
    rewrite Ei, Ej in Eq. apply marker_name_inj in Eq. lia.
  - intros p Hin Hs Ha Hb. unfold updateParticles.
    pose proof (filterParticles_keeps (nodes (state w)) (particles w) p
                  (connectionParticleCounts w) Hin Ha Hb) as Hk.
    destruct (filterParticles _ _ _) as [ps cs]. cbn [fst] in Hk.
    apply Hk. cbn [advance progress]. rewrite Hs. by destruct (progress p).
Qed.

End Lifetime.

(** * What a tick does to the structure *)

Lemma grown_same w w1 w' :
  nodes_keys (nodes (state w1)) = nodes_keys (nodes (state w)) ->
  nextId w1 = nextId w -> grown w1 w' -> grown w w'.
Proof. unfold grown. by intros -> ->. Qed.

(** The identifier of a segment of a well-formed store is no inherited
    name. *)
Lemma stored_plain w n :
  struct_ok w -> n ∈ map snd (nodes (state w)) -> inherited (node_id n) = false.
Proof.
  intros Hs Hin. pose proof (value_live w n Hs Hin) as Hl.
  destruct Hs as (_ & _ & Hf).
  destruct (Hf (node_id n)) as (i & _ & ->); [|apply node_name_plain].
  by eapply nodes_get_Some_keys.
Qed.

Lemma addNode_grown p t pos r w :
  inherited p = false ->
  node_name (nextId w) ∉ nodes_keys (nodes (state w)) ->
  grown w (after (addNode p t pos r w)).
Proof.
  intros Hplain Hfresh.
  destruct (addNode_cases p t pos r w)
    as [E|[(Hb & _)|(parent & Hp & _ & En & Ei & _)]].
  { rewrite E. by left. }
  { unfold nodes_at in Hb. destruct (nodes_get p _); [done|]. by rewrite Hplain in Hb. }
  right. rewrite En, Ei. split; [|done].
  assert (node_name (nextId w) <> p) as Hne.
  { intros E. apply Hfresh. rewrite E. by eapply nodes_get_Some_keys. }
  assert (String.eqb (node_name (nextId w)) p = false) as ->
    by by apply String.eqb_neq.
  rewrite nodes_keys_set_present.
  - apply nodes_keys_set_absent. by apply nodes_get_None_keys.
  - rewrite nodes_get_set_ne by done. unfold live in Hp. by rewrite Hp.
Qed.

Lemma extendNode_grown k dir w :
  node_name (nextId w) ∉ nodes_keys (nodes (state w)) ->
  grown w (fst (extendNode k dir w)).
Proof.
  intros Hfresh.
  destruct (extendNode_cases k dir w) as [E|(node & Hk & _ & En & Ei & _)].
  { rewrite E. by left. }
  right. rewrite En, Ei. split; [|done]. cbn zeta.
  assert (nodes_keys
            (match nodes_get k (fold_left (reparent (node_name (nextId w)) dir)
                                  (childrenIds node) (nodes (state w))) with
             | Some node' =>
                 nodes_set k
                   (assign_field node' (set_childrenIds [node_name (nextId w)]))
                   (fold_left (reparent (node_name (nextId w)) dir)
                      (childrenIds node) (nodes (state w)))
             | None => fold_left (reparent (node_name (nextId w)) dir)
                         (childrenIds node) (nodes (state w))
             end) = nodes_keys (nodes (state w))) as Ekeys.
  { destruct (nodes_get k (fold_left _ _ _)) eqn:Hk'.
    - rewrite nodes_keys_set_present; [apply reparent_keys|by rewrite Hk'].
    - apply reparent_keys. }
  rewrite nodes_keys_set_absent; [by rewrite Ekeys|].
  apply nodes_get_None_keys. by rewrite Ekeys.
Qed.

Lemma executeAction_grown a w :
  inherited (node_id (targetNode a)) = false ->
  node_name (nextId w) ∉ nodes_keys (nodes (state w)) ->
  grown w (executeAction a w).
Proof.
  intros Hplain Hfresh. unfold executeAction. destruct (action_type a).
  - destruct (growType a); [|by left]. destruct (direction a); [|by left].
    cbv zeta. destruct (existsb _ _); [by left|]. by apply addNode_grown.
  - left. cbn. by rewrite updateNode_keys, (proj1 (updateNode_rest _ _ _)).
  - destruct (direction a); [|by left]. by apply extendNode_grown.
Qed.

Lemma autogrow_grown w :
  struct_ok w ->
  grown w (updateAutoGrow w)
  /\ (autoGrowEnabled w = false -> updateAutoGrow w = w).
Proof.
  intros Hs. pose proof (fresh_absent w Hs) as Hfresh.
  apply nodes_get_None_keys in Hfresh. unfold updateAutoGrow.
  destruct (autoGrowEnabled w); cbn [negb]; [|split; [by left|done]].
  split; [|done]. cbv zeta.
  destruct (Qltb (nat_Q _) _); [by left|].
  destruct (Qltb _ 20); [by left|].
  pose proof (decideAction_spec (analyzePlant (state (with_autogrow w true 0)))
                (with_autogrow w true 0)) as [(En & Ei & _) _].
  pose proof (decideAction_target (with_autogrow w true 0) (with_autogrow w true 0))
    as Ht.
  destruct (decideAction _ _) as [[a|] w2]; cbn [fst snd] in En, Ei, Ht.
  - apply (grown_same _ w2); [by rewrite En|by rewrite Ei|].
    apply executeAction_grown; [|by rewrite En, Ei].
    apply (stored_plain w); [done|]. by apply Ht.
  - left. by rewrite En, Ei.
Qed.

Section TickStructure.

Variables (Math_sin Math_cos : Q -> Q) (Math_PI : Q).

(** The climate, the hydraulics and the metabolism keep the keys, the
    identifier counter and the switch of the growth heuristic. *)
Lemma systems_keys w :
  let w1 := updateMetabolism
              (updateHydraulics (updateClimateSystem Math_sin Math_cos Math_PI w)) in
  nodes_keys (nodes (state w1)) = nodes_keys (nodes (state w))
  /\ nextId w1 = nextId w
  /\ autoGrowEnabled w1 = autoGrowEnabled w.
Proof.
  set (P := fun w' : World =>
    nodes_keys (nodes (state w')) = nodes_keys (nodes (state w))
    /\ nextId w' = nextId w /\ autoGrowEnabled w' = autoGrowEnabled w).
  assert (forall k us w', P w' -> P (updateNode k us w')) as H1.
  { intros k us w' (Ek & Ei & Ea). unfold P. rewrite updateNode_keys.
    destruct (updateNode_rest k us w') as (-> & _). split; [done|]. split; [done|].
    rewrite <- Ea. unfold updateNode. by destruct (nodes_get _ _). }
  assert (forall a b t s w', P w' -> P (spawnFlowParticle a b t s w')) as H2.
  { intros a b t s w' H. unfold P, spawnFlowParticle. by repeat case_match. }
  assert (forall w', P w' -> P (updateParticles w')) as H3.
  { intros w' H. unfold P, updateParticles. by destruct (filterParticles _ _ _). }
  change (P (updateMetabolism
               (updateHydraulics (updateClimateSystem Math_sin Math_cos Math_PI w)))).
  apply frame_metabolism; try first [exact H1|exact H2|exact H3|done].
  apply frame_hydraulics; try first [exact H1|exact H2|exact H3|done].
Qed.

(** They keep the store well formed. *)
Lemma systems_struct_ok w :
  struct_ok w ->
  struct_ok (updateMetabolism
               (updateHydraulics (updateClimateSystem Math_sin Math_cos Math_PI w))).
Proof.
  intros Hs.
  set (wc := updateClimateSystem Math_sin Math_cos Math_PI w).
  assert (struct_ok wc) as Hsc
    by (eapply same_core_struct_ok; [apply same_core_climate|done]).
  pose proof (hydraulics_prims true wc Hsc) as Hh.
  pose proof (prims_struct_ok _ _ _ Hh Hsc) as Hsh.
  pose proof (metabolism_prims _ Hsh) as Hm.
  exact (prims_struct_ok _ _ _ Hm Hsh).
Qed.

Lemma tick_grows_keys_off w :
  struct_ok w -> autoGrowEnabled w = false ->
  nodes_keys (nodes (state (tick Math_sin Math_cos Math_PI w)))
  = nodes_keys (nodes (state w)).
Proof.
  intros Hs Hd. pose proof (systems_struct_ok w Hs) as Hs1.
  destruct (systems_keys w) as (Ek & Ei & Ea). cbv zeta in Ek, Ei, Ea.
  unfold tick. set (w1 := updateMetabolism _) in *.
  destruct (autogrow_grown w1) as [_ Hoff]; [done|].
  rewrite <- Ea in Hd. cbn. by rewrite (Hoff Hd).
Qed.

(** X9.  A tick never removes a segment and creates at most one: the keys
    of the store stay as they are, in their order, or the next identifier
    is appended to them; and while the growth heuristic is switched off
    they stay as they are. *)
Theorem tick_grows_by_at_most_one w :
  struct_ok w ->
  grown w (tick Math_sin Math_cos Math_PI w)
  /\ (autoGrowEnabled w = false ->
      nodes_keys (nodes (state (tick Math_sin Math_cos Math_PI w)))
      = nodes_keys (nodes (state w))).
Proof.
  intros Hs. pose proof (systems_struct_ok w Hs) as Hs1.
  destruct (systems_keys w) as (Ek & Ei & Ea). cbv zeta in Ek, Ei, Ea.
  unfold tick.
  set (w1 := updateMetabolism _) in *.
  destruct (autogrow_grown w1) as [Hg Hoff]; [done|].
  split.
  - apply (grown_same _ w1); [done..|].
    destruct Hg as [[E1 E2]|[E1 E2]]; [left|right]; by cbn.
  - intros Hd. rewrite <- Ea in Hd. cbn. by rewrite (Hoff Hd).
Qed.

End TickStructure.

(** * The plant is a tree *)

(** ** Tables of links *)

Lemma forest_on_ext seed T T' :
  (forall j, T' j = T j) -> forest_on seed T -> forest_on seed T'.
Proof.
  intros E (H1 & H2 & H3 & H4 & H5 & rank & H6).
  unfold forest_on. repeat setoid_rewrite E.
  repeat split; try done. by exists rank.
Qed.

(** A new leaf [new] under [p]. *)
Lemma forest_on_add seed T T' p new t' tp pp pcs :
  forest_on seed T -> T p = Some (tp, pp, pcs) -> T new = None ->
  (forall j, T' j = if decide (j = new) then Some (t', Some p, [])
                    else if decide (j = p) then Some (tp, pp, pcs ++ [new])
                    else T j) ->
  forest_on seed T'.
Proof.
  intros (H1 & H2 & H3 & (scs & H4) & H5 & rank & H6) Hp Hnew E.
  assert (new <> p) as Hne by congruence.
  assert (new ∉ pcs) as Hnotin.
  { intros Hin. destruct (H1 _ _ _ _ _ Hp Hin) as (? & ? & ?). congruence. }
  assert (forall c, T c <> None -> c <> new) as Hold by (intros c Hc ->; done).
  assert (T' new = Some (t', Some p, [])) as En by (by rewrite E, decide_True).
  assert (T' p = Some (tp, pp, pcs ++ [new])) as Ep
    by (by rewrite E, decide_False, decide_True).
  assert (forall j, j <> new -> j <> p -> T' j = T j) as Eo
    by (intros j ? ?; by rewrite E, !decide_False).
  (* what is known of [c] in [T] is known of it in [T'] *)
  assert (forall c k tc cc, T c = Some (tc, Some k, cc) ->
            exists tc' cc', T' c = Some (tc', Some k, cc')) as Hup.
  { intros c k tc cc Hc. destruct (decide (c = p)) as [->|Hcp].
    - rewrite Ep. simplify_eq. by eauto.
    - rewrite Eo; [by eauto| |done]. apply Hold. by rewrite Hc. }
  assert (forall q k tq qq qcs, T q = Some (tq, qq, qcs) -> k ∈ qcs ->
            exists tq' qq' qcs', T' q = Some (tq', qq', qcs') /\ k ∈ qcs') as Hdown.
  { intros q k tq qq qcs Hq Hin. destruct (decide (q = p)) as [->|Hqp].
    - rewrite Ep. simplify_eq. eexists _, _, _. split; [done|]. set_solver.
    - rewrite Eo; [by eauto| |done]. apply Hold. by rewrite Hq. }
  split; [|split; [|split; [|split; [|split]]]].
  - intros k t q cs c Hk Hc.
    destruct (decide (k = new)) as [->|Hkn].
    { rewrite En in Hk. simplify_eq. by apply elem_of_nil in Hc. }
    destruct (decide (k = p)) as [->|Hkp].
    + rewrite Ep in Hk. simplify_eq. apply elem_of_app in Hc as [Hc|Hc].
      * destruct (H1 _ _ _ _ _ Hp Hc) as (tc & cc & Hc'). by eapply Hup.
      * apply list_elem_of_singleton in Hc as ->. rewrite En. by eauto.
    + rewrite Eo in Hk by done.
      destruct (H1 _ _ _ _ _ Hk Hc) as (tc & cc & Hc'). by eapply Hup.
  - intros k t q cs Hk.
    destruct (decide (k = new)) as [->|Hkn].
    { rewrite En in Hk. simplify_eq. rewrite Ep. eexists _, _, _.
      split; [done|]. set_solver. }
    destruct (decide (k = p)) as [->|Hkp].
    + rewrite Ep in Hk. simplify_eq.
      destruct (H2 _ _ _ _ Hp) as (tq & qq & qcs & Hq & Hin). by eapply Hdown.
    + rewrite Eo in Hk by done.
      destruct (H2 _ _ _ _ Hk) as (tq & qq & qcs & Hq & Hin). by eapply Hdown.
  - intros k t q cs Hk.
    destruct (decide (k = new)) as [->|Hkn].
    { rewrite En in Hk. simplify_eq. apply NoDup_nil_2. }
    destruct (decide (k = p)) as [->|Hkp].
    + rewrite Ep in Hk. simplify_eq.
      apply NoDup_app. split; [by eauto|]. split; [|apply NoDup_singleton].
      intros c Hc Hc'. apply list_elem_of_singleton in Hc'. by subst.
    + rewrite Eo in Hk by done. by eauto.
  - destruct (decide (seed = p)) as [->|Hsp].
    + rewrite Ep. simplify_eq. by eauto.
    + rewrite Eo; [by eauto| |done]. apply Hold. by rewrite H4.
  - intros k t cs Hk.
    destruct (decide (k = new)) as [->|Hkn]; [rewrite En in Hk; by simplify_eq|].
    destruct (decide (k = p)) as [->|Hkp].
    + rewrite Ep in Hk. simplify_eq. by eauto.
    + rewrite Eo in Hk by done. by eauto.
  - exists (fun j => if decide (j = new) then 0%nat else S (rank j)).
    intros k t q cs c Hk Hc.
    destruct (decide (k = new)) as [->|Hkn].
    { rewrite En in Hk. simplify_eq. by apply elem_of_nil in Hc. }
    destruct (decide (k = p)) as [->|Hkp].
    + rewrite Ep in Hk. simplify_eq. apply elem_of_app in Hc as [Hc|Hc].
      * pose proof (H6 _ _ _ _ _ Hp Hc). case_decide; lia.
      * apply list_elem_of_singleton in Hc as ->. rewrite decide_True by done. lia.
    + rewrite Eo in Hk by done.
      pose proof (H6 _ _ _ _ _ Hk Hc). case_decide; lia.
Qed.

(** The new segment [new] between [k] and its children. *)
Lemma forest_on_extend seed T T' k new tk pk cs :
  forest_on seed T -> T k = Some (tk, pk, cs) -> T new = None ->
  (forall j, T' j = if decide (j = new) then Some (tk, Some k, cs)
                    else if decide (j = k) then Some (tk, pk, [new])
                    else if decide (j ∈ cs)
                         then (fun l : Link => (l.1.1, Some new, l.2)) <$> T j
                         else T j) ->
  forest_on seed T'.
Proof.
  intros (H1 & H2 & H3 & (scs & H4) & H5 & rank & H6) Hk Hnew E.
  assert (new <> k) as Hne by congruence.
  assert (forall c, T c <> None -> c <> new) as Hold by (intros c Hc ->; done).
  assert (k ∉ cs) as Hkcs by (intros Hin; pose proof (H6 _ _ _ _ _ Hk Hin); lia).
  assert (new ∉ cs) as Hncs.
  { intros Hin. destruct (H1 _ _ _ _ _ Hk Hin) as (? & ? & ?). congruence. }
  assert (T' new = Some (tk, Some k, cs)) as En by (by rewrite E, decide_True).
  assert (T' k = Some (tk, pk, [new])) as Ek
    by (by rewrite E, decide_False, decide_True).
  assert (forall j t q c, j ∈ cs -> T j = Some (t, q, c) ->
            T' j = Some (t, Some new, c)) as Ec.
  { intros j t q c Hin Hj.
    assert (j <> new) by (intros ->; done). assert (j <> k) by (intros ->; done).
    rewrite E. rewrite decide_False by done. rewrite decide_False by done.
    rewrite decide_True by done. by rewrite Hj. }
  assert (forall j, j <> new -> j <> k -> j ∉ cs -> T' j = T j) as Eo
    by (intros j ? ? ?; by rewrite E, !decide_False).
  (* every old entry is still there, with its type and its children *)
  assert (forall j t q c, T j = Some (t, q, c) ->
            exists q', T' j = Some (t, q', c) \/ (j = k /\ c = cs)) as Hstill.
  { intros j t q c Hj. destruct (decide (j = k)) as [->|Hjk].
    - exists None. right. split; [done|]. congruence.
    - destruct (decide (j ∈ cs)) as [Hin|Hin].
      + exists (Some new). left. by eapply Ec.
      + exists q. left. rewrite Eo; [done| |done..]. apply Hold. by rewrite Hj. }
  split; [|split; [|split; [|split; [|split]]]].
  - intros k0 t q cs0 c Hk0 Hc.
    destruct (decide (k0 = new)) as [->|Hk0n].
    { rewrite En in Hk0. simplify_eq.
      destruct (H1 _ _ _ _ _ Hk Hc) as (tc & cc & Hc'). rewrite (Ec _ _ _ _ Hc Hc').
      by eauto. }
    destruct (decide (k0 = k)) as [->|Hk0k].
    { rewrite Ek in Hk0. simplify_eq. apply list_elem_of_singleton in Hc as ->.
      rewrite En. by eauto. }
    assert (exists q0, T k0 = Some (t, q0, cs0)) as [q0 Hk0T].
    { destruct (decide (k0 ∈ cs)) as [Hin|Hin].
      - destruct (H1 _ _ _ _ _ Hk Hin) as (tc & cc & Hc').
        rewrite (Ec _ _ _ _ Hin Hc') in Hk0. simplify_eq. by eauto.
      - rewrite Eo in Hk0 by done. by eauto. }
    destruct (H1 _ _ _ _ _ Hk0T Hc) as (tc & cc & Hc').
    destruct (decide (c = k)) as [->|Hck].
    { rewrite Ek. simplify_eq. by eauto. }
    assert (c ∉ cs) as Hccs.
    { intros Hin. destruct (H1 _ _ _ _ _ Hk Hin) as (? & ? & ?). congruence. }
    rewrite Eo; [by eauto| |done..]. apply Hold. by rewrite Hc'.
  - intros k0 t q cs0 Hk0.
    assert (forall q0 tq qq qcs, T q0 = Some (tq, qq, qcs) -> k0 ∈ qcs -> q0 <> k ->
              exists tp pp pcs, T' q0 = Some (tp, pp, pcs) /\ k0 ∈ pcs) as Hdown.
    { intros q0 tq qq qcs Hq0 Hin Hq0k.
      destruct (decide (q0 ∈ cs)) as [Hq0cs|Hq0cs].
      - rewrite (Ec _ _ _ _ Hq0cs Hq0). by eauto.
      - rewrite Eo; [by eauto| |done..]. apply Hold. by rewrite Hq0. }
    destruct (decide (k0 = new)) as [->|Hk0n].
    { rewrite En in Hk0. simplify_eq. rewrite Ek. eexists _, _, _.
      split; [done|]. set_solver. }
    destruct (decide (k0 = k)) as [->|Hk0k].
    { rewrite Ek in Hk0. simplify_eq.
      destruct (H2 _ _ _ _ Hk) as (tq & qq & qcs & Hq & Hin).
      eapply Hdown; [done..|]. intros ->. by simplify_eq. }
    destruct (decide (k0 ∈ cs)) as [Hin|Hin].
    { destruct (H1 _ _ _ _ _ Hk Hin) as (tc & cc & Hc').
      rewrite (Ec _ _ _ _ Hin Hc') in Hk0. simplify_eq. rewrite En. by eauto. }
    rewrite Eo in Hk0 by done.
    destruct (H2 _ _ _ _ Hk0) as (tq & qq & qcs & Hq & Hin').
    eapply Hdown; [done..|]. intros ->. by simplify_eq.
  - intros k0 t q cs0 Hk0.
    destruct (decide (k0 = new)) as [->|Hk0n].
    { rewrite En in Hk0. simplify_eq. by eauto. }
    destruct (decide (k0 = k)) as [->|Hk0k].
    { rewrite Ek in Hk0. simplify_eq. apply NoDup_singleton. }
    destruct (decide (k0 ∈ cs)) as [Hin|Hin].
    { destruct (H1 _ _ _ _ _ Hk Hin) as (tc & cc & Hc').
      rewrite (Ec _ _ _ _ Hin Hc') in Hk0. simplify_eq. by eauto. }
    rewrite Eo in Hk0 by done. by eauto.
  - destruct (decide (seed = k)) as [->|Hsk].
    { rewrite Ek. simplify_eq. by eauto. }
    assert (seed ∉ cs) as Hscs.
    { intros Hin. destruct (H1 _ _ _ _ _ Hk Hin) as (? & ? & ?). congruence. }
    rewrite Eo; [by eauto| |done..]. apply Hold. by rewrite H4.
  - intros k0 t cs0 Hk0.
    destruct (decide (k0 = new)) as [->|Hk0n]; [rewrite En in Hk0; by simplify_eq|].
    destruct (decide (k0 = k)) as [->|Hk0k].
    { rewrite Ek in Hk0. simplify_eq. by eauto. }
    destruct (decide (k0 ∈ cs)) as [Hin|Hin].
    { destruct (H1 _ _ _ _ _ Hk Hin) as (tc & cc & Hc').
      rewrite (Ec _ _ _ _ Hin Hc') in Hk0. by simplify_eq. }
    rewrite Eo in Hk0 by done. by eauto.
  - exists (fun j => if decide (j = new) then (2 * rank k + 1)%nat
                     else (2 * rank j + 2)%nat).
    intros k0 t q cs0 c Hk0 Hc. cbv beta.
    destruct (decide (k0 = new)) as [->|Hk0n].
    { rewrite En in Hk0. simplify_eq. pose proof (H6 _ _ _ _ _ Hk Hc).
      destruct (decide (c = new)) as [->|]; [done|].
      destruct (decide (new = new)); [lia|done]. }
    destruct (decide (k0 = k)) as [->|Hk0k].
    { rewrite Ek in Hk0. simplify_eq. apply list_elem_of_singleton in Hc as ->.
      destruct (decide (new = new)); [|done].
      destruct (decide (k = new)); [by subst|lia]. }
    assert (exists q0, T k0 = Some (t, q0, cs0)) as [q0 Hk0T].
    { destruct (decide (k0 ∈ cs)) as [Hin|Hin].
      - destruct (H1 _ _ _ _ _ Hk Hin) as (tc & cc & Hc').
        rewrite (Ec _ _ _ _ Hin Hc') in Hk0. simplify_eq. by eauto.
      - rewrite Eo in Hk0 by done. by eauto. }
    pose proof (H6 _ _ _ _ _ Hk0T Hc).
    destruct (H1 _ _ _ _ _ Hk0T Hc) as (tc & cc & Hc').
    assert (c <> new) by (apply Hold; by rewrite Hc').
    destruct (decide (c = new)); [done|].
    destruct (decide (k0 = new)); [done|lia].
Qed.

Lemma below_rank T rank k j :
  (forall k t p cs c, T k = Some (t, p, cs) -> c ∈ cs -> (rank c < rank k)%nat) ->
  below T k j -> (rank j <= rank k)%nat.
Proof.
  intros Hrank. induction 1 as [|i t q cs j _ IH Hi Hj]; [done|].
  pose proof (Hrank _ _ _ _ _ Hi Hj). lia.
Qed.

(** The subtree of [k], a child of [p], taken out. *)
Lemma forest_on_remove seed T T' k p tk cs (R : list string) :
  forest_on seed T -> T k = Some (tk, Some p, cs) ->
  (forall j, j ∈ R <-> below T k j) ->
  (forall j, T' j = if decide (j ∈ R) then None
                    else if decide (j = p)
                         then (fun l : Link =>
                                 (l.1.1, l.1.2,
                                  filter (fun c => negb (String.eqb c k)) (l.2))) <$> T j
                         else T j) ->
  forest_on seed T'.
Proof.
  intros (H1 & H2 & H3 & (scs & H4) & H5 & rank & H6) Hk HR E.
  destruct (H2 _ _ _ _ Hk) as (tp & pp & pcs & Hp & Hkp).
  assert (k ∈ R) as HkR by (apply HR; constructor).
  assert (p ∉ R) as HpR.
  { intros Hin. apply HR in Hin. apply (below_rank _ rank) in Hin; [|done].
    pose proof (H6 _ _ _ _ _ Hp Hkp). lia. }
  assert (forall j, j ∈ R -> j <> k -> exists i t c, i ∈ R /\ T j = Some (t, Some i, c))
    as Hup.
  { intros j Hj Hjk. apply HR in Hj.
    destruct Hj as [|i t q c j Hi HTi Hin]; [done|].
    destruct (H1 _ _ _ _ _ HTi Hin) as (tc & cc & Hc).
    exists i, tc, cc. split; [by apply HR|done]. }
  assert (forall j t q c c', j ∈ R -> T j = Some (t, q, c) -> c' ∈ c -> c' ∈ R)
    as Hdown.
  { intros j t q c c' Hj HTj Hin. apply HR. eapply below_child; [|done..].
    by apply HR. }
  assert (forall c, c ∈ filter (fun c => negb (String.eqb c k)) pcs <-> c ∈ pcs /\ c <> k)
    as Hfilter.
  { intros c. rewrite list_elem_of_filter. split.
    - intros [Hb Hin]. split; [done|]. intros ->. by rewrite String.eqb_refl in Hb.
    - intros [Hin Hne]. split; [|done]. apply String.eqb_neq in Hne. by rewrite Hne. }
  assert (T' p = Some (tp, pp, filter (fun c => negb (String.eqb c k)) pcs)) as Ep.
  { rewrite E. rewrite decide_False by done. rewrite decide_True by done.
    by rewrite Hp. }
  assert (forall j, j ∉ R -> j <> p -> T' j = T j) as Eo.
  { intros j ? ?. rewrite E. rewrite decide_False by done.
    by rewrite decide_False by done. }
  (* an entry of [T'] is an entry of [T], with the same parent *)
  assert (forall j t q c, T' j = Some (t, q, c) ->
            (j ∉ R) /\ exists c0, T j = Some (t, q, c0)
                                /\ forall x, x ∈ c <-> x ∈ c0 /\ (j = p -> x <> k))
    as Hwas.
  { intros j t q c Hj. rewrite E in Hj. case_decide as HjR; [done|].
    split; [done|]. case_decide as Hjp.
    - subst j. rewrite Hp in Hj. cbn in Hj. simplify_eq. exists pcs.
      split; [done|]. intros x. rewrite Hfilter. split.
      + intros [? ?]. by split.
      + intros [? Hx]. split; [done|]. by apply Hx.
    - exists c. split; [done|]. intros x. split; [|by intros [? _]].
      intros ?. split; [done|]. by intros ->. }
  (* an entry of [T] outside [R] is an entry of [T'] *)
  assert (forall j t q c, T j = Some (t, q, c) -> j ∉ R ->
            exists c', T' j = Some (t, q, c')
                       /\ forall x, x ∈ c' <-> x ∈ c /\ (j = p -> x <> k))
    as His.
  { intros j t q c Hj HjR. destruct (decide (j = p)) as [->|Hjp].
    - rewrite Ep. simplify_eq. eexists. split; [done|].
      intros x. rewrite Hfilter. split.
      + intros [? ?]. by split.
      + intros [? Hx]. split; [done|]. by apply Hx.
    - rewrite Eo by done. exists c. split; [done|].
      intros x. split; [|by intros [? _]].
      intros ?. split; [done|]. by intros ->. }
  split; [|split; [|split; [|split; [|split]]]].
  - intros k0 t q cs0 c Hk0 Hc.
    destruct (Hwas _ _ _ _ Hk0) as (Hk0R & c0 & HTk0 & Hcs0).
    apply Hcs0 in Hc as [Hc Hck].
    destruct (H1 _ _ _ _ _ HTk0 Hc) as (tc & cc & HTc).
    assert (c ∉ R) as HcR.
    { intros HcR. destruct (decide (c = k)) as [->|Hne].
      - simplify_eq. by apply Hck.
      - destruct (Hup _ HcR Hne) as (i & ti & ci & HiR & HTc'). by simplify_eq. }
    destruct (His _ _ _ _ HTc HcR) as (c' & HTc' & _). by eauto.
  - intros k0 t q cs0 Hk0.
    destruct (Hwas _ _ _ _ Hk0) as (Hk0R & c0 & HTk0 & Hcs0).
    destruct (H2 _ _ _ _ HTk0) as (tq & qq & qcs & HTq & Hin).
    assert (q ∉ R) as HqR by (intros HqR; apply Hk0R; by eapply Hdown).
    destruct (His _ _ _ _ HTq HqR) as (c' & HTq' & Hc').
    eexists _, _, _. split; [done|]. apply Hc'. split; [done|].
    intros _ ->. done.
  - intros k0 t q cs0 Hk0. rewrite E in Hk0. case_decide; [done|]. case_decide.
    + subst k0. rewrite Hp in Hk0. cbn in Hk0. simplify_eq.
      apply NoDup_filter. by eauto.
    + by eauto.
  - assert (seed ∉ R) as HsR.
    { intros HsR. destruct (decide (seed = k)) as [->|Hne]; [by simplify_eq|].
      destruct (Hup _ HsR Hne) as (i & ti & ci & HiR & HTs). by simplify_eq. }
    destruct (His _ _ _ _ H4 HsR) as (c' & HTs' & _). by eauto.
  - intros k0 t cs0 Hk0.
    destruct (Hwas _ _ _ _ Hk0) as (Hk0R & c0 & HTk0 & Hcs0). by eauto.
  - exists rank. intros k0 t q cs0 c Hk0 Hc.
    destruct (Hwas _ _ _ _ Hk0) as (Hk0R & c0 & HTk0 & Hcs0).
    apply Hcs0 in Hc as [Hc _]. by eauto.
Qed.

(** ** The links after a step *)

Lemma link_of_set k v ns j :
  link_of (nodes_set k v ns) j = if decide (j = k) then Some (link v) else link_of ns j.
Proof.
  unfold link_of. rewrite nodes_get_set.
  destruct (String.eqb_spec k j) as [->|Hne].
  - by rewrite decide_True.
  - by rewrite decide_False by congruence.
Qed.

Lemma prim_links w w' j :
  prim w w' -> link_of (nodes (state w')) j = link_of (nodes (state w)) j.
Proof.
  intros H. destruct (prim_live _ _ j H) as [E|(n & us & Hn & Hn' & _ & Hu & _)].
  - unfold link_of. unfold live in E. by rewrite E.
  - unfold link_of. unfold live in Hn, Hn'. rewrite Hn, Hn'. cbn.
    destruct (system_update_keeps n us Hu) as (_ & Et & _ & Ep & Ec & _).
    unfold link. by rewrite Et, Ep, Ec.
Qed.

Lemma thicken_links k v w j :
  link_of (nodes (state (updateNode k [set_radius v] w))) j
  = link_of (nodes (state w)) j.
Proof.
  pose proof (updateNode_live k [set_radius v] w j) as E. unfold live in E.
  unfold link_of. rewrite E. destruct (String.eqb_spec k j) as [->|]; [|done].
  by destruct (nodes_get j (nodes (state w))).
Qed.

Lemma addNode_forest seed p t pos r w :
  struct_ok w ->
  forest_on seed (link_of (nodes (state w))) ->
  forest_on seed (link_of (nodes (state (after (addNode p t pos r w))))).
Proof.
  intros Hs Hf. pose proof (fresh_absent w Hs) as Hfresh. unfold live in Hfresh.
  destruct (addNode_cases p t pos r w)
    as [E|[(_ & s & E)|(parent & Hp & _ & En & _)]].
  { by rewrite E. }
  { by rewrite E. }
  unfold live in Hp.
  assert (node_name (nextId w) <> p) as Hne by congruence.
  assert (String.eqb (node_name (nextId w)) p = false) as Eb
    by by apply String.eqb_neq.
  rewrite Eb in En.
  eapply (forest_on_add seed _ _ p (node_name (nextId w)) t); [exact Hf| | |].
  - unfold link_of. rewrite Hp. reflexivity.
  - unfold link_of. by rewrite Hfresh.
  - intros j. rewrite En, !link_of_set.
    destruct (decide (j = p)) as [->|Hjp].
    + by rewrite decide_False by done.
    + done.
Qed.

Lemma reparent_links newId dir cs ns j :
  link_of (fold_left (reparent newId dir) cs ns) j
  = if decide (j ∈ cs)
    then (fun l : Link => (l.1.1, Some newId, l.2)) <$> link_of ns j
    else link_of ns j.
Proof.
  unfold link_of. destruct (nodes_get j ns) as [n|] eqn:Hj.
  - destruct (reparent_fold newId dir cs ns j n Hj)
      as (n' & -> & _ & Et & Ec & _ & _ & _ & _ & _ & _ & _ & Hin & Hout).
    case_decide as Hd.
    + cbn. unfold link. by rewrite Et, Ec, (Hin Hd).
    + by rewrite (Hout Hd).
  - rewrite (reparent_fold_None _ _ _ _ _ Hj). by case_decide.
Qed.

Lemma extendNode_forest seed k dir w :
  struct_ok w ->
  forest_on seed (link_of (nodes (state w))) ->
  forest_on seed (link_of (nodes (state (fst (extendNode k dir w))))).
Proof.
  intros Hs Hf. pose proof (fresh_absent w Hs) as Hfresh. unfold live in Hfresh.
  destruct (extendNode_cases k dir w) as [E|(node & Hk & _ & En & _)].
  { by rewrite E. }
  unfold live in Hk. cbv zeta in En.
  assert (node_name (nextId w) <> k) as Hne by congruence.
  pose proof Hf as (H1 & _ & _ & _ & _ & rank & H6).
  assert (link_of (nodes (state w)) k
          = Some (node_type node, parentId node, childrenIds node)) as HTk
    by (unfold link_of; by rewrite Hk).
  assert (k ∉ childrenIds node) as Hkcs
    by (intros Hin; pose proof (H6 _ _ _ _ _ HTk Hin); lia).
  eapply (forest_on_extend seed _ _ k (node_name (nextId w))); [exact Hf|exact HTk| |].
  - unfold link_of. by rewrite Hfresh.
  - intros j. rewrite En, link_of_set.
    destruct (decide (j = node_name (nextId w))) as [->|Hjn]; [done|].
    destruct (reparent_fold (node_name (nextId w)) dir (childrenIds node)
                (nodes (state w)) k node Hk)
      as (n' & Hn' & _ & _ & _ & _ & _ & _ & _ & _ & _ & _ & _ & Hout).
    rewrite Hn', (Hout Hkcs), link_of_set.
    destruct (decide (j = k)) as [->|Hjk]; [done|].
    apply reparent_links.
Qed.

(** More fuel does not change how [removeRecursive] ends. *)
Lemma removeRecursive_more fuel : forall id ns r,
  removeRecursive fuel id ns = Some r -> removeRecursive (S fuel) id ns = Some r.
Proof.
  induction fuel as [|fuel IH]; intros id ns r H.
  - simpl in H. simpl. by destruct (nodes_at id ns).
  - destruct (nodes_at id ns) as [n| |] eqn:Hid.
    2,3: simpl in H; rewrite Hid in H; simpl; by rewrite Hid.
    assert (forall cs acc r',
      fold_left (fun acc c => match acc with
                              | Some (Done x) => removeRecursive fuel c x
                              | _ => acc
                              end) cs acc = Some r' ->
      fold_left (fun acc c => match acc with
                              | Some (Done x) => removeRecursive (S fuel) c x
                              | _ => acc
                              end) cs acc = Some r') as Hfold.
    { induction cs as [|c cs IHcs]; intros acc r' Hr; [done|].
      cbn [fold_left] in Hr |- *. destruct acc as [[x|x]|]; [|by apply IHcs..].
      destruct (removeRecursive fuel c x) as [y|] eqn:Hy.
      - rewrite (IH _ _ _ Hy). by apply IHcs.
      - exfalso. clear -Hr. induction cs as [|c' cs IHc]; [done|]. by apply IHc. }
    change (removeRecursive (S fuel) id ns) with
      (match nodes_at id ns with
       | Undefined => Some (Done ns)
       | Builtin => Some (Broke ns)
       | Segment n =>
           match fold_left (fun acc c => match acc with
                                         | Some (Done x) => removeRecursive fuel c x
                                         | _ => acc
                                         end) (childrenIds n) (Some (Done ns)) with
           | Some (Done ns') => Some (Done (nodes_delete id ns'))
           | other => other
           end
       end) in H.
    change (removeRecursive (S (S fuel)) id ns) with
      (match nodes_at id ns with
       | Undefined => Some (Done ns)
       | Builtin => Some (Broke ns)
       | Segment n =>
           match fold_left (fun acc c => match acc with
                                         | Some (Done x) => removeRecursive (S fuel) c x
                                         | _ => acc
                                         end) (childrenIds n) (Some (Done ns)) with
           | Some (Done ns') => Some (Done (nodes_delete id ns'))
           | other => other
           end
       end).
    rewrite Hid in H |- *.
    destruct (fold_left _ (childrenIds n) (Some (Done ns))) as [r'|] eqn:Hf; [|done].
    by rewrite (Hfold _ _ _ Hf).
Qed.

Lemma removeRecursive_fuel fuel fuel' id ns r :
  (fuel <= fuel')%nat ->
  removeRecursive fuel id ns = Some r -> removeRecursive fuel' id ns = Some r.
Proof.
  induction 1 as [|fuel' _ IH]; [done|]. intros H.
  by apply removeRecursive_more, IH.
Qed.

Lemma in_subtree_below ns k j :
  (forall k t p cs c, link_of ns k = Some (t, p, cs) -> c ∈ cs ->
     exists tc cc, link_of ns c = Some (tc, Some k, cc)) ->
  is_Some (nodes_get k ns) ->
  in_subtree ns k j <-> below (link_of ns) k j.
Proof.
  intros H1 [nk Hk]. split.
  - induction 1 as [n Hn|i n c _ IH Hi Hc _]; [constructor|].
    eapply below_child; [exact IH| |exact Hc].
    unfold link_of. rewrite Hi. reflexivity.
  - induction 1 as [|i t q cs c _ IH Hi Hc]; [by eapply subtree_root|].
    unfold link_of in Hi. destruct (nodes_get i ns) as [n|] eqn:Hn; [|done].
    cbn in Hi. unfold link in Hi. simplify_eq.
    eapply subtree_child; [exact IH|exact Hn|exact Hc|].
    destruct (H1 i (node_type n) (parentId n) (childrenIds n) c) as (tc & cc & HTc);
      [unfold link_of; by rewrite Hn|done|].
    unfold link_of in HTc. by destruct (nodes_get c ns).
Qed.

(** In a well-formed forest no link is an inherited name. *)
Lemma forest_plain seed w :
  struct_ok w -> forest_on seed (link_of (nodes (state w))) ->
  plain (nodes (state w)).
Proof.
  intros (_ & _ & Hfresh) (H1 & H2 & _) k n Hk.
  assert (link_of (nodes (state w)) k = Some (node_type n, parentId n, childrenIds n))
    as HT by (unfold link_of; by rewrite Hk).
  assert (forall j l, link_of (nodes (state w)) j = Some l -> inherited j = false)
    as Hin.
  { intros j l Hj. unfold link_of in Hj.
    destruct (nodes_get j (nodes (state w))) eqn:E; [|done].
    destruct (Hfresh j) as (i & _ & ->); [by eapply nodes_get_Some_keys|].
    apply node_name_plain. }
  split.
  - intros p Hp. rewrite Hp in HT.
    destruct (H2 _ _ _ _ HT) as (tp & pp & pcs & HTp & _). by eapply Hin.
  - intros c Hc. destruct (H1 _ _ _ _ _ HT Hc) as (tc & cc & HTc). by eapply Hin.
Qed.

Lemma removeNode_forest seed fuel k w w' b :
  struct_ok w ->
  forest_on seed (link_of (nodes (state w))) ->
  removeNode fuel k w = Some (Returned w' b) ->
  forest_on seed (link_of (nodes (state w'))).
Proof.
  intros Hs Hf. pose proof (forest_plain seed w Hs Hf) as Hplain.
  destruct Hs as (Hwf & _ & Hfresh). unfold removeNode.
  set (ns := nodes (state w)) in *.
  destruct (nodes_at k ns) as [node| |] eqn:Hat; [|done|by intros [= <- <-]].
  apply nodes_at_Segment in Hat as Hk.
  pose proof Hf as (H1 & H2 & _ & (scs & H4) & H5 & rank & H6).
  assert (link_of ns k = Some (node_type node, parentId node, childrenIds node))
    as HTk by (unfold link_of; by rewrite Hk).
  destruct (NodeType_eqb (node_type node) SEED) eqn:Et.
  { destruct (node_type node); try done. by intros [= <- <-]. }
  destruct (parentId node) as [p|] eqn:Hpar.
  2: { pose proof (H5 _ _ _ HTk) as Hks. subst k. rewrite H4 in HTk.
       injection HTk as Ht _. by rewrite <- Ht in Et. }
  destruct (H2 _ _ _ _ HTk) as (tp & pp & pcs & HTp & Hkp).
  unfold link_of in HTp. destruct (nodes_get p ns) as [parent|] eqn:Hp; [|done].
  cbn in HTp. unfold link in HTp. simplify_eq.
  assert (truthy (Some p) = Some p) as ->.
  { destruct (Hfresh p) as (i & _ & ->); [by eapply nodes_get_Some_keys|].
    apply node_name_truthy. }
  cbv beta iota zeta. rewrite (nodes_at_Some _ _ _ Hp).
  set (ns1 := nodes_set p
                (assign_field parent
                   (set_childrenIds
                      (filter (fun c => negb (String.eqb c k)) (childrenIds parent))))
                ns).
  assert (ranked rank ns) as Hrank.
  { intros i n c Hi Hc _. apply (H6 i (node_type n) (parentId n) (childrenIds n));
      [unfold link_of; by rewrite Hi|done]. }
  destruct (detach_spec rank ns p parent k Hwf Hrank Hp ns1 eq_refl)
    as (Hwf1 & Hrank1 & _ & Hsome1 & Hsub1).
  pose proof (detach_plain ns p parent k Hplain Hp) as Hplain1. fold ns1 in Hplain1.
  intros Hrun.
  assert (exists ns2, removeRecursive fuel k ns1 = Some (Done ns2)
                      /\ w' = put_nodes w ns2)
    as (ns2 & Hrec & ->).
  { destruct (node_type node); [by cbn in Et|..].
      all: destruct (removeRecursive fuel k ns1) as [[ns2|ns2]|].
      all: try done.
      all: exists ns2; by simplify_eq. }
  destruct (removeRecursive_spec rank (fuel + S (rank k))%nat k ns1 Hwf1 Hrank1 Hplain1)
    as (ns' & removed & Hrec' & _ & _ & Hrem & Hget & _).
  { left. apply Hsome1. by eexists. }
  { left; lia. }
  rewrite (removeRecursive_fuel fuel (fuel + S (rank k)) _ _ _ ltac:(lia) Hrec)
    in Hrec'.
  simplify_eq. cbn [put_nodes with_state with_nodes state nodes].
  eapply (forest_on_remove seed _ _ k p _ _ removed); [exact Hf|exact HTk| |].
  - intros j. rewrite Hrem, Hsub1. apply in_subtree_below; [done|by eexists].
  - intros j. unfold link_of at 1. rewrite Hget. case_decide; [done|].
    fold (link_of ns1 j). unfold ns1. rewrite link_of_set.
    case_decide; [|done]. subst j. unfold link_of. by rewrite Hp.
Qed.

(** ** The plant of a run *)

Lemma edit_forest okr seed w w' :
  struct_ok w -> edit okr w w' ->
  forest_on seed (link_of (nodes (state w))) ->
  forest_on seed (link_of (nodes (state w'))).
Proof.
  intros Hs He Hf.
  destruct He as [w w' (En & _)|w p t pos r w' a Hr Hadd|w k dir|w fuel k w' b Hrm
                  |w k n Hk|w a b t s|w].
  - by rewrite En.
  - apply Returned_after in Hadd as ->. by apply addNode_forest.
  - by apply extendNode_forest.
  - by eapply removeNode_forest.
  - eapply forest_on_ext; [|exact Hf]. intros j. apply thicken_links.
  - by rewrite spawn_nodes.
  - done.
Qed.

Section Plant.

Variables (Math_sin Math_cos : Q -> Q) (Math_PI : Q).

(** The identifier of the seed is never reassigned. *)
Lemma tick_seedId w :
  seedId (state (tick Math_sin Math_cos Math_PI w)) = seedId (state w).
Proof.
  set (P := fun w' : World => seedId (state w') = seedId (state w)).
  change (P (tick Math_sin Math_cos Math_PI w)).
  apply frame_tick; unfold P; try done.
  - intros k us w' <-. unfold updateNode. by destruct (nodes_get _ _).
  - intros p t pos r w' <-. unfold addNode, generateId.
    repeat case_match; cbv zeta; repeat case_match; by simplify_eq.
  - intros k dir w' <-. unfold extendNode, generateId.
    repeat case_match; cbv zeta; repeat case_match; by simplify_eq.
  - intros a b t s w' <-. unfold spawnFlowParticle. by repeat case_match.
  - intros w' <-. unfold updateParticles. by destruct (filterParticles _ _ _).
Qed.

Lemma op_seedId okr w w' :
  op Math_sin Math_cos Math_PI okr w w' -> seedId (state w') = seedId (state w).
Proof.
  destruct 1; try done.
  - returned. unfold addNode, generateId.
    repeat case_match; cbv zeta; repeat case_match; by simplify_eq.
  - revert H. unfold removeNode. intros H. repeat case_match; by simplify_eq.
  - unfold extendNode, generateId.
    repeat case_match; cbv zeta; repeat case_match; by simplify_eq.
  - unfold spawnFlowParticle. by repeat case_match.
  - apply tick_seedId.
Qed.

Lemma initial_forest rnd : forest (initialWorld Math_PI rnd).
Proof.
  unfold forest. cbn [initialWorld resetState createInitialState generateId
    with_nextId with_state state nodes seedId nextId].
  set (s := node_name 1).
  assert (forall j t p cs,
            link_of [(s, {| node_id := s; node_type := SEED;
                            position := {| x := 0; y := 0 |};
                            parentId := None; childrenIds := [];
                            radius := CONFIG.SEED_RADIUS; structuralHealth := 1.0;
                            waterPressure := 0.5; sugarConcentration := 0.8;
                            sugarStore := CONFIG.INITIAL_SUGAR; isActive := true;
                            stressLevel := 0 |})] j = Some (t, p, cs) ->
            j = s /\ t = SEED /\ p = None /\ cs = []) as Hone.
  { intros j t p cs. unfold link_of. cbn [nodes_get].
    destruct (String.eqb_spec j s) as [->|]; [|done]. cbn. by intros [= <- <- <-]. }
  split; [|split; [|split; [|split; [|split]]]].
  - intros k t p cs c Hk Hc. apply Hone in Hk as (_ & _ & _ & ->).
    by apply elem_of_nil in Hc.
  - intros k t p cs Hk. by apply Hone in Hk as (_ & _ & ? & _).
  - intros k t p cs Hk. apply Hone in Hk as (_ & _ & _ & ->). apply NoDup_nil_2.
  - exists []. unfold link_of. cbn [nodes_get]. by rewrite String.eqb_refl.
  - intros k t cs Hk. by apply Hone in Hk as (? & _).
  - exists (fun _ => 0%nat). intros k t p cs c Hk Hc.
    apply Hone in Hk as (_ & _ & _ & ->). by apply elem_of_nil in Hc.
Qed.

Lemma reachable_forest okr w :
  reachable Math_sin Math_cos Math_PI okr w -> forest w.
Proof.
  intros H.
  assert (struct_ok w /\ forest w) as [_ ?]; [|done].
  induction H as [rnd|w w' _ [IHs IHf] Hop].
  - split; [apply initial_struct_ok|apply initial_forest].
  - unfold forest. rewrite (op_seedId _ _ _ Hop).
    apply (fun Hp He =>
             op_preserves Math_sin Math_cos Math_PI okr
               (fun v => forest_on (seedId (state w)) (link_of (nodes (state v))))
               Hp He w w' Hop IHs IHf).
    + intros a b Hab Ha. eapply forest_on_ext; [|exact Ha].
      intros j. by apply prim_links.
    + intros a b Hs Hab. by apply (edit_forest okr).
Qed.

Lemma reachable_tree okr w :
  reachable Math_sin Math_cos Math_PI okr w -> tree_shaped w.
Proof.
  intros Hr. destruct (reachable_forest _ _ Hr)
    as (H1 & H2 & H3 & (scs & H4) & H5 & rank & H6).
  assert (forall k n, live k w = Some n ->
            link_of (nodes (state w)) k
            = Some (node_type n, parentId n, childrenIds n)) as Hl.
  { intros k n Hk. unfold link_of. unfold live in Hk. by rewrite Hk. }
  assert (forall k t p cs, link_of (nodes (state w)) k = Some (t, p, cs) ->
            exists n, live k w = Some n /\ node_type n = t /\ parentId n = p
                      /\ childrenIds n = cs) as Hn.
  { intros k t p cs Hk. unfold link_of in Hk. unfold live.
    destruct (nodes_get k (nodes (state w))) as [n|]; [|done].
    cbn in Hk. unfold link in Hk. simplify_eq. by exists n. }
  split; [|split; [|split; [|split; [|split]]]].
  - intros k n c Hk Hc. destruct (H1 _ _ _ _ _ (Hl _ _ Hk) Hc) as (tc & cc & Hc').
    destruct (Hn _ _ _ _ Hc') as (m & Hm & _ & Hp & _). by exists m.
  - intros k n p Hk Hp. pose proof (Hl _ _ Hk) as Hk'. rewrite Hp in Hk'.
    destruct (H2 _ _ _ _ Hk') as (tp & pp & pcs & Hp' & Hin).
    destruct (Hn _ _ _ _ Hp') as (m & Hm & _ & _ & <-). by exists m.
  - intros k n Hk. by eapply H3, Hl.
  - destruct (Hn _ _ _ _ H4) as (s & Hs & Ht & Hp & _). by exists s.
  - intros k n Hk Hp. pose proof (Hl _ _ Hk) as Hk'. rewrite Hp in Hk'. by eapply H5.
  - exists rank. intros k n c Hk Hc. by eapply H6; [apply Hl|].
Qed.

(** X10.  In every world reached from the initial one by calls that
    return, the store is a tree hanging from the seed: every child a
    segment lists is in the store and names the segment as its parent; the
    parent a segment names is in the store and lists the segment among its
    children; no child is listed twice; the seed is in the store, has type
    [SEED] and is the one segment without a parent; and the child links go
    down a rank, so that no segment is its own descendant. *)
Theorem plant_is_a_tree okr w :
  reachable Math_sin Math_cos Math_PI okr w -> tree_shaped w.
Proof. apply reachable_tree. Qed.

End Plant.

(** * The graph helpers on the plant of a run *)

Lemma filter_length_lt {A} (P Q : A -> Prop) `{!forall a, Decision (P a)}
    `{!forall a, Decision (Q a)} (l : list A) a :
  (forall b, P b -> Q b) -> a ∈ l -> Q a -> ~ P a ->
  (length (filter P l) < length (filter Q l))%nat.
Proof.
  intros HPQ Hin HQ HP.
  assert (forall l', length (filter P l') <= length (filter Q l'))%nat as Hle.
  { induction l' as [|b l' IH]; [done|]. rewrite !filter_cons.
    destruct (decide (P b)) as [Hb|Hb].
    - rewrite decide_True by auto. cbn. lia.
    - destruct (decide (Q b)); cbn; lia. }
  induction l as [|b l IH]; [by apply elem_of_nil in Hin|].
  rewrite !filter_cons. apply elem_of_cons in Hin as [<-|Hin].
  - rewrite decide_False by done. rewrite decide_True by done.
    cbn. pose proof (Hle l). lia.
  - specialize (IH Hin). destruct (decide (P b)) as [Hb|Hb].
    + rewrite decide_True by auto. cbn. lia.
    + destruct (decide (Q b)); cbn; lia.
Qed.

(** The ranks of a tree can be taken below the number of its nodes. *)
Lemma forest_rank seed (ns : Nodes) :
  forest_on seed (link_of ns) ->
  exists rank : string -> nat,
    (forall k t p cs c, link_of ns k = Some (t, p, cs) -> c ∈ cs ->
       (rank c < rank k)%nat)
    /\ forall k, is_Some (nodes_get k ns) -> (rank k < length ns)%nat.
Proof.
  intros (H1 & _ & _ & _ & _ & rank & H6).
  exists (fun k => length (filter (fun j => (rank j < rank k)%nat) (nodes_keys ns))).
  split.
  - intros k t p cs c Hk Hc. pose proof (H6 _ _ _ _ _ Hk Hc) as Hlt.
    destruct (H1 _ _ _ _ _ Hk Hc) as (tc & cc & HTc).
    apply (filter_length_lt _ _ _ c); [intros; lia| |done|lia].
    unfold link_of in HTc. destruct (nodes_get c ns) eqn:E; [|done].
    by eapply nodes_get_Some_keys.
  - intros k [n Hk].
    replace (length ns) with (length (filter (fun _ => True) (nodes_keys ns))).
    + apply (filter_length_lt _ _ _ k); [done| |done|lia].
      by eapply nodes_get_Some_keys.
    + unfold nodes_keys. rewrite <- (length_map fst ns). f_equal.
      induction (map fst ns) as [|a l IH]; [done|].
      rewrite filter_cons, decide_True by done. by rewrite IH.
Qed.

Lemma climb_more fuel s : forall current l,
  climb fuel s current = Some l -> climb (S fuel) s current = Some l.
Proof.
  induction fuel as [|fuel IH]; intros [c|] l H; try done.
  change (climb (S (S fuel)) s (Some c))
    with (cons c <$> climb (S fuel) s (getParent s c)).
  change (climb (S fuel) s (Some c))
    with (cons c <$> climb fuel s (getParent s c)) in H.
  destruct (climb fuel s (getParent s c)) as [l'|] eqn:E; [|done].
  by rewrite (IH _ _ E).
Qed.

Lemma climb_fuel fuel fuel' s current l :
  (fuel <= fuel')%nat -> climb fuel s current = Some l -> climb fuel' s current = Some l.
Proof.
  induction 1 as [|fuel' _ IH]; [done|]. intros H. by apply climb_more, IH.
Qed.

Section Family.

Variables (Math_sin Math_cos : Q -> Q) (Math_PI : Q).
Variable okr : Q -> Prop.
Variable w : World.
Hypothesis Hreach : reachable Math_sin Math_cos Math_PI okr w.

Lemma key_truthy k n : live k w = Some n -> truthy (Some k) = Some k.
Proof.
  intros Hk. destruct (reachable_struct_ok _ _ _ _ _ Hreach) as (_ & _ & Hfresh).
  destruct (Hfresh k) as (i & _ & ->); [by eapply nodes_get_Some_keys|].
  apply node_name_truthy.
Qed.

Lemma getParent_Some m n :
  getParent (state w) m = Some n <-> exists p, parentId m = Some p /\ live p w = Some n.
Proof.
  unfold getParent, truthy, live. split.
  - destruct (parentId m) as [p|]; [|done].
    destruct (String.eqb p ""); [done|]. by exists p.
  - intros (p & -> & Hp). pose proof (key_truthy _ _ Hp) as E.
    unfold truthy in E. destruct (String.eqb p ""); [done|]. done.
Qed.

(** X11.  In a world reached from the initial one, [getParent] and
    [getChildren] are inverse to each other on the segments of the store:
    the parent of [m] is [n] exactly if [m] is one of the children of
    [n]; and [getChildren] returns a segment for every child listed. *)
Theorem getParent_getChildren k n c m :
  live k w = Some n -> live c w = Some m ->
  (getParent (state w) m = Some n <-> (c, m) ∈ getChildren (state w) n)
  /\ length (getChildren (state w) n) = length (childrenIds n).
Proof using Hreach.
  intros Hk Hc.
  destruct (reachable_struct_ok _ _ _ _ _ Hreach) as (_ & Hids & _).
  destruct (reachable_tree _ _ _ _ _ Hreach) as (H1 & H2 & _).
  assert ((c, m) ∈ getChildren (state w) n <-> c ∈ childrenIds n) as Hch.
  { unfold getChildren. rewrite list_elem_of_omap. split.
    - intros (x & Hx & E). unfold live in Hc.
      destruct (nodes_get x (nodes (state w))); by simplify_eq.
    - intros Hin. exists c. split; [done|]. unfold live in Hc. by rewrite Hc. }
  split.
  - rewrite Hch, getParent_Some. split.
    + intros (p & Hp & Hn). destruct (H2 _ _ _ Hc Hp) as (n' & Hn' & Hin).
      by simplify_eq.
    + intros Hin. destruct (H1 _ _ _ Hk Hin) as (m' & Hm' & Hp).
      simplify_eq. by exists k.
  - unfold getChildren. pose proof (fun c => H1 k n c Hk) as Hall. revert Hall.
    clear Hch.
    induction (childrenIds n) as [|x l IH]; intros Hall; [done|].
    cbn [omap list_omap length].
    destruct (Hall x (list_elem_of_here _ _)) as (m' & Hm' & _). unfold live in Hm'.
    rewrite Hm'. cbn. f_equal. apply IH. intros y Hy.
    by apply Hall, list_elem_of_further.
Qed.

(** Climbing from a segment of the store ends at the seed. *)
Lemma climb_to_seed (rank : string -> nat) :
  (forall k n c, live k w = Some n -> c ∈ childrenIds n -> (rank c < rank k)%nat) ->
  (forall k, is_Some (live k w) -> (rank k < nodes_count (nodes (state w)))%nat) ->
  forall fuel k n,
    live k w = Some n ->
    (nodes_count (nodes (state w)) - rank k <= fuel)%nat ->
    exists l,
      climb fuel (state w) (Some n) = Some l
      /\ last l = live (seedId (state w)) w
      /\ Forall (fun a => live (node_id a) w = Some a) l
      /\ (length l <= nodes_count (nodes (state w)) - rank k)%nat.
Proof using Hreach.
  intros Hrank Hbound.
  destruct (reachable_struct_ok _ _ _ _ _ Hreach) as (_ & Hids & _).
  destruct (reachable_tree _ _ _ _ _ Hreach) as (_ & H2 & _ & (s & Hs & _) & H5 & _).
  induction fuel as [|fuel IH]; intros k n Hk Hfuel.
  { pose proof (Hbound k ltac:(by eexists)). lia. }
  pose proof (Hbound k ltac:(by eexists)) as Hkb.
  change (climb (S fuel) (state w) (Some n))
    with (cons n <$> climb fuel (state w) (getParent (state w) n)).
  assert (live (node_id n) w = Some n) as Hself by (by rewrite (Hids _ _ Hk)).
  destruct (parentId n) as [p|] eqn:Hp.
  - destruct (H2 _ _ _ Hk Hp) as (pn & Hpn & Hin).
    assert (getParent (state w) n = Some pn) as -> by (apply getParent_Some; by exists p).
    pose proof (Hrank _ _ _ Hpn Hin) as Hlt.
    destruct (IH p pn Hpn ltac:(lia)) as (l & -> & Hlast & Hall & Hlen).
    exists (n :: l). split; [done|]. split; [|split].
    + rewrite last_cons, Hlast. destruct (live (seedId (state w)) w) eqn:E; [done|].
      congruence.
    + by apply Forall_cons.
    + cbn [length]. pose proof (Hbound p ltac:(by eexists)). lia.
  - assert (getParent (state w) n = None) as ->.
    { unfold getParent. by rewrite Hp. }
    pose proof (H5 _ _ Hk Hp) as ->.
    destruct fuel; (exists [n]; split; [done|]; split; [by rewrite Hk|]; split;
      [by apply Forall_singleton|cbn [length]; lia]).
Qed.

Lemma ancestors_spec k n :
  live k w = Some n ->
  exists l,
    (forall fuel, (nodes_count (nodes (state w)) <= fuel)%nat ->
       getAncestors fuel (state w) n = Some l)
    /\ (length l < nodes_count (nodes (state w)))%nat
    /\ (k = seedId (state w) -> l = [])
    /\ (k <> seedId (state w) -> last l = live (seedId (state w)) w)
    /\ Forall (fun a => live (node_id a) w = Some a) l.
Proof using Hreach.
  intros Hk.
  pose proof (reachable_forest _ _ _ _ _ Hreach) as Hf.
  destruct (forest_rank _ _ Hf) as (rank & Hr1 & Hr2).
  assert (forall k n c, live k w = Some n -> c ∈ childrenIds n -> (rank c < rank k)%nat)
    as Hrank.
  { intros k0 n0 c Hk0 Hc. eapply Hr1; [|done]. unfold link_of. unfold live in Hk0.
    rewrite Hk0. reflexivity. }
  destruct (reachable_tree _ _ _ _ _ Hreach) as (_ & H2 & _ & (s & Hs & _ & Hsp) & H5 & _).
  pose proof (Hr2 k ltac:(by eexists)) as Hkb.
  unfold getAncestors. destruct (parentId n) as [p|] eqn:Hp.
  - destruct (H2 _ _ _ Hk Hp) as (pn & Hpn & Hin).
    assert (getParent (state w) n = Some pn) as -> by (apply getParent_Some; by exists p).
    pose proof (Hrank _ _ _ Hpn Hin) as Hlt.
    destruct (climb_to_seed rank Hrank Hr2 (nodes_count (nodes (state w))) p pn Hpn
                ltac:(lia)) as (l & Hl & Hlast & Hall & Hlen).
    exists l. split; [|split; [|split; [|split]]]; try done.
    + intros fuel Hfuel. by eapply climb_fuel.
    + pose proof (Hr2 p ltac:(by eexists)). unfold nodes_count in *. lia.
    + intros ->. congruence.
  - assert (getParent (state w) n = None) as ->.
    { unfold getParent. by rewrite Hp. }
    exists []. split; [|split; [|split; [|split]]]; try done.
    + by intros [|fuel].
    + cbn [length]. unfold nodes_count in *. lia.
    + intros Hne. by pose proof (H5 _ _ Hk Hp).
Qed.

(** X12.  In a world reached from the initial one by calls that return,
    [getAncestors] on a segment of the store ends within as many rounds as
    there are segments, and climbs to the seed:
    the ancestors of the seed are none, those of another segment end with
    the seed; each of them is a segment of the store, and there are fewer
    of them than segments. *)
Theorem getAncestors_reach_seed k n :
  live k w = Some n ->
  exists l,
    (forall fuel, (nodes_count (nodes (state w)) <= fuel)%nat ->
       getAncestors fuel (state w) n = Some l)
    /\ (length l < nodes_count (nodes (state w)))%nat
    /\ (k = seedId (state w) -> l = [])
    /\ (k <> seedId (state w) -> last l = live (seedId (state w)) w)
    /\ Forall (fun a => live (node_id a) w = Some a) l.
Proof using Hreach. apply ancestors_spec. Qed.

(** X25.  In a world reached from the initial one, the ancestors of a
    child are its parent followed by the ancestors of the parent, so that
    [getDepth] of a child is one more than that of its parent. *)
Theorem getDepth_child k n c m :
  live k w = Some n -> live c w = Some m -> c ∈ childrenIds n ->
  exists l,
    forall fuel, (nodes_count (nodes (state w)) <= fuel)%nat ->
      getAncestors fuel (state w) n = Some l
      /\ getAncestors fuel (state w) m = Some (n :: l)
      /\ getDepth fuel (state w) n = Some (length l)
      /\ getDepth fuel (state w) m = Some (S (length l)).
Proof using Hreach.
  intros Hk Hc Hin.
  destruct (reachable_tree _ _ _ _ _ Hreach) as (H1 & _).
  destruct (H1 _ _ _ Hk Hin) as (m' & Hm' & Hpar). simplify_eq.
  assert (getParent (state w) m = Some n) as Hp by (apply getParent_Some; by exists k).
  destruct (ancestors_spec k n Hk) as (l & Hl & _).
  destruct (ancestors_spec c m Hc) as (lm & Hlm & _).
  assert (lm = n :: l) as ->.
  { pose proof (Hlm (S (nodes_count (nodes (state w)))) ltac:(lia)) as E.
    unfold getAncestors in E. rewrite Hp in E.
    change (climb (S (nodes_count (nodes (state w)))) (state w) (Some n))
      with (cons n <$> getAncestors (nodes_count (nodes (state w))) (state w) n) in E.
    rewrite (Hl (nodes_count (nodes (state w))) ltac:(lia)) in E.
    cbn in E. by simplify_eq. }
  exists l. intros fuel Hfuel. unfold getDepth.
  by rewrite (Hl _ Hfuel), (Hlm _ Hfuel).
Qed.

End Family.

(** ** The traversal of the plant *)

Lemma traversePreOrder_more fuel s : forall node l,
  traversePreOrder fuel s node = Some l -> traversePreOrder (S fuel) s node = Some l.
Proof.
  induction fuel as [|fuel IH]; intros node l H; [done|].
  change (traversePreOrder (S (S fuel)) s node)
    with (fold_left
            (fun acc child =>
               match acc with
               | Some visited =>
                   (fun l => visited ++ l) <$> traversePreOrder (S fuel) s (snd child)
               | None => None
               end) (getChildren s node) (Some [node])).
  change (traversePreOrder (S fuel) s node)
    with (fold_left
            (fun acc child =>
               match acc with
               | Some visited =>
                   (fun l => visited ++ l) <$> traversePreOrder fuel s (snd child)
               | None => None
               end) (getChildren s node) (Some [node])) in H.
  revert H. generalize (Some [node]). generalize (getChildren s node).
  induction l0 as [|child cs IHcs]; intros acc Hr; [done|].
  cbn [fold_left] in *. destruct acc as [visited|].
  - destruct (traversePreOrder fuel s (snd child)) as [lc|] eqn:Hc.
    + rewrite (IH _ _ Hc). by apply IHcs.
    + exfalso. cbn in Hr. clear -Hr. induction cs as [|c' cs IHc]; [done|].
      by apply IHc.
  - exfalso. clear -Hr. induction cs as [|c' cs IHc]; [done|]. by apply IHc.
Qed.

Lemma traversePreOrder_fuel fuel fuel' s node l :
  (fuel <= fuel')%nat ->
  traversePreOrder fuel s node = Some l -> traversePreOrder fuel' s node = Some l.
Proof.
  induction 1 as [|fuel' _ IH]; [done|]. intros H.
  by apply traversePreOrder_more, IH.
Qed.

Section Traversal.

Variables (Math_sin Math_cos : Q -> Q) (Math_PI : Q).
Variable okr : Q -> Prop.
Variable w : World.
Hypothesis Hreach : reachable Math_sin Math_cos Math_PI okr w.

Variable rank : string -> nat.
Hypothesis Hrank : forall k n c,
  live k w = Some n -> c ∈ childrenIds n -> (rank c < rank k)%nat.

Lemma rank_ranked : ranked rank (nodes (state w)).
Proof using Hrank. intros k n c Hk Hc _. by eapply Hrank. Qed.

(** Two nodes above the same node lie one above the other. *)
Lemma in_subtree_comparable a b j :
  in_subtree (nodes (state w)) a j -> in_subtree (nodes (state w)) b j ->
  in_subtree (nodes (state w)) a b \/ in_subtree (nodes (state w)) b a.
Proof using Hreach.
  destruct (reachable_tree _ _ _ _ _ Hreach) as (H1 & _).
  intros Ha. revert b. induction Ha as [n Hn|i n c Hai IH Hi Hc Hp]; intros b Hb.
  - by right.
  - inversion Hb as [nb Hnb|i' n' c' Hbi' Hi' Hc' Hp']; subst.
    + left. by eapply subtree_child.
    + destruct (H1 _ _ _ Hi Hc) as (m & Hm & Hpar).
      destruct (H1 _ _ _ Hi' Hc') as (m' & Hm' & Hpar').
      assert (i' = i) as -> by congruence.
      by apply IH.
Qed.

(** The subtrees of two children of a segment share no node. *)
Lemma siblings_disjoint p c1 c2 m1 m2 j :
  live c1 w = Some m1 -> parentId m1 = Some p ->
  live c2 w = Some m2 -> parentId m2 = Some p -> c1 <> c2 ->
  in_subtree (nodes (state w)) c1 j -> in_subtree (nodes (state w)) c2 j -> False.
Proof using Hreach Hrank.
  destruct (reachable_tree _ _ _ _ _ Hreach) as (H1 & H2 & _).
  assert (forall a b ma mb,
            live a w = Some ma -> parentId ma = Some p ->
            live b w = Some mb -> parentId mb = Some p -> a <> b ->
            in_subtree (nodes (state w)) a b -> False) as Hone.
  { intros a b ma mb Ha Hpa Hb Hpb Hne Hab.
    inversion Hab as [n Hn|i n c Hai Hi Hc Hp]; subst; [done|].
    destruct (H1 _ _ _ Hi Hc) as (m & Hm & Hpar).
    assert (i = p) as -> by congruence.
    pose proof (rank_le rank _ _ _ rank_ranked Hai) as Hle.
    destruct (H2 _ _ _ Ha Hpa) as (pn & Hpn & Hin).
    pose proof (Hrank _ _ _ Hpn Hin). lia. }
  intros Hc1 Hp1 Hc2 Hp2 Hne Hj1 Hj2.
  destruct (in_subtree_comparable _ _ _ Hj1 Hj2) as [H|H].
  - by eapply (Hone c1 c2).
  - by eapply (Hone c2 c1).
Qed.

(** The loop over the children in [traversePreOrder]. *)
Lemma visit_children fuel k :
  (forall c m, live c w = Some m -> (rank c < fuel)%nat ->
     exists l, traversePreOrder fuel (state w) m = Some l
               /\ NoDup (map node_id l)
               /\ forall a, a ∈ l <-> exists j, in_subtree (nodes (state w)) c j
                                               /\ live j w = Some a) ->
  forall cs acc,
    (forall c, c ∈ cs -> exists m, live c w = Some m /\ parentId m = Some k) ->
    (forall c, c ∈ cs -> (rank c < fuel)%nat) ->
    NoDup cs -> NoDup (map node_id acc) ->
    (forall a c j, a ∈ acc -> c ∈ cs -> in_subtree (nodes (state w)) c j ->
       node_id a <> j) ->
    exists l,
      fold_left
        (fun acc child =>
           match acc with
           | Some visited =>
               (fun l => visited ++ l) <$> traversePreOrder fuel (state w) (snd child)
           | None => None
           end)
        (omap (fun c => match nodes_get c (nodes (state w)) with
                        | Some n => Some (c, n)
                        | None => None
                        end) cs)
        (Some acc) = Some l
      /\ NoDup (map node_id l)
      /\ forall a, a ∈ l <-> a ∈ acc
                             \/ exists c j, c ∈ cs /\ in_subtree (nodes (state w)) c j
                                           /\ live j w = Some a.
Proof using Hreach Hrank.
  intros IHf.
  destruct (reachable_struct_ok _ _ _ _ _ Hreach) as (_ & Hids & _).
  induction cs as [|c rest IH]; intros acc Hkids Hfuel Hnd Hacc Hout.
  { exists acc. split; [done|]. split; [done|]. intros a. split; [by left|].
    intros [?|(c & j & Hc & _)]; [done|]. by apply elem_of_nil in Hc. }
  destruct (Hkids c (list_elem_of_here _ _)) as (m & Hm & Hpm).
  cbn [omap list_omap]. unfold live in Hm. rewrite Hm. cbn [fold_left snd].
  destruct (IHf c m Hm (Hfuel c (list_elem_of_here _ _))) as (lc & -> & Hndc & Hlc).
  cbn [fmap option_fmap option_map].
  apply NoDup_cons in Hnd as [Hc Hnd].
  destruct (IH (acc ++ lc)) as (l & Hl & Hndl & Hmem).
  - intros c' Hc'. by apply Hkids, list_elem_of_further.
  - intros c' Hc'. by apply Hfuel, list_elem_of_further.
  - done.
  - rewrite map_app. apply NoDup_app. split; [done|]. split; [|done].
    intros x Hx Hx'.
    apply (list_elem_of_fmap_1 node_id) in Hx as (a & -> & Ha).
    apply (list_elem_of_fmap_1 node_id) in Hx' as (a' & Ex & Ha').
    apply Hlc in Ha' as (j & Hj & Hlive).
    apply (Hout a c j Ha (list_elem_of_here _ _) Hj).
    rewrite Ex. by apply Hids in Hlive.
  - intros a c' j Ha Hc' Hj. apply elem_of_app in Ha as [Ha|Ha].
    + by apply (Hout a c' j Ha (list_elem_of_further _ _ _ Hc')).
    + apply Hlc in Ha as (j0 & Hj0 & Hlive). rewrite (Hids _ _ Hlive).
      intros ->.
      destruct (Hkids c' (list_elem_of_further _ _ _ Hc')) as (m' & Hm' & Hpm').
      apply (siblings_disjoint k c c' m m' j); try done. by intros ->.
  - exists l. split; [done|]. split; [done|]. intros a. rewrite Hmem, elem_of_app.
    split.
    + intros [[Ha|Ha]|(c' & j & Hc' & Hj & Hlive)].
      * by left.
      * right. apply Hlc in Ha as (j & Hj & Hlive). exists c, j.
        split; [apply list_elem_of_here|done].
      * right. exists c', j. split; [by apply list_elem_of_further|done].
    + intros [Ha|(c' & j & Hc' & Hj & Hlive)]; [by left; left|].
      apply elem_of_cons in Hc' as [->|Hc'].
      * left. right. apply Hlc. by exists j.
      * right. by exists c', j.
Qed.

(** A traversal from a segment visits the segments of its subtree, each
    once. *)
Lemma traverse_subtree : forall fuel k n,
  live k w = Some n -> (rank k < fuel)%nat ->
  exists l, traversePreOrder fuel (state w) n = Some l
            /\ NoDup (map node_id l)
            /\ forall a, a ∈ l <-> exists j, in_subtree (nodes (state w)) k j
                                            /\ live j w = Some a.
Proof using Hreach Hrank.
  destruct (reachable_struct_ok _ _ _ _ _ Hreach) as (_ & Hids & _).
  destruct (reachable_tree _ _ _ _ _ Hreach) as (H1 & _ & H3 & _).
  induction fuel as [|fuel IH]; intros k n Hk Hfuel; [lia|].
  change (traversePreOrder (S fuel) (state w) n)
    with (fold_left
            (fun acc child =>
               match acc with
               | Some visited =>
                   (fun l => visited ++ l) <$> traversePreOrder fuel (state w) (snd child)
               | None => None
               end) (getChildren (state w) n) (Some [n])).
  unfold getChildren.
  destruct (visit_children fuel k IH (childrenIds n) [n]) as (l & Hl & Hnd & Hmem).
  - intros c Hc. by apply (H1 k n).
  - intros c Hc. pose proof (Hrank _ _ _ Hk Hc). lia.
  - by eapply H3.
  - apply NoDup_singleton.
  - intros a c j Ha Hc Hj. apply list_elem_of_singleton in Ha as ->.
    rewrite (Hids _ _ Hk). intros <-.
    pose proof (rank_le rank _ _ _ rank_ranked Hj).
    pose proof (Hrank _ _ _ Hk Hc). lia.
  - exists l. split; [done|]. split; [done|]. intros a. rewrite Hmem. split.
    + intros [Ha|(c & j & Hc & Hj & Hlive)].
      * apply list_elem_of_singleton in Ha as ->. exists k.
        split; [by eapply subtree_root|done].
      * exists j. split; [|done].
        eapply in_subtree_trans; [|exact Hj].
        eapply subtree_child; [by eapply subtree_root|exact Hk|exact Hc|].
        by eapply in_subtree_root_present.
    + intros (j & Hj & Hlive).
      destruct (in_subtree_first _ _ _ _ Hk Hj) as [->|(c & Hc & Hcj)].
      * left. apply list_elem_of_singleton. unfold live in *. congruence.
      * right. by exists c, j.
Qed.

End Traversal.

Lemma values_NoDup w : struct_ok w -> NoDup (map snd (nodes (state w))).
Proof.
  intros (Hwf & Hids & _). apply (NoDup_fmap_1 node_id).
  replace (node_id <$> map snd (nodes (state w))) with (nodes_keys (nodes (state w)));
    [done|].
  unfold nodes_keys. rewrite <- list_fmap_compose. apply list_fmap_ext.
  intros i [k n] Hi. cbn. symmetry. apply Hids.
  rewrite nodes_get_elem by done. by eapply list_elem_of_lookup_2.
Qed.

Lemma value_elem w a :
  struct_ok w -> a ∈ map snd (nodes (state w)) <-> exists j, live j w = Some a.
Proof.
  intros Hs. split.
  - intros Ha. exists (node_id a). by apply value_live.
  - intros (j & Hj). destruct Hs as (Hwf & _). unfold live in Hj.
    rewrite nodes_get_elem in Hj by done.
    apply list_elem_of_fmap. by exists (j, a).
Qed.

Section Rooted.

Variables (Math_sin Math_cos : Q -> Q) (Math_PI : Q).
Variable okr : Q -> Prop.
Variable w : World.
Hypothesis Hreach : reachable Math_sin Math_cos Math_PI okr w.

(** Every segment lies below the seed. *)
Lemma below_seed k n :
  live k w = Some n -> in_subtree (nodes (state w)) (seedId (state w)) k.
Proof using Hreach.
  pose proof (reachable_forest _ _ _ _ _ Hreach) as Hf.
  destruct (forest_rank _ _ Hf) as (rank & Hr1 & Hr2).
  destruct (reachable_tree _ _ _ _ _ Hreach) as (_ & H2 & _ & (s & Hs & _) & H5 & _).
  assert (forall d k n, (length (nodes (state w)) - rank k <= d)%nat ->
            live k w = Some n ->
            in_subtree (nodes (state w)) (seedId (state w)) k) as Hall.
  { induction d as [|d IH]; intros k0 n0 Hd Hk0.
    { pose proof (Hr2 k0 ltac:(by eexists)). lia. }
    destruct (parentId n0) as [p|] eqn:Hp.
    - destruct (H2 _ _ _ Hk0 Hp) as (pn & Hpn & Hin).
      assert (rank k0 < rank p)%nat as Hlt.
      { eapply Hr1; [|exact Hin]. unfold link_of. unfold live in Hpn.
        rewrite Hpn. reflexivity. }
      pose proof (Hr2 p ltac:(by eexists)).
      eapply subtree_child; [apply (IH p pn); [lia|done]|exact Hpn|exact Hin|].
      by eexists.
    - rewrite (H5 _ _ Hk0 Hp). by eapply subtree_root. }
  intros Hk. by eapply (Hall _ k n).
Qed.

(** X13.  In a world reached from the initial one by calls that return,
    the pre-order traversal from the seed ends within a depth of as many
    calls as there are segments, and it visits every segment of the store
    exactly once. *)
Theorem traversePreOrder_visits_all :
  exists s l,
    live (seedId (state w)) w = Some s
    /\ (forall fuel, (nodes_count (nodes (state w)) <= fuel)%nat ->
          traversePreOrder fuel (state w) s = Some l)
    /\ l ≡ₚ map snd (nodes (state w)).
Proof using Hreach.
  pose proof (reachable_struct_ok _ _ _ _ _ Hreach) as Hs.
  pose proof (reachable_forest _ _ _ _ _ Hreach) as Hf.
  destruct (forest_rank _ _ Hf) as (rank & Hr1 & Hr2).
  assert (forall k n c, live k w = Some n -> c ∈ childrenIds n -> (rank c < rank k)%nat)
    as Hrank.
  { intros k0 n0 c Hk0 Hc. eapply Hr1; [|done]. unfold link_of. unfold live in Hk0.
    rewrite Hk0. reflexivity. }
  destruct (reachable_tree _ _ _ _ _ Hreach) as (_ & _ & _ & (s & Hseed & _) & _).
  destruct (traverse_subtree _ _ _ _ _ Hreach rank Hrank
              (nodes_count (nodes (state w))) _ s Hseed)
    as (l & Hl & Hnd & Hmem); [apply Hr2; by eexists|].
  exists s, l. split; [done|]. split.
  - intros fuel Hfuel. by eapply traversePreOrder_fuel.
  - apply NoDup_Permutation.
    + by eapply NoDup_fmap_1.
    + by apply values_NoDup.
    + intros a. rewrite Hmem, value_elem by done. split.
      * intros (j & _ & Hj). by exists j.
      * intros (j & Hj). exists j. split; [by eapply below_seed|done].
Qed.

End Rooted.

(** * The figures for the display *)

Lemma countNode_fold l : forall st,
  let st' := fold_left countNode l st in
  (healthyNodes st' + stressedNodes st' + deadNodes st'
   = healthyNodes st + stressedNodes st + deadNodes st + length l)%nat
  /\ deadNodes st'
     = (deadNodes st + length (filter (fun n => isActive n = false) l))%nat
  /\ totalPhotosynthesis st' = totalPhotosynthesis st
  /\ totalRespiration st' = totalRespiration st.
Proof.
  induction l as [|n l IH]; intros st; cbn zeta; cbn [fold_left].
  { cbn. repeat split; lia. }
  destruct (IH (countNode st n)) as (E1 & E2 & E3 & E4). cbv zeta in E1, E2, E3, E4.
  rewrite E1, E2, E3, E4, filter_cons. clear E1 E2 E3 E4.
  unfold countNode. destruct (isActive n) eqn:Ea; cbn [negb].
  - rewrite decide_False by done.
    destruct (Qltb 0.5 (stressLevel n)); cbn; repeat split; lia.
  - rewrite decide_True by done. cbn. repeat split; lia.
Qed.

(** X14.  The figures of [getMetabolismStats]: the healthy, the stressed
    and the dead segments add up to the number of segments, the dead ones
    are the inactive ones, and the totals of photosynthesis and
    respiration are always reported as 0. *)
Theorem getMetabolismStats_partition w :
  let st := getMetabolismStats w in
  (healthyNodes st + stressedNodes st + deadNodes st
   = nodes_count (nodes (state w)))%nat
  /\ deadNodes st
     = length (filter (fun n => isActive n = false) (map snd (nodes (state w))))
  /\ totalPhotosynthesis st = 0
  /\ totalRespiration st = 0.
Proof.
  unfold getMetabolismStats. cbv zeta.
  destruct (countNode_fold (map snd (nodes (state w)))
              {| totalPhotosynthesis := 0; totalRespiration := 0;
                 healthyNodes := 0; stressedNodes := 0; deadNodes := 0 |})
    as (E1 & E2 & E3 & E4).
  cbv zeta in E1, E2, E3, E4. rewrite E1, E2, E3, E4. cbn.
  rewrite length_map. by unfold nodes_count.
Qed.

Lemma sap_partition (ps : list FlowParticle) :
  (length (filter (fun p => SapType_eqb (sap p) xylem) ps)
   + length (filter (fun p => SapType_eqb (sap p) phloem) ps) = length ps)%nat.
Proof.
  induction ps as [|p ps IH]; [done|]. rewrite !filter_cons.
  destruct (sap p); repeat case_decide; cbn in *; try done; lia.
Qed.

Lemma pressure_total (l : list PlantNode) : forall p s,
  Forall (fun n => 0 <= waterPressure n <= 1) l ->
  let r := fold_left (fun '(p, s) node => (p + waterPressure node, s + sugarStore node))
             l (p, s) in
  p <= r.1 <= p + nat_Q (length l).
Proof.
  induction l as [|n l IH]; intros p s Hall; cbn zeta; cbn [fold_left length].
  { cbn [fst]. change (nat_Q 0) with 0. lra. }
  apply Forall_cons in Hall as [Hn Hall].
  specialize (IH (p + waterPressure n) (s + sugarStore n) Hall). cbv zeta in IH.
  rewrite nat_Q_succ. lra.
Qed.

Section Display.

Variables (Math_sin Math_cos : Q -> Q) (Math_PI : Q).

Lemma reachable_world_num w :
  reachable Math_sin Math_cos Math_PI (fun v => 0 < v) w -> world_num w.
Proof.
  induction 1 as [rnd|w w' Hr IH Hop]; [apply initial_world_num|].
  eapply op_world_num; [|exact Hop|exact IH].
  by eapply reachable_struct_ok.
Qed.

(** X15.  The figures of [getFlowStats] in a world reached from the
    initial one by calls that return (an explicit radius given to
    [addNode] being positive):
    the xylem and the phloem markers add up to the markers, at most 150;
    and the total water pressure lies between 0 and the number of
    segments. *)
Theorem getFlowStats_bounds w :
  reachable Math_sin Math_cos Math_PI (fun v => 0 < v) w ->
  let st := getFlowStats w in
  (xylemParticles st + phloemParticles st = length (particles w))%nat
  /\ (xylemParticles st + phloemParticles st <= 150)%nat
  /\ 0 <= totalWaterPressure st <= nat_Q (nodes_count (nodes (state w))).
Proof.
  intros Hr. cbv zeta. unfold getFlowStats.
  pose proof (pressure_total (map snd (nodes (state w))) 0 0) as Hp.
  cbv zeta in Hp.
  destruct (fold_left _ (map snd (nodes (state w))) (0, 0)) as [p s].
  cbn [xylemParticles phloemParticles totalWaterPressure].
  rewrite sap_partition. split; [done|]. split.
  - by destruct (reachable_particles_inv _ _ _ _ _ Hr) as [? _].
  - rewrite length_map in Hp. unfold nodes_count. cbn [fst] in Hp.
    assert (0 <= p <= 0 + nat_Q (length (nodes (state w)))) as [? ?]; [|split; lra].
    apply Hp. apply Forall_forall. intros n Hn.
    pose proof (reachable_struct_ok _ _ _ _ _ Hr) as Hs.
    apply (value_live _ _ Hs) in Hn.
    by destruct (reachable_world_num _ Hr _ _ Hn) as (? & _).
Qed.

End Display.

(** * The animation frame *)

Lemma TICK_INTERVAL_50 : TICK_INTERVAL == 50.
Proof. done. Qed.

Lemma nat_Q_nonneg n : 0 <= nat_Q n.
Proof. unfold nat_Q, Qle. cbn. lia. Qed.

Section Loop.

Variables (Math_sin Math_cos : Q -> Q) (Math_PI : Q).

Lemma drain_spec : forall n fuel accumulator w,
  (n <= fuel)%nat ->
  accumulator < 50 * (nat_Q n + 1) ->
  ((0 < n)%nat -> 50 * nat_Q n <= accumulator) ->
  exists r,
    drain Math_sin Math_cos Math_PI fuel (Num accumulator) w
    = Some (Num r, Nat.iter n (tick Math_sin Math_cos Math_PI) w)
    /\ r == accumulator - 50 * nat_Q n.
Proof.
  pose proof TICK_INTERVAL_50 as Et.
  induction n as [|n IH]; intros fuel a w Hfuel Hlt Hge.
  - exists a. change (nat_Q 0) with 0 in *. split; [|lra].
    assert (Qleb TICK_INTERVAL a = false) as E by (apply Qleb_false; lra).
    destruct fuel; cbn [drain geq]; by rewrite E.
  - destruct fuel as [|fuel]; [lia|].
    rewrite nat_Q_succ in Hlt. specialize (Hge ltac:(lia)). rewrite nat_Q_succ in Hge.
    pose proof (nat_Q_nonneg n) as Hn.
    assert (Qleb TICK_INTERVAL a = true) as E by (apply Qleb_true; lra).
    cbn [drain geq]. rewrite E. cbn [minus lift2].
    destruct (IH fuel (a - TICK_INTERVAL) (tick Math_sin Math_cos Math_PI w))
      as (r & Hr & Er); [lia|lra|intros _; lra|].
    exists r. split.
    + rewrite Hr. by rewrite Nat.iter_succ_r.
    + rewrite Er, nat_Q_succ. lra.
Qed.

(** What is not a number is never at least 50: no tick runs and the
    accumulator stays as it is. *)
Lemma drain_NaN fuel w :
  drain Math_sin Math_cos Math_PI fuel NaN w = Some (NaN, w).
Proof. by destruct fuel. Qed.

(** X16.  One animation frame of the loop: while the game is paused
    nothing happens; otherwise the time passed, scaled by the speed
    multiplier, is added to the accumulator.  When the sum is a number, as
    many whole ticks of 50 ms as it holds are run, the rest, below 50 ms,
    staying in the accumulator.  When it is not, because the accumulator
    or the stored speed multiplier is NaN, no tick is run and the
    accumulator is left NaN. *)
Theorem loop_runs_whole_ticks fuel deltaTime accumulator w :
  let a := plus accumulator (times (Num deltaTime) (speedMultiplier (state w))) in
  let n := match a with Num q => Z.to_nat (Qfloor (q / 50)) | NaN => 0%nat end in
  (n <= fuel)%nat ->
  if isPaused (state w)
  then loop Math_sin Math_cos Math_PI fuel deltaTime accumulator w
       = Some (accumulator, w)
  else exists r,
      loop Math_sin Math_cos Math_PI fuel deltaTime accumulator w
      = Some (r, Nat.iter n (tick Math_sin Math_cos Math_PI) w)
      /\ match a with
         | Num q => exists v, r = Num v /\ v == q - 50 * nat_Q n /\ v < 50
                              /\ (0 <= q -> 0 <= v)
         | NaN => r = NaN
         end.
Proof.
  intros a n Hfuel. unfold loop. destruct (isPaused (state w)); cbn [negb]; [done|].
  fold a. destruct a as [a|]; [|exists NaN; by rewrite drain_NaN].
  cbv beta iota in n.
  pose proof (Qfloor_le (a / 50)) as Hlo.
  pose proof (Qlt_floor (a / 50)) as Hhi.
  assert (a / 50 * 50 == a) as Ea by field.
  rewrite inject_Z_plus in Hhi. change (inject_Z 1) with 1 in Hhi.
  assert (a < 50 * (nat_Q n + 1) /\ ((0 < n)%nat -> 50 * nat_Q n <= a)
          /\ (0 <= a -> 50 * nat_Q n <= a)) as (Hlt & Hge & Hpos).
  { subst n. unfold nat_Q. revert Hlo Hhi Ea. generalize (a / 50). intros q Hlo Hhi Ea.
    destruct (Z_lt_le_dec (Qfloor q) 0) as [Hneg|Hnn].
    - assert (inject_Z (Qfloor q) <= inject_Z (-1)) as Hz by (rewrite <- Zle_Qle; lia).
      change (inject_Z (-1)) with (-1) in Hz.
      replace (Z.to_nat (Qfloor q)) with 0%nat by lia.
      change (inject_Z (Z.of_nat 0)) with 0.
      split; [lra|]. split; [lia|]. intros ?. lra.
    - rewrite Z2Nat.id by done.
      split; [lra|]. split; intros _; lra. }
  destruct (drain_spec n fuel a w Hfuel Hlt Hge) as (r & Hr & Er).
  exists (Num r). split; [done|]. exists r. split; [done|]. split; [done|]. split; [lra|].
  intros Ha. specialize (Hpos Ha). lra.
Qed.

End Loop.

(** * The Harden action and the removal of a subtree *)

(** X17.  The Harden action of the menu on a well-formed world with its
    numbers in range: the world stays well formed and in range; on a
    segment of the store, with at least 5 sugar in stock, it costs exactly
    5 sugar, makes the segment a tenth thicker and raises its health by
    0.2, capped at 1, whether the segment is alive or dead; otherwise it
    changes nothing. *)
Theorem hardenNode_spec k w :
  struct_ok w -> world_num w -> resources_ok w ->
  struct_ok (hardenNode k w) /\ world_num (hardenNode k w)
  /\ resources_ok (hardenNode k w)
  /\ match live k w with
     | Some n =>
         if Qleb 5 (sugar (resources (state w)))
         then sugar (resources (state (hardenNode k w)))
              == sugar (resources (state w)) - 5
              /\ exists n', live k (hardenNode k w) = Some n'
                   /\ radius n' = radius n * 1.1
                   /\ structuralHealth n' = Math_min 1 (structuralHealth n + 0.2)
                   /\ isActive n' = isActive n
                   /\ stressLevel n' = stressLevel n
         else hardenNode k w = w
     | None => hardenNode k w = w
     end.
Proof.
  intros Hs Hnum Hres. unfold hardenNode.
  destruct (live k w) as [n|] eqn:Hk; [|done].
  unfold CONFIG.COST_HARDEN.
  destruct (Qleb 5 (sugar (resources (state w)))) eqn:E; [|done].
  apply Qleb_true in E.
  set (w1 := modifyResources _ w).
  set (us := [set_structuralHealth _; set_radius _]).
  assert (live k w1 = Some n) as Hk1 by done.
  split; [|split; [|split]].
  - apply updateNode_struct_ok; [done|].
    destruct Hs as (? & ? & ?). by split.
  - intros j m. rewrite updateNode_live.
    destruct (String.eqb_spec k j) as [->|_]; [|apply Hnum].
    rewrite Hk1. intros [= <-].
    destruct (Hnum _ _ Hk) as (Hw & Hc & Hh & Hst & Hr).
    unfold node_ok, us, Object_assign. cbn.
    repeat split; try done; minmax; lra.
  - destruct (updateNode_rest k us w1) as (_ & _ & _ & Er & _).
    unfold resources_ok. rewrite Er. by apply modifyResources_ok.
  - destruct (updateNode_rest k us w1) as (_ & _ & _ & Er & _).
    rewrite Er. split.
    + unfold w1, modifyResources. cbn. minmax; lra.
    + rewrite updateNode_live, String.eqb_refl, Hk1. by eexists.
Qed.

Section Removal.

Variables (Math_sin Math_cos : Q -> Q) (Math_PI : Q).

(** X18.  In a world reached from the initial one by calls that
    return, [removeNode] never runs out of a recursion depth of as many
    calls as there are segments.  On a name inherited from
    [Object.prototype] it throws, the world staying as it is.  On any
    other key it returns: it refuses, changing nothing, a key that is not
    in the store and a segment of type [SEED]; any other segment it
    removes, and then the store holds fewer segments, the segment is gone,
    and the store is still a tree hanging from the seed. *)
Theorem removeNode_total okr w k :
  reachable Math_sin Math_cos Math_PI okr w ->
  if inherited k
  then removeNode (nodes_count (nodes (state w))) k w = Some (Threw w None)
  else exists w' b,
    removeNode (nodes_count (nodes (state w))) k w = Some (Returned w' b)
    /\ (b = false -> w' = w)
    /\ (b = true <-> exists n, live k w = Some n /\ node_type n <> SEED)
    /\ (b = true ->
        (nodes_count (nodes (state w')) < nodes_count (nodes (state w)))%nat
        /\ live k w' = None)
    /\ tree_shaped w'.
Proof.
  intros Hr.
  pose proof (reachable_struct_ok _ _ _ _ _ Hr) as Hs.
  pose proof (reachable_forest _ _ _ _ _ Hr) as Hf.
  pose proof (forest_plain _ _ Hs Hf) as Hplain.
  pose proof Hs as (Hwf & _ & Hfresh).
  destruct (inherited k) eqn:Hinh.
  { unfold removeNode. rewrite nodes_at_Builtin; [done| |done].
    destruct (nodes_get k (nodes (state w))) eqn:Hk; [|done].
    destruct (Hfresh k) as (i & _ & ->); [by eapply nodes_get_Some_keys|].
    by rewrite node_name_plain in Hinh. }
  assert (reachable Math_sin Math_cos Math_PI okr w ->
          forall w' b, removeNode (nodes_count (nodes (state w))) k w
                       = Some (Returned w' b) ->
                       tree_shaped w') as Htree.
  { intros _ w' b Hrm. eapply reachable_tree, reachable_step; [exact Hr|].
    by eapply op_removeNode. }
  destruct (forest_rank _ _ Hf) as (rank & Hr1 & Hr2).
  pose proof Hf as (_ & H2 & _ & (scs & H4) & H5 & _).
  destruct (live k w) as [node|] eqn:Hk.
  2: { exists w, false. unfold live in Hk. unfold removeNode.
       rewrite (nodes_at_None _ _ Hk Hinh).
       split; [done|]. split; [done|]. split; [|split; [done|]].
       - split; [done|]. by intros (? & ? & _).
       - exact (reachable_tree _ _ _ _ _ Hr). }
  destruct (NodeType_eqb (node_type node) SEED) eqn:Et.
  { exists w, false. unfold live in Hk. unfold removeNode.
    rewrite (nodes_at_Some _ _ _ Hk).
    destruct (node_type node) eqn:Etype; try done.
    split; [done|]. split; [done|]. split; [|split; [done|]].
    - split; [done|]. intros (n & Hn & Hne). by simplify_eq.
    - exact (reachable_tree _ _ _ _ _ Hr). }
  pose proof Hk as Hk'. unfold live in Hk.
  assert (link_of (nodes (state w)) k
          = Some (node_type node, parentId node, childrenIds node))
    as HTk by (unfold link_of; by rewrite Hk).
  destruct (parentId node) as [p|] eqn:Hpar.
  2: { pose proof (H5 _ _ _ HTk) as Hks. subst k. rewrite H4 in HTk.
       injection HTk as Ht _. by rewrite <- Ht in Et. }
  destruct (H2 _ _ _ _ HTk) as (tp & pp & pcs & HTp & Hkp).
  unfold link_of in HTp.
  destruct (nodes_get p (nodes (state w))) as [parent|] eqn:Hp; [|done].
  assert (truthy (Some p) = Some p) as Htr.
  { destruct (Hfresh p) as (i & _ & ->); [by eapply nodes_get_Some_keys|].
    apply node_name_truthy. }
  set (ns1 := nodes_set p
                (assign_field parent
                   (set_childrenIds
                      (filter (fun c => negb (String.eqb c k)) (childrenIds parent))))
                (nodes (state w))).
  assert (ranked rank (nodes (state w))) as Hrank.
  { intros i n c Hi Hc _. apply (Hr1 i (node_type n) (parentId n) (childrenIds n));
      [unfold link_of; by rewrite Hi|done]. }
  destruct (detach_spec rank _ p parent k Hwf Hrank Hp ns1 eq_refl)
    as (Hwf1 & Hrank1 & Hlen1 & Hsome1 & Hsub1).
  pose proof (detach_plain _ p parent k Hplain Hp) as Hplain1. fold ns1 in Hplain1.
  destruct (removeRecursive_spec rank (nodes_count (nodes (state w))) k ns1
              Hwf1 Hrank1 Hplain1)
    as (ns2 & removed & Hrec & _ & _ & Hrem & Hget & Hlen).
  { left. apply Hsome1. by eexists. }
  { left. apply Hr2. by eexists. }
  assert (removeNode (nodes_count (nodes (state w))) k w
          = Some (Returned (put_nodes w ns2) true))
    as Hrun.
  { unfold removeNode. rewrite (nodes_at_Some _ _ _ Hk), Hpar, Htr.
    rewrite (nodes_at_Some _ _ _ Hp). fold ns1. rewrite Hrec.
    by destruct (node_type node). }
  exists (put_nodes w ns2), true. split; [done|]. split; [done|].
  assert (k ∈ removed) as Hin.
  { apply Hrem, Hsub1. by eapply subtree_root. }
  split; [|split].
  - split; [|done]. intros _. exists node. split; [done|]. intros Ht. by rewrite Ht in Et.
  - intros _. cbn [put_nodes with_state with_nodes state nodes]. split.
    + unfold nodes_count. destruct removed; [by apply elem_of_nil in Hin|].
      cbn [length] in Hlen. lia.
    + unfold live. cbn. rewrite Hget. by rewrite decide_True.
  - by eapply Htree.
Qed.

End Removal.

(** * The pace of the growth heuristic *)

Lemma autogrow_pace w :
  autoGrowEnabled w = true ->
  ((S (ticksSinceLastGrowth w) < 5)%nat ->
   nodes (state (updateAutoGrow w)) = nodes (state w)
   /\ nextId (updateAutoGrow w) = nextId w
   /\ ticksSinceLastGrowth (updateAutoGrow w) = S (ticksSinceLastGrowth w)
   /\ autoGrowEnabled (updateAutoGrow w) = true)
  /\ (nodes_keys (nodes (state (updateAutoGrow w))) <> nodes_keys (nodes (state w)) ->
      ticksSinceLastGrowth (updateAutoGrow w) = 0%nat
      /\ autoGrowEnabled (updateAutoGrow w) = true).
Proof.
  intros Hon. unfold updateAutoGrow. rewrite Hon. cbn [negb]. cbv zeta.
  set (interval := Math_max 5 _).
  assert (5 <= interval) as Hint by (unfold interval; minmax; lra).
  split.
  - intros Hlt.
    assert (Qltb (nat_Q (S (ticksSinceLastGrowth w))) interval = true) as ->; [|done].
    apply Qltb_true. eapply Qlt_le_trans; [|exact Hint].
    unfold nat_Q. change 5 with (inject_Z 5). rewrite <- Zlt_Qlt. lia.
  - destruct (Qltb (nat_Q _) interval); [done|].
    destruct (Qltb _ 20); [done|].
    set (P := fun v : World => ticksSinceLastGrowth v = 0%nat /\ autoGrowEnabled v = true).
    assert (P (with_autogrow w true 0)) as H0 by done.
    pose proof (frame_decideAction P ltac:(done)
                  (analyzePlant (state (with_autogrow w true 0))) _ H0) as Hd.
    destruct (decideAction _ _) as [[a|] w2]; cbn [snd] in Hd; [|done].
    intros _. apply (frame_executeAction P); try done; unfold P.
    + intros k us v [<- <-]. unfold updateNode. by destruct (nodes_get _ _).
    + intros p t pos r v [<- <-]. unfold addNode, generateId.
      repeat case_match; cbv zeta; repeat case_match; by simplify_eq.
    + intros k dir v [<- <-]. unfold extendNode, generateId.
      repeat case_match; cbv zeta; repeat case_match; by simplify_eq.
Qed.

Section Pace.

Variables (Math_sin Math_cos : Q -> Q) (Math_PI : Q).

Lemma systems_pace w :
  let w1 := updateMetabolism
              (updateHydraulics (updateClimateSystem Math_sin Math_cos Math_PI w)) in
  ticksSinceLastGrowth w1 = ticksSinceLastGrowth w.
Proof.
  set (P := fun w' : World => ticksSinceLastGrowth w' = ticksSinceLastGrowth w).
  assert (forall k us w', P w' -> P (updateNode k us w')) as H1.
  { intros k us w' H. unfold P in *. rewrite <- H. unfold updateNode.
    by destruct (nodes_get _ _). }
  assert (forall a b t s w', P w' -> P (spawnFlowParticle a b t s w')) as H2.
  { intros a b t s w' H. unfold P, spawnFlowParticle. by repeat case_match. }
  assert (forall w', P w' -> P (updateParticles w')) as H3.
  { intros w' H. unfold P, updateParticles. by destruct (filterParticles _ _ _). }
  change (P (updateMetabolism
               (updateHydraulics (updateClimateSystem Math_sin Math_cos Math_PI w)))).
  apply frame_metabolism; try first [exact H1|exact H2|exact H3|done].
  apply frame_hydraulics; try first [exact H1|exact H2|exact H3|done].
Qed.

(** What a tick does to the pace of the heuristic while it is on. *)
Lemma tick_pace w :
  struct_ok w -> autoGrowEnabled w = true ->
  ((S (ticksSinceLastGrowth w) < 5)%nat ->
   nodes_keys (nodes (state (tick Math_sin Math_cos Math_PI w)))
   = nodes_keys (nodes (state w))
   /\ ticksSinceLastGrowth (tick Math_sin Math_cos Math_PI w)
      = S (ticksSinceLastGrowth w)
   /\ autoGrowEnabled (tick Math_sin Math_cos Math_PI w) = true)
  /\ (nodes_keys (nodes (state (tick Math_sin Math_cos Math_PI w)))
      <> nodes_keys (nodes (state w)) ->
      ticksSinceLastGrowth (tick Math_sin Math_cos Math_PI w) = 0%nat
      /\ autoGrowEnabled (tick Math_sin Math_cos Math_PI w) = true).
Proof.
  intros Hs Hon.
  destruct (systems_keys Math_sin Math_cos Math_PI w) as (Ek & Ei & Ea).
  pose proof (systems_pace w) as Et. cbv zeta in Ek, Ei, Ea, Et.
  unfold tick. set (w1 := updateMetabolism _) in *.
  destruct (autogrow_pace w1) as [Hslow Hgrew]; [by rewrite Ea|].
  cbn [incrementTick state nodes with_state with_climate ticksSinceLastGrowth
       autoGrowEnabled].
  split.
  - intros Hlt. rewrite Et in Hslow. destruct (Hslow Hlt) as (En & _ & Ec & Eon).
    by rewrite En, Ek.
  - intros Hne. apply Hgrew. by rewrite Ek.
Qed.

(** X19.  The growth heuristic is paced: when a tick has added a
    segment, the four ticks that follow it add none. *)
Theorem growth_is_paced w i :
  struct_ok w ->
  nodes_keys (nodes (state (tick Math_sin Math_cos Math_PI w)))
  <> nodes_keys (nodes (state w)) ->
  (i <= 4)%nat ->
  nodes_keys (nodes (state (Nat.iter i (tick Math_sin Math_cos Math_PI)
                              (tick Math_sin Math_cos Math_PI w))))
  = nodes_keys (nodes (state (tick Math_sin Math_cos Math_PI w))).
Proof.
  intros Hs Hne Hi.
  assert (autoGrowEnabled w = true) as Hon.
  { destruct (autoGrowEnabled w) eqn:E; [done|]. exfalso. apply Hne.
    by apply tick_grows_keys_off. }
  destruct (tick_pace w Hs Hon) as [_ Hgrew]. destruct (Hgrew Hne) as [Hc0 Hon0].
  set (w0 := tick Math_sin Math_cos Math_PI w) in *.
  assert (struct_ok w0) as Hs0 by by apply tick_struct_ok.
  clearbody w0. clear Hne Hgrew Hs Hon w.
  assert (forall j, (j <= 4)%nat ->
            let wj := Nat.iter j (tick Math_sin Math_cos Math_PI) w0 in
            nodes_keys (nodes (state wj)) = nodes_keys (nodes (state w0))
            /\ ticksSinceLastGrowth wj = j /\ autoGrowEnabled wj = true
            /\ struct_ok wj) as Hall.
  { induction j as [|j IH]; intros Hj; cbv zeta; [done|].
    destruct (IH ltac:(lia)) as (Ek & Ec & Eon & Hsj). cbv zeta in Ek, Ec, Eon, Hsj.
    cbn [Nat.iter nat_rect]. fold (Nat.iter j (tick Math_sin Math_cos Math_PI) w0).
    destruct (tick_pace _ Hsj Eon) as [Hslow _].
    destruct Hslow as (Ek' & Ec' & Eon'); [lia|].
    rewrite Ek', Ek, Ec', Ec. split; [done|]. split; [done|]. split; [done|].
    by apply tick_struct_ok. }
  by destruct (Hall i Hi) as (? & _).
Qed.

End Pace.

(** * Markers run between segments *)

Lemma harmless_assign us : forall n,
  forallb harmless us = true ->
  node_id (Object_assign n us) = node_id n /\ link (Object_assign n us) = link n.
Proof.
  unfold Object_assign. induction us as [|u us IH]; intros n H; simpl; [done|].
  simpl in H. apply andb_true_iff in H as [Hu Hus].
  destruct (IH (assign_field n u) Hus) as (-> & ->). by destruct u.
Qed.

Lemma updateNode_is_Some k us w j :
  is_Some (live j (updateNode k us w)) <-> is_Some (live j w).
Proof.
  rewrite updateNode_live. destruct (String.eqb_spec k j) as [->|]; [|done].
  destruct (live j w); cbn; split; intros [? ?]; by eexists.
Qed.

Lemma sound_same w w' :
  nodes (state w') = nodes (state w) -> nextId w' = nextId w ->
  seedId (state w') = seedId (state w) -> particles w' = particles w ->
  sound w -> sound w'.
Proof.
  intros En Ei Es Ep (Hs & Hf & Hl).
  unfold sound, struct_ok, forest, linked, resolves, live in *.
  by rewrite En, Ei, Es, Ep.
Qed.

(** [state.nodes[k]] is truthy exactly when [k] resolves. *)
Lemma present_resolves k w :
  present (nodes_at k (nodes (state w))) = true <-> resolves k w.
Proof.
  unfold resolves, live, nodes_at.
  destruct (nodes_get k (nodes (state w))) as [n|].
  - split; [left; by eexists|done].
  - destruct (inherited k); split; try done.
    + intros _. by right.
    + by intros [[? ?]|?].
Qed.

Lemma sound_update k us w :
  forallb harmless us = true -> sound w -> sound (updateNode k us w).
Proof.
  intros Hh (Hs & Hf & Hl). split; [|split].
  - apply updateNode_struct_ok; [|done]. intros n. by apply harmless_assign.
  - unfold forest.
    replace (seedId (state (updateNode k us w))) with (seedId (state w))
      by (unfold updateNode; by destruct (nodes_get _ _)).
    eapply forest_on_ext; [|exact Hf]. intros j.
    pose proof (updateNode_live k us w j) as E. unfold live in E.
    unfold link_of. rewrite E. destruct (String.eqb_spec k j) as [->|]; [|done].
    destruct (nodes_get j (nodes (state w))) as [n|]; [|done]. cbn.
    by rewrite (proj2 (harmless_assign us n Hh)).
  - intros p Hp. unfold resolves. rewrite !updateNode_is_Some. apply Hl.
    by rewrite (proj1 (proj2 (updateNode_rest k us w))) in Hp.
Qed.

Lemma sound_spawn a b t s w :
  is_Some (live a w) -> is_Some (live b w) ->
  sound w -> sound (spawnFlowParticle a b t s w).
Proof.
  intros Ha Hb (Hs & Hf & Hl).
  destruct (spawn_cases a b t s w) as [->|[_ Ep]]; [done|].
  assert (forall j, live j (spawnFlowParticle a b t s w) = live j w) as El
    by (intros j; unfold live; by rewrite spawn_nodes).
  split; [|split].
  - unfold struct_ok. rewrite spawn_nodes.
    replace (nextId (spawnFlowParticle a b t s w)) with (nextId w); [done|].
    unfold spawnFlowParticle. by repeat case_match.
  - unfold forest. rewrite spawn_nodes.
    replace (seedId (state (spawnFlowParticle a b t s w))) with (seedId (state w));
      [done|].
    unfold spawnFlowParticle. by repeat case_match.
  - intros p Hp. unfold resolves. rewrite !El. rewrite Ep in Hp.
    apply elem_of_app in Hp as [Hp|Hp].
    + by apply Hl.
    + apply list_elem_of_singleton in Hp as ->. split; by left.
Qed.

Lemma sound_roll_spawn c pr a b t s w :
  is_Some (live a w) -> is_Some (live b w) ->
  sound w -> sound (roll_spawn c pr a b t s w).
Proof.
  intros Ha Hb H. unfold roll_spawn. destruct c; [|done].
  unfold Math_random. cbv beta iota zeta.
  set (w1 := {| state := state w |}).
  assert (sound w1) as H1 by (by apply (sound_same w)).
  destruct (Qltb _ pr); [|done]. by apply sound_spawn.
Qed.

Lemma for_nodes_inv (P : World -> Prop) body w :
  (forall k n w', P w' -> live k w' = Some n -> P (body k n w')) ->
  P w -> P (for_nodes body w).
Proof.
  intros Hb. unfold for_nodes. generalize (nodes_keys (nodes (state w))).
  intros l. revert w. induction l as [|k l IH]; intros w H; [done|].
  cbn [fold_left]. apply IH. destruct (live k w) eqn:Hk; [by apply Hb|done].
Qed.

(** The parent a segment of a tree names is in the store. *)
Lemma sound_parent w k n p :
  sound w -> live k w = Some n -> truthy (parentId n) = Some p ->
  node_id n = k /\ is_Some (live p w).
Proof.
  intros ((_ & Hids & _) & (_ & H2 & _) & _) Hk Hp.
  split; [by apply Hids|].
  assert (parentId n = Some p) as Hpar.
  { unfold truthy in Hp. destruct (parentId n) as [q|]; [|done].
    destruct (String.eqb q ""); by simplify_eq. }
  destruct (H2 k (node_type n) p (childrenIds n)) as (tp & pp & pcs & HTp & _).
  { unfold link_of. unfold live in Hk. rewrite Hk. cbn. unfold link. by rewrite Hpar. }
  unfold link_of in HTp. unfold live. by destruct (nodes_get p (nodes (state w))).
Qed.

Lemma sound_metabolism w : sound w -> sound (updateMetabolism w).
Proof.
  intros H. unfold updateMetabolism, processStressAndHealth, processRespiration,
    processPhotosynthesis.
  apply (for_nodes_inv sound).
  { intros k n w' H' Hk. unfold stressAndHealthBody.
    repeat case_match; try done; by apply sound_update. }
  apply (for_nodes_inv sound).
  { intros k n w' H' Hk. unfold respirationBody.
    destruct (negb _); [done|]. cbv zeta.
    destruct (Qleb _ _).
    - destruct (truthy (parentId n)) as [p|] eqn:Hp; [|by apply sound_update].
      destruct (sound_parent _ _ _ _ H' Hk Hp) as [-> Hlive].
      apply sound_roll_spawn; [by apply updateNode_is_Some
                              |apply updateNode_is_Some; by eexists
                              |by apply sound_update].
    - by apply sound_update, sound_update. }
  apply (for_nodes_inv sound); [|done].
  intros k n w' H' Hk. unfold photosynthesisBody.
  repeat (case_match; try done). cbv zeta.
  match goal with H : truthy (parentId n) = Some ?p |- _ =>
    destruct (sound_parent _ _ _ _ H' Hk H) as [-> Hlive] end.
  all: try (apply sound_roll_spawn;
            [apply updateNode_is_Some; by eexists
            |by apply updateNode_is_Some|]).
  all: eapply sound_same; [| | | |apply sound_update; [|exact H']]; done.
Qed.

Section Linked.

Variables (Math_sin Math_cos : Q -> Q) (Math_PI : Q).

Lemma hydraulics_sound w :
  struct_ok w -> forest w ->
  sound (updateHydraulics (updateClimateSystem Math_sin Math_cos Math_PI w)).
Proof.
  intros Hs Hf.
  set (wc := updateClimateSystem Math_sin Math_cos Math_PI w).
  assert (struct_ok wc) as Hsc by done.
  pose proof (hydraulics_prims true wc Hsc) as Hrun.
  assert (seedId (state (updateHydraulics wc)) = seedId (state w)) as Eseed.
  { set (P := fun v : World => seedId (state v) = seedId (state w)).
    change (P (updateHydraulics wc)).
    apply frame_hydraulics; unfold P; try done.
    - intros k us v <-. unfold updateNode. by destruct (nodes_get _ _).
    - intros a b t s v <-. unfold spawnFlowParticle. by repeat case_match.
    - intros v <-. unfold updateParticles. by destruct (filterParticles _ _ _). }
  split; [by eapply prims_struct_ok|]. split.
  - unfold forest. rewrite Eseed.
    assert (forest_on (seedId (state w)) (link_of (nodes (state wc)))) as Hfc by done.
    revert Hfc. generalize (seedId (state w)). intros s. clear -Hrun.
    induction Hrun as [|w1 w2 w3 H12 _ IH]; [done|].
    intros H1. apply IH. eapply forest_on_ext; [|exact H1].
    intros j. by apply prim_links.
  - unfold updateHydraulics. set (wf := processPhloemFlow _).
    intros q Hq. destruct (updateParticles_kept wf) as (_ & _ & Hkept).
    destruct (Hkept q Hq) as (p & _ & -> & _ & Hfrom & Hto).
    apply present_resolves in Hfrom, Hto.
    unfold resolves, live in *. rewrite updateParticles_nodes. by cbn.
Qed.

(** X20.  After a tick in a world reached from the initial one by calls
    that return, both ends of every flow marker resolve in the store:
    each is the key of a segment of the store, or a name inherited from
    [Object.prototype], which the filter of [updateParticles] takes for a
    segment. *)
Theorem markers_linked_after_tick okr w :
  reachable Math_sin Math_cos Math_PI okr w ->
  forall p, p ∈ particles (tick Math_sin Math_cos Math_PI w) ->
    (is_Some (live (fromNodeId p) (tick Math_sin Math_cos Math_PI w))
     \/ inherited (fromNodeId p) = true)
    /\ (is_Some (live (toNodeId p) (tick Math_sin Math_cos Math_PI w))
        \/ inherited (toNodeId p) = true).
Proof.
  intros Hr p Hp.
  pose proof (hydraulics_sound w (reachable_struct_ok _ _ _ _ _ Hr)
                (reachable_forest _ _ _ _ _ Hr)) as Hh.
  apply sound_metabolism in Hh as (_ & _ & Hl).
  unfold tick in *. set (wm := updateMetabolism _) in *.
  assert (particles (incrementTick (updateAutoGrow wm)) = particles wm) as Ep.
  { change (particles (updateAutoGrow wm) = particles wm).
    by apply (markers_autogrow (fun v => particles v = particles wm));
      [intros v v' -> _|]. }
  rewrite Ep in Hp. destruct (Hl p Hp) as [[Hfrom|Hfrom] [Hto|Hto]].
  all: split; first [by right|left; by apply (autogrow_keeps wm)].
Qed.

End Linked.

(** * Identifiers *)

Lemma edit_ids okr w w' :
  struct_ok w -> edit okr w w' ->
  (nextId w <= nextId w')%nat
  /\ forall k, k ∈ nodes_keys (nodes (state w')) ->
       k ∈ nodes_keys (nodes (state w)) \/ k = node_name (nextId w).
Proof.
  intros Hs He. pose proof (fresh_absent w Hs) as Hfresh.
  apply nodes_get_None_keys in Hfresh.
  assert (forall v, grown w v ->
            (nextId w <= nextId v)%nat
            /\ forall k, k ∈ nodes_keys (nodes (state v)) ->
                 k ∈ nodes_keys (nodes (state w)) \/ k = node_name (nextId w)) as Hg.
  { intros v [[Ek Ei]|[Ek Ei]]; rewrite Ek, Ei; (split; [lia|]); intros k Hk.
    - by left.
    - apply elem_of_app in Hk as [?|Hk]; [by left|right].
      by apply list_elem_of_singleton in Hk. }
  destruct He as [w w' (En & Ei & _)|w p t pos r w' a Hr Hadd|w k dir|w fuel k w' b Hrm
                  |w k n Hk|w a b t s|w].
  - rewrite En, Ei. split; [done|]. by left.
  - destruct (addNode_cases p t pos r w) as [E|[(_ & s & E)|(parent & Hp & _)]].
    + rewrite E in Hadd. injection Hadd as <- _. split; [done|by left].
    + by rewrite E in Hadd.
    + apply Returned_after in Hadd as ->. apply Hg, addNode_grown; [|done].
      destruct Hs as (_ & _ & Hf).
      destruct (Hf p) as (i & _ & ->); [by eapply nodes_get_Some_keys|].
      apply node_name_plain.
  - by apply Hg, extendNode_grown.
  - destruct (removeNode_cases _ _ _ _ _ Hrm)
      as [->|(ns1 & ns2 & _ & Hkeys & Hsub & ->)]; [split; [done|by left]|].
    split; [done|]. intros k0 Hk0. left. rewrite <- Hkeys.
    eapply elem_of_sublist; [exact Hk0|]. by apply (fmap_sublist fst).
  - rewrite updateNode_keys, (proj1 (updateNode_rest _ _ _)). split; [done|by left].
  - rewrite spawn_nodes.
    replace (nextId (spawnFlowParticle a b t s w)) with (nextId w)
      by (unfold spawnFlowParticle; by repeat case_match).
    split; [done|by left].
  - split; [done|by left].
Qed.

Section Identifiers.

Variables (Math_sin Math_cos : Q -> Q) (Math_PI : Q).

(** X21.  Within a run, that is between two calls of [resetState],
    identifiers are never reused: an identifier handed out before that is
    not in the store, because its segment has been removed, is in the
    store of no world that calls which return reach later in the run. *)
Theorem ids_never_reused okr w w' i :
  reachable Math_sin Math_cos Math_PI okr w ->
  rtc (op Math_sin Math_cos Math_PI okr) w w' ->
  (i < nextId w)%nat ->
  node_name i ∉ nodes_keys (nodes (state w)) ->
  node_name i ∉ nodes_keys (nodes (state w')).
Proof.
  intros Hr Hrun Hi Hout.
  pose proof (reachable_struct_ok _ _ _ _ _ Hr) as Hs. clear Hr.
  set (P := fun v : World =>
    (nextId w <= nextId v)%nat
    /\ forall k, k ∈ nodes_keys (nodes (state v)) ->
         k ∈ nodes_keys (nodes (state w))
         \/ exists j, (nextId w <= j)%nat /\ k = node_name j).
  assert (forall v, rtc (op Math_sin Math_cos Math_PI okr) v w' ->
            struct_ok v -> P v -> P w') as Hall.
  { intros v Hv. induction Hv as [v|v1 v2 v3 Hop _ IH]; [done|]. intros Hs1 HP1.
    destruct (op_preserves Math_sin Math_cos Math_PI okr P) with (w := v1) (w' := v2)
      as [Hs2 HP2]; try done.
    - intros a b Hab [Hle Hk]. destruct (prim_keys _ _ Hab) as [Ek Ei].
      unfold P. by rewrite Ek, Ei.
    - intros a b Hsa Hab [Hle Hk]. destruct (edit_ids _ _ _ Hsa Hab) as [Hle' Hk'].
      split; [lia|]. intros k Hin. destruct (Hk' k Hin) as [Hold| ->]; [by apply Hk|].
      right. by exists (nextId a).
    - by apply IH. }
  destruct (Hall w Hrun Hs) as [_ HP]; [split; [done|by left]|].
  intros Hin. destruct (HP _ Hin) as [?|(j & Hj & E)]; [done|].
  apply node_name_inj in E. lia.
Qed.

End Identifiers.

(** * Siblings *)

Section Siblings.

Variables (Math_sin Math_cos : Q -> Q) (Math_PI : Q).
Variable okr : Q -> Prop.
Variable w : World.
Hypothesis Hreach : reachable Math_sin Math_cos Math_PI okr w.

(** X22.  In a world reached from the initial one by calls that return,
    the siblings [getSiblings] returns for a segment of the store are the
    other segments of the store that have the same parent. *)
Theorem getSiblings_spec c m a :
  live c w = Some m ->
  a ∈ getSiblings (state w) m
  <-> a <> m /\ live (node_id a) w = Some a
      /\ exists n, getParent (state w) m = Some n /\ getParent (state w) a = Some n.
Proof using Hreach.
  intros Hc.
  destruct (reachable_struct_ok _ _ _ _ _ Hreach) as (_ & Hids & _).
  destruct (reachable_tree _ _ _ _ _ Hreach) as (H1 & H2 & _).
  pose proof (getParent_Some _ _ _ _ _ Hreach) as HgP.
  split.
  - unfold getSiblings. intros Ha.
    destruct (truthy (parentId m)) as [p|] eqn:Hp; [|by apply elem_of_nil in Ha].
    destruct (nodes_get p (nodes (state w))) as [parent|] eqn:Hpar;
      [|by apply elem_of_nil in Ha].
    apply list_elem_of_filter in Ha as [Hne Ha].
    apply list_elem_of_omap in Ha as (x & Hx & Hlive).
    pose proof (Hids _ _ Hlive) as Ex.
    destruct (H1 _ _ _ Hpar Hx) as (a' & Ha' & Hpa).
    assert (a' = a) as -> by (unfold live in Ha'; congruence).
    split; [|split].
    + intros ->. by rewrite String.eqb_refl in Hne.
    + by rewrite Ex.
    + exists parent. split.
      * unfold getParent. by rewrite Hp.
      * apply HgP. by exists p.
  - intros (Hne & Ha & n & Hm & Han).
    apply HgP in Hm as (p & Hp & Hn). apply HgP in Han as (p' & Hp' & Hn').
    assert (p' = p) as -> by (rewrite <- (Hids _ _ Hn), <- (Hids _ _ Hn'); done).
    unfold getSiblings. rewrite Hp, (key_truthy _ _ _ _ _ Hreach _ _ Hn).
    unfold live in Hn. rewrite Hn.
    apply list_elem_of_filter. split.
    + destruct (String.eqb_spec (node_id a) (node_id m)) as [E|]; [|done].
      exfalso. apply Hne. rewrite (Hids _ _ Hc) in E. rewrite E in Ha.
      unfold live in *. congruence.
    + apply list_elem_of_omap. exists (node_id a). split; [|done].
      destruct (H2 _ _ _ Ha Hp') as (n' & Hn'' & Hin).
      unfold live in Hn''. congruence.
Qed.

End Siblings.

(** * Vectors *)

(** X23.  A rotation by an angle whose cosine and sine have squares that
    add up to 1 keeps the dot product of two vectors, and hence the
    squared length of one; and a vector is orthogonal to its
    [perpendicular]. *)
Theorem rotate_keeps_dot (Math_sin Math_cos : Q -> Q) a b radians :
  Math_cos radians * Math_cos radians + Math_sin radians * Math_sin radians == 1 ->
  dot (rotate Math_sin Math_cos a radians) (rotate Math_sin Math_cos b radians)
  == dot a b
  /\ dot (rotate Math_sin Math_cos a radians) (rotate Math_sin Math_cos a radians)
     == dot a a
  /\ dot a (perpendicular a) == 0.
Proof.
  intros H. unfold dot, rotate, perpendicular. cbn [x y].
  generalize dependent (Math_cos radians). intros c.
  generalize (Math_sin radians). intros s H.
  assert (forall ax ay bx by0,
            (ax * c - ay * s) * (bx * c - by0 * s)
            + (ax * s + ay * c) * (bx * s + by0 * c)
            == (ax * bx + ay * by0) * (c * c + s * s)) as E by (intros; ring).
  split; [|split].
  - rewrite E, H. ring.
  - rewrite E, H. ring.
  - ring.
Qed.

(** X24.  [clamp(value, min, max)] on three numbers with [min <= max]
    lies between [min] and [max] and leaves a value of that range alone;
    with the bounds the wrong way round it returns [min], whatever the
    value; and when the value or a bound is NaN it returns NaN. *)
Theorem clamp_spec value min max :
  match value, min, max with
  | Num v, Num lo, Num hi =>
      exists c, clamp value min max = Num c
        /\ (lo <= hi -> lo <= c <= hi /\ (lo <= v <= hi -> c == v))
        /\ (hi < lo -> c == lo)
  | _, _, _ => clamp value min max = NaN
  end.
Proof.
  destruct value as [v|], min as [lo|], max as [hi|]; try reflexivity.
  eexists. split; [reflexivity|]. split.
  - intros H. split; [minmax; lra|]. intros Hv. minmax; lra.
  - intros H. minmax; lra.
Qed.

(** * The further properties at concrete worlds *)

Lemma seed_reachable okr : reachable flat flat PI_approx okr seed_world.
Proof. apply (reachable_init _ _ _ _ half). Qed.

Lemma trunk_reachable okr : reachable flat flat PI_approx okr trunk_world.
Proof.
  unfold trunk_world.
  apply reachable_addNode; [apply seed_reachable|intros v Hv; discriminate Hv|].
  eexists. vm_compute. reflexivity.
Qed.

Lemma fork_reachable okr : reachable flat flat PI_approx okr fork_world.
Proof.
  unfold fork_world.
  repeat (apply reachable_addNode;
          [|intros v Hv; discriminate Hv|eexists; vm_compute; reflexivity]).
  apply seed_reachable.
Qed.

Lemma hazy_reachable okr : reachable flat flat PI_approx okr hazy_world.
Proof.
  eapply reachable_step; [|apply op_spawnFlowParticle].
  eapply reachable_step; [apply seed_reachable|apply op_spawnFlowParticle].
Qed.

Lemma astray_reachable okr : reachable flat flat PI_approx okr astray_world.
Proof.
  eapply reachable_step; [apply seed_reachable|apply op_spawnFlowParticle].
Qed.

Lemma marked_reachable okr : reachable flat flat PI_approx okr marked_world.
Proof.
  eapply reachable_step; [apply seed_reachable|]. apply op_spawnFlowParticle.
Qed.

Lemma pruned_reachable okr : reachable flat flat PI_approx okr pruned_world.
Proof.
  eapply reachable_step; [apply trunk_reachable|].
  apply (op_removeNode _ _ _ _ trunk_world 2 "node_2" pruned_world true).
  vm_compute. reflexivity.
Qed.

Lemma keen_struct_ok : struct_ok keen_world.
Proof. exact seed_struct_ok. Qed.

Lemma resources_never_negative_witness : resources_ok trunk_world.
Proof.
  apply (resources_never_negative flat flat PI_approx (fun _ => True) trunk_world).
  apply trunk_reachable.
Defined.

Lemma calendar_follows_ticks_witness :
  tick_count (climate (state dead_trunk_world)) = 2%Z
  /\ calendar (climate (state dead_trunk_world)).
Proof.
  split; [vm_compute; reflexivity|].
  apply (calendar_follows_ticks flat flat PI_approx (fun v => 0 < v) dead_trunk_world).
  apply dead_trunk_reachable.
Defined.

Lemma weather_in_range_witness :
  tick_count (climate (state dead_trunk_world)) = 2%Z
  /\ weather_ok (climate (state dead_trunk_world)).
Proof.
  split; [vm_compute; reflexivity|].
  apply (weather_in_range flat flat PI_approx) with (okr := fun v => 0 < v).
  - intros v. by vm_compute.
  - intros v. by vm_compute.
  - apply dead_trunk_reachable.
Defined.

Lemma soil_water_grows_with_depth_witness :
  Math_min 1 (soilWater (climate (state seed_world))) <= getSoilWaterAtDepth 1 seed_world
  /\ getSoilWaterAtDepth 1 seed_world <= getSoilWaterAtDepth 2 seed_world
  /\ getSoilWaterAtDepth 2 seed_world
     <= Math_min 1 (soilWater (climate (state seed_world)) + 0.3).
Proof.
  apply (soil_water_grows_with_depth 1 2 seed_world); by vm_compute.
Defined.

Lemma markers_in_range_witness :
  length (particles (tick flat flat PI_approx hazy_world)) = 2%nat
  /\ Forall (fun p =>
              match speed p with
              | Num s => 0.6 <= s <= 3 /\ exists c, progress p = Num c /\ 0 <= c < 1
              | NaN => progress p = Num 0 \/ progress p = NaN
              end)
       (particles (tick flat flat PI_approx hazy_world)).
Proof.
  split; [vm_compute; reflexivity|].
  apply Forall_forall.
  apply (markers_in_range flat flat PI_approx (fun _ => True)
           (tick flat flat PI_approx hazy_world)).
  eapply reachable_step; [apply hazy_reachable|apply op_tick].
Defined.

Lemma marker_ids_distinct_witness :
  length (particles hazy_world) = 2%nat
  /\ NoDup (map particle_id (particles hazy_world))
  /\ forall p, p ∈ particles hazy_world ->
       exists i, (i < nextParticleId hazy_world)%nat
                 /\ particle_id p = "particle_" +:+ pretty i.
Proof.
  split; [vm_compute; reflexivity|].
  apply (marker_ids_distinct flat flat PI_approx (fun _ => True) hazy_world).
  apply hazy_reachable.
Defined.

Lemma markers_expire_witness :
  Forall (fun p =>
            speed p <> NaN ->
            (exists i, (nextParticleId hazy_world <= i)%nat
                       /\ particle_id p = "particle_" +:+ pretty i)
            /\ particle_id p ∉ map particle_id (particles hazy_world))
    (particles (Nat.iter 34 (tick flat flat PI_approx) hazy_world))
  /\ exists p,
       particles hazy_world !! 1%nat = Some p /\ speed p = NaN
       /\ advance p (1 / CONFIG.TICKS_PER_SECOND) ∈ particles (updateParticles hazy_world).
Proof.
  destruct (markers_expire flat flat PI_approx (fun _ => True) hazy_world
              (hazy_reachable _)) as [H1 H2].
  split; [apply Forall_forall; exact H1|].
  eexists. split; [vm_compute; reflexivity|]. split; [reflexivity|].
  apply H2.
  - apply (list_elem_of_lookup_2 _ 1%nat). vm_compute. reflexivity.
  - reflexivity.
  - vm_compute. reflexivity.
  - vm_compute. reflexivity.
Defined.

Lemma tick_grows_by_at_most_one_witness :
  grown seed_world (tick flat flat PI_approx seed_world)
  /\ (autoGrowEnabled seed_world = false ->
      nodes_keys (nodes (state (tick flat flat PI_approx seed_world)))
      = nodes_keys (nodes (state seed_world))).
Proof.
  apply (tick_grows_by_at_most_one flat flat PI_approx seed_world).
  apply seed_struct_ok.
Defined.

Lemma plant_is_a_tree_witness : tree_shaped trunk_world.
Proof.
  apply (plant_is_a_tree flat flat PI_approx (fun _ => True) trunk_world).
  apply trunk_reachable.
Defined.

Lemma getParent_getChildren_witness :
  exists n m,
    live "node_1" trunk_world = Some n /\ live "node_2" trunk_world = Some m
    /\ (getParent (state trunk_world) m = Some n
        <-> ("node_2"%string, m) ∈ getChildren (state trunk_world) n)
    /\ length (getChildren (state trunk_world) n) = length (childrenIds n).
Proof.
  eexists. eexists. split; [vm_compute; reflexivity|].
  split; [vm_compute; reflexivity|].
  apply (getParent_getChildren flat flat PI_approx (fun _ => True) trunk_world
           (trunk_reachable _) "node_1").
  - vm_compute. reflexivity.
  - vm_compute. reflexivity.
Defined.

Lemma getAncestors_reach_seed_witness :
  exists n,
    live "node_2" trunk_world = Some n
    /\ exists l,
      (forall fuel, (nodes_count (nodes (state trunk_world)) <= fuel)%nat ->
         getAncestors fuel (state trunk_world) n = Some l)
      /\ (length l < nodes_count (nodes (state trunk_world)))%nat
      /\ ("node_2"%string = seedId (state trunk_world) -> l = [])
      /\ ("node_2"%string <> seedId (state trunk_world) ->
          last l = live (seedId (state trunk_world)) trunk_world)
      /\ Forall (fun a => live (node_id a) trunk_world = Some a) l.
Proof.
  eexists. split; [vm_compute; reflexivity|].
  apply (getAncestors_reach_seed flat flat PI_approx (fun _ => True) trunk_world
           (trunk_reachable _) "node_2").
  vm_compute. reflexivity.
Defined.

Lemma traversePreOrder_visits_all_witness :
  exists s l,
    live (seedId (state trunk_world)) trunk_world = Some s
    /\ (forall fuel, (nodes_count (nodes (state trunk_world)) <= fuel)%nat ->
          traversePreOrder fuel (state trunk_world) s = Some l)
    /\ l ≡ₚ map snd (nodes (state trunk_world)).
Proof.
  apply (traversePreOrder_visits_all flat flat PI_approx (fun _ => True) trunk_world).
  apply trunk_reachable.
Defined.

Lemma getFlowStats_bounds_witness :
  (xylemParticles (getFlowStats trunk_world)
   + phloemParticles (getFlowStats trunk_world) = length (particles trunk_world))%nat
  /\ (xylemParticles (getFlowStats trunk_world)
      + phloemParticles (getFlowStats trunk_world) <= 150)%nat
  /\ 0 <= totalWaterPressure (getFlowStats trunk_world)
     <= nat_Q (nodes_count (nodes (state trunk_world))).
Proof.
  apply (getFlowStats_bounds flat flat PI_approx trunk_world).
  apply trunk_reachable.
Defined.

Lemma loop_runs_whole_ticks_witness :
  (exists v,
     loop flat flat PI_approx 2 120 (Num 0) seed_world
     = Some (Num v, Nat.iter 2 (tick flat flat PI_approx) seed_world)
     /\ v == 20)
  /\ loop flat flat PI_approx 0 120 (Num 0) stalled_world = Some (NaN, stalled_world).
Proof.
  split.
  - pose proof (loop_runs_whole_ticks flat flat PI_approx 2 120 (Num 0) seed_world) as H.
    cbv zeta in H.
    change (plus (Num 0) (times (Num 120) (speedMultiplier (state seed_world))))
      with (Num (0 + 120 * 1)) in H.
    change (isPaused (state seed_world)) with false in H.
    cbv beta iota in H.
    change (Z.to_nat (Qfloor ((0 + 120 * 1) / 50))) with 2%nat in H.
    destruct H as (r & Hr & v & -> & Ev & _); [lia|].
    exists v. split; [exact Hr|]. rewrite Ev. reflexivity.
  - pose proof (loop_runs_whole_ticks flat flat PI_approx 0 120 (Num 0) stalled_world)
      as H.
    cbv zeta in H.
    change (plus (Num 0) (times (Num 120) (speedMultiplier (state stalled_world))))
      with NaN in H.
    change (isPaused (state stalled_world)) with false in H.
    cbv beta iota in H.
    destruct H as (r & Hr & ->); [lia|]. exact Hr.
Defined.

Lemma hardenNode_spec_witness :
  struct_ok (hardenNode "node_1" seed_world)
  /\ world_num (hardenNode "node_1" seed_world)
  /\ resources_ok (hardenNode "node_1" seed_world).
Proof.
  destruct (hardenNode_spec "node_1" seed_world) as (H1 & H2 & H3 & _).
  - apply seed_struct_ok.
  - apply initial_world_num.
  - repeat split; by vm_compute.
  - exact (conj H1 (conj H2 H3)).
Defined.

Lemma removeNode_total_witness :
  removeNode (nodes_count (nodes (state trunk_world))) "constructor" trunk_world
  = Some (Threw trunk_world None)
  /\ exists w' b,
    removeNode (nodes_count (nodes (state trunk_world))) "node_2" trunk_world
    = Some (Returned w' b)
    /\ (b = false -> w' = trunk_world)
    /\ (b = true <-> exists n, live "node_2" trunk_world = Some n /\ node_type n <> SEED)
    /\ (b = true ->
        (nodes_count (nodes (state w')) < nodes_count (nodes (state trunk_world)))%nat
        /\ live "node_2" w' = None)
    /\ tree_shaped w'.
Proof.
  split.
  - apply (removeNode_total flat flat PI_approx (fun _ => True) trunk_world "constructor").
    apply trunk_reachable.
  - apply (removeNode_total flat flat PI_approx (fun _ => True) trunk_world "node_2").
    apply trunk_reachable.
Defined.

Lemma growth_is_paced_witness :
  nodes_keys (nodes (state (Nat.iter 4 (tick flat flat PI_approx)
                              (tick flat flat PI_approx keen_world))))
  = nodes_keys (nodes (state (tick flat flat PI_approx keen_world))).
Proof.
  apply (growth_is_paced flat flat PI_approx keen_world 4).
  - apply keen_struct_ok.
  - vm_compute. discriminate.
  - lia.
Defined.

Lemma markers_linked_after_tick_witness :
  (exists p, p ∈ particles (tick flat flat PI_approx astray_world)
             /\ fromNodeId p = "constructor"%string /\ toNodeId p = "toString"%string)
  /\ (exists p, p ∈ particles (tick flat flat PI_approx marked_world)
                /\ fromNodeId p = "node_1"%string /\ toNodeId p = "node_1"%string)
  /\ Forall (fun p =>
               (is_Some (live (fromNodeId p) (tick flat flat PI_approx astray_world))
                \/ inherited (fromNodeId p) = true)
               /\ (is_Some (live (toNodeId p) (tick flat flat PI_approx astray_world))
                   \/ inherited (toNodeId p) = true))
       (particles (tick flat flat PI_approx astray_world))
  /\ Forall (fun p =>
               (is_Some (live (fromNodeId p) (tick flat flat PI_approx marked_world))
                \/ inherited (fromNodeId p) = true)
               /\ (is_Some (live (toNodeId p) (tick flat flat PI_approx marked_world))
                   \/ inherited (toNodeId p) = true))
       (particles (tick flat flat PI_approx marked_world)).
Proof.
  split; [|split; [|split]].
  - eexists. split; [apply (list_elem_of_lookup_2 _ 0%nat); vm_compute; reflexivity|].
    split; reflexivity.
  - eexists. split; [apply (list_elem_of_lookup_2 _ 0%nat); vm_compute; reflexivity|].
    split; reflexivity.
  - apply Forall_forall.
    apply (markers_linked_after_tick flat flat PI_approx (fun _ => True) astray_world).
    apply astray_reachable.
  - apply Forall_forall.
    apply (markers_linked_after_tick flat flat PI_approx (fun _ => True) marked_world).
    apply marked_reachable.
Defined.

Lemma ids_never_reused_witness :
  (2 < nextId pruned_world)%nat
  /\ node_name 2 ∉ nodes_keys
       (nodes (state (after (addNode "node_1" LEAF {| x := 0; y := -0.25 |} None
                             pruned_world)))).
Proof.
  split; [vm_compute; lia|].
  apply (ids_never_reused flat flat PI_approx (fun _ => True) pruned_world _ 2).
  - apply pruned_reachable.
  - destruct (addNode_returns "node_1" LEAF {| x := 0; y := -0.25 |} None pruned_world
                (default (lone 0 0) (live "node_1" pruned_world)) eq_refl) as [a Ha].
    apply rtc_once. eapply op_addNode; [|exact Ha]. intros v Hv. discriminate Hv.
  - vm_compute. lia.
  - change (nodes_keys (nodes (state pruned_world))) with ["node_1"%string].
    intros H. apply list_elem_of_singleton in H. vm_compute in H. discriminate H.
Defined.

Lemma getSiblings_spec_witness :
  exists m a,
    live "node_3" fork_world = Some m /\ live "node_4" fork_world = Some a
    /\ (a ∈ getSiblings (state fork_world) m
        <-> a <> m /\ live (node_id a) fork_world = Some a
            /\ exists n, getParent (state fork_world) m = Some n
                         /\ getParent (state fork_world) a = Some n)
    /\ a ∈ getSiblings (state fork_world) m.
Proof.
  eexists. eexists. split; [vm_compute; reflexivity|].
  split; [vm_compute; reflexivity|].
  match goal with |- (?a ∈ getSiblings _ ?m <-> _) /\ _ =>
    pose proof (getSiblings_spec flat flat PI_approx (fun _ => True) fork_world
                  (fork_reachable _) "node_3" m a eq_refl) as H
  end.
  split; [exact H|]. apply H. split; [discriminate|]. split; [reflexivity|].
  eexists. split; vm_compute; reflexivity.
Defined.

Lemma rotate_keeps_dot_witness :
  rotate sin345 cos345 {| x := 1; y := 2 |} 1 = {| x := 1 * 0.6 - 2 * 0.8; y := 1 * 0.8 + 2 * 0.6 |}
  /\ dot (rotate sin345 cos345 {| x := 1; y := 2 |} 1)
         (rotate sin345 cos345 {| x := 3; y := 4 |} 1)
     == dot {| x := 1; y := 2 |} {| x := 3; y := 4 |}
  /\ dot (rotate sin345 cos345 {| x := 1; y := 2 |} 1)
         (rotate sin345 cos345 {| x := 1; y := 2 |} 1)
     == dot {| x := 1; y := 2 |} {| x := 1; y := 2 |}
  /\ dot {| x := 1; y := 2 |} (perpendicular {| x := 1; y := 2 |}) == 0.
Proof.
  split; [reflexivity|].
  apply (rotate_keeps_dot sin345 cos345). by vm_compute.
Defined.

Lemma getDepth_child_witness :
  exists n m,
    live "node_1" trunk_world = Some n /\ live "node_2" trunk_world = Some m
    /\ exists l,
      forall fuel, (nodes_count (nodes (state trunk_world)) <= fuel)%nat ->
        getAncestors fuel (state trunk_world) n = Some l
        /\ getAncestors fuel (state trunk_world) m = Some (n :: l)
        /\ getDepth fuel (state trunk_world) n = Some (length l)
        /\ getDepth fuel (state trunk_world) m = Some (S (length l)).
Proof.
  eexists. eexists. split; [vm_compute; reflexivity|].
  split; [vm_compute; reflexivity|].
  apply (getDepth_child flat flat PI_approx (fun _ => True) trunk_world
           (trunk_reachable _) "node_1" _ "node_2").
  - vm_compute. reflexivity.
  - vm_compute. reflexivity.
  - vm_compute. apply list_elem_of_here.
Defined.
